(** * sortcensus

    A shallow embedding of the sortcensus program and of the [ThreadPool]
    that runs its jobs: the connectivity graph (union-find) over
    isomorphism signatures, the reader of census files, the explorer of
    Pachner moves, the partitioner by invariants and the pool's task queue;
    followed by the properties of each component.

    Conventions. Pointers to [Data] are indices into one arena. A loop that
    does not run over a list carries fuel; a function returns [None] when
    the fuel runs out or when the original would dereference a null or
    dangling pointer, and the lemmas show that the fuel the callers pass is
    enough. The triangulation engine is a record of functions. [std::map] is
    a list in key order. *)

From Stdlib Require Import ZArith Lia String Ascii DecimalString.
From Stdlib Require DecimalNat DecimalFacts OrderedTypeEx.
From stdpp Require Import base tactics option list relations strings.

Local Open Scope string_scope.
Local Open Scope list_scope.
Local Open Scope Z_scope.

(** ** The arena of [Data] nodes

    [Data*] is an index into the arena of all nodes allocated so far; the null
    pointer ([parent(0)]) is [None]. [depth] and [smallest] are [long]; they
    hold a tree rank and a character difference, both far from the range
    limits, and are kept as [Z]. *)

Abbreviation addr := nat.

Record Data := mkData {
  sig : string;
  parent : option addr;
  depth : Z;
  smallest : Z;
  minimal : addr
}.

Abbreviation heap := (list Data).

(** [s[0]] as an [int]; the terminating NUL for the empty string. [char] is
    signed, as g++ has it on x86-64: a byte above 127 is negative. *)
Definition char0 (s : string) : Z :=
  match s with
  | EmptyString => 0
  | String c _ =>
      let n := Z.of_N (N_of_ascii c) in if n <? 128 then n else n - 256
  end.

(** ['a'] *)
Definition letter_a : Z := 97.

(** [s[0] - 'a'], the complexity proxy of a signature. *)
Definition proxy (s : string) : Z := char0 s - letter_a.

(** [new Data(from)]: [parent(0), depth(0), minimal(this)],
    [smallest = sig[0] - 'a']. *)
Definition new_Data (h : heap) (from : string) : addr * heap :=
  (length h, h ++ [mkData from None 0 (proxy from) (length h)]).

Definition with_parent (p : option addr) (d : Data) : Data :=
  mkData (sig d) p (depth d) (smallest d) (minimal d).

Definition incr_depth (d : Data) : Data :=
  mkData (sig d) (parent d) (depth d + 1) (smallest d) (minimal d).

Definition with_min (s : Z) (m : addr) (d : Data) : Data :=
  mkData (sig d) (parent d) (depth d) s m.

(** ** [root] and [join] *)

(** [while (ans->parent) ans = ans->parent;] — one node is inspected per unit
    of fuel; an invalid pointer or exhausted fuel gives no result. *)
Fixpoint root_find (fuel : nat) (h : heap) (ans : addr) : option addr :=
  match fuel with
  | O => None
  | S k =>
      d ← h !! ans;
      match parent d with
      | None => Some ans
      | Some p => root_find k h p
      end
  end.

(** [while (n->parent != ans) { tmp = n->parent; n->parent = ans; n = tmp; }]
    A null [tmp] would be dereferenced by the next test: no result. *)
Fixpoint root_compress (fuel : nat) (h : heap) (n ans : addr) : option heap :=
  match fuel with
  | O => None
  | S k =>
      d ← h !! n;
      if decide (parent d = Some ans) then Some h
      else
        tmp ← parent d;
        root_compress k (alter (with_parent (Some ans)) n h) tmp ans
  end.

Definition root (h : heap) (n : addr) : option (addr * heap) :=
  ans ← root_find (length h) h n;
  if decide (n = ans) then Some (ans, h)
  else h' ← root_compress (length h) h n ans; Some (ans, h').

(** The [if (x->smallest < r->smallest) { r->smallest = ...; r->minimal = ... }]
    block shared by the three branches of [join]; [dl] is the node that was
    just hung below [r]. *)
Definition absorb (dl : Data) (dr : Data) : Data :=
  if smallest dl <? smallest dr then with_min (smallest dl) (minimal dl) dr
  else dr.

Definition join (h : heap) (a b : addr) : option (bool * heap) :=
  '(aRoot, h) ← root h a;
  '(bRoot, h) ← root h b;
  if decide (aRoot = bRoot) then Some (false, h)
  else
    da ← h !! aRoot;
    db ← h !! bRoot;
    if depth da >? depth db then
      Some (true, alter (absorb db) aRoot
                    (alter (with_parent (Some aRoot)) bRoot h))
    else if depth db >? depth da then
      Some (true, alter (absorb da) bRoot
                    (alter (with_parent (Some bRoot)) aRoot h))
    else
      Some (true, alter (absorb da) bRoot
                    (alter incr_depth bRoot
                       (alter (with_parent (Some bRoot)) aRoot h))).

(** [root(a) == root(b)], the two calls made one after the other. *)
Definition same_root (h : heap) (a b : addr) : option bool :=
  '(ra, h) ← root h a;
  '(rb, _) ← root h b;
  Some (bool_decide (ra = rb)).

(** [Data::root()], the member function: the search without compression. *)
Definition Data_root (h : heap) (n : addr) : option addr :=
  root_find (length h) h n.

(** ** Sequences of calls on the nodes of one graph *)

Inductive call :=
| New (s : string)
| Join (a b : addr)
| Root (a : addr).

Definition call_step (h : heap) (c : call) : option heap :=
  match c with
  | New s => Some (new_Data h s).2
  | Join a b => snd <$> join h a b
  | Root a => snd <$> root h a
  end.

Fixpoint run (h : heap) (cs : list call) : option heap :=
  match cs with
  | [] => Some h
  | c :: cs' => h' ← call_step h c; run h' cs'
  end.

(** Every pointer passed to [join] or [root] is a node allocated before the
    call; [n] nodes exist at the start. *)
Fixpoint calls_ok (n : nat) (cs : list call) : bool :=
  match cs with
  | [] => true
  | New _ :: cs' => calls_ok (S n) cs'
  | Join a b :: cs' => (a <? n)%nat && (b <? n)%nat && calls_ok n cs'
  | Root a :: cs' => (a <? n)%nat && calls_ok n cs'
  end.

(** [a] and [b] were the arguments of one [join]. *)
Definition joined (cs : list call) (a b : addr) : Prop := Join a b ∈ cs.

(** [a] and [b] are connected by a chain of joins, in either direction. *)
Definition connected (cs : list call) : relation addr := rtsc (joined cs).

(** ** Ordered maps

    [std::map] with [std::string] keys (a [Profile] is compared through its
    [str]): an association list kept in key order, so that iteration visits
    the entries as the C++ iterators do. *)

Abbreviation smap V := (list (string * V)).

Fixpoint map_find {V : Type} (k : string) (m : smap V) : option V :=
  match m with
  | [] => None
  | (k', v) :: m' => if String.eqb k k' then Some v else map_find k m'
  end.

(** [m.insert(std::make_pair(k, v))]: an existing entry is kept. *)
Fixpoint map_insert {V : Type} (k : string) (v : V) (m : smap V) : smap V :=
  match m with
  | [] => [(k, v)]
  | (k', v') :: m' =>
      match String.compare k k' with
      | Lt => (k, v) :: m
      | Eq => m
      | Gt => (k', v') :: map_insert k v m'
      end
  end.

(** [m[k] = v] *)
Fixpoint map_set {V : Type} (k : string) (v : V) (m : smap V) : smap V :=
  match m with
  | [] => [(k, v)]
  | (k', v') :: m' =>
      match String.compare k k' with
      | Lt => (k, v) :: m
      | Eq => (k, v) :: m'
      | Gt => (k', v') :: map_set k v m'
      end
  end.

(** [std::multimap::insert]: after the entries with an equal key. *)
Fixpoint multimap_insert {V : Type} (k : string) (v : V) (m : smap V) : smap V :=
  match m with
  | [] => [(k, v)]
  | (k', v') :: m' =>
      match String.compare k k' with
      | Lt => (k, v) :: m
      | _ => (k', v') :: multimap_insert k v m'
      end
  end.

Definition keys {V : Type} (m : smap V) : list string := m.*1.

(** [unsigned]: arithmetic modulo [2^32]. *)
Definition wrap32 (z : Z) : Z := z mod 2 ^ 32.

(** [nComp[p]] read through [operator[]]: a missing entry reads as [0]. *)
Definition count_at (p : string) (nComp : smap Z) : Z :=
  default 0 (map_find p nComp).

Record Profile := mkProfile { str : string }.

Abbreviation Graph := (smap addr).
Abbreviation Cases := (smap (list string)).
(** [std::queue<Graph::iterator>]: an iterator is the key of its entry,
    [g.end()] is [None]. *)
Abbreviation gQueue := (list (option string)).

(** ** The triangulation engine (Regina), an external collaborator *)

Record Engine := mkEngine {
  tri : Type;
  (** [NTriangulation::fromIsoSig]; a null pointer is [None] *)
  fromIsoSig : string → option tri;
  isoSig : tri → string;
  (** [intelligentSimplify()]: the simplified triangulation and whether
      anything changed *)
  intelligentSimplify : tri → tri * bool;
  countEdges : tri → nat;
  countTriangles : tri → nat;
  (** [threeTwoMove(edge(i), true, false)] and
      [threeTwoMove(edge(i), false, true)] *)
  threeTwoMove_check : tri → nat → bool;
  threeTwoMove_perform : tri → nat → tri;
  fourFourMove_check : tri → nat → nat → bool;
  fourFourMove_perform : tri → nat → nat → tri;
  twoThreeMove_check : tri → nat → bool;
  twoThreeMove_perform : tri → nat → tri;
  isOrientable : tri → bool;
  (** [homology().str()] *)
  homology : tri → string;
  (** [turaevViro(r, parity)] as printed by [operator<<] *)
  turaevViro : tri → Z → bool → string
}.

(** ** [Profile::extend] *)

Fixpoint count_semicolons (s : string) : nat :=
  match s with
  | EmptyString => O
  | String c s' =>
      if Ascii.eqb c ";" then S (count_semicolons s') else count_semicolons s'
  end.

Definition extend (E : Engine) (p : Profile) (t : tri E) : Profile :=
  let currently_known := count_semicolons (str p) in
  let field :=
    match currently_known with
    | O => if isOrientable E t then "orbl" else "nor"
    | S O => homology E t
    | _ =>
        let a := Z.of_nat currently_known mod 3 in
        let b := Z.of_nat currently_known / 3 in
        if a =? 0 then turaevViro E t (2 * b + 1) false
        else if a =? 1 then turaevViro E t (2 * b + 2) true
        else turaevViro E t (2 * b + 3) true
    end in
  mkProfile (str p +:+ field +:+ ";").

(** [for (int i = 0; i < depth; ++i) p.extend( *tri );] *)
Fixpoint extend_n (E : Engine) (depth : nat) (p : Profile) (t : tri E) : Profile :=
  match depth with
  | O => p
  | S k => extend_n E k (extend E p t) t
  end.

(** ** [read] *)

Definition isspace (c : ascii) : bool :=
  let n := N_of_ascii c in
  ((n =? 32) || ((9 <=? n) && (n <=? 13)))%N.

(** The tokens that successive [l >> s] extract from a line. *)
Fixpoint split_ws (acc : string) (s : string) : list string :=
  match s with
  | EmptyString => match acc with EmptyString => [] | _ => [acc] end
  | String c s' =>
      if isspace c then
        match acc with
        | EmptyString => split_ws "" s'
        | _ => acc :: split_ws "" s'
        end
      else split_ws (acc +:+ String c "") s'
  end.

Definition tokens (line : string) : list string := split_ws "" line.

(** [s[i]], with the terminating NUL at and past the end. *)
Definition char_at (i : nat) (s : string) : ascii :=
  default Ascii.zero (String.get i s).

(** [l.str()[0] == '#' && l.str()[1] != 'q'] *)
Definition is_header (line : string) : bool :=
  Ascii.eqb (char_at 0 line) "#" && negb (Ascii.eqb (char_at 1 line) "q").

Record reader := mkReader {
  rd_p : Profile;
  rd_maxN : Z;
  rd_heap : heap;
  rd_waiting : Cases;
  rd_graphs : smap Graph;
  rd_nComp : smap Z
}.

(** [waiting[p].push_back(s)] for every token after [#q]. *)
Definition push_waiting (p : Profile) (ss : list string) (waiting : Cases) : Cases :=
  foldl (λ w s, map_set (str p) (default [] (map_find (str p) w) ++ [s]) w)
        waiting ss.

(** [while (l >> s) { e = new Data(s); join(d, e); it->second.insert(...); }] *)
Fixpoint read_members (d : addr) (ms : list string) (h : heap) (g : Graph)
  : option (heap * Graph) :=
  match ms with
  | [] => Some (h, g)
  | s :: ms' =>
      let '(e, h1) := new_Data h s in
      '(_, h2) ← join h1 d e;
      read_members d ms' h2 (map_insert s e g)
  end.

(** One iteration of [while (std::getline(inf, line))]. *)
Definition read_line (E : Engine) (st : reader) (line : string) : option reader :=
  if is_header line then
    Some (mkReader (mkProfile line) (rd_maxN st) (rd_heap st) (rd_waiting st)
            (rd_graphs st) (rd_nComp st))
  else
    match tokens line with
    | [] => Some st
    | s :: rest =>
        if String.eqb s "#q" then
          Some (mkReader (rd_p st) (rd_maxN st) (rd_heap st)
                  (push_waiting (rd_p st) rest (rd_waiting st))
                  (rd_graphs st) (rd_nComp st))
        else
          let maxN := if proxy s >? rd_maxN st then proxy s else rd_maxN st in
          t ← fromIsoSig E s;
          let simple := (intelligentSimplify E t).2 in
          if simple then
            Some (mkReader (rd_p st) maxN (rd_heap st) (rd_waiting st)
                    (rd_graphs st) (rd_nComp st))
          else
            let p := str (rd_p st) in
            let '(d, h) := new_Data (rd_heap st) s in
            let g := map_insert s d (default [] (map_find p (rd_graphs st))) in
            '(h', g') ← read_members d rest h g;
            Some (mkReader (rd_p st) maxN h' (rd_waiting st)
                    (map_set p g' (rd_graphs st))
                    (map_set p (wrap32 (count_at p (rd_nComp st) + 1))
                       (rd_nComp st)))
    end.

Fixpoint read_lines (E : Engine) (st : reader) (lines : list string)
  : option reader :=
  match lines with
  | [] => Some st
  | line :: lines' => st' ← read_line E st line; read_lines E st' lines'
  end.

(** [read(infile, waiting, graphs, nComp)] on the lines of [infile]; the
    tables are empty at the calls in [pachner] and [partition]. The returned
    [int] is [rd_maxN]. *)
Definition read (E : Engine) (h : heap) (infile : list string) : option reader :=
  read_lines E (mkReader (mkProfile "#") 0 h [] [] []) infile.

(** ** [process] *)

(** The state that one call of [process] works on. [ex_nComp] is the
    by-value parameter [std::map<Profile, unsigned> nComp]: a copy local to
    the call. [ex_cerr] collects what is written to [std::cerr]. *)
Record explorer := mkExplorer {
  ex_heap : heap;
  ex_graph : Graph;
  ex_q : gQueue;
  ex_nComp : smap Z;
  ex_shrunk : bool;
  ex_cerr : list string
}.

(** The body shared by the three move loops, from [smallest = next[0] - 'a']
    on. *)
Definition visit (p : addr) (prof : Profile) (maxN : Z) (next : string)
    (st : explorer) : option explorer :=
  let shrunk := if proxy next <? maxN then true else ex_shrunk st in
  match map_find next (ex_graph st) with
  | None =>
      let '(e, h) := new_Data (ex_heap st) next in
      let g := map_insert next e (ex_graph st) in
      let q := ex_q st ++ [Some next] in
      '(joined, h') ← join h p e;
      Some (mkExplorer h' g q (ex_nComp st) shrunk
              (if joined : bool then ex_cerr st
               else ex_cerr st ++ ["ERROR: adjacency problem!"]))
  | Some e =>
      '(joined, h') ← join (ex_heap st) p e;
      Some (mkExplorer h' (ex_graph st) (ex_q st)
              (if joined : bool then
                 map_set (str prof)
                   (wrap32 (count_at (str prof) (ex_nComp st) - 1))
                   (ex_nComp st)
               else ex_nComp st)
              shrunk (ex_cerr st))
  end.

(** The signatures that the three loops hand to their shared body, in order:
    the 3-2 and 4-4 loops simplify the copy before [isoSig()], the 2-3 loop
    does not. *)
Definition next_32 (E : Engine) (t : tri E) (i : nat) : string :=
  isoSig E (intelligentSimplify E (threeTwoMove_perform E t i)).1.

Definition next_44 (E : Engine) (t : tri E) (i j : nat) : string :=
  isoSig E (intelligentSimplify E (fourFourMove_perform E t i j)).1.

Definition next_23 (E : Engine) (t : tri E) (i : nat) : string :=
  isoSig E (twoThreeMove_perform E t i).

Definition moves_32 (E : Engine) (t : tri E) : list string :=
  next_32 E t <$> filter (λ i, threeTwoMove_check E t i = true)
                    (seq 0 (countEdges E t)).

Definition moves_44 (E : Engine) (t : tri E) : list string :=
  i ← seq 0 (countEdges E t);
  (next_44 E t i) <$> filter (λ j, fourFourMove_check E t i j = true) (seq 0 2).

Definition moves_23 (E : Engine) (t : tri E) : list string :=
  next_23 E t <$> filter (λ i, twoThreeMove_check E t i = true)
                    (seq 0 (countTriangles E t)).

Fixpoint visit_all (p : addr) (prof : Profile) (maxN : Z)
    (nexts : list string) (st : explorer) : option explorer :=
  match nexts with
  | [] => Some st
  | next :: nexts' =>
      st' ← visit p prof maxN next st; visit_all p prof maxN nexts' st'
  end.

(** [process] up to its final test: the three loops on the caller's heap,
    graph and queue and on the local copy of [nComp]. A null triangulation
    leaves everything as it is. *)
Definition process_body (E : Engine) (p : addr) (prof : Profile) (maxN : Z)
    (st : explorer) : option (option explorer) :=
  d ← ex_heap st !! p;
  match fromIsoSig E (sig d) with
  | None => Some None
  | Some t =>
      let st0 := mkExplorer (ex_heap st) (ex_graph st) (ex_q st) (ex_nComp st)
                   false (ex_cerr st) in
      st1 ← visit_all p prof maxN (moves_32 E t) st0;
      st2 ← visit_all p prof maxN (moves_44 E t) st1;
      st3 ← visit_all p prof maxN (moves_23 E t) st2;
      Some (Some st3)
  end.

(** What the caller of [process] holds while it explores one graph; its
    [nComp] is not part of it, since [process] receives a copy. *)
Record caller := mkCaller {
  cl_heap : heap;
  cl_graph : Graph;
  cl_q : gQueue;
  cl_keepGoing : bool;
  cl_cerr : list string
}.

(** [process(p, graph, prof, maxN, q, nComp)]: the returned [bool] and what
    the call leaves behind in the graph, the queue and on [std::cerr]. *)
Definition process (E : Engine) (p : addr) (prof : Profile) (maxN : Z)
    (nComp : smap Z) (c : caller) : option caller :=
  r ← process_body E p prof maxN
         (mkExplorer (cl_heap c) (cl_graph c) (cl_q c) nComp false (cl_cerr c));
  match r with
  | None => Some (mkCaller (cl_heap c) (cl_graph c) (cl_q c) true (cl_cerr c))
  | Some st =>
      let stop := ex_shrunk st && (count_at (str prof) (ex_nComp st) =? 1) in
      Some (mkCaller (ex_heap st) (ex_graph st) (ex_q st) (negb stop) (ex_cerr st))
  end.

(** ** [dump_pachner] *)

(** The first loop: [comps] is the multimap from root signature to
    signature. *)
Fixpoint pachner_comps (maxN : Z) (entries : Graph) (h : heap)
    (comps : smap string) : option (heap * smap string) :=
  match entries with
  | [] => Some (h, comps)
  | (s, a) :: entries' =>
      if char0 s >? letter_a + maxN then pachner_comps maxN entries' h comps
      else
        '(r, h1) ← root h a;
        dr ← h1 !! r;
        if smallest dr =? maxN then
          '(r', h2) ← root h1 a;
          dr' ← h2 !! r';
          pachner_comps maxN entries' h2 (multimap_insert (sig dr') s comps)
        else pachner_comps maxN entries' h1 comps
  end.

(** The second loop: a new line when the root signature changes, a space
    otherwise. The lines are returned as lists of signatures. *)
Fixpoint pachner_lines (prev : option string) (comps : smap string)
    (lines : list (list string)) : list (list string) :=
  match comps with
  | [] => lines
  | (k, s) :: comps' =>
      let lines' :=
        match prev, lines with
        | Some k', l :: ls =>
            if String.eqb k' k then (l ++ [s]) :: ls else [s] :: l :: ls
        | _, _ => [s] :: lines
        end in
      pachner_lines (Some k) comps' lines'
  end.

Definition newline : string := String (ascii_of_nat 10) "".

Fixpoint unwords (ss : list string) : string :=
  match ss with
  | [] => ""
  | [s] => s
  | s :: ss' => s +:+ " " +:+ unwords ss'
  end.

Fixpoint unlines (ls : list string) : string :=
  match ls with
  | [] => ""
  | [l] => l
  | l :: ls' => l +:+ newline +:+ unlines ls'
  end.

(** The bytes written: the header, the lines, a final newline. *)
Definition pachner_text (p : Profile) (lines : list (list string)) : string :=
  str p +:+ newline +:+ unlines (unwords <$> lines) +:+ newline.

(** [dump_pachner(fname, p, graph, maxN, q)]: the lines of the listing in the
    order written and the text of [fname]. The queue is not used. *)
Definition dump_pachner (p : Profile) (graph : Graph) (maxN : Z) (h : heap)
  : option (heap * list (list string) * string) :=
  '(h', comps) ← pachner_comps maxN graph h [];
  let lines := reverse (pachner_lines None comps []) in
  Some (h', lines, pachner_text p lines).

(** ** [pachner] *)

(** [while (q.front() != g.end() && keepGoing) { ...; q.pop(); }] *)
Fixpoint drain (E : Engine) (fuel : nat) (prof : Profile) (maxN : Z)
    (nComp : smap Z) (c : caller) : option caller :=
  match fuel with
  | O => None
  | S k =>
      front ← head (cl_q c);
      match front with
      | None => Some c
      | Some key =>
          if cl_keepGoing c then
            p ← map_find key (cl_graph c);
            c' ← process E p prof maxN nComp c;
            drain E k prof maxN nComp
              (mkCaller (cl_heap c') (cl_graph c') (tail (cl_q c'))
                 (cl_keepGoing c') (cl_cerr c'))
          else Some c
      end
  end.

(** One round of [for (int i = 0; i < levels && keepGoing; ++i)]. *)
Definition generation (E : Engine) (prof : Profile) (maxN : Z)
    (nComp : smap Z) (c : caller) : option caller :=
  let cerr := match cl_q c with
              | [] => cl_cerr c ++ ["NOTHING REMAINING!"]
              | _ => cl_cerr c
              end in
  let q := cl_q c ++ [None] in
  c' ← drain E (length q) prof maxN nComp
         (mkCaller (cl_heap c) (cl_graph c) q (cl_keepGoing c) cerr);
  _ ← head (cl_q c');
  Some (mkCaller (cl_heap c') (cl_graph c') (tail (cl_q c'))
          (cl_keepGoing c') (cl_cerr c')).

Fixpoint explore (E : Engine) (levels : nat) (prof : Profile) (maxN : Z)
    (nComp : smap Z) (c : caller) : option caller :=
  match levels with
  | O => Some c
  | S k =>
      if cl_keepGoing c then
        c' ← generation E prof maxN nComp c; explore E k prof maxN nComp c'
      else Some c
  end.

(** The queue that [pachner] starts a graph with. *)
Definition initial_queue (waiting : Cases) (prof : string) (g : Graph) : gQueue :=
  match map_find prof waiting with
  | None => Some <$> keys g
  | Some sigs =>
      Some <$> filter (λ s, is_Some (map_find s g)) sigs
  end.

(** A file system: the files written, the latest first. *)
Abbreviation files := (list (string * string)).

Definition file_at (name : string) (fs : files) : option string :=
  map_find name fs.

Record job := mkJob {
  jb_heap : heap;
  jb_graphs : smap Graph;
  jb_nComp : smap Z;
  jb_cerr : list string;
  jb_files : files
}.

(** The body of [for (auto graphit = graphs.begin(); ...)] in [pachner]. *)
Definition pachner_graph (E : Engine) (levels : Z) (oname : string) (maxN : Z)
    (waiting : Cases) (prof : string) (j : job) : option job :=
  g ← map_find prof (jb_graphs j);
  let q := initial_queue waiting prof g in
  c ← explore E (Z.to_nat levels) (mkProfile prof) maxN (jb_nComp j)
        (mkCaller (jb_heap j) g q true (jb_cerr j));
  '(h, _, text) ← dump_pachner (mkProfile prof) (cl_graph c) maxN (cl_heap c);
  Some (mkJob h (map_set prof (cl_graph c) (jb_graphs j)) (jb_nComp j)
          (cl_cerr c) ((oname, text) :: jb_files j)).

Fixpoint pachner_graphs (E : Engine) (levels : Z) (oname : string) (maxN : Z)
    (waiting : Cases) (profs : list string) (j : job) : option job :=
  match profs with
  | [] => Some j
  | prof :: profs' =>
      j' ← pachner_graph E levels oname maxN waiting prof j;
      pachner_graphs E levels oname maxN waiting profs' j'
  end.

(** [pachner(iname, levels, oname)] on the lines of [iname] and the files
    present before the call. *)
Definition pachner (E : Engine) (infile : list string) (levels : Z)
    (oname : string) (fs : files) : option job :=
  r ← read E [] infile;
  pachner_graphs E levels oname (rd_maxN r) (rd_waiting r)
    (keys (rd_graphs r))
    (mkJob (rd_heap r) (rd_graphs r) (rd_nComp r) [] fs).

(** ** [dump_partition] and [partition] *)

(** [comps[k].push_back(v)], [parts[k].push_back(v)] *)
Definition push_at {V : Type} (k : string) (v : V) (m : smap (list V))
  : smap (list V) :=
  map_set k (default [] (map_find k m) ++ [v]) m.

(** The first loop of [dump_partition]: the signatures of each component,
    under the signature of its root. *)
Fixpoint partition_comps (h : heap) (entries : Graph)
    (comps : smap (list string)) : option (smap (list string)) :=
  match entries with
  | [] => Some comps
  | (_, a) :: entries' =>
      r ← Data_root h a;
      dr ← h !! r;
      da ← h !! a;
      partition_comps h entries' (push_at (sig dr) (sig da) comps)
  end.

(** The second loop: the components of each extended profile;
    [profiles.at] throws on a missing key. *)
Fixpoint partition_parts (profiles : smap Profile)
    (comps : smap (list string)) (parts : smap (list (list string)))
  : option (smap (list (list string))) :=
  match comps with
  | [] => Some parts
  | (k, comp) :: comps' =>
      p ← map_find k profiles;
      partition_parts profiles comps' (push_at (str p) comp parts)
  end.

(** The text of one output file. *)
Definition partition_text (header : string) (comps : list (list string))
    (q : list string) : string :=
  header +:+ newline
  +:+ String.concat ""
        ((λ comp, String.concat "" ((λ s, s +:+ " ") <$> comp) +:+ newline)
           <$> comps)
  +:+ match q with
      | [] => ""
      | _ => "#q" +:+ String.concat "" ((λ s, " " +:+ s) <$> q) +:+ newline
      end.

(** [name << fname << count++ << ".sigs"] *)
Definition partition_name (fname : string) (count : nat) : string :=
  fname +:+ NilZero.string_of_uint (Nat.to_uint count) +:+ ".sigs".

(** The third loop: one file for each extended profile, numbered from [0]. *)
Fixpoint partition_files (fname : string) (count : nat)
    (parts : smap (list (list string))) (q : list string) (fs : files) : files :=
  match parts with
  | [] => fs
  | (header, comps) :: parts' =>
      partition_files fname (S count) parts' q
        ((partition_name fname count, partition_text header comps q) :: fs)
  end.

Definition dump_partition (fname : string) (h : heap) (graph : Graph)
    (profiles : smap Profile) (q : list string) (fs : files) : option files :=
  comps ← partition_comps h graph [];
  parts ← partition_parts profiles comps [];
  Some (partition_files fname 0 parts q fs).

(** The inner loop of [partition]: the extended profile of every root met for
    the first time. [*tri] is evaluated only inside the [depth] loop. *)
Fixpoint partition_profiles (E : Engine) (depth : Z) (prof : string)
    (h : heap) (entries : Graph) (profiles : smap Profile)
  : option (smap Profile) :=
  match entries with
  | [] => Some profiles
  | (_, a) :: entries' =>
      r ← Data_root h a;
      dr ← h !! r;
      match map_find (sig dr) profiles with
      | Some _ => partition_profiles E depth prof h entries' profiles
      | None =>
          p ← match fromIsoSig E (sig dr) with
              | Some t => Some (extend_n E (Z.to_nat depth) (mkProfile prof) t)
              | None => if depth <=? 0 then Some (mkProfile prof) else None
              end;
          partition_profiles E depth prof h entries'
            (map_insert (sig dr) p profiles)
      end
  end.

(** The body of the loop over the graphs in [partition]; [profiles] is
    declared outside the loop and shared by all graphs. *)
Definition partition_graph (E : Engine) (depth : Z) (oname : string)
    (h : heap) (waiting : Cases) (nComp : smap Z) (prof : string) (g : Graph)
    (st : smap Profile * files) : option (smap Profile * files) :=
  if count_at prof nComp =? 1 then Some st
  else
    profiles ← partition_profiles E depth prof h g st.1;
    let q := default [] (map_find prof waiting) in
    fs ← dump_partition oname h g profiles q st.2;
    Some (profiles, fs).

Fixpoint partition_graphs (E : Engine) (depth : Z) (oname : string)
    (h : heap) (waiting : Cases) (nComp : smap Z) (graphs : smap Graph)
    (st : smap Profile * files) : option (smap Profile * files) :=
  match graphs with
  | [] => Some st
  | (prof, g) :: graphs' =>
      st' ← partition_graph E depth oname h waiting nComp prof g st;
      partition_graphs E depth oname h waiting nComp graphs' st'
  end.

(** [partition(iname, depth, oname)] on the lines of [iname] and the files
    present before the call: the files afterwards. *)
Definition partition (E : Engine) (infile : list string) (depth : Z)
    (oname : string) (fs : files) : option files :=
  r ← read E [] infile;
  snd <$> partition_graphs E depth oname (rd_heap r) (rd_waiting r)
            (rd_nComp r) (rd_graphs r) ([], fs).

(** ** [ThreadPool]

    The state guarded by [queue_mutex]; every operation below runs with the
    lock held, so it is one atomic step. *)

Record ThreadPool (task : Type) := mkPool {
  tasks : list task;
  stop : bool
}.
Arguments mkPool {task} _ _.
Arguments tasks {task} _.
Arguments stop {task} _.

Inductive outcome := Returned | Thrown (what : string).

(** [enqueue]: [std::runtime_error] on a stopped pool, else the task is put
    at the back of the queue and the future returned. *)
Definition enqueue {task : Type} (pool : ThreadPool task) (t : task)
  : outcome * ThreadPool task :=
  if stop pool then (Thrown "Called enqueue() on stopped ThreadPool", pool)
  else (Returned, mkPool (tasks pool ++ [t]) (stop pool)).

(** [~ThreadPool] up to the release of the lock: [stop = true]. *)
Definition shutdown {task : Type} (pool : ThreadPool task) : ThreadPool task :=
  mkPool (tasks pool) true.

(** A worker that holds the lock and finds its wait condition true: it leaves
    on a stopped pool with an empty queue, else takes the front task. *)
Definition worker_take {task : Type} (pool : ThreadPool task)
  : option (option task * ThreadPool task) :=
  match tasks pool with
  | [] => if stop pool then Some (None, pool) else None
  | t :: ts => Some (Some t, mkPool ts (stop pool))
  end.

(** The atomic steps of a pool shared by submitters, workers and the
    destructor. *)
Inductive pool_step {task : Type} : ThreadPool task → ThreadPool task → Prop :=
| step_enqueue pool t r pool' :
    enqueue pool t = (r, pool') → pool_step pool pool'
| step_take pool r pool' :
    worker_take pool = Some (r, pool') → pool_step pool pool'
| step_shutdown pool :
    pool_step pool (shutdown pool).

(** * Vocabulary of the statements *)

(** ** Forests and classes *)

(** [reach h x r]: following [parent] from [x] ends at the root [r]. *)
Inductive reach (h : heap) : addr → addr → Prop :=
| reach_root r d :
    h !! r = Some d → parent d = None → reach h r r
| reach_step x d p r :
    h !! x = Some d → parent d = Some p → reach h p r → reach h x r.

(** A forest: parent pointers are valid and climb along a rank function. *)
Definition ranked (rk : addr → nat) (h : heap) : Prop :=
  ∀ x d p, h !! x = Some d → parent d = Some p →
    (p < length h)%nat ∧ (rk x < rk p)%nat.

Definition forest (h : heap) : Prop := ∃ rk, ranked rk h.

(** Two nodes are in one class when they have the same root. *)
Definition same (h : heap) (a b : addr) : Prop :=
  ∃ r, reach h a r ∧ reach h b r.

(** Two arenas that differ in [parent] fields only. *)
Definition erase (d : Data) : Data := with_parent None d.
Definition same_fields (h h' : heap) : Prop := erase <$> h = erase <$> h'.

(** What a merge of the two roots [lo] and [hi] leaves behind: [lo] hangs
    below [hi], [hi] carries the smaller [smallest] of the two and the
    [minimal] that belongs to it, and nothing else changes but [hi]'s
    [depth]. *)
Inductive merged (h h' : heap) (lo hi : addr) : Prop :=
| mkMerged (dlo dhi dhi' : Data) :
    h !! lo = Some dlo → parent dlo = None →
    h !! hi = Some dhi → parent dhi = None →
    h' !! hi = Some dhi' → parent dhi' = None →
    sig dhi' = sig dhi →
    smallest dhi' = Z.min (smallest dhi) (smallest dlo) →
    minimal dhi' = (if smallest dlo <? smallest dhi then minimal dlo
                    else minimal dhi) →
    (∀ x, x ≠ hi → erase <$> h' !! x = erase <$> h !! x) →
    (∀ x s, reach h' x s ↔ (reach h x lo ∧ s = hi) ∨ (reach h x s ∧ s ≠ lo)) →
    merged h h' lo hi.

(** What holds of the arena after the calls [cs]. *)
Record tracks (cs : list call) (h : heap) : Prop := mkTracks {
  tr_forest : forest h;
  tr_joined : ∀ a b, joined cs a b → (a < length h)%nat ∧ (b < length h)%nat;
  tr_same : ∀ a b, (a < length h)%nat → (b < length h)%nat →
              (same h a b ↔ connected cs a b)
}.

(** The [minimal] of a node points at a node whose signature gives the
    [smallest] of the node. *)
Definition minimal_ok (h : heap) (d : Data) : Prop :=
  ∃ dm, h !! minimal d = Some dm ∧ proxy (sig dm) = smallest d.

(** ** Graphs over the arena *)

(** Every [Data*] stored in a graph is a node of the arena. *)
Definition graph_ok (h : heap) (g : Graph) : Prop :=
  ∀ k a, (k, a) ∈ g → (a < length h)%nat.

Definition graphs_ok (h : heap) (gs : smap Graph) : Prop :=
  ∀ p g, (p, g) ∈ gs → graph_ok h g.

(** ** Lines of a census file *)

(** The first token and the member tokens of a data line: a line that is
    neither a header, nor without tokens, nor the pending line. *)
Definition data_line (line : string) : option (string * list string) :=
  if is_header line then None
  else
    match tokens line with
    | [] => None
    | s :: rest => if String.eqb s "#q" then None else Some (s, rest)
    end.

Definition first_tokens (infile : list string) : list string :=
  omap (λ line, fst <$> data_line line) infile.

(** The answer of the engine to the simplification test on a signature. *)
Definition simplifies (E : Engine) (s : string) : bool :=
  match fromIsoSig E s with
  | Some t => (intelligentSimplify E t).2
  | None => false
  end.

(** The data lines whose first token passes the test, each with the profile
    in force and all its tokens; [p] is the profile in force at the start. *)
Fixpoint kept_lines (E : Engine) (p : string) (infile : list string)
  : list (string * list string) :=
  match infile with
  | [] => []
  | line :: rest =>
      if is_header line then kept_lines E line rest
      else
        match data_line line with
        | Some (s, ms) =>
            if simplifies E s then kept_lines E p rest
            else (p, s :: ms) :: kept_lines E p rest
        | None => kept_lines E p rest
        end
  end.

(** The signatures that are nodes of some graph after [read]. *)
Definition kept_signatures (r : reader) : list string :=
  '(_, g) ← rd_graphs r; keys g.

(** The signatures that are nodes of the graph of profile [p]. *)
Definition graph_keys (p : string) (gs : smap Graph) : list string :=
  keys (default [] (map_find p gs)).

(** What [read] maintains between lines. *)
Definition reader_ok (st : reader) : Prop :=
  forest (rd_heap st) ∧ graphs_ok (rd_heap st) (rd_graphs st).

(** ** The explorer *)

(** What the caller of [process] maintains. *)
Definition caller_ok (c : caller) : Prop :=
  forest (cl_heap c) ∧ graph_ok (cl_heap c) (cl_graph c).

(** All the signatures that [process] derives from the triangulation [t], in
    the order of the three loops. *)
Definition moves (E : Engine) (t : tri E) : list string :=
  moves_32 E t ++ moves_44 E t ++ moves_23 E t.

(** Some move of the triangulation of node [p] leads to a signature below
    the maximum. *)
Definition shrink_found (E : Engine) (maxN : Z) (h : heap) (p : addr) : bool :=
  match h !! p with
  | Some d =>
      match fromIsoSig E (sig d) with
      | Some t => existsb (λ s, proxy s <? maxN) (moves E t)
      | None => false
      end
  | None => false
  end.

(** The value of [nComp[prof]] that a call of [process] holds when it reaches
    its final test. *)
Definition final_count (E : Engine) (p : addr) (prof : Profile) (maxN : Z)
    (nComp : smap Z) (c : caller) : option Z :=
  r ← process_body E p prof maxN
         (mkExplorer (cl_heap c) (cl_graph c) (cl_q c) nComp false (cl_cerr c));
  Some (match r with
        | Some st => count_at (str prof) (ex_nComp st)
        | None => count_at (str prof) nComp
        end).

(** The nodes [cur] of one generation, processed in queue order until a call
    of [process] returns [false]: the state after the last call and the
    nodes left unprocessed. The queue of the state collects the nodes found
    new, which wait behind the end marker. *)
Fixpoint process_until_false (E : Engine) (prof : Profile) (maxN : Z)
    (nComp : smap Z) (cur : list string) (c : caller)
  : option (caller * list string) :=
  match cur with
  | [] => Some (c, [])
  | key :: cur' =>
      p ← map_find key (cl_graph c);
      c' ← process E p prof maxN nComp c;
      if cl_keepGoing c' then process_until_false E prof maxN nComp cur' c'
      else Some (c', cur')
  end.

(** ** Output *)

(** The number of connectivity classes among the nodes of a graph. *)
Definition class_count (h : heap) (g : Graph) : option nat :=
  roots ← mapM (λ e : string * addr, Data_root h e.2) g;
  Some (length (remove_dups roots)).

(** [s] is one of the signatures on the lines of a listing. *)
Definition listed (lines : list (list string)) (s : string) : Prop :=
  ∃ line, line ∈ lines ∧ s ∈ line.

(** * Concrete inputs *)

(** Three nodes, two joins and a compression in between. *)
Definition calls3 : list call :=
  [New "cPcbbbiht"; New "cMcabbgqs"; New "bkaagj"; Join 0 1; Root 0; Join 1 2].

(** Two singleton nodes: signatures of three and of two tetrahedra. *)
Definition heap2 : heap := (new_Data (new_Data [] "dLQbcccdero").2 "cMcabbgqs").2.

(** A stopped pool with two tasks left. *)
Definition stopped_pool : ThreadPool nat := mkPool [1; 2]%nat true.

(** An engine given by tables: triangulations are their signatures, every
    triangulation has one edge and one triangle, and the tables say what
    simplification and each legal move lead to. *)
Definition table_engine (simp m32 m23 : string → option string)
    (m44 : string → nat → option string) : Engine := {|
  tri := string;
  fromIsoSig := Some;
  isoSig := λ t, t;
  intelligentSimplify := λ t,
    match simp t with Some t' => (t', true) | None => (t, false) end;
  countEdges := λ _, 1%nat;
  countTriangles := λ _, 1%nat;
  threeTwoMove_check := λ t _, bool_decide (is_Some (m32 t));
  threeTwoMove_perform := λ t _, default t (m32 t);
  fourFourMove_check := λ t _ j, bool_decide (is_Some (m44 t j));
  fourFourMove_perform := λ t _ j, default t (m44 t j);
  twoThreeMove_check := λ t _, bool_decide (is_Some (m23 t));
  twoThreeMove_perform := λ t _, default t (m23 t);
  isOrientable := λ _, true;
  homology := λ _, "Z";
  turaevViro := λ _ _ _, "1"
|}.

Definition no_move : string → option string := λ _, None.
Definition no_move44 : string → nat → option string := λ _ _, None.

(** No legal moves; ["cA"] simplifies to ["bA"]. *)
Definition simplifying_engine : Engine :=
  table_engine (λ t, if String.eqb t "cA" then Some "bA" else None)
    no_move no_move no_move44.

(** A dropped first token of three tetrahedra, a kept one of two. *)
Definition census_dropped : list string := ["cA"; "bA"].

(** A kept first token with a member that the engine can simplify. *)
Definition census_member : list string := ["bA cA"].

(** Moves: a 3-2 move takes ["cA"] to ["bA"], a 4-4 move on the second axis
    takes ["cB"] to ["cC"], a 2-3 move takes ["bA"] to ["cX"], and ["cX"]
    simplifies back to ["bB"]. *)
Definition moving_engine : Engine :=
  table_engine
    (λ t, if String.eqb t "cX" then Some "bB" else None)
    (λ t, if String.eqb t "cA" then Some "bA" else None)
    (λ t, if String.eqb t "bA" then Some "cX" else None)
    (λ t j, if String.eqb t "cB" && Nat.eqb j 1 then Some "cC" else None).


(** The arena and the graph that [read] builds from [census_one_class]. *)
Definition heap_one_class : heap :=
  [mkData "cA" (Some 1%nat) 0 2 0; mkData "cB" None 1 2 1].
Definition graph_one_class : Graph := [("cA", 0%nat); ("cB", 1%nat)].

(** Two classes that a 4-4 move connects. *)
Definition census_two_classes : list string := ["cB"; "cC"].

(** A single node of two tetrahedra with a legal 2-3 move. *)
Definition heap_bA : heap := [mkData "bA" None 0 1 0].
Definition graph_bA : Graph := [("bA", 0%nat)].

(** Nothing simplifies and no move is legal. *)
Definition still_engine : Engine :=
  table_engine no_move no_move no_move no_move44.

(** Two profile blocks of two classes each. *)
Definition census_two_profiles : list string :=
  ["# orbl;"; "cA"; "cB"; "# nor;"; "cC"; "cD"].

(** * Further definitions *)

(** ** The nodes that a sequence of calls allocates *)

(** The number of [new Data] among the calls. *)
Fixpoint count_new (cs : list call) : nat :=
  match cs with
  | [] => O
  | New _ :: cs' => S (count_new cs')
  | _ :: cs' => count_new cs'
  end.

(** ** The shape of the forest *)

(** The number of nodes without a parent. *)
Definition n_roots (h : heap) : nat :=
  length (filter (λ d, parent d = None) h).

(** The number of nodes whose search ends at [r]. *)
Definition class_size (h : heap) (r : addr) : nat :=
  length (filter (λ x, Data_root h x = Some r) (seq 0 (length h))).

(** [depth] is a rank: it grows strictly from a node to its parent and is
    never negative. *)
Definition depth_ranked (h : heap) : Prop :=
  (∀ x d, h !! x = Some d → 0 ≤ depth d)
  ∧ ∀ x d p dp, h !! x = Some d → parent d = Some p → h !! p = Some dp →
      depth d < depth dp.

(** A class of rank [k] has at least [2^k] nodes. *)
Definition rank_bounded (h : heap) : Prop :=
  ∀ r d, h !! r = Some d → parent d = None →
    2 ^ depth d ≤ Z.of_nat (class_size h r).

(** At every root, [smallest] is the least complexity proxy of the class and
    [minimal] is a node of the class that has it. *)
Definition tracks_minimum (h : heap) : Prop :=
  ∀ r d, h !! r = Some d → parent d = None →
    (∀ x dx, reach h x r → h !! x = Some dx → smallest d ≤ proxy (sig dx))
    ∧ ∃ dm, h !! minimal d = Some dm ∧ reach h (minimal d) r
            ∧ proxy (sig dm) = smallest d.

(** The shape that the arena keeps under [new Data], [root] and [join]. *)
Record shaped (h : heap) : Prop := mkShaped {
  sh_forest : forest h;
  sh_depth : depth_ranked h;
  sh_size : rank_bounded h;
  sh_min : tracks_minimum h
}.

(** ** Profiles and lines *)

(** The engine prints the invariants of [t] without the field separator. *)
Definition plain_fields (E : Engine) (t : tri E) : Prop :=
  count_semicolons (homology E t) = O
  ∧ ∀ r parity, count_semicolons (turaevViro E t r parity) = O.

(** A token as [operator>>] extracts it: not empty, no whitespace. *)
Fixpoint no_space (s : string) : bool :=
  match s with
  | EmptyString => true
  | String c s' => negb (isspace c) && no_space s'
  end.

Definition word (s : string) : Prop := s ≠ "" ∧ no_space s = true.

(** ** The worker threads of the pool

    The body of a worker, [for (;;) { wait(stop || !tasks.empty());
    if (stop && tasks.empty()) return; task = front; pop; task(); }], run by
    itself on the pool: the tasks it runs, in order, until it returns. One
    task is run per unit of fuel; a worker whose wait never ends (a running
    pool with an empty queue) gives no result. *)
Fixpoint worker_loop {task : Type} (fuel : nat) (pool : ThreadPool task)
  : option (list task * ThreadPool task) :=
  match fuel with
  | O => None
  | S k =>
      '(r, pool') ← worker_take pool;
      match r with
      | None => Some ([], pool')
      | Some t => '(ts, pool'') ← worker_loop k pool'; Some (t :: ts, pool'')
      end
  end.

(** Calls of [enqueue] one after the other; an exception ends the sequence. *)
Fixpoint enqueue_all {task : Type} (pool : ThreadPool task) (ts : list task)
  : outcome * ThreadPool task :=
  match ts with
  | [] => (Returned, pool)
  | t :: ts' =>
      match enqueue pool t with
      | (Returned, pool') => enqueue_all pool' ts'
      | thrown => thrown
      end
  end.

(** ** [main] *)

Inductive modes := PACHNER | PARTITION.

(** [strncmp(argv[1], "-i", 2) == 0], then the same for ["-p"]; [usage]
    exits otherwise. *)
Definition mode_of (arg : string) : option modes :=
  if String.prefix "-i" arg then Some PARTITION
  else if String.prefix "-p" arg then Some PACHNER
  else None.

(** [len > 5 && strncmp(d_name + (len - 5), ".sigs", 5) == 0] *)
Definition is_sigs (d_name : string) : bool :=
  let len := String.length d_name in
  (5 <? len)%nat && String.eqb (substring (len - 5) 5 d_name) ".sigs".

(** What [main] hands to [p.enqueue]: the function and its arguments. *)
Inductive census_job :=
| run_partition (iname : string) (level : Z) (oname : string)
| run_pachner (iname : string) (level : Z) (oname : string).

Definition main_job (mode : modes) (level : Z) (indir outdir d_name : string)
  : census_job :=
  let iname := indir +:+ "/" +:+ d_name in
  match mode with
  | PARTITION =>
      run_partition iname level
        (outdir +:+ "/"
         +:+ substring 0 (String.length d_name - 5) d_name +:+ "_")
  | PACHNER => run_pachner iname level (outdir +:+ "/" +:+ d_name)
  end.

(** [while ((dirp = readdir(d)) != NULL)] over the entries of the input
    directory; an exception of [enqueue] leaves the loop. The pool is
    threaded through the calls of [enqueue] only, without the takes of the
    workers in between, so that its queue lists the jobs enqueued. *)
Fixpoint main_loop (mode : modes) (level : Z) (indir outdir : string)
    (entries : list string) (pool : ThreadPool census_job)
  : outcome * ThreadPool census_job :=
  match entries with
  | [] => (Returned, pool)
  | d_name :: entries' =>
      if is_sigs d_name then
        match enqueue pool (main_job mode level indir outdir d_name) with
        | (Returned, pool') => main_loop mode level indir outdir entries' pool'
        | thrown => thrown
        end
      else main_loop mode level indir outdir entries' pool
  end.

(** [main] with both directories present: [ThreadPool p(3)], the mode from
    [argv[1]], [level = atoi(argv[2])] given as a number, the loop over the
    entries of [argv[3]]. [None] is the exit through [usage]. *)
Definition main (argv1 : string) (level : Z) (indir outdir : string)
    (entries : list string) : option (outcome * ThreadPool census_job) :=
  mode ← mode_of argv1;
  Some (main_loop mode level indir outdir entries (mkPool [] false)).

(** The name in its directory of the file that [dump_partition] writes for
    the entry [d_name] of the input directory. *)
Definition partition_d_name (d_name : string) (count : nat) : string :=
  partition_name (substring 0 (String.length d_name - 5) d_name +:+ "_") count.

(** ** The census in memory *)

(** A [std::map] holds its entries in strictly increasing key order. *)
Fixpoint key_sorted {V : Type} (m : smap V) : Prop :=
  match m with
  | [] => True
  | (k, _) :: m' =>
      (∀ k', k' ∈ keys m' → String.compare k k' = Lt) ∧ key_sorted m'
  end.

(** A graph over the arena: every entry points at a node that carries the
    key as its signature. *)
Definition graph_wf (h : heap) (g : Graph) : Prop :=
  key_sorted g ∧ ∀ k a, (k, a) ∈ g → sig <$> h !! a = Some k.

(** The graphs of all profiles: no node is stored in two of them. *)
Definition graphs_wf (h : heap) (gs : smap Graph) : Prop :=
  key_sorted gs
  ∧ (∀ p g, (p, g) ∈ gs → graph_wf h g)
  ∧ ∀ p g p' g' k k' a,
      (p, g) ∈ gs → (p', g') ∈ gs → (k, a) ∈ g → (k', a) ∈ g' → p = p'.

(** What reading a line or exploring may do to a graph [g0] over the arena
    [h0]: nodes and entries are added, classes are merged; no signature
    changes, no entry is dropped or redirected, no class is split. *)
Record grown (h0 : heap) (g0 : Graph) (h : heap) (g : Graph) : Prop := mkGrown {
  gr_shaped : shaped h;
  gr_wf : graph_wf h g;
  gr_length : (length h0 ≤ length h)%nat;
  gr_sig : ∀ x, (x < length h0)%nat → sig <$> h !! x = sig <$> h0 !! x;
  gr_fresh : ∀ k a, (k, a) ∈ g → (k, a) ∈ g0 ∨ (length h0 ≤ a)%nat;
  gr_kept : ∀ kv, kv ∈ g0 → kv ∈ g;
  gr_same : ∀ x y, same h0 x y → same h x y
}.

(** [free_graphs]: the pointers handed to [delete], in order. *)
Definition free_graphs (graphs : smap Graph) : list addr :=
  '(_, g) ← graphs; g.*2.

(** The pending lines of a file, each with the profile in force and the
    tokens after [#q]; [p] is the profile in force at the start. *)
Fixpoint pending_lines (p : string) (infile : list string)
  : list (string * list string) :=
  match infile with
  | [] => []
  | line :: rest =>
      if is_header line then pending_lines line rest
      else
        match tokens line with
        | s :: ms =>
            if String.eqb s "#q" then (p, ms) :: pending_lines p rest
            else pending_lines p rest
        | [] => pending_lines p rest
        end
  end.

(** The tokens of the lines filed under the profile [p]. *)
Definition tokens_under (p : string) (ls : list (string * list string))
  : list string :=
  concat (snd <$> filter (λ e, e.1 = p) ls).

(** The number of lines filed under the profile [p]. *)
Definition lines_under (p : string) (ls : list (string * list string)) : nat :=
  length (filter (λ e, e.1 = p) ls).

(** A [std::multimap] holds its entries in key order, equal keys in the
    order of insertion. *)
Fixpoint key_ordered {V : Type} (m : smap V) : Prop :=
  match m with
  | [] => True
  | (k, _) :: m' =>
      (∀ k', k' ∈ keys m' → String.compare k k' ≠ Gt) ∧ key_ordered m'
  end.

(** ** Grouping *)

(** What the first two loops of [dump_partition] do with a map of vectors:
    each value is appended to the vector of its key, in order
    ([it = m.find(k); if (it == m.end()) it = m.insert(...).first;
    it->second.push_back(v)]). *)
Fixpoint group_by {V : Type} (kvs : list (string * V)) (m : smap (list V))
  : smap (list V) :=
  match kvs with
  | [] => m
  | (k, v) :: kvs' => group_by kvs' (push_at k v m)
  end.

(** [a->sig] and [a->root()->sig]. *)
Definition node_sig (h : heap) (a : addr) : option string := sig <$> h !! a.

Definition root_sig (h : heap) (a : addr) : option string :=
  r ← Data_root h a; sig <$> h !! r.

(** The files that the third loop of [dump_partition] writes, in the order
    written. *)
Definition partition_written (fname : string) (count : nat)
    (parts : smap (list (list string))) (q : list string) : files :=
  imap (λ i e, (partition_name fname (count + i), partition_text e.1 e.2 q))
    parts.

(** ** Files as text *)

(** [while (std::getline(inf, line))] over the content of a file: a line
    ends at a newline, which is dropped; what follows the last newline is a
    line when it is not empty. *)
Fixpoint getlines_from (acc : string) (text : string) : list string :=
  match text with
  | EmptyString => match acc with EmptyString => [] | _ => [acc] end
  | String c text' =>
      if Ascii.eqb c (ascii_of_nat 10) then acc :: getlines_from "" text'
      else getlines_from (acc +:+ String c "") text'
  end.

Definition getlines (text : string) : list string := getlines_from "" text.

Fixpoint no_newline (s : string) : bool :=
  match s with
  | EmptyString => true
  | String c s' => negb (Ascii.eqb c (ascii_of_nat 10)) && no_newline s'
  end.

(** The line of one component and the pending line in a file of
    [dump_partition]. *)
Definition comp_line (comp : list string) : string :=
  String.concat "" ((λ s, s +:+ " ") <$> comp).

Definition pending_line (q : list string) : string :=
  "#q" +:+ String.concat "" ((λ s, " " +:+ s) <$> q).

(** The lines of a file of [dump_partition]. *)
Definition partition_lines (header : string) (comps : list (list string))
    (q : list string) : list string :=
  header :: (comp_line <$> comps)
  ++ match q with [] => [] | _ => [pending_line q] end.

(** A signature as the first token of a data line that [read] keeps: a word
    that does not start with [#], that the engine parses and does not
    simplify. *)
Definition kept_first (E : Engine) (f : string) : Prop :=
  word f ∧ char_at 0 f ≠ "#"%char ∧ is_Some (fromIsoSig E f)
  ∧ simplifies E f = false.

(** ** What a listing holds *)

(** The lines below the header of a file, each as the tokens that
    [l >> s] extracts from it. *)
Definition written_lines (text : string) : list (list string) :=
  tokens <$> tail (getlines text).

(** [s] is a token of a line below the header of the file. *)
Definition written (text : string) (s : string) : Prop :=
  ∃ line, line ∈ written_lines text ∧ s ∈ line.

(** The files of [dump_partition] with the texts [texts], in the order
    written: [name << fname << count++ << ".sigs"]. *)
Definition numbered (fname : string) (count : nat) (texts : list string)
  : files :=
  imap (λ i text, (partition_name fname (count + i), text)) texts.

(** ** The classes of a census *)

(** The nodes [i] and [j] were allocated for tokens of one line, when the
    tokens of the lines [ls] are allocated in file order from the address
    [start] on. *)
Fixpoint same_line (ls : list (list string)) (start : nat) (i j : addr)
  : Prop :=
  match ls with
  | [] => False
  | l :: ls' =>
      ((start ≤ i < start + length l)%nat ∧ (start ≤ j < start + length l)%nat)
      ∨ same_line ls' (start + length l) i j
  end.




(** ** Schedules of the pool *)

(** What the threads that share a pool do to it, one after the other: a
    submitter calls [enqueue], a worker that holds the lock takes its next
    step, the destructor sets [stop]. *)
Inductive pool_event (task : Type) :=
| ev_enqueue (t : task)
| ev_take
| ev_shutdown.
Arguments ev_enqueue {task} _.
Arguments ev_take {task}.
Arguments ev_shutdown {task}.

(** A schedule run on a pool: the tasks whose [enqueue] returned, the tasks
    that workers took, both in the order of the schedule, and the pool at
    the end. A worker whose wait condition is false cannot take its step:
    no result. *)
Fixpoint pool_run {task : Type} (pool : ThreadPool task)
    (evs : list (pool_event task))
  : option (list task * list task * ThreadPool task) :=
  match evs with
  | [] => Some ([], [], pool)
  | ev_enqueue t :: evs' =>
      '(acc, ran, pool') ← pool_run (enqueue pool t).2 evs';
      Some (match (enqueue pool t).1 with
            | Returned => t :: acc
            | Thrown _ => acc
            end, ran, pool')
  | ev_take :: evs' =>
      '(r, pool1) ← worker_take pool;
      '(acc, ran, pool') ← pool_run pool1 evs';
      Some (acc, match r with Some t => t :: ran | None => ran end, pool')
  | ev_shutdown :: evs' => pool_run (shutdown pool) evs'
  end.

(** ** Further inputs *)

(** An engine for which ["zz"] is no signature: [fromIsoSig] returns a null
    pointer for it. Nothing simplifies and no move is legal. *)
Definition picky_engine : Engine := {|
  tri := string;
  fromIsoSig := λ s, if String.eqb s "zz" then None else Some s;
  isoSig := λ t, t;
  intelligentSimplify := λ t, (t, false);
  countEdges := λ _, 1%nat;
  countTriangles := λ _, 1%nat;
  threeTwoMove_check := λ _ _, false;
  threeTwoMove_perform := λ t _, t;
  fourFourMove_check := λ _ _ _, false;
  fourFourMove_perform := λ t _ _, t;
  twoThreeMove_check := λ _ _, false;
  twoThreeMove_perform := λ t _, t;
  isOrientable := λ _, true;
  homology := λ _, "Z";
  turaevViro := λ _ _ _, "1"
|}.

(** A data line whose first token is no signature, between two that are. *)
Definition census_unparsed : list string := ["cA"; "zz"; "cB"].


(** The graph over [heap2]: two classes of one node each. *)
Definition graph2 : Graph := [("cMcabbgqs", 1%nat); ("dLQbcccdero", 0%nat)].

(** * The connectivity graph *)

Lemma root_find_S k h x :
  root_find (S k) h x
  = d ← h !! x; match parent d with
                | None => Some x
                | Some p => root_find k h p
                end.
Proof. done. Qed.

Section reach_facts.
Context (h : heap).

Lemma reach_valid x r : reach h x r → (x < length h)%nat ∧ (r < length h)%nat.
Proof.
  induction 1 as [r d Hd _|x d p r Hd _ _ [_ IH]].
  - apply lookup_lt_Some in Hd. lia.
  - apply lookup_lt_Some in Hd. lia.
Qed.

Lemma reach_is_root x r :
  reach h x r → ∃ d, h !! r = Some d ∧ parent d = None.
Proof. induction 1; eauto. Qed.

Lemma reach_det x r r' : reach h x r → reach h x r' → r = r'.
Proof.
  induction 1 as [r d Hd Hp|x d p r Hd Hp _ IH]; inversion 1; simplify_eq; auto.
Qed.

Lemma reach_root_self r d x :
  h !! r = Some d → parent d = None → reach h r x → x = r.
Proof. intros Hd Hp Hr. symmetry. eapply reach_det; [|exact Hr]. by econstructor. Qed.

Lemma root_find_reach fuel x r : root_find fuel h x = Some r → reach h x r.
Proof.
  revert x. induction fuel as [|k IH]; intros x; [done|].
  rewrite root_find_S.
  destruct (h !! x) as [d|] eqn:Hd; simpl; [|done].
  destruct (parent d) as [p|] eqn:Hp.
  - intros Hf. eapply reach_step; eauto.
  - intros [= <-]. by eapply reach_root.
Qed.

Lemma ranked_reach_le rk x r : ranked rk h → reach h x r → (rk x ≤ rk r)%nat.
Proof.
  intros Hrk. induction 1 as [|x d p r Hd Hp _ IH]; [lia|].
  destruct (Hrk _ _ _ Hd Hp). lia.
Qed.

(** Enough fuel: the nodes already passed are pairwise distinct, so a search
    that starts with one unit of fuel for each node cannot run out. *)
Lemma root_find_fuel rk fuel x (seen : list addr) :
  ranked rk h →
  (x < length h)%nat →
  NoDup seen →
  (∀ y, y ∈ seen → (y < length h)%nat ∧ (rk y < rk x)%nat) →
  (length h ≤ fuel + length seen)%nat →
  is_Some (root_find fuel h x).
Proof.
  intros Hrk. revert x seen.
  induction fuel as [|k IH]; intros x seen Hx Hnd Hseen Hlen.
  - exfalso.
    assert (Hnd' : NoDup (x :: seen)).
    { constructor; [|done]. intros Hin. apply Hseen in Hin. lia. }
    assert (Hsub : x :: seen ⊆ seq 0 (length h)).
    { intros y Hy. apply elem_of_seq. apply elem_of_cons in Hy as [->|Hy]; [lia|].
      apply Hseen in Hy. lia. }
    apply (NoDup_submseteq _ _ Hnd'), submseteq_length in Hsub.
    rewrite length_seq in Hsub. simpl in Hsub, Hlen. lia.
  - rewrite root_find_S. destruct (lookup_lt_is_Some_2 h x Hx) as [d Hd].
    rewrite Hd. simpl.
    destruct (parent d) as [p|] eqn:Hp; [|by eexists].
    destruct (Hrk _ _ _ Hd Hp) as [Hp1 Hp2].
    apply (IH p (x :: seen)); auto.
    + constructor; [|done]. intros Hin. apply Hseen in Hin. lia.
    + intros y [->|Hy]%elem_of_cons; [lia|]. apply Hseen in Hy. lia.
    + simpl. lia.
Qed.

Lemma forest_root_find x :
  forest h → (x < length h)%nat → is_Some (root_find (length h) h x).
Proof.
  intros [rk Hrk] Hx. apply (root_find_fuel rk _ x []); auto.
  - constructor.
  - intros y Hy. by apply elem_of_nil in Hy.
  - simpl. lia.
Qed.

Lemma forest_reach x : forest h → (x < length h)%nat → ∃ r, reach h x r.
Proof.
  intros Hf Hx. destruct (forest_root_find x Hf Hx) as [r Hr].
  exists r. by eapply root_find_reach.
Qed.

Lemma reach_root_find x r :
  forest h → reach h x r → root_find (length h) h x = Some r.
Proof.
  intros Hf Hr. destruct (reach_valid _ _ Hr) as [Hx _].
  destruct (forest_root_find x Hf Hx) as [r' Hr'].
  rewrite Hr'. f_equal. eapply reach_det; [|done]. by eapply root_find_reach.
Qed.

End reach_facts.

(** ** Arenas that differ in [parent] fields only *)

Lemma erase_with_parent q d : erase (with_parent q d) = erase d.
Proof. done. Qed.

Lemma erase_root_eq d d' :
  erase d = erase d' → parent d = None → parent d' = None → d = d'.
Proof. destruct d, d'. unfold erase, with_parent. simpl. congruence. Qed.

Lemma erase_fields d d' :
  erase d = erase d' →
  sig d = sig d' ∧ depth d = depth d' ∧ smallest d = smallest d'
  ∧ minimal d = minimal d'.
Proof. destruct d, d'. unfold erase, with_parent. simpl. intros [=]. auto. Qed.

Lemma same_fields_refl h : same_fields h h.
Proof. done. Qed.

Lemma same_fields_trans h1 h2 h3 :
  same_fields h1 h2 → same_fields h2 h3 → same_fields h1 h3.
Proof. unfold same_fields. congruence. Qed.

Lemma same_fields_length h h' : same_fields h h' → length h' = length h.
Proof.
  intros Hs. apply (f_equal length) in Hs. by rewrite !length_fmap in Hs.
Qed.

Lemma same_fields_lookup h h' x d :
  same_fields h h' → h !! x = Some d →
  ∃ d', h' !! x = Some d' ∧ erase d' = erase d.
Proof.
  intros Hs Hd. apply (f_equal (λ l, l !! x)) in Hs.
  rewrite !list_lookup_fmap, Hd in Hs.
  destruct (h' !! x) as [d'|]; [|done]. exists d'. split; [done|].
  change (Some (erase d) = Some (erase d')) in Hs. congruence.
Qed.

Lemma same_fields_alter_parent (h : heap) q (n : addr) :
  same_fields h (alter (with_parent q) n h).
Proof.
  unfold same_fields. apply list_eq. intros i.
  rewrite !list_lookup_fmap, list_lookup_alter.
  destruct (decide (n = i)) as [->|]; [|done].
  by destruct (h !! i).
Qed.

(** ** Updates that keep the forest *)

Lemma reach_ext h h' x r :
  (∀ y, parent <$> h' !! y = parent <$> h !! y) → reach h x r → reach h' x r.
Proof.
  intros Hext. induction 1 as [r d Hd Hp|x d p r Hd Hp _ IH].
  - specialize (Hext r). rewrite Hd in Hext.
    destruct (h' !! r) as [d'|] eqn:Hd'; simplify_eq/=.
    eapply reach_root; eauto. congruence.
  - specialize (Hext x). rewrite Hd in Hext.
    destruct (h' !! x) as [d'|] eqn:Hd'; simplify_eq/=.
    eapply reach_step; eauto. congruence.
Qed.

Lemma ranked_ext rk h h' :
  length h' = length h →
  (∀ y, parent <$> h' !! y = parent <$> h !! y) → ranked rk h → ranked rk h'.
Proof.
  intros Hlen Hext Hrk x d p Hd Hp. specialize (Hext x). rewrite Hd in Hext.
  destruct (h !! x) as [d0|] eqn:Hd0; simplify_eq/=.
  rewrite Hlen. eapply Hrk; eauto. congruence.
Qed.

Lemma alter_keep_parent (f : Data → Data) (h : heap) (n : addr) :
  (∀ d, parent (f d) = parent d) →
  ∀ y, parent <$> alter f n h !! y = parent <$> h !! y.
Proof.
  intros Hf y. rewrite list_lookup_alter.
  destruct (decide (n = y)) as [->|]; [|done].
  destruct (h !! y); simpl; [|done]. by rewrite Hf.
Qed.

Lemma reach_alter_keep (f : Data → Data) (h : heap) (n : addr) x r :
  (∀ d, parent (f d) = parent d) → reach (alter f n h) x r ↔ reach h x r.
Proof.
  intros Hf. split; apply reach_ext; intros y.
  - symmetry. by apply alter_keep_parent.
  - by apply alter_keep_parent.
Qed.

Lemma ranked_alter_keep (f : Data → Data) rk (h : heap) (n : addr) :
  (∀ d, parent (f d) = parent d) → ranked rk h → ranked rk (alter f n h).
Proof.
  intros Hf. apply ranked_ext; [by rewrite length_alter|].
  by apply alter_keep_parent.
Qed.

Lemma absorb_parent dl dr : parent (absorb dl dr) = parent dr.
Proof. unfold absorb. by destruct (_ <? _). Qed.

Lemma incr_depth_parent d : parent (incr_depth d) = parent d.
Proof. done. Qed.

(** ** Path compression *)

(** Pointing a node straight at its root changes no root. *)
Lemma reach_shortcut h n ans x r :
  reach h n ans → n ≠ ans →
  reach (alter (with_parent (Some ans)) n h) x r ↔ reach h x r.
Proof.
  intros Hn Hne.
  destruct (reach_is_root _ _ _ Hn) as (da & Hda & Hpa).
  assert (Hans : reach (alter (with_parent (Some ans)) n h) ans ans).
  { eapply reach_root; [|exact Hpa]. by rewrite list_lookup_alter_ne. }
  split.
  - induction 1 as [r d Hd Hp|x d p r Hd Hp Hr IH].
    + rewrite list_lookup_alter in Hd. destruct (decide (n = r)) as [->|].
      * destruct (h !! r); simplify_eq/=.
      * by eapply reach_root.
    + rewrite list_lookup_alter in Hd. destruct (decide (n = x)) as [->|].
      * destruct (h !! x) as [d0|] eqn:Hd0; simplify_eq/=.
        by rewrite (reach_root_self _ _ _ _ Hda Hpa IH).
      * eapply reach_step; eauto.
  - induction 1 as [r d Hd Hp|x d p r Hd Hp Hr IH].
    + eapply reach_root; [|exact Hp]. rewrite list_lookup_alter_ne; [done|].
      intros ->. inversion Hn; simplify_eq.
    + destruct (decide (n = x)) as [->|].
      * assert (r = ans) as ->.
        { eapply reach_det; [|exact Hn]. eapply reach_step; eauto. }
        eapply (reach_step _ x (with_parent (Some ans) d) ans);
          [|done|exact Hans].
        by rewrite list_lookup_alter_eq, Hd.
      * eapply reach_step; [|exact Hp|exact IH].
        by rewrite list_lookup_alter_ne.
Qed.

Lemma ranked_shortcut rk h n ans :
  ranked rk h → reach h n ans → n ≠ ans →
  ranked rk (alter (with_parent (Some ans)) n h).
Proof.
  intros Hrk Hn Hne x d p Hd Hp. rewrite length_alter.
  rewrite list_lookup_alter in Hd. destruct (decide (n = x)) as [->|].
  - destruct (h !! x) as [d0|] eqn:Hd0; simplify_eq/=.
    split; [by apply (reach_valid _ _ _ Hn)|].
    inversion Hn as [|? d1 p1 ? Hd1 Hp1 Hr1]; subst; [done|].
    destruct (Hrk _ _ _ Hd1 Hp1).
    pose proof (ranked_reach_le _ _ _ _ Hrk Hr1). lia.
  - eapply Hrk; eauto.
Qed.

Lemma root_find_above rk (f : Data → Data) (h : heap) (n : addr) k x :
  ranked rk h → (rk n < rk x)%nat →
  root_find k (alter f n h) x = root_find k h x.
Proof.
  intros Hrk. revert x. induction k as [|k IH]; intros x Hx; [done|].
  rewrite !root_find_S. rewrite list_lookup_alter_ne by (intros ->; lia).
  destruct (h !! x) as [d|] eqn:Hd; simpl; [|done].
  destruct (parent d) as [p|] eqn:Hp; [|done].
  apply IH. destruct (Hrk _ _ _ Hd Hp). lia.
Qed.

Lemma root_compress_S k h n ans :
  root_compress (S k) h n ans
  = d ← h !! n;
    if decide (parent d = Some ans) then Some h
    else tmp ← parent d;
         root_compress k (alter (with_parent (Some ans)) n h) tmp ans.
Proof. done. Qed.

(** The compression loop ends with the fuel that the search needed, keeps
    every root and touches [parent] fields only. *)
Lemma root_compress_spec rk k h n ans :
  ranked rk h → root_find k h n = Some ans → n ≠ ans →
  ∃ h', root_compress k h n ans = Some h'
        ∧ ranked rk h' ∧ same_fields h h'
        ∧ ∀ x r, reach h' x r ↔ reach h x r.
Proof.
  revert h n. induction k as [|k IH]; intros h n Hrk Hf Hne; [done|].
  pose proof (root_find_reach _ _ _ _ Hf) as Hreach.
  rewrite root_find_S in Hf. rewrite root_compress_S.
  destruct (h !! n) as [d|] eqn:Hd; simplify_eq/=.
  destruct (parent d) as [p|] eqn:Hp; simplify_eq/=.
  destruct (decide (Some p = Some ans)) as [|Hpa].
  { exists h. split_and!; auto using same_fields_refl. }
  destruct (Hrk _ _ _ Hd Hp) as [_ Hlt].
  destruct (IH (alter (with_parent (Some ans)) n h) p) as (h' & Hc & Hrk' & Hsf & Hre).
  - by apply ranked_shortcut.
  - by erewrite root_find_above.
  - congruence.
  - exists h'. split_and!; auto.
    + eapply same_fields_trans; [apply same_fields_alter_parent|done].
    + intros x r. rewrite Hre. by apply reach_shortcut.
Qed.

(** [root] returns the root, compresses, and keeps the forest. *)
Lemma root_spec_ranked rk h n :
  ranked rk h → (n < length h)%nat →
  ∃ r h', root h n = Some (r, h')
          ∧ reach h n r ∧ ranked rk h' ∧ same_fields h h'
          ∧ ∀ x s, reach h' x s ↔ reach h x s.
Proof.
  intros Hrk Hn. unfold root.
  destruct (forest_root_find h n (ex_intro _ rk Hrk) Hn) as [r Hr].
  rewrite Hr. simpl. pose proof (root_find_reach _ _ _ _ Hr) as Hreach.
  destruct (decide (n = r)) as [->|Hne].
  { exists r, h. split_and!; auto using same_fields_refl. }
  destruct (root_compress_spec rk _ _ _ _ Hrk Hr Hne) as (h' & -> & ? & ? & ?).
  exists r, h'. split_and!; auto.
Qed.

Lemma root_spec h n :
  forest h → (n < length h)%nat →
  ∃ r h', root h n = Some (r, h')
          ∧ reach h n r ∧ forest h' ∧ same_fields h h'
          ∧ ∀ x s, reach h' x s ↔ reach h x s.
Proof.
  intros [rk Hrk] Hn.
  destruct (root_spec_ranked rk h n Hrk Hn) as (r & h' & ? & ? & ? & ? & ?).
  exists r, h'. split_and!; auto. by exists rk.
Qed.

(** A root stays the same node, with the same fields, across [root]. *)
Lemma same_fields_root h h' r d :
  same_fields h h' → (∀ x s, reach h' x s ↔ reach h x s) →
  h !! r = Some d → parent d = None → h' !! r = Some d.
Proof.
  intros Hsf Hre Hd Hp.
  assert (Hr : reach h' r r) by (apply Hre; by eapply reach_root).
  destruct (reach_is_root _ _ _ Hr) as (d' & Hd' & Hp').
  destruct (same_fields_lookup _ _ _ _ Hsf Hd) as (d'' & Hd'' & He).
  rewrite Hd' in Hd''. injection Hd'' as <-.
  rewrite Hd'. f_equal. by apply erase_root_eq.
Qed.

(** ** Linking one root below another *)

Section link.
Context (h : heap) (lo hi : addr) (dlo dhi : Data).
Context (Hlo : h !! lo = Some dlo) (Hplo : parent dlo = None).
Context (Hhi : h !! hi = Some dhi) (Hphi : parent dhi = None).
Context (Hne : lo ≠ hi).

Lemma reach_link x r :
  reach (alter (with_parent (Some hi)) lo h) x r
  ↔ (reach h x lo ∧ r = hi) ∨ (reach h x r ∧ r ≠ lo).
Proof using Hlo Hplo Hhi Hphi Hne.
  assert (Hhi' : reach (alter (with_parent (Some hi)) lo h) hi hi).
  { eapply reach_root; [|exact Hphi]. by rewrite list_lookup_alter_ne. }
  split.
  - induction 1 as [r d Hd Hp|x d p r Hd Hp Hr IH].
    + rewrite list_lookup_alter in Hd. destruct (decide (lo = r)) as [->|].
      * rewrite Hlo in Hd. simplify_eq/=.
      * right. split; [by eapply reach_root|done].
    + rewrite list_lookup_alter in Hd. destruct (decide (lo = x)) as [->|].
      * rewrite Hlo in Hd. simplify_eq/=. left. split; [by eapply reach_root|].
        destruct IH as [[IH _]|[IH _]].
        -- by pose proof (reach_root_self _ _ _ _ Hhi Hphi IH).
        -- by apply (reach_root_self _ _ _ _ Hhi Hphi IH).
      * destruct IH as [[IH ->]|[IH ?]].
        -- left. split; [|done]. eapply reach_step; eauto.
        -- right. split; [|done]. eapply reach_step; eauto.
  - intros [[Hx ->]|[Hx Hr]].
    + remember lo as r eqn:Er.
      induction Hx as [r d Hd Hp|x d p r Hd Hp Hr IH]; subst.
      * eapply (reach_step _ lo (with_parent (Some hi) dlo) hi);
          [|done|exact Hhi'].
        by rewrite list_lookup_alter_eq, Hlo.
      * eapply reach_step; [|exact Hp|by apply IH].
        rewrite list_lookup_alter_ne; [done|]. intros ->. congruence.
    + induction Hx as [r d Hd Hp|x d p r Hd Hp Hx IH].
      * eapply reach_root; [|exact Hp]. by rewrite list_lookup_alter_ne.
      * eapply reach_step; [|exact Hp|by apply IH].
        rewrite list_lookup_alter_ne; [done|]. intros ->. congruence.
Qed.

Lemma ranked_link rk :
  ranked rk h →
  ranked (λ x, if decide (x = hi) then Nat.max (rk hi) (S (rk lo)) else rk x)
         (alter (with_parent (Some hi)) lo h).
Proof using Hlo Hplo Hhi Hphi Hne.
  intros Hrk x d p Hd Hp. rewrite length_alter.
  rewrite list_lookup_alter in Hd. destruct (decide (lo = x)) as [->|Hx].
  - rewrite Hlo in Hd. simplify_eq/=.
    split; [by eapply lookup_lt_Some|].
    rewrite decide_False, decide_True by done. lia.
  - destruct (Hrk _ _ _ Hd Hp) as [? ?]. split; [done|].
    rewrite (decide_False (P := x = hi)) by (intros ->; congruence).
    case_decide; subst; lia.
Qed.

End link.

(** ** [join] *)

Lemma absorb_fields dl dr :
  sig (absorb dl dr) = sig dr ∧ depth (absorb dl dr) = depth dr
  ∧ smallest (absorb dl dr) = Z.min (smallest dr) (smallest dl)
  ∧ minimal (absorb dl dr)
    = if smallest dl <? smallest dr then minimal dl else minimal dr.
Proof.
  unfold absorb. destruct (Z.ltb_spec (smallest dl) (smallest dr)); simpl;
    split_and!; auto; lia.
Qed.

(** The three branches of [join] are this update, with [g] the identity or
    [++depth]. *)
Lemma link_merged (g : Data → Data) (h : heap) (lo hi : addr) dlo dhi :
  (∀ d, parent (g d) = parent d) → (∀ d, sig (g d) = sig d) →
  (∀ d, smallest (g d) = smallest d) → (∀ d, minimal (g d) = minimal d) →
  forest h →
  h !! lo = Some dlo → parent dlo = None →
  h !! hi = Some dhi → parent dhi = None → lo ≠ hi →
  let h' := alter (absorb dlo) hi
              (alter g hi (alter (with_parent (Some hi)) lo h)) in
  forest h' ∧ merged h h' lo hi.
Proof.
  intros Hg1 Hg2 Hg3 Hg4 [rk Hrk] Hlo Hplo Hhi Hphi Hne h'. split.
  - eexists. apply ranked_alter_keep; [apply absorb_parent|].
    apply ranked_alter_keep; [done|]. by eapply ranked_link.
  - destruct (absorb_fields dlo (g dhi)) as (Ha1 & Ha2 & Ha3 & Ha4).
    apply (mkMerged h h' lo hi dlo dhi (absorb dlo (g dhi))); auto.
    + unfold h'. rewrite list_lookup_alter_eq, list_lookup_alter_eq.
      rewrite list_lookup_alter_ne by done. by rewrite Hhi.
    + by rewrite absorb_parent, Hg1.
    + by rewrite Ha1, Hg2.
    + by rewrite Ha3, Hg3.
    + by rewrite Ha4, Hg3, Hg4.
    + intros x Hx. unfold h'. rewrite !list_lookup_alter_ne by done.
      rewrite list_lookup_alter. case_decide; [|done].
      subst. by destruct (h !! x).
    + intros x s. unfold h'.
      rewrite reach_alter_keep by apply absorb_parent.
      rewrite reach_alter_keep by done. by eapply reach_link.
Qed.

(** Moving a merge on the arena that [root] left behind back to the arena
    before the two calls. *)
Lemma merged_transport h0 h h' lo hi :
  same_fields h0 h → (∀ x s, reach h x s ↔ reach h0 x s) →
  merged h h' lo hi → merged h0 h' lo hi.
Proof.
  intros Hsf Hre [dlo dhi dhi' H1 H2 H3 H4 H5 H6 H7 H8 H9 H10 H11].
  assert (Hroot : ∀ r d, h !! r = Some d → parent d = None → h0 !! r = Some d).
  { intros r d Hd Hp.
    assert (Hr : reach h0 r r) by (apply Hre; by eapply reach_root).
    destruct (reach_is_root _ _ _ Hr) as (d0 & Hd0 & Hp0).
    destruct (same_fields_lookup _ _ _ _ Hsf Hd0) as (d' & Hd' & He).
    rewrite Hd in Hd'. injection Hd' as <-. rewrite Hd0. f_equal.
    symmetry. by apply erase_root_eq. }
  apply (mkMerged h0 h' lo hi dlo dhi dhi'); auto.
  - intros x Hx. rewrite H10 by done.
    apply (f_equal (λ l, l !! x)) in Hsf.
    by rewrite !list_lookup_fmap in Hsf.
  - intros x s. rewrite H11, !Hre. done.
Qed.

Lemma join_unfold h a b :
  join h a b
  = '(aRoot, h) ← root h a;
    '(bRoot, h) ← root h b;
    if decide (aRoot = bRoot) then Some (false, h)
    else
      da ← h !! aRoot;
      db ← h !! bRoot;
      if depth da >? depth db then
        Some (true, alter (absorb db) aRoot
                      (alter (with_parent (Some aRoot)) bRoot h))
      else if depth db >? depth da then
        Some (true, alter (absorb da) bRoot
                      (alter (with_parent (Some bRoot)) aRoot h))
      else
        Some (true, alter (absorb da) bRoot
                      (alter incr_depth bRoot
                         (alter (with_parent (Some bRoot)) aRoot h))).
Proof. done. Qed.

(** [join] is total on a forest. Equal roots: nothing but compression
    happens and [false] is returned. Distinct roots: one of them is hung
    below the other and [true] is returned. *)
Lemma join_spec h a b :
  forest h → (a < length h)%nat → (b < length h)%nat →
  ∃ ra rb h',
    reach h a ra ∧ reach h b rb
    ∧ join h a b = Some (bool_decide (ra ≠ rb), h')
    ∧ forest h'
    ∧ (ra = rb → same_fields h h' ∧ ∀ x s, reach h' x s ↔ reach h x s)
    ∧ (ra ≠ rb → merged h h' ra rb ∨ merged h h' rb ra).
Proof.
  intros Hf Ha Hb. rewrite join_unfold.
  destruct (root_spec h a Hf Ha) as (ra & h1 & -> & Hra & Hf1 & Hsf1 & Hre1).
  simpl.
  assert (Hb1 : (b < length h1)%nat) by by rewrite (same_fields_length _ _ Hsf1).
  destruct (root_spec h1 b Hf1 Hb1) as (rb & h2 & -> & Hrb & Hf2 & Hsf2 & Hre2).
  simpl.
  assert (Hsf : same_fields h h2) by by eapply same_fields_trans.
  assert (Hre : ∀ x s, reach h2 x s ↔ reach h x s).
  { intros x s. by rewrite Hre2, Hre1. }
  exists ra, rb. apply Hre1 in Hrb.
  destruct (decide (ra = rb)) as [->|Hne].
  { exists h2. rewrite bool_decide_eq_false_2 by naive_solver.
    split_and!; auto; done. }
  rewrite bool_decide_eq_true_2 by done.
  destruct (reach_is_root _ _ _ Hra) as (da & Hda & Hpa).
  destruct (reach_is_root _ _ _ Hrb) as (db & Hdb & Hpb).
  pose proof (same_fields_root _ _ _ _ Hsf Hre Hda Hpa) as Hda2.
  pose proof (same_fields_root _ _ _ _ Hsf Hre Hdb Hpb) as Hdb2.
  rewrite Hda2, Hdb2. simpl.
  assert (Hid : ∀ (l : heap) (i : addr), alter (λ d : Data, d) i l = l).
  { intros l i. by apply list_alter_id. }
  destruct (depth da >? depth db).
  - destruct (link_merged (λ d, d) h2 rb ra db da) as [Hf' Hm]; auto.
    rewrite Hid in Hf', Hm. eexists. split_and!; eauto; [done|].
    intros _. right. by eapply merged_transport.
  - destruct (depth db >? depth da).
    + destruct (link_merged (λ d, d) h2 ra rb da db) as [Hf' Hm]; auto.
      rewrite Hid in Hf', Hm. eexists. split_and!; eauto; [done|].
      intros _. left. by eapply merged_transport.
    + destruct (link_merged incr_depth h2 ra rb da db) as [Hf' Hm]; auto.
      eexists. split_and!; eauto; [done|].
      intros _. left. by eapply merged_transport.
Qed.

(** ** The classes of a forest *)

Lemma same_sym h a b : same h a b → same h b a.
Proof. intros (r & ? & ?). by exists r. Qed.

Lemma same_trans h a b c : same h a b → same h b c → same h a c.
Proof.
  intros (r & Ha & Hb) (r' & Hb' & Hc).
  rewrite <-(reach_det _ _ _ _ Hb Hb') in Hc. by exists r.
Qed.

Lemma same_refl h a : forest h → (a < length h)%nat → same h a a.
Proof. intros Hf Ha. destruct (forest_reach h a Hf Ha) as [r Hr]. by exists r. Qed.

Lemma same_valid h a b : same h a b → (a < length h)%nat ∧ (b < length h)%nat.
Proof.
  intros (r & Ha & Hb). split; [apply (reach_valid _ _ _ Ha)|apply (reach_valid _ _ _ Hb)].
Qed.

Lemma same_reach h a r : reach h a r → same h a r.
Proof.
  intros Hr. exists r. split; [done|].
  destruct (reach_is_root _ _ _ Hr) as (d & ? & ?). by eapply reach_root.
Qed.

Lemma same_ext h h' :
  (∀ x s, reach h' x s ↔ reach h x s) → ∀ a b, same h' a b ↔ same h a b.
Proof. intros Hre a b. unfold same. by setoid_rewrite Hre. Qed.

Lemma merged_length h h' lo hi : merged h h' lo hi → length h' = length h.
Proof.
  intros [dlo dhi dhi' _ _ Hhi _ Hhi' _ _ _ _ Ho _].
  assert (∀ x, is_Some (h' !! x) ↔ is_Some (h !! x)) as Hs.
  { intros x. destruct (decide (x = hi)) as [->|Hx].
    - rewrite Hhi, Hhi'. split; eauto.
    - specialize (Ho x Hx).
      rewrite <-(fmap_is_Some erase (h' !! x)), <-(fmap_is_Some erase (h !! x)).
      by rewrite Ho. }
  destruct (Nat.lt_trichotomy (length h') (length h)) as [Hl|[Hl|Hl]]; [|done|].
  - apply lookup_lt_is_Some_2, Hs, lookup_lt_is_Some_1 in Hl. lia.
  - apply lookup_lt_is_Some_2, Hs, lookup_lt_is_Some_1 in Hl. lia.
Qed.

Lemma merged_sig h h' lo hi x :
  merged h h' lo hi → sig <$> h' !! x = sig <$> h !! x.
Proof.
  intros [dlo dhi dhi' _ _ Hhi _ Hhi' _ Hs _ _ Ho _].
  destruct (decide (x = hi)) as [->|Hx].
  - rewrite Hhi, Hhi'. simpl. by rewrite Hs.
  - specialize (Ho x Hx).
    destruct (h' !! x) as [d'|], (h !! x) as [d|]; try done.
    change (Some (erase d') = Some (erase d)) in Ho.
    assert (He : erase d' = erase d) by congruence.
    simpl. f_equal. by apply erase_fields in He as (? & _).
Qed.

Lemma same_fields_sig h h' x :
  same_fields h h' → sig <$> h' !! x = sig <$> h !! x.
Proof.
  intros Hsf. apply (f_equal (λ l, l !! x)) in Hsf.
  rewrite !list_lookup_fmap in Hsf.
  destruct (h' !! x) as [d'|], (h !! x) as [d|]; try done.
  change (Some (erase d) = Some (erase d')) in Hsf.
  assert (He : erase d' = erase d) by congruence.
  simpl. f_equal. by apply erase_fields in He as (? & _).
Qed.

(** The classes after a merge. *)
Lemma merged_same h h' lo hi x y :
  merged h h' lo hi →
  same h' x y
  ↔ same h x y ∨ (same h x lo ∧ same h hi y) ∨ (same h x hi ∧ same h lo y).
Proof.
  intros [dlo dhi dhi' Hlo Hplo Hhi Hphi _ _ _ _ _ _ Hre].
  assert (Hrlo : reach h lo lo) by by eapply reach_root.
  assert (Hrhi : reach h hi hi) by by eapply reach_root.
  assert (Hne : hi ≠ lo → reach h' hi hi).
  { intros Hne. apply Hre. by right. }
  split.
  - intros (s & [[Hx ->]|[Hx Hs]]%Hre & [[Hy Hs']|[Hy Hs']]%Hre).
    + left. by exists lo.
    + right. left. split; [by exists lo|by exists hi].
    + subst. right. right. split; [by exists hi|by exists lo].
    + left. by exists s.
  - intros [(s & Hx & Hy)|[[(s & Hx & Hs) (s' & Hs' & Hy)]|[(s & Hx & Hs) (s' & Hs' & Hy)]]].
    + destruct (decide (s = lo)) as [->|Hs].
      * exists hi. split; apply Hre; by left.
      * exists s. split; apply Hre; by right.
    + rewrite <-(reach_det _ _ _ _ Hrlo Hs) in Hx.
      rewrite <-(reach_det _ _ _ _ Hrhi Hs') in Hy.
      exists hi. split; apply Hre; [by left|].
      destruct (decide (hi = lo)) as [<-|]; [by left|by right].
    + rewrite <-(reach_det _ _ _ _ Hrhi Hs) in Hx.
      rewrite <-(reach_det _ _ _ _ Hrlo Hs') in Hy.
      exists hi. split; apply Hre; [|by left].
      destruct (decide (hi = lo)) as [<-|]; [by left|by right].
Qed.

(** [join] in terms of classes. *)
Lemma join_same h a b :
  forest h → (a < length h)%nat → (b < length h)%nat →
  ∃ res h',
    join h a b = Some (res, h') ∧ forest h' ∧ length h' = length h
    ∧ (res = true ↔ ¬ same h a b)
    ∧ ∀ x y, same h' x y
             ↔ same h x y ∨ (same h x a ∧ same h b y)
               ∨ (same h x b ∧ same h a y).
Proof.
  intros Hf Ha Hb.
  destruct (join_spec h a b Hf Ha Hb) as (ra & rb & h' & Hra & Hrb & Hj & Hf' & He & Hn).
  exists (bool_decide (ra ≠ rb)), h'.
  pose proof (same_reach _ _ _ Hra) as Sa.
  pose proof (same_reach _ _ _ Hrb) as Sb.
  assert (Hab : same h a b ↔ ra = rb).
  { split.
    - intros (s & Hs1 & Hs2).
      by rewrite (reach_det _ _ _ _ Hra Hs1), (reach_det _ _ _ _ Hrb Hs2).
    - intros ->. by exists rb. }
  split; [done|]. split; [done|].
  destruct (decide (ra = rb)) as [Heq|Hne].
  - destruct (He Heq) as [Hsf Hre]. split; [by apply same_fields_length|].
    split; [rewrite bool_decide_eq_true; naive_solver|].
    intros x y. rewrite (same_ext _ _ Hre).
    assert (same h a b) by by apply Hab.
    split; [by left|].
    intros [?|[[? ?]|[? ?]]]; [done|..].
    + eauto using same_trans.
    + eauto using same_trans, same_sym.
  - assert (Hcase := Hn Hne).
    assert (Hlen : length h' = length h).
    { destruct Hcase; by eapply merged_length. }
    split; [done|]. split; [rewrite bool_decide_eq_true; naive_solver|].
    intros x y.
    assert (same h' x y
            ↔ same h x y ∨ (same h x ra ∧ same h rb y)
              ∨ (same h x rb ∧ same h ra y)) as ->.
    { destruct Hcase as [Hm|Hm]; rewrite (merged_same _ _ _ _ _ _ Hm); tauto. }
    split; (intros [?|[[? ?]|[? ?]]]; [by left|right; left|right; right]);
      split; eauto using same_trans, same_sym.
Qed.

(** ** Allocation *)

Lemma new_Data_eq h s :
  new_Data h s = (length h, h ++ [mkData s None 0 (proxy s) (length h)]).
Proof. done. Qed.

Lemma forest_app h d : forest h → parent d = None → forest (h ++ [d]).
Proof.
  intros [rk Hrk] Hd. exists rk. intros x dx p Hx Hp.
  rewrite length_app. simpl.
  apply lookup_app_Some in Hx as [Hx|[Hge Hx]].
  - destruct (Hrk _ _ _ Hx Hp). split; [lia|done].
  - apply list_lookup_singleton_Some in Hx as [_ <-]. congruence.
Qed.

Lemma reach_app h d x r :
  forest h → parent d = None →
  reach (h ++ [d]) x r ↔ reach h x r ∨ (x = length h ∧ r = length h).
Proof.
  intros [rk Hrk] Hd. split.
  - induction 1 as [r dr Hr Hp|x dx p r Hx Hp _ IH].
    + apply lookup_app_Some in Hr as [Hr|[Hge Hr]].
      * left. by eapply reach_root.
      * apply list_lookup_singleton_Some in Hr as [? <-]. right. lia.
    + apply lookup_app_Some in Hx as [Hx|[Hge Hx]].
      * destruct (Hrk _ _ _ Hx Hp) as [Hlt _].
        destruct IH as [IH|[-> ->]]; [|lia].
        left. by eapply reach_step.
      * apply list_lookup_singleton_Some in Hx as [? <-]. congruence.
  - intros [Hr|[-> ->]].
    + induction Hr as [r dr Hr Hp|x dx p r Hx Hp _ IH].
      * eapply reach_root; [|done]. by apply lookup_app_l_Some.
      * eapply reach_step; [|done..]. by apply lookup_app_l_Some.
    + eapply reach_root; [|exact Hd]. by rewrite list_lookup_middle.
Qed.

Lemma same_app h d x y :
  forest h → parent d = None →
  same (h ++ [d]) x y ↔ same h x y ∨ (x = length h ∧ y = length h).
Proof.
  intros Hf Hd. unfold same. setoid_rewrite (reach_app h d _ _ Hf Hd). split.
  - intros (r & [Hx|[-> ->]] & [Hy|[-> Hr]]).
    + left. by exists r.
    + apply reach_valid in Hx. lia.
    + apply reach_valid in Hy. lia.
    + by right.
  - intros [(r & Hx & Hy)|[-> ->]].
    + exists r. auto.
    + exists (length h). auto.
Qed.

(** ** Chains of joins *)

Lemma rtsc_add_edge {A : Type} (R R' : relation A) (a b x y : A) :
  (∀ u v, R' u v ↔ R u v ∨ (u = a ∧ v = b)) →
  rtsc R' x y
  ↔ rtsc R x y ∨ (rtsc R x a ∧ rtsc R b y) ∨ (rtsc R x b ∧ rtsc R a y).
Proof.
  intros HR'.
  assert (Hsub : ∀ u v, rtsc R u v → rtsc R' u v).
  { intros u v. apply rtc_subrel. intros ?? [?|?]; [left|right]; apply HR'; auto. }
  assert (Hab : rtsc R' a b) by (apply rtsc_lr, HR'; auto).
  split.
  - induction 1 as [x|x z y Hxz _ IH]; [by left|].
    assert (rtsc R x z ∨ (x = a ∧ z = b) ∨ (x = b ∧ z = a)) as [Hs|[[-> ->]|[-> ->]]].
    { destruct Hxz as [[?|?]%HR'|[?|?]%HR']; auto using rtsc_lr, rtsc_rl.
      naive_solver. }
    + destruct IH as [?|[[? ?]|[? ?]]].
      * left. by etrans.
      * right. left. split; [by etrans|done].
      * right. right. split; [by etrans|done].
    + destruct IH as [?|[[? ?]|[? ?]]].
      * right. left. done.
      * left. etrans; [symmetry|]; done.
      * left. done.
    + destruct IH as [?|[[? ?]|[? ?]]].
      * right. right. done.
      * left. done.
      * left. etrans; [symmetry|]; done.
  - intros [?|[[? ?]|[? ?]]].
    + auto.
    + etrans; [by apply Hsub|]. etrans; [exact Hab|by apply Hsub].
    + etrans; [by apply Hsub|]. etrans; [symmetry; exact Hab|by apply Hsub].
Qed.

Lemma joined_snoc_Join cs a b u v :
  joined (cs ++ [Join a b]) u v ↔ joined cs u v ∨ (u = a ∧ v = b).
Proof.
  unfold joined. rewrite elem_of_app, list_elem_of_singleton. naive_solver.
Qed.

Lemma joined_snoc_other cs c u v :
  (∀ a b, c ≠ Join a b) → joined (cs ++ [c]) u v ↔ joined cs u v.
Proof.
  intros Hc. unfold joined. rewrite elem_of_app, list_elem_of_singleton.
  naive_solver.
Qed.

Lemma connected_snoc_other cs c u v :
  (∀ a b, c ≠ Join a b) → connected (cs ++ [c]) u v ↔ connected cs u v.
Proof.
  intros Hc. unfold connected.
  split; apply rtc_subrel; intros x y [H|H]; [left|right|left|right];
    by apply (joined_snoc_other cs c).
Qed.

(** Nodes that no join has touched are connected to themselves only. *)
Lemma connected_fresh cs n u v :
  (∀ a b, joined cs a b → (a < n)%nat ∧ (b < n)%nat) →
  connected cs u v → u = v ∨ ((u < n)%nat ∧ (v < n)%nat).
Proof.
  intros Hj. induction 1 as [|x z y Hxz _ IH]; [by left|].
  right. assert ((x < n)%nat ∧ (z < n)%nat) as [? ?].
  { destruct Hxz as [H|H]; apply Hj in H; lia. }
  destruct IH as [<-|[? ?]]; auto.
Qed.

(** ** Sequences of calls *)

Lemma same_root_spec h a b :
  forest h → (a < length h)%nat → (b < length h)%nat →
  ∃ res, same_root h a b = Some res ∧ (res = true ↔ same h a b).
Proof.
  intros Hf Ha Hb. unfold same_root.
  destruct (root_spec h a Hf Ha) as (ra & h1 & -> & Hra & Hf1 & Hsf1 & Hre1).
  simpl.
  assert (Hb1 : (b < length h1)%nat) by by rewrite (same_fields_length _ _ Hsf1).
  destruct (root_spec h1 b Hf1 Hb1) as (rb & h2 & -> & Hrb & _).
  simpl. apply Hre1 in Hrb. eexists. split; [done|].
  rewrite bool_decide_eq_true. split.
  - intros ->. by exists rb.
  - intros (s & Hs1 & Hs2).
    by rewrite (reach_det _ _ _ _ Hra Hs1), (reach_det _ _ _ _ Hrb Hs2).
Qed.

Lemma tracks_nil : tracks [] [].
Proof.
  split.
  - exists (λ _, O). intros x d p Hx. by rewrite lookup_nil in Hx.
  - intros a b Hj. by apply elem_of_nil in Hj.
  - simpl. lia.
Qed.

Lemma tracks_New cs h s : tracks cs h → tracks (cs ++ [New s]) (new_Data h s).2.
Proof.
  intros [Hf Hj Hs]. rewrite new_Data_eq. simpl. split.
  - by apply forest_app.
  - intros a b Hab. apply joined_snoc_other in Hab; [|done].
    rewrite length_app. simpl. apply Hj in Hab. lia.
  - intros a b. rewrite length_app. simpl. intros Ha Hb.
    rewrite same_app by done. rewrite connected_snoc_other by done.
    split.
    + intros [Hab|[-> ->]]; [|done].
      apply Hs; [apply (same_valid _ _ _ Hab)..|done].
    + intros Hc. destruct (connected_fresh _ _ _ _ Hj Hc) as [<-|[? ?]].
      * destruct (decide (a = length h)); [by right|left].
        apply same_refl; [done|lia].
      * left. by apply Hs.
Qed.

Lemma tracks_Root cs h n r h' :
  tracks cs h → (n < length h)%nat → root h n = Some (r, h') →
  tracks (cs ++ [Root n]) h'.
Proof.
  intros [Hf Hj Hs] Hn Hr.
  destruct (root_spec h n Hf Hn) as (r' & h'' & Hr' & _ & Hf' & Hsf & Hre).
  rewrite Hr in Hr'. simplify_eq.
  pose proof (same_fields_length _ _ Hsf) as Hlen. split.
  - done.
  - intros a b Hab. apply joined_snoc_other in Hab; [|done]. rewrite Hlen. auto.
  - intros a b. rewrite Hlen. intros Ha Hb.
    rewrite (same_ext _ _ Hre), connected_snoc_other by done. auto.
Qed.

Lemma tracks_Join cs h a b res h' :
  tracks cs h → (a < length h)%nat → (b < length h)%nat →
  join h a b = Some (res, h') → tracks (cs ++ [Join a b]) h'.
Proof.
  intros [Hf Hj Hs] Ha Hb Hjoin.
  destruct (join_same h a b Hf Ha Hb) as (res' & h'' & Hjoin' & Hf' & Hlen & _ & Hsame).
  rewrite Hjoin in Hjoin'. simplify_eq. split.
  - done.
  - intros x y [Hxy|[-> ->]]%joined_snoc_Join; rewrite Hlen; auto.
  - intros x y. rewrite Hlen. intros Hx Hy. rewrite Hsame.
    unfold connected.
    rewrite (rtsc_add_edge (joined cs) (joined (cs ++ [Join a b])) a b)
      by apply joined_snoc_Join.
    fold (connected cs). rewrite <-!Hs by done. done.
Qed.

(** The calls all return, and the arena tracks them. *)
Lemma run_tracks cs : ∀ pre h,
  tracks pre h → calls_ok (length h) cs = true →
  ∃ h', run h cs = Some h' ∧ tracks (pre ++ cs) h'.
Proof.
  induction cs as [|c cs IH]; intros pre h Ht Hok.
  - exists h. by rewrite app_nil_r.
  - replace (pre ++ c :: cs) with ((pre ++ [c]) ++ cs) by by rewrite <-app_assoc.
    destruct c as [s|a b|a]; simpl in Hok |- *.
    + apply IH; [by apply tracks_New|].
      rewrite length_app. simpl. by rewrite Nat.add_1_r.
    + apply andb_prop in Hok as [[Ha Hb]%andb_prop Hok].
      apply Nat.ltb_lt in Ha, Hb.
      destruct (join_same h a b (tr_forest _ _ Ht) Ha Hb)
        as (res & h' & Hjoin & _ & Hlen & _).
      rewrite Hjoin. simpl. apply IH; [by eapply tracks_Join|by rewrite Hlen].
    + apply andb_prop in Hok as [Ha Hok]. apply Nat.ltb_lt in Ha.
      destruct (root_spec h a (tr_forest _ _ Ht) Ha)
        as (r & h' & Hr & _ & _ & Hsf & _).
      rewrite Hr. simpl.
      apply IH; [by eapply tracks_Root|by rewrite (same_fields_length _ _ Hsf)].
Qed.

(** * The claims about the connectivity graph and the pool *)

(** The arena holds the nodes that were there and one for each
    [new Data]. *)
Lemma run_length cs : ∀ h h',
  forest h → calls_ok (length h) cs = true → run h cs = Some h' →
  length h' = (length h + count_new cs)%nat.
Proof.
  induction cs as [|c cs IH]; intros h h' Hf Hok; simpl.
  - intros [= <-]. lia.
  - destruct c as [s|a b|a]; simpl in Hok |- *.
    + set (d0 := mkData s None 0 (proxy s) (length h)).
      assert (Hf1 : forest (h ++ [d0])) by by apply forest_app.
      assert (Hlen : length (h ++ [d0]) = S (length h)).
      { rewrite length_app. simpl. lia. }
      intros Hrun. rewrite (IH (h ++ [d0]) h' Hf1) by (by rewrite ?Hlen). lia.
    + apply andb_true_iff in Hok as [[Ha Hb]%andb_true_iff Hok].
      apply Nat.ltb_lt in Ha, Hb.
      destruct (join_same h a b Hf Ha Hb) as (res & h1 & Hj & Hf1 & Hlen & _).
      rewrite Hj. simpl. intros Hrun.
      rewrite (IH h1 h' Hf1) by (by rewrite ?Hlen). by rewrite Hlen.
    + apply andb_true_iff in Hok as [Ha Hok]. apply Nat.ltb_lt in Ha.
      destruct (root_spec h a Hf Ha) as (r & h1 & Hr & _ & Hf1 & Hsf & _).
      pose proof (same_fields_length _ _ Hsf) as Hlen.
      rewrite Hr. simpl. intros Hrun.
      rewrite (IH h1 h' Hf1) by (by rewrite ?Hlen). by rewrite Hlen.
Qed.

(** C1. After any sequence of [new Data], [join] and [root] calls on valid
    nodes, all of which return and leave one node for each [new Data],
    [root(a) == root(b)] holds exactly when [a] and [b] are connected by a
    chain of joins; and a further call of [root] changes the outcome of no
    such comparison. *)
Theorem root_eq_iff_connected (cs : list call) :
  calls_ok 0 cs = true →
  ∃ h, run [] cs = Some h
    ∧ length h = count_new cs
    ∧ (∀ a b, (a < length h)%nat → (b < length h)%nat →
         ∃ res, same_root h a b = Some res ∧ (res = true ↔ connected cs a b))
    ∧ (∀ n, (n < length h)%nat →
         ∃ r h', root h n = Some (r, h') ∧ length h' = length h
           ∧ ∀ a b, (a < length h)%nat → (b < length h)%nat →
               same_root h' a b = same_root h a b).
Proof.
  intros Hok.
  destruct (run_tracks cs [] [] tracks_nil Hok) as (h & Hrun & [Hf Hj Hs]).
  exists h. split; [done|].
  split; [exact (run_length cs [] h (tr_forest _ _ tracks_nil) Hok Hrun)|].
  split.
  - intros a b Ha Hb.
    destruct (same_root_spec h a b Hf Ha Hb) as (res & Hres & Hiff).
    exists res. split; [done|]. rewrite Hiff. by apply Hs.
  - intros n Hn.
    destruct (root_spec h n Hf Hn) as (r & h' & Hr & _ & Hf' & Hsf & Hre).
    pose proof (same_fields_length _ _ Hsf) as Hlen.
    exists r, h'. split; [done|]. split; [done|].
    intros a b Ha Hb.
    destruct (same_root_spec h a b Hf Ha Hb) as (res & -> & Hiff).
    destruct (same_root_spec h' a b Hf') as (res' & -> & Hiff'); [lia..|].
    f_equal. rewrite (same_ext _ _ Hre) in Hiff'.
    destruct res, res'; naive_solver.
Qed.

Lemma root_eq_iff_connected_witness :
  calls_ok 0 calls3 = true
  ∧ ∃ h, run [] calls3 = Some h
    ∧ length h = count_new calls3
    ∧ (∀ a b, (a < length h)%nat → (b < length h)%nat →
         ∃ res, same_root h a b = Some res
                ∧ (res = true ↔ connected calls3 a b))
    ∧ (∀ n, (n < length h)%nat →
         ∃ r h', root h n = Some (r, h') ∧ length h' = length h
           ∧ ∀ a b, (a < length h)%nat → (b < length h)%nat →
               same_root h' a b = same_root h a b).
Proof.
  split; [reflexivity|]. apply (root_eq_iff_connected calls3). reflexivity.
Defined.

(** C8. When [join] merges two distinct roots, the surviving root is one of
    the two, its [smallest] is the minimum of the two former [smallest]
    values, and its [minimal] is the [minimal] of a former root that held
    this minimum; it points at a node achieving the minimum whenever the
    former roots' references did. *)
Theorem join_recomputes_minimum (h : heap) (a b ra rb : addr) (da db : Data) :
  forest h → reach h a ra → reach h b rb → ra ≠ rb →
  h !! ra = Some da → h !! rb = Some db →
  ∃ h' s ds,
    join h a b = Some (true, h')
    ∧ (s = ra ∨ s = rb) ∧ reach h' a s ∧ reach h' b s
    ∧ h' !! s = Some ds
    ∧ smallest ds = Z.min (smallest da) (smallest db)
    ∧ ((smallest da = smallest ds ∧ minimal ds = minimal da)
       ∨ (smallest db = smallest ds ∧ minimal ds = minimal db))
    ∧ (minimal_ok h da → minimal_ok h db → minimal_ok h' ds).
Proof.
  intros Hf Hra Hrb Hne Hda Hdb.
  destruct (reach_valid _ _ _ Hra) as [Ha _].
  destruct (reach_valid _ _ _ Hrb) as [Hb _].
  destruct (join_spec h a b Hf Ha Hb)
    as (ra' & rb' & h' & Hra' & Hrb' & Hjoin & Hf' & _ & Hm).
  rewrite <-(reach_det _ _ _ _ Hra Hra') in *.
  rewrite <-(reach_det _ _ _ _ Hrb Hrb') in *. clear Hra' Hrb'.
  rewrite bool_decide_eq_true_2 in Hjoin by done.
  assert (Hminok : ∀ lo hi d d', merged h h' lo hi →
            minimal d' = minimal d → smallest d' = smallest d →
            minimal_ok h d → minimal_ok h' d').
  { intros lo hi d d' Hmg Hmin Hsm (dm & Hdm & Hpx).
    pose proof (merged_sig _ _ _ _ (minimal d) Hmg) as Hsig.
    rewrite Hdm in Hsig. unfold minimal_ok. rewrite Hmin, Hsm.
    destruct (h' !! minimal d) as [dm'|]; simplify_eq/=.
    exists dm'. split; [done|]. congruence. }
  exists h'. destruct (Hm Hne) as [Hmg|Hmg].
  - pose proof Hmg as [dlo dhi dhi' H1 H2 H3 H4 H5 H6 H7 H8 H9 H10 H11].
    simplify_eq. exists rb, dhi'. split_and!; auto.
    + apply H11. by left.
    + apply H11. by right.
    + lia.
    + destruct (Z.ltb_spec (smallest da) (smallest db)); [left|right]; split; lia || done.
    + destruct (Z.ltb_spec (smallest da) (smallest db)); intros; eapply Hminok; eauto; lia.
  - pose proof Hmg as [dlo dhi dhi' H1 H2 H3 H4 H5 H6 H7 H8 H9 H10 H11].
    simplify_eq. exists ra, dhi'. split_and!; auto.
    + apply H11. by right.
    + apply H11. by left.
    + destruct (Z.ltb_spec (smallest db) (smallest da)); [right|left]; split; lia || done.
    + destruct (Z.ltb_spec (smallest db) (smallest da)); intros; eapply Hminok; eauto; lia.
Qed.

Lemma join_recomputes_minimum_witness :
  ∃ h' s ds,
    join heap2 0 1 = Some (true, h')
    ∧ (s = 0%nat ∨ s = 1%nat) ∧ reach h' 0 s ∧ reach h' 1 s
    ∧ h' !! s = Some ds
    ∧ smallest ds = Z.min 3 2
    ∧ ((3 = smallest ds ∧ minimal ds = 0%nat)
       ∨ (2 = smallest ds ∧ minimal ds = 1%nat))
    ∧ (minimal_ok heap2 (mkData "dLQbcccdero" None 0 3 0) →
       minimal_ok heap2 (mkData "cMcabbgqs" None 0 2 1) → minimal_ok h' ds).
Proof.
  apply (join_recomputes_minimum heap2 0 1 0 1
           (mkData "dLQbcccdero" None 0 3 0) (mkData "cMcabbgqs" None 0 2 1)).
  - exists (λ _, O). intros x d p Hx Hp.
    destruct x as [|[|x]]; simplify_eq/=.
  - by eapply reach_root.
  - by eapply reach_root.
  - lia.
  - reflexivity.
  - reflexivity.
Defined.

(** C9. Once the stop flag is set, whatever the workers and other callers
    do afterwards, [enqueue] raises the runtime error and leaves the pool,
    hence the task queue, as it is. *)
Theorem enqueue_after_shutdown {task : Type} (pool pool' : ThreadPool task)
    (t : task) :
  stop pool = true → rtc pool_step pool pool' →
  enqueue pool' t = (Thrown "Called enqueue() on stopped ThreadPool", pool').
Proof.
  intros Hstop Hsteps.
  assert (Hstop' : stop pool' = true).
  { induction Hsteps as [|p1 p2 p3 Hstep _ IH]; [done|]. apply IH.
    destruct Hstep as [p t' r p' He|p r p' Hw|p].
    - unfold enqueue in He. rewrite Hstop in He. by simplify_eq.
    - unfold worker_take in Hw. destruct (tasks p); [|by simplify_eq].
      rewrite Hstop in Hw. by simplify_eq.
    - done. }
  unfold enqueue. by rewrite Hstop'.
Qed.

Lemma enqueue_after_shutdown_witness :
  stop stopped_pool = true ∧ rtc pool_step stopped_pool stopped_pool
  ∧ enqueue stopped_pool 3%nat
    = (Thrown "Called enqueue() on stopped ThreadPool", stopped_pool).
Proof.
  split; [reflexivity|]. split; [apply rtc_refl|].
  apply (enqueue_after_shutdown stopped_pool stopped_pool 3%nat);
    [reflexivity|apply rtc_refl].
Defined.

(** * Ordered maps *)

(** Membership in a list that is written out: one case for each element,
    closed by [tac]. *)
Ltac in_list H tac :=
  repeat (apply elem_of_cons in H as [H|H]; [tac|]);
  by apply elem_of_nil in H.

Section maps.
Context {V : Type}.
Implicit Types (m : smap V) (k : string) (v : V).

Lemma compare_Eq_iff k k' : String.compare k k' = Eq ↔ k = k'.
Proof.
  split; [apply String.compare_eq_iff|].
  intros ->. induction k' as [|c k' IH]; simpl; [done|].
  rewrite IH. unfold Ascii.compare. by rewrite N.compare_refl.
Qed.

Lemma compare_not_Eq k k' : String.compare k k' ≠ Eq → (k =? k')%string = false.
Proof.
  intros Hc. apply String.eqb_neq. intros ->. by apply Hc, compare_Eq_iff.
Qed.

Lemma map_find_Some_elem k v m : map_find k m = Some v → (k, v) ∈ m.
Proof.
  induction m as [|[k' v'] m IH]; simpl; [done|].
  destruct (String.eqb_spec k k') as [->|].
  - intros [= ->]. apply elem_of_cons. by left.
  - intros Hf. apply elem_of_cons. right. auto.
Qed.

Lemma map_find_Some_key k v m : map_find k m = Some v → k ∈ keys m.
Proof.
  intros Hf%map_find_Some_elem. unfold keys. apply list_elem_of_fmap.
  by exists (k, v).
Qed.

Lemma map_find_None_key k m : map_find k m = None ↔ k ∉ keys m.
Proof.
  unfold keys. induction m as [|[k' v'] m IH]; simpl.
  - split; [|done]. intros _ H. by apply elem_of_nil in H.
  - rewrite not_elem_of_cons. destruct (String.eqb_spec k k') as [->|].
    + naive_solver.
    + rewrite IH. naive_solver.
Qed.

Lemma elem_of_map_insert k v m kv :
  kv ∈ map_insert k v m → kv = (k, v) ∨ kv ∈ m.
Proof.
  induction m as [|[k' v'] m IH]; simpl.
  - intros ->%list_elem_of_singleton. by left.
  - destruct (String.compare k k').
    + by right.
    + rewrite elem_of_cons. naive_solver.
    + rewrite !elem_of_cons. naive_solver.
Qed.

Lemma elem_of_map_insert_old k v m kv : kv ∈ m → kv ∈ map_insert k v m.
Proof.
  induction m as [|[k' v'] m IH]; simpl.
  - by intros ?%elem_of_nil.
  - destruct (String.compare k k').
    + done.
    + rewrite !elem_of_cons. naive_solver.
    + rewrite !elem_of_cons. naive_solver.
Qed.

Lemma keys_map_insert k v m s :
  s ∈ keys (map_insert k v m) ↔ s = k ∨ s ∈ keys m.
Proof.
  unfold keys. induction m as [|[k' v'] m IH]; simpl.
  - rewrite list_elem_of_singleton. rewrite elem_of_nil. naive_solver.
  - destruct (String.compare k k') eqn:Hc; simpl.
    + apply compare_Eq_iff in Hc as ->. rewrite elem_of_cons. naive_solver.
    + rewrite !elem_of_cons. naive_solver.
    + rewrite !elem_of_cons, IH. naive_solver.
Qed.

Lemma map_find_insert_new k v m :
  map_find k m = None → map_find k (map_insert k v m) = Some v.
Proof.
  induction m as [|[k' v'] m IH]; simpl.
  - by rewrite String.eqb_refl.
  - destruct (String.eqb_spec k k') as [->|Hne]; [done|].
    intros Hf. destruct (String.compare k k') eqn:Hc; simpl.
    + by apply compare_Eq_iff in Hc.
    + by rewrite String.eqb_refl.
    + rewrite (proj2 (String.eqb_neq _ _) Hne). auto.
Qed.

Lemma map_find_insert_ne k k0 v m :
  k0 ≠ k → map_find k0 (map_insert k v m) = map_find k0 m.
Proof.
  intros Hne. induction m as [|[k' v'] m IH]; simpl.
  - by rewrite (proj2 (String.eqb_neq _ _) Hne).
  - destruct (String.compare k k') eqn:Hc; simpl.
    + done.
    + by rewrite (proj2 (String.eqb_neq _ _) Hne).
    + by rewrite IH.
Qed.

Lemma map_find_set_eq k v m : map_find k (map_set k v m) = Some v.
Proof.
  induction m as [|[k' v'] m IH]; simpl.
  - by rewrite String.eqb_refl.
  - destruct (String.compare k k') eqn:Hc; simpl.
    + by rewrite String.eqb_refl.
    + by rewrite String.eqb_refl.
    + by rewrite compare_not_Eq by congruence.
Qed.

Lemma map_find_set_ne k k0 v m :
  k0 ≠ k → map_find k0 (map_set k v m) = map_find k0 m.
Proof.
  intros Hne. induction m as [|[k' v'] m IH]; simpl.
  - by rewrite (proj2 (String.eqb_neq _ _) Hne).
  - destruct (String.compare k k') eqn:Hc; simpl.
    + apply compare_Eq_iff in Hc as <-.
      by rewrite (proj2 (String.eqb_neq _ _) Hne).
    + by rewrite (proj2 (String.eqb_neq _ _) Hne).
    + by rewrite IH.
Qed.

Lemma elem_of_map_set k v m kv :
  kv ∈ map_set k v m → kv = (k, v) ∨ kv ∈ m.
Proof.
  induction m as [|[k' v'] m IH]; simpl.
  - intros ->%list_elem_of_singleton. by left.
  - destruct (String.compare k k').
    + rewrite !elem_of_cons. naive_solver.
    + rewrite !elem_of_cons. naive_solver.
    + rewrite !elem_of_cons. naive_solver.
Qed.

End maps.

(** * [read] *)

Lemma graph_ok_mono h h' g :
  (length h ≤ length h')%nat → graph_ok h g → graph_ok h' g.
Proof. intros Hle Hg k a Hka. specialize (Hg k a Hka). lia. Qed.

Lemma graphs_ok_mono h h' gs :
  (length h ≤ length h')%nat → graphs_ok h gs → graphs_ok h' gs.
Proof. intros Hle Hgs p g Hpg. eapply graph_ok_mono; eauto. Qed.

Lemma graph_ok_insert h g k a :
  graph_ok h g → (a < length h)%nat → graph_ok h (map_insert k a g).
Proof.
  intros Hg Ha k' a' [?|?]%elem_of_map_insert; [by simplify_eq|]. by eapply Hg.
Qed.

Lemma graph_ok_find h gs p :
  graphs_ok h gs → graph_ok h (default [] (map_find p gs)).
Proof.
  intros Hgs. destruct (map_find p gs) as [g|] eqn:Hg; simpl.
  - eapply Hgs. by apply map_find_Some_elem.
  - intros k a Hka. by apply elem_of_nil in Hka.
Qed.

Lemma graphs_ok_set h gs p g :
  graphs_ok h gs → graph_ok h g → graphs_ok h (map_set p g gs).
Proof.
  intros Hgs Hg p' g' [?|?]%elem_of_map_set; [by simplify_eq|]. by eapply Hgs.
Qed.

Lemma read_members_spec d ms : ∀ h g,
  forest h → (d < length h)%nat → graph_ok h g →
  ∃ h' g', read_members d ms h g = Some (h', g')
    ∧ forest h' ∧ (length h ≤ length h')%nat ∧ graph_ok h' g'
    ∧ ∀ s, s ∈ keys g' ↔ s ∈ ms ∨ s ∈ keys g.
Proof.
  induction ms as [|s ms IH]; intros h g Hf Hd Hg; simpl.
  - exists h, g. split_and!; auto. intros s. rewrite elem_of_nil. naive_solver.
  - set (d0 := mkData s None 0 (proxy s) (length h)).
    assert (Hf1 : forest (h ++ [d0])) by by apply forest_app.
    assert (Hlen1 : length (h ++ [d0]) = S (length h)).
    { rewrite length_app. simpl. lia. }
    destruct (join_same (h ++ [d0]) d (length h) Hf1) as (res & h2 & -> & Hf2 & Hlen2 & _);
      [lia..|].
    simpl.
    destruct (IH h2 (map_insert s (length h) g)) as (h' & g' & -> & ? & ? & ? & Hk);
      [done|lia| |].
    { apply graph_ok_insert; [|lia]. eapply graph_ok_mono; [|done]. lia. }
    exists h', g'. split_and!; auto; [lia|].
    intros s'. rewrite Hk, keys_map_insert, elem_of_cons. naive_solver.
Qed.

Lemma data_line_header line : is_header line = true → data_line line = None.
Proof. unfold data_line. by intros ->. Qed.

Lemma simplifies_Some E s t :
  fromIsoSig E s = Some t → simplifies E s = (intelligentSimplify E t).2.
Proof. unfold simplifies. by intros ->. Qed.

Lemma graph_keys_set_eq p g gs : graph_keys p (map_set p g gs) = keys g.
Proof. unfold graph_keys. by rewrite map_find_set_eq. Qed.

Lemma graph_keys_set_ne p q g gs :
  q ≠ p → graph_keys q (map_set p g gs) = graph_keys q gs.
Proof. intros Hne. unfold graph_keys. by rewrite map_find_set_ne. Qed.

(** One line: the call returns when the engine can parse the first token of
    a data line; what it does to the maximum, the profile and the graphs. *)
Lemma read_line_spec E st line :
  reader_ok st →
  (∀ s ms, data_line line = Some (s, ms) → is_Some (fromIsoSig E s)) →
  ∃ st', read_line E st line = Some st' ∧ reader_ok st'
    ∧ rd_maxN st' = match data_line line with
                    | Some (s, _) => Z.max (rd_maxN st) (proxy s)
                    | None => rd_maxN st
                    end
    ∧ str (rd_p st') = (if is_header line then line else str (rd_p st))
    ∧ ∀ p s, s ∈ graph_keys p (rd_graphs st')
        ↔ s ∈ graph_keys p (rd_graphs st)
          ∨ ∃ f ms, data_line line = Some (f, ms) ∧ simplifies E f = false
                    ∧ p = str (rd_p st) ∧ s ∈ f :: ms.
Proof.
  intros [Hf Hgs] Hparse. unfold read_line, data_line in *.
  destruct (is_header line) eqn:Hh.
  { eexists. split; [done|]. simpl. split_and!; try done; naive_solver. }
  destruct (tokens line) as [|f ms] eqn:Ht.
  { exists st. split_and!; try done; naive_solver. }
  destruct (String.eqb f "#q") eqn:Hq.
  { eexists. split; [done|]. simpl. split_and!; try done; naive_solver. }
  destruct (Hparse f ms eq_refl) as [t Ht'].
  rewrite Ht'. simpl. rewrite <-(simplifies_Some E f t Ht').
  assert (Hmax : (if proxy f >? rd_maxN st then proxy f else rd_maxN st)
                 = Z.max (rd_maxN st) (proxy f)).
  { destruct (Z.gtb_spec (proxy f) (rd_maxN st)); lia. }
  rewrite Hmax.
  destruct (simplifies E f) eqn:Hs.
  { eexists. split; [done|]. simpl. split_and!; try done.
    intros q s. split; [by left|].
    intros [?|(f0 & ms0 & Heq & Hs0 & _)]; [done|].
    injection Heq as <- <-. congruence. }
  set (p := str (rd_p st)).
  set (d0 := mkData f None 0 (proxy f) (length (rd_heap st))).
  set (g := map_insert f (length (rd_heap st)) (default [] (map_find p (rd_graphs st)))).
  assert (Hlen1 : length (rd_heap st ++ [d0]) = S (length (rd_heap st))).
  { rewrite length_app. simpl. lia. }
  destruct (read_members_spec (length (rd_heap st)) ms (rd_heap st ++ [d0]) g)
    as (h' & g' & -> & Hf' & Hlen' & Hg' & Hk).
  { by apply forest_app. }
  { lia. }
  { apply graph_ok_insert; [|lia]. eapply graph_ok_mono; [|by apply graph_ok_find]. lia. }
  simpl. eexists. split; [done|]. simpl. split_and!; auto.
  - split; simpl; [done|]. apply graphs_ok_set; [|done].
    eapply graphs_ok_mono; [|done]. lia.
  - intros q s. destruct (decide (q = p)) as [->|Hne].
    + rewrite graph_keys_set_eq, Hk. unfold g. rewrite keys_map_insert.
      fold (graph_keys p (rd_graphs st)).
      split.
      * intros [Hm|[->|Hold]].
        -- right. exists f, ms. split_and!; auto. apply elem_of_cons. by right.
        -- right. exists f, ms. split_and!; auto. apply elem_of_cons. by left.
        -- by left.
      * intros [Hold|(f' & ms' & Heq & _ & _ & Hin)]; [auto|].
        injection Heq as <- <-. apply elem_of_cons in Hin as [->|?]; auto.
    + rewrite graph_keys_set_ne by done. naive_solver.
Qed.

Lemma first_tokens_cons line lines :
  first_tokens (line :: lines)
  = match data_line line with
    | Some (s, _) => s :: first_tokens lines
    | None => first_tokens lines
    end.
Proof. unfold first_tokens. simpl. by destruct (data_line line) as [[??]|]. Qed.

Lemma read_lines_spec E lines : ∀ st,
  reader_ok st →
  (∀ s, s ∈ first_tokens lines → is_Some (fromIsoSig E s)) →
  ∃ st', read_lines E st lines = Some st' ∧ reader_ok st'
    ∧ rd_maxN st' = foldl Z.max (rd_maxN st) (proxy <$> first_tokens lines)
    ∧ ∀ p s, s ∈ graph_keys p (rd_graphs st')
        ↔ s ∈ graph_keys p (rd_graphs st)
          ∨ ∃ toks, (p, toks) ∈ kept_lines E (str (rd_p st)) lines ∧ s ∈ toks.
Proof.
  induction lines as [|line lines IH]; intros st Hok Hparse.
  - simpl. exists st. split_and!; try done. intros p s. split; [by left|].
    intros [?|(toks & []%elem_of_nil & _)]. done.
  - rewrite first_tokens_cons in Hparse |- *. simpl read_lines.
    simpl kept_lines.
    destruct (read_line_spec E st line Hok) as (st1 & -> & Hok1 & Hmax1 & Hp1 & Hk1).
    { intros s ms Hdl. apply Hparse. rewrite Hdl. apply elem_of_cons. by left. }
    simpl. destruct (IH st1 Hok1) as (st' & -> & Hok' & Hmax' & Hk').
    { intros s Hs. apply Hparse. destruct (data_line line) as [[??]|]; [|done].
      apply elem_of_cons. by right. }
    exists st'. split_and!; try done.
    + rewrite Hmax', Hmax1.
      by destruct (data_line line) as [[??]|].
    + intros p s. rewrite Hk', Hk1, Hp1. clear.
      destruct (is_header line) eqn:Hh.
      * rewrite (data_line_header _ Hh).
        split; [intros [[?|(? & ? & ? & _)]|?]|intros [?|?]]; auto; done.
      * destruct (data_line line) as [[f ms]|];
          [|split; [intros [[?|(? & ? & ? & _)]|?]|intros [?|?]]; auto; done].
        destruct (simplifies E f) eqn:Hs.
        { split; [intros [[?|(? & ? & [= <- <-] & ? & _)]|?]|intros [?|?]];
            auto; congruence. }
        split.
        -- intros [[?|(f' & ms' & [= <- <-] & _ & -> & Hin)]|(toks & ? & ?)]; auto.
           ++ right. eexists. split; [apply elem_of_cons; by left|done].
           ++ right. exists toks. split; [apply elem_of_cons; by right|done].
        -- intros [?|(toks & [[= -> ->]|?]%elem_of_cons & ?)]; auto.
           ++ left. right. by exists f, ms.
           ++ right. by exists toks.
Qed.

Lemma foldr_max_shift a x l :
  foldr Z.max (Z.max a x) l = Z.max x (foldr Z.max a l).
Proof. induction l as [|y l IH]; simpl; lia. Qed.

Lemma foldl_max_foldr l : ∀ a, foldl Z.max a l = foldr Z.max a l.
Proof.
  induction l as [|x l IH]; intros a; simpl; [done|].
  by rewrite IH, foldr_max_shift.
Qed.

Lemma reader_ok_initial p maxN : reader_ok (mkReader p maxN [] [] [] []).
Proof.
  split; simpl.
  - apply tracks_nil.
  - intros q g Hq. by apply elem_of_nil in Hq.
Qed.

(** * The claims about the record parser *)

(** C4, as the code has it. [read] returns, when the engine can parse the
    first token of every data line, and the value returned is the maximum of
    [0] and the complexity proxies of the first tokens of all data lines:
    those dropped by the simplification test count, member tokens do not. *)
Theorem read_returns_max_of_first_tokens (E : Engine) (infile : list string) :
  (∀ s, s ∈ first_tokens infile → is_Some (fromIsoSig E s)) →
  ∃ r, read E [] infile = Some r
    ∧ rd_maxN r = foldr Z.max 0 (proxy <$> first_tokens infile).
Proof.
  intros Hparse. unfold read.
  destruct (read_lines_spec E infile _ (reader_ok_initial (mkProfile "#") 0) Hparse)
    as (r & Hr & _ & Hmax & _).
  exists r. split; [done|]. by rewrite Hmax, foldl_max_foldr.
Qed.

Lemma read_returns_max_of_first_tokens_witness :
  (∀ s, s ∈ first_tokens census_dropped →
        is_Some (fromIsoSig simplifying_engine s))
  ∧ ∃ r, read simplifying_engine [] census_dropped = Some r
      ∧ rd_maxN r = foldr Z.max 0 (proxy <$> first_tokens census_dropped).
Proof.
  assert (H : ∀ s, s ∈ first_tokens census_dropped →
                is_Some (fromIsoSig simplifying_engine s)).
  { intros s _. simpl. by eexists. }
  split; [exact H|].
  exact (read_returns_max_of_first_tokens simplifying_engine census_dropped H).
Defined.

(** C4, as stated, fails: the signature of three tetrahedra is dropped, the
    one kept has two, and [read] returns [2]. Nor does [read] return for
    every input file: on a first token for which [fromIsoSig] gives a null
    pointer, [tri->intelligentSimplify()] dereferences it. *)
Lemma read_max_counterexample :
  (∃ r, read simplifying_engine [] census_dropped = Some r
    ∧ kept_signatures r = ["bA"]
    ∧ foldr Z.max 0 (proxy <$> kept_signatures r) = 1
    ∧ rd_maxN r = 2)
  ∧ first_tokens census_unparsed = ["cA"; "zz"; "cB"]
  ∧ fromIsoSig picky_engine "zz" = None
  ∧ read picky_engine [] census_unparsed = None.
Proof.
  split; [|by vm_compute].
  eexists. split; [reflexivity|]. by vm_compute.
Qed.

(** C5, as the code has it. The graphs that [read] builds hold exactly the
    tokens of the data lines whose first token the engine does not simplify,
    each under the profile in force at its line: only the first token is
    tested, a line whose first token simplifies is skipped with all its
    members, and the members of a kept line become nodes untested. *)
Theorem read_tests_first_token_only (E : Engine) (infile : list string) :
  (∀ s, s ∈ first_tokens infile → is_Some (fromIsoSig E s)) →
  ∃ r, read E [] infile = Some r
    ∧ ∀ p s, s ∈ graph_keys p (rd_graphs r)
        ↔ ∃ toks, (p, toks) ∈ kept_lines E "#" infile ∧ s ∈ toks.
Proof.
  intros Hparse. unfold read.
  destruct (read_lines_spec E infile _ (reader_ok_initial (mkProfile "#") 0) Hparse)
    as (r & Hr & _ & _ & Hk).
  exists r. split; [done|]. intros p s. rewrite Hk. simpl.
  unfold graph_keys at 1. simpl. rewrite elem_of_nil. naive_solver.
Qed.

Lemma read_tests_first_token_only_witness :
  (∀ s, s ∈ first_tokens census_member →
        is_Some (fromIsoSig simplifying_engine s))
  ∧ ∃ r, read simplifying_engine [] census_member = Some r
      ∧ ∀ p s, s ∈ graph_keys p (rd_graphs r)
          ↔ ∃ toks, (p, toks) ∈ kept_lines simplifying_engine "#" census_member
                    ∧ s ∈ toks.
Proof.
  assert (H : ∀ s, s ∈ first_tokens census_member →
                is_Some (fromIsoSig simplifying_engine s)).
  { intros s _. simpl. by eexists. }
  split; [exact H|].
  exact (read_tests_first_token_only simplifying_engine census_member H).
Defined.

(** C5, as stated, fails: the member ["cA"] becomes a node although the
    engine simplifies it. What is said of every data line is said of the
    files whose first tokens the engine can parse: on a first token for
    which [fromIsoSig] gives a null pointer, [read] dereferences it and the
    lines that follow are not read. *)
Lemma read_member_counterexample :
  (∃ r, read simplifying_engine [] census_member = Some r
    ∧ "cA" ∈ graph_keys "#" (rd_graphs r)
    ∧ simplifies simplifying_engine "cA" = true)
  ∧ first_tokens census_unparsed = ["cA"; "zz"; "cB"]
  ∧ fromIsoSig picky_engine "zz" = None
  ∧ read picky_engine [] census_unparsed = None.
Proof.
  split; [|by vm_compute].
  eexists. split; [reflexivity|]. split; [|reflexivity].
  vm_compute. apply elem_of_cons. right. apply elem_of_cons. by left.
Qed.

(** * [process] *)

Lemma same_app_old h d x y :
  forest h → parent d = None → same h x y → same (h ++ [d]) x y.
Proof. intros Hf Hd Hs. apply same_app; auto. Qed.

(** One candidate: the call of [join] returns, the signature is a key of the
    graph afterwards and its node is in the class of [p]; the queue only
    grows, by the signature when it is new. *)
Lemma visit_spec p prof maxN next h g n sh ce :
  forest h → graph_ok h g → (p < length h)%nat →
  ∃ h' g' added n' ce',
    (∀ q, visit p prof maxN next (mkExplorer h g q n sh ce)
          = Some (mkExplorer h' g' (q ++ (Some <$> added)) n'
                    (sh || (proxy next <? maxN)) ce'))
    ∧ forest h' ∧ graph_ok h' g' ∧ (length h ≤ length h')%nat
    ∧ (∀ k a, map_find k g = Some a → map_find k g' = Some a)
    ∧ (∃ e, map_find next g' = Some e ∧ same h' p e)
    ∧ (∀ x y, same h x y → same h' x y)
    ∧ (∀ k, k ∈ added → is_Some (map_find k g')).
Proof.
  intros Hf Hg Hp. unfold visit. simpl.
  assert (Hsh : (if proxy next <? maxN then true else sh)
                = sh || (proxy next <? maxN)).
  { destruct (proxy next <? maxN), sh; done. }
  rewrite Hsh. destruct (map_find next g) as [e|] eqn:Hfind.
  - assert (He : (e < length h)%nat) by (eapply Hg; by apply map_find_Some_elem).
    destruct (join_same h p e Hf Hp He) as (res & h' & Hj & Hf' & Hlen & _ & Hsame).
    rewrite Hj. simpl. eexists h', g, [], _, ce. split_and!; auto.
    + intros q. by rewrite app_nil_r.
    + intros k a Hka. rewrite Hlen. by eapply Hg.
    + lia.
    + exists e. split; [done|]. apply Hsame. right. left.
      split; by apply same_refl.
    + intros x y Hxy. apply Hsame. by left.
    + intros k Hk. by apply elem_of_nil in Hk.
  - set (d0 := mkData next None 0 (proxy next) (length h)).
    assert (Hf1 : forest (h ++ [d0])) by by apply forest_app.
    assert (Hlen1 : length (h ++ [d0]) = S (length h)).
    { rewrite length_app. simpl. lia. }
    destruct (join_same (h ++ [d0]) p (length h) Hf1)
      as (res & h' & Hj & Hf' & Hlen & _ & Hsame); [lia..|].
    rewrite Hj. simpl. eexists h', _, [next], n, _. split_and!; auto.
    + apply graph_ok_insert; [|lia]. eapply graph_ok_mono; [|done]. lia.
    + lia.
    + intros k a Hka. rewrite map_find_insert_ne; [done|]. congruence.
    + exists (length h). split; [by apply map_find_insert_new|].
      apply Hsame. right. left. split; apply same_refl; auto; lia.
    + intros x y Hxy. apply Hsame. left. by apply same_app_old.
    + intros k ->%list_elem_of_singleton. rewrite map_find_insert_new; eauto.
Qed.

Lemma visit_all_spec p prof maxN nexts : ∀ h g n sh ce,
  forest h → graph_ok h g → (p < length h)%nat →
  ∃ h' g' added n' ce',
    (∀ q, visit_all p prof maxN nexts (mkExplorer h g q n sh ce)
          = Some (mkExplorer h' g' (q ++ (Some <$> added)) n'
                    (sh || existsb (λ s, proxy s <? maxN) nexts) ce'))
    ∧ forest h' ∧ graph_ok h' g' ∧ (length h ≤ length h')%nat
    ∧ (∀ k a, map_find k g = Some a → map_find k g' = Some a)
    ∧ (∀ next, next ∈ nexts → ∃ e, map_find next g' = Some e ∧ same h' p e)
    ∧ (∀ x y, same h x y → same h' x y)
    ∧ (∀ k, k ∈ added → is_Some (map_find k g')).
Proof.
  induction nexts as [|next nexts IH]; intros h g n sh ce Hf Hg Hp.
  - exists h, g, [], n, ce. split_and!; auto.
    + intros q. simpl. by rewrite app_nil_r, orb_false_r.
    + intros next Hn. by apply elem_of_nil in Hn.
    + intros k Hk. by apply elem_of_nil in Hk.
  - destruct (visit_spec p prof maxN next h g n sh ce Hf Hg Hp)
      as (h1 & g1 & add1 & n1 & ce1 & Hv & Hf1 & Hg1 & Hlen1 & Hk1 & He1 & Hs1 & Ha1).
    destruct (IH h1 g1 n1 (sh || (proxy next <? maxN)) ce1 Hf1 Hg1)
      as (h' & g' & add2 & n' & ce' & Hv' & Hf' & Hg' & Hlen' & Hk' & He' & Hs' & Ha');
      [lia|].
    exists h', g', (add1 ++ add2), n', ce'. split_and!; auto.
    + intros q. simpl. rewrite Hv. simpl. rewrite Hv'.
      by rewrite fmap_app, app_assoc, orb_assoc.
    + lia.
    + intros nx [->|Hn]%elem_of_cons; [|by apply He'].
      destruct He1 as (e & He & Hse). exists e. split; auto.
    + intros k [Hk|Hk]%elem_of_app; [|by apply Ha'].
      destruct (Ha1 k Hk) as [a Hka]. exists a. by apply Hk'.
Qed.

Lemma visit_all_app p prof maxN l1 l2 st :
  visit_all p prof maxN (l1 ++ l2) st
  = st' ← visit_all p prof maxN l1 st; visit_all p prof maxN l2 st'.
Proof.
  revert st. induction l1 as [|x l1 IH]; intros st; simpl; [done|].
  destruct (visit p prof maxN x st) as [st1|]; simpl; [apply IH|done].
Qed.

Lemma process_body_moves E p prof maxN h g q n sh ce d t :
  h !! p = Some d → fromIsoSig E (sig d) = Some t →
  process_body E p prof maxN (mkExplorer h g q n sh ce)
  = Some <$> visit_all p prof maxN (moves E t) (mkExplorer h g q n false ce).
Proof.
  intros Hd Ht. unfold process_body, moves. simpl. rewrite Hd. simpl.
  rewrite Ht. rewrite visit_all_app.
  destruct (visit_all p prof maxN (moves_32 E t) _) as [st1|]; simpl; [|done].
  rewrite visit_all_app.
  destruct (visit_all p prof maxN (moves_44 E t) st1) as [st2|]; simpl; [|done].
  by destruct (visit_all p prof maxN (moves_23 E t) st2) as [st3|].
Qed.

Lemma visit_shrunk p prof maxN next st st' :
  visit p prof maxN next st = Some st' →
  ex_shrunk st' = ex_shrunk st || (proxy next <? maxN).
Proof.
  unfold visit.
  assert (Hsh : (if proxy next <? maxN then true else ex_shrunk st)
                = ex_shrunk st || (proxy next <? maxN)).
  { destruct (proxy next <? maxN), (ex_shrunk st); done. }
  rewrite Hsh. destruct (map_find next (ex_graph st)); simpl.
  - destruct (join _ _ _) as [[??]|]; simpl; [|done]. by intros [= <-].
  - destruct (join _ _ _) as [[??]|]; simpl; [|done]. by intros [= <-].
Qed.

Lemma visit_all_shrunk p prof maxN nexts : ∀ st st',
  visit_all p prof maxN nexts st = Some st' →
  ex_shrunk st' = ex_shrunk st || existsb (λ s, proxy s <? maxN) nexts.
Proof.
  induction nexts as [|next nexts IH]; intros st st'; simpl.
  - intros [= <-]. by rewrite orb_false_r.
  - destruct (visit p prof maxN next st) as [st1|] eqn:Hv; simpl; [|done].
    intros Hall. rewrite (IH _ _ Hall), (visit_shrunk _ _ _ _ _ _ Hv).
    by rewrite orb_assoc.
Qed.

(** [process] returns [false] exactly when a move of its node shrinks and
    the count that the call holds at the end is one. *)
Lemma process_keepGoing E p prof maxN nComp c c' :
  process E p prof maxN nComp c = Some c' →
  ∃ cnt, final_count E p prof maxN nComp c = Some cnt
    ∧ cl_keepGoing c'
      = negb (shrink_found E maxN (cl_heap c) p && (cnt =? 1)).
Proof.
  unfold process, final_count, shrink_found.
  destruct (process_body _ _ _ _ _) as [r|] eqn:Hb; simpl; [|done].
  unfold process_body in Hb. simpl in Hb.
  destruct (cl_heap c !! p) as [d|]; simpl in *; [|done].
  destruct (fromIsoSig E (sig d)) as [t|].
  - destruct (visit_all p prof maxN (moves_32 E t) _) as [st1|] eqn:H1;
      simpl in Hb; [|done].
    destruct (visit_all p prof maxN (moves_44 E t) _) as [st2|] eqn:H2;
      simpl in Hb; [|done].
    destruct (visit_all p prof maxN (moves_23 E t) _) as [st3|] eqn:H3;
      simpl in Hb; [|done].
    injection Hb as <-. intros [= <-]. eexists. split; [done|]. simpl.
    rewrite (visit_all_shrunk _ _ _ _ _ _ H3), (visit_all_shrunk _ _ _ _ _ _ H2),
      (visit_all_shrunk _ _ _ _ _ _ H1). simpl.
    unfold moves. by rewrite !existsb_app, orb_assoc.
  - injection Hb as <-. intros [= <-]. eexists. split; [done|]. done.
Qed.

(** [process] returns on a forest; it touches the queue only by appending the
    signatures it has found new. *)
Lemma process_spec E p prof maxN nComp h g kg ce :
  forest h → graph_ok h g → (p < length h)%nat →
  ∃ h' g' added kg' ce',
    (∀ q, process E p prof maxN nComp (mkCaller h g q kg ce)
          = Some (mkCaller h' g' (q ++ (Some <$> added)) kg' ce'))
    ∧ forest h' ∧ graph_ok h' g' ∧ (length h ≤ length h')%nat
    ∧ (∀ k a, map_find k g = Some a → map_find k g' = Some a)
    ∧ (∀ x y, same h x y → same h' x y)
    ∧ (∀ d t, h !! p = Some d → fromIsoSig E (sig d) = Some t →
         ∀ next, next ∈ moves E t →
           ∃ e, map_find next g' = Some e ∧ same h' p e)
    ∧ (∀ k, k ∈ added → is_Some (map_find k g')).
Proof.
  intros Hf Hg Hp. unfold process. simpl.
  destruct (lookup_lt_is_Some_2 h p Hp) as [d Hd].
  destruct (fromIsoSig E (sig d)) as [t|] eqn:Ht.
  - destruct (visit_all_spec p prof maxN (moves E t) h g nComp false ce Hf Hg Hp)
      as (h' & g' & added & n' & ce' & Hv & Hf' & Hg' & Hlen & Hk & He & Hs & Ha).
    exists h', g', added. eexists _, ce'. split_and!; auto.
    + intros q. rewrite (process_body_moves _ _ _ _ _ _ _ _ _ _ d t Hd Ht), Hv.
      simpl. reflexivity.
    + intros d' t' Hd' Ht'. rewrite Hd in Hd'. injection Hd' as <-.
      rewrite Ht in Ht'. injection Ht' as <-. done.
  - exists h, g, []. eexists true, ce. split_and!; auto.
    + intros q. unfold process_body. simpl. rewrite Hd. simpl. rewrite Ht.
      simpl. by rewrite app_nil_r.
    + intros d' t' Hd' Ht'. rewrite Hd in Hd'. injection Hd' as <-. congruence.
    + intros k Hk. by apply elem_of_nil in Hk.
Qed.

(** * The generations of [pachner] *)

Lemma drain_S E k prof maxN nComp c :
  drain E (S k) prof maxN nComp c
  = front ← head (cl_q c);
    match front with
    | None => Some c
    | Some key =>
        if cl_keepGoing c then
          p ← map_find key (cl_graph c);
          c' ← process E p prof maxN nComp c;
          drain E k prof maxN nComp
            (mkCaller (cl_heap c') (cl_graph c') (tail (cl_q c'))
               (cl_keepGoing c') (cl_cerr c'))
        else Some c
    end.
Proof. done. Qed.

(** The loop over one generation ends within the fuel of one unit for each
    queued node and one for the end marker; it processes the queued nodes in
    order and leaves as soon as a call of [process] has returned [false]. *)
Lemma drain_spec E prof maxN nComp cur : ∀ fuel h g nxt ce,
  forest h → graph_ok h g →
  (∀ k, k ∈ cur → is_Some (map_find k g)) →
  (∀ k, k ∈ nxt → is_Some (map_find k g)) →
  (length cur < fuel)%nat →
  ∃ c1 todo nxt',
    process_until_false E prof maxN nComp cur
      (mkCaller h g (Some <$> nxt) true ce) = Some (c1, todo)
    ∧ caller_ok c1 ∧ (length h ≤ length (cl_heap c1))%nat
    ∧ cl_q c1 = Some <$> nxt'
    ∧ (∀ k, k ∈ nxt' → is_Some (map_find k (cl_graph c1)))
    ∧ (cl_keepGoing c1 = true → todo = [])
    ∧ drain E fuel prof maxN nComp
        (mkCaller h g ((Some <$> cur) ++ None :: (Some <$> nxt)) true ce)
      = Some (mkCaller (cl_heap c1) (cl_graph c1)
                ((Some <$> todo) ++ None :: cl_q c1)
                (cl_keepGoing c1) (cl_cerr c1)).
Proof.
  induction cur as [|key cur IH]; intros fuel h g nxt ce Hf Hg Hcur Hnxt Hfuel.
  - destruct fuel as [|k]; [lia|]. eexists _, [], nxt. simpl.
    split_and!; try done.
  - destruct fuel as [|k]; [simpl in Hfuel; lia|].
    destruct (Hcur key) as [p Hp]; [apply elem_of_cons; by left|].
    assert (Hpv : (p < length h)%nat).
    { eapply Hg. by apply map_find_Some_elem. }
    destruct (process_spec E p prof maxN nComp h g true ce Hf Hg Hpv)
      as (h' & g' & added & kg' & ce' & Hproc & Hf' & Hg' & Hlen & Hk & _ & _ & Ha).
    assert (Hcur' : ∀ k0, k0 ∈ cur → is_Some (map_find k0 g')).
    { intros k0 Hk0. destruct (Hcur k0) as [a Hka]; [apply elem_of_cons; by right|].
      exists a. by apply Hk. }
    assert (Hnxt' : ∀ k0, k0 ∈ nxt ++ added → is_Some (map_find k0 g')).
    { intros k0 [Hk0|Hk0]%elem_of_app; [|by apply Ha].
      destruct (Hnxt k0 Hk0) as [a Hka]. exists a. by apply Hk. }
    assert (Hqe : ∀ A : gQueue,
              (A ++ None :: (Some <$> nxt)) ++ (Some <$> added)
              = A ++ None :: (Some <$> nxt ++ added)).
    { intros A. by rewrite fmap_app, <-app_assoc. }
    rewrite drain_S. simpl. rewrite Hp. simpl. rewrite !Hproc. simpl.
    rewrite Hqe, <-fmap_app.
    destruct kg'.
    + simpl in Hfuel.
      destruct (IH k h' g' (nxt ++ added) ce' Hf' Hg' Hcur' Hnxt')
        as (c1 & todo & nxt' & Hpuf & Hok & Hl1 & Hq & Hn' & Htodo & Hdrain);
        [lia|].
      exists c1, todo, nxt'. split_and!; try done. lia.
    + simpl in Hfuel. destruct k as [|k]; [lia|].
      eexists _, cur, (nxt ++ added). split_and!; try done.
      rewrite drain_S. by destruct cur.
Qed.

Lemma generation_spec E prof maxN nComp cur h g ce :
  forest h → graph_ok h g →
  (∀ k, k ∈ cur → is_Some (map_find k g)) →
  ∃ c1 todo nxt',
    process_until_false E prof maxN nComp cur
      (mkCaller h g [] true
         (match cur with [] => ce ++ ["NOTHING REMAINING!"] | _ => ce end))
    = Some (c1, todo)
    ∧ caller_ok c1 ∧ (length h ≤ length (cl_heap c1))%nat
    ∧ cl_q c1 = Some <$> nxt'
    ∧ (∀ k, k ∈ nxt' → is_Some (map_find k (cl_graph c1)))
    ∧ (cl_keepGoing c1 = true → todo = [])
    ∧ generation E prof maxN nComp (mkCaller h g (Some <$> cur) true ce)
      = Some (mkCaller (cl_heap c1) (cl_graph c1)
                (tail ((Some <$> todo) ++ None :: cl_q c1))
                (cl_keepGoing c1) (cl_cerr c1)).
Proof.
  intros Hf Hg Hcur.
  set (ce0 := match cur with [] => ce ++ ["NOTHING REMAINING!"] | _ => ce end).
  destruct (drain_spec E prof maxN nComp cur (S (length cur)) h g [] ce0 Hf Hg Hcur)
    as (c1 & todo & nxt' & Hpuf & Hok & Hl1 & Hq & Hn & Htodo & Hdrain).
  { intros k Hk. by apply elem_of_nil in Hk. }
  { lia. }
  exists c1, todo, nxt'. split_and!; try done.
  unfold generation. simpl cl_q. simpl cl_heap. simpl cl_graph.
  simpl cl_keepGoing. simpl cl_cerr.
  replace (length ((Some <$> cur) ++ [None])) with (S (length cur))
    by (rewrite length_app, length_fmap; simpl; lia).
  assert (Hce : match Some <$> cur with
                | [] => ce ++ ["NOTHING REMAINING!"]
                | _ :: _ => ce
                end = ce0) by by destruct cur.
  rewrite Hce. change (Some <$> []) with (@nil (option string)) in Hdrain.
  rewrite Hdrain. simpl. by destruct todo.
Qed.

(** The exploration of a graph always returns. *)
Lemma explore_total E prof maxN nComp levels : ∀ c cur,
  caller_ok c →
  (cl_keepGoing c = true →
     cl_q c = Some <$> cur ∧ ∀ k, k ∈ cur → is_Some (map_find k (cl_graph c))) →
  ∃ c', explore E levels prof maxN nComp c = Some c' ∧ caller_ok c'
        ∧ (length (cl_heap c) ≤ length (cl_heap c'))%nat.
Proof.
  induction levels as [|n IH]; intros c cur Hok Hq; simpl.
  - by exists c.
  - destruct c as [h g q kg ce]. destruct kg; [|by eexists].
    destruct Hok as [Hf Hg]. destruct (Hq eq_refl) as [Hqe Hcur].
    simpl in *. subst q.
    destruct (generation_spec E prof maxN nComp cur h g ce Hf Hg Hcur)
      as (c1 & todo & nxt' & _ & Hok1 & Hl1 & Hq1 & Hn1 & Htodo & ->).
    simpl.
    destruct (IH (mkCaller (cl_heap c1) (cl_graph c1)
                    (tail ((Some <$> todo) ++ None :: cl_q c1))
                    (cl_keepGoing c1) (cl_cerr c1)) nxt')
      as (c' & Hex & Hok' & Hl'); [done| |].
    { simpl. intros Hkg. rewrite (Htodo Hkg). simpl. done. }
    exists c'. split_and!; try done. simpl in Hl'. lia.
Qed.

(** * The signatures of the three loops *)

Lemma elem_of_moves_32 E t next :
  next ∈ moves_32 E t
  ↔ ∃ i, (i < countEdges E t)%nat ∧ threeTwoMove_check E t i = true
         ∧ next = isoSig E (intelligentSimplify E (threeTwoMove_perform E t i)).1.
Proof.
  unfold moves_32, next_32. rewrite list_elem_of_fmap.
  setoid_rewrite list_elem_of_filter. setoid_rewrite elem_of_seq.
  split; intros (i & ? & ? & ?); exists i; split_and!; auto; lia.
Qed.

Lemma elem_of_moves_44 E t next :
  next ∈ moves_44 E t
  ↔ ∃ i j, (i < countEdges E t)%nat ∧ (j < 2)%nat
           ∧ fourFourMove_check E t i j = true
           ∧ next = isoSig E
                      (intelligentSimplify E (fourFourMove_perform E t i j)).1.
Proof.
  unfold moves_44, next_44. rewrite list_elem_of_bind.
  setoid_rewrite list_elem_of_fmap. setoid_rewrite list_elem_of_filter.
  setoid_rewrite elem_of_seq. split.
  - intros (i & (j & ? & ? & ?) & ?). exists i, j. split_and!; auto; lia.
  - intros (i & j & ? & ? & ? & ?). exists i. split; [|lia].
    exists j. split_and!; auto; lia.
Qed.

Lemma elem_of_moves_23 E t next :
  next ∈ moves_23 E t
  ↔ ∃ i, (i < countTriangles E t)%nat ∧ twoThreeMove_check E t i = true
         ∧ next = isoSig E (twoThreeMove_perform E t i).
Proof.
  unfold moves_23, next_23. rewrite list_elem_of_fmap.
  setoid_rewrite list_elem_of_filter. setoid_rewrite elem_of_seq.
  split; intros (i & ? & ? & ?); exists i; split_and!; auto; lia.
Qed.

Lemma existsb_elem_of {A : Type} (f : A → bool) (l : list A) :
  existsb f l = true ↔ ∃ x, x ∈ l ∧ f x = true.
Proof.
  rewrite existsb_exists. by setoid_rewrite list_elem_of_In.
Qed.

(** * The claims about the explorer *)

Lemma forest_one_class : forest heap_one_class.
Proof.
  exists (λ x, x). intros x d p Hx Hp.
  destruct x as [|[|x]]; simplify_eq/=. lia.
Qed.

Lemma graph_ok_one_class : graph_ok heap_one_class graph_one_class.
Proof.
  intros k a Hka. simpl. in_list Hka ltac:(simplify_eq; lia).
Qed.


Lemma forest_bA : forest heap_bA.
Proof.
  exists (λ x, x). intros x d p Hx Hp. destruct x as [|x]; simplify_eq/=.
Qed.

Lemma graph_ok_bA : graph_ok heap_bA graph_bA.
Proof.
  intros k a Hka. simpl. in_list Hka ltac:(simplify_eq; lia).
Qed.

(** C6, as the code has it. For every legal candidate [process] looks up and
    joins the signature of a copy of the triangulation to which the move was
    applied: after simplifying the copy for the 3-2 and the 4-4 moves,
    without simplifying it for the 2-3 moves. Afterwards each such signature
    is a node of the graph in the class of the source, and the shrink test
    that decides the return value was made on the same signatures. *)
Theorem process_derives_signatures (E : Engine) (p : addr) (prof : Profile)
    (maxN : Z) (nComp : smap Z) (c : caller) (d : Data) (t : tri E) :
  caller_ok c → cl_heap c !! p = Some d → fromIsoSig E (sig d) = Some t →
  ∃ c' cnt,
    process E p prof maxN nComp c = Some c'
    ∧ final_count E p prof maxN nComp c = Some cnt
    ∧ (∀ i, (i < countEdges E t)%nat → threeTwoMove_check E t i = true →
         ∃ e, map_find
                (isoSig E (intelligentSimplify E (threeTwoMove_perform E t i)).1)
                (cl_graph c') = Some e
              ∧ same (cl_heap c') p e)
    ∧ (∀ i j, (i < countEdges E t)%nat → (j < 2)%nat →
         fourFourMove_check E t i j = true →
         ∃ e, map_find
                (isoSig E
                   (intelligentSimplify E (fourFourMove_perform E t i j)).1)
                (cl_graph c') = Some e
              ∧ same (cl_heap c') p e)
    ∧ (∀ i, (i < countTriangles E t)%nat → twoThreeMove_check E t i = true →
         ∃ e, map_find (isoSig E (twoThreeMove_perform E t i)) (cl_graph c')
              = Some e
              ∧ same (cl_heap c') p e)
    ∧ (cl_keepGoing c' = false
       ↔ cnt = 1
         ∧ ((∃ i, (i < countEdges E t)%nat ∧ threeTwoMove_check E t i = true
                  ∧ proxy (isoSig E (intelligentSimplify E
                                       (threeTwoMove_perform E t i)).1) < maxN)
            ∨ (∃ i j, (i < countEdges E t)%nat ∧ (j < 2)%nat
                      ∧ fourFourMove_check E t i j = true
                      ∧ proxy (isoSig E (intelligentSimplify E
                                           (fourFourMove_perform E t i j)).1)
                        < maxN)
            ∨ (∃ i, (i < countTriangles E t)%nat
                    ∧ twoThreeMove_check E t i = true
                    ∧ proxy (isoSig E (twoThreeMove_perform E t i)) < maxN))).
Proof.
  intros [Hf Hg] Hd Ht. destruct c as [h g q kg ce]. simpl in *.
  assert (Hp : (p < length h)%nat) by by eapply lookup_lt_Some.
  destruct (process_spec E p prof maxN nComp h g kg ce Hf Hg Hp)
    as (h' & g' & added & kg' & ce' & Hproc & _ & _ & _ & _ & _ & Hmoves & _).
  specialize (Hmoves d t Hd Ht).
  destruct (process_keepGoing _ _ _ _ _ _ _ (Hproc q)) as (cnt & Hcnt & Hkg).
  eexists _, cnt. split; [apply Hproc|]. split; [done|]. simpl in *.
  split_and!.
  - intros i Hi Hc. apply Hmoves. unfold moves. rewrite !elem_of_app. left.
    apply elem_of_moves_32. eauto.
  - intros i j Hi Hj Hc. apply Hmoves. unfold moves. rewrite !elem_of_app.
    right. left. apply elem_of_moves_44. eauto 10.
  - intros i Hi Hc. apply Hmoves. unfold moves. rewrite !elem_of_app.
    right. right. apply elem_of_moves_23. eauto.
  - rewrite Hkg, negb_false_iff, andb_true_iff, Z.eqb_eq.
    unfold shrink_found. rewrite Hd, Ht. rewrite existsb_elem_of.
    unfold moves. setoid_rewrite elem_of_app. setoid_rewrite elem_of_app.
    setoid_rewrite elem_of_moves_32. setoid_rewrite elem_of_moves_44.
    setoid_rewrite elem_of_moves_23. setoid_rewrite Z.ltb_lt.
    split.
    + intros [(s & [(i & ? & ? & ->)|[(i & j & ? & ? & ? & ->)|(i & ? & ? & ->)]] & ?) ->].
      * split; [done|]. left. eauto.
      * split; [done|]. right. left. eauto 10.
      * split; [done|]. right. right. eauto.
    + intros [-> [(i & ? & ? & ?)|[(i & j & ? & ? & ? & ?)|(i & ? & ? & ?)]]].
      * split; [|done]. eexists. split; [|done]. left. eauto.
      * split; [|done]. eexists. split; [|done]. right. left. eauto 10.
      * split; [|done]. eexists. split; [|done]. right. right. eauto.
Qed.

Lemma process_derives_signatures_witness :
  ∃ c' cnt,
    process moving_engine 0 (mkProfile "#") 1 [("#", 1)]
      (mkCaller heap_bA graph_bA [] true []) = Some c'
    ∧ final_count moving_engine 0 (mkProfile "#") 1 [("#", 1)]
        (mkCaller heap_bA graph_bA [] true []) = Some cnt
    ∧ (∀ i, (i < 1)%nat → threeTwoMove_check moving_engine "bA" i = true →
         ∃ e, map_find
                (isoSig moving_engine
                   (intelligentSimplify moving_engine
                      (threeTwoMove_perform moving_engine "bA" i)).1)
                (cl_graph c') = Some e
              ∧ same (cl_heap c') 0 e)
    ∧ (∀ i j, (i < 1)%nat → (j < 2)%nat →
         fourFourMove_check moving_engine "bA" i j = true →
         ∃ e, map_find
                (isoSig moving_engine
                   (intelligentSimplify moving_engine
                      (fourFourMove_perform moving_engine "bA" i j)).1)
                (cl_graph c') = Some e
              ∧ same (cl_heap c') 0 e)
    ∧ (∀ i, (i < 1)%nat → twoThreeMove_check moving_engine "bA" i = true →
         ∃ e, map_find
                (isoSig moving_engine (twoThreeMove_perform moving_engine "bA" i))
                (cl_graph c') = Some e
              ∧ same (cl_heap c') 0 e)
    ∧ (cl_keepGoing c' = false
       ↔ cnt = 1
         ∧ ((∃ i, (i < 1)%nat ∧ threeTwoMove_check moving_engine "bA" i = true
                  ∧ proxy (isoSig moving_engine
                             (intelligentSimplify moving_engine
                                (threeTwoMove_perform moving_engine "bA" i)).1)
                    < 1)
            ∨ (∃ i j, (i < 1)%nat ∧ (j < 2)%nat
                      ∧ fourFourMove_check moving_engine "bA" i j = true
                      ∧ proxy (isoSig moving_engine
                                 (intelligentSimplify moving_engine
                                    (fourFourMove_perform moving_engine "bA" i j)).1)
                        < 1)
            ∨ (∃ i, (i < 1)%nat
                    ∧ twoThreeMove_check moving_engine "bA" i = true
                    ∧ proxy (isoSig moving_engine
                               (twoThreeMove_perform moving_engine "bA" i))
                      < 1))).
Proof.
  exact (process_derives_signatures moving_engine 0 (mkProfile "#") 1
           [("#", 1)] (mkCaller heap_bA graph_bA [] true [])
           (mkData "bA" None 0 1 0) "bA"
           (conj forest_bA graph_ok_bA) eq_refl eq_refl).
Defined.

(** C6, as stated, fails for the 2-3 moves: the legal 2-3 move on ["bA"]
    gives ["cX"], whose simplified copy has the signature ["bB"]; the node
    that [process] creates is ["cX"], and ["bB"] is not looked up or
    joined. *)
Lemma two_three_copy_not_simplified :
  ∃ c',
    process moving_engine 0 (mkProfile "#") 1 [("#", 1)]
      (mkCaller heap_bA graph_bA [] true []) = Some c'
    ∧ twoThreeMove_check moving_engine "bA" 0 = true
    ∧ isoSig moving_engine
        (intelligentSimplify moving_engine
           (twoThreeMove_perform moving_engine "bA" 0)).1 = "bB"
    ∧ map_find "bB" (cl_graph c') = None
    ∧ map_find "cX" (cl_graph c') = Some 1%nat.
Proof.
  eexists. split; [vm_compute; reflexivity|]. split_and!; reflexivity.
Qed.

(** * [dump_pachner] *)

Lemma elem_of_multimap_insert {V : Type} (k : string) (v : V) (m : smap V) kv :
  kv ∈ multimap_insert k v m ↔ kv = (k, v) ∨ kv ∈ m.
Proof.
  induction m as [|[k' v'] m IH]; simpl.
  - rewrite list_elem_of_singleton, elem_of_nil. tauto.
  - destruct (String.compare k k'); rewrite !elem_of_cons; try rewrite IH;
      rewrite ?elem_of_cons; tauto.
Qed.

Lemma elem_of_values_multimap_insert (k v : string) (m : smap string) s :
  s ∈ (multimap_insert k v m).*2 ↔ s = v ∨ s ∈ m.*2.
Proof.
  rewrite !list_elem_of_fmap. split.
  - intros ([k0 v0] & -> & [[= -> ->]|Hin]%elem_of_multimap_insert); [by left|].
    right. by exists (k0, v0).
  - intros [->|([k0 v0] & -> & Hin)].
    + exists (k, v). split; [done|]. apply elem_of_multimap_insert. by left.
    + exists (k0, v0). split; [done|]. apply elem_of_multimap_insert. by right.
Qed.

(** A root has the same fields in two arenas with the same classes that
    differ in [parent] fields only. *)
Lemma equiv_root_lookup h0 h r d :
  same_fields h0 h → (∀ x s, reach h x s ↔ reach h0 x s) →
  h !! r = Some d → parent d = None → h0 !! r = Some d.
Proof.
  intros Hsf Hre Hd Hp.
  assert (Hr : reach h0 r r) by (apply Hre; by eapply reach_root).
  destruct (reach_is_root _ _ _ Hr) as (d0 & Hd0 & Hp0).
  destruct (same_fields_lookup _ _ _ _ Hsf Hd0) as (d' & Hd' & He).
  rewrite Hd in Hd'. injection Hd' as <-. rewrite Hd0. f_equal.
  symmetry. by apply erase_root_eq.
Qed.

Lemma pachner_comps_spec maxN h0 entries : ∀ h comps,
  forest h → same_fields h0 h → (∀ x s, reach h x s ↔ reach h0 x s) →
  graph_ok h entries →
  ∃ h' comps',
    pachner_comps maxN entries h comps = Some (h', comps')
    ∧ forest h' ∧ same_fields h0 h' ∧ (∀ x s, reach h' x s ↔ reach h0 x s)
    ∧ ∀ s, s ∈ comps'.*2
        ↔ s ∈ comps.*2
          ∨ ∃ a r dr, (s, a) ∈ entries ∧ reach h0 a r ∧ h0 !! r = Some dr
                      ∧ proxy s ≤ maxN ∧ smallest dr = maxN.
Proof.
  induction entries as [|[s0 a0] entries IH]; intros h comps Hf Hsf Hre Hg.
  - exists h, comps. simpl. split_and!; try done. intros s. split; [by left|].
    intros [?|(a & r & dr & []%elem_of_nil & _)]. done.
  - assert (Hg' : ∀ h', length h' = length h → graph_ok h' entries).
    { intros h' Hlen k a Hka. rewrite Hlen. eapply Hg. apply elem_of_cons. by right. }
    assert (Ha0 : (a0 < length h)%nat).
    { eapply Hg. apply elem_of_cons. by left. }
    assert (Hskip :
              ¬ (proxy s0 ≤ maxN ∧ ∃ r dr, reach h0 a0 r ∧ h0 !! r = Some dr
                                           ∧ smallest dr = maxN) →
              ∀ s, (s ∈ comps.*2
                    ∨ ∃ a r dr, (s, a) ∈ entries ∧ reach h0 a r
                        ∧ h0 !! r = Some dr ∧ proxy s ≤ maxN
                        ∧ smallest dr = maxN)
                   ↔ (s ∈ comps.*2
                      ∨ ∃ a r dr, (s, a) ∈ (s0, a0) :: entries ∧ reach h0 a r
                          ∧ h0 !! r = Some dr ∧ proxy s ≤ maxN
                          ∧ smallest dr = maxN)).
    { intros Hno s. split.
      - intros [?|(a & r & dr & ? & ?)]; [by left|]. right. exists a, r, dr.
        split; [apply elem_of_cons; by right|done].
      - intros [?|(a & r & dr & [[= -> ->]|?]%elem_of_cons & ? & ? & ? & ?)];
          [by left| |].
        + exfalso. apply Hno. split; [done|]. by exists r, dr.
        + right. exists a, r, dr. done. }
    simpl. destruct (Z.gtb_spec (char0 s0) (letter_a + maxN)) as [Hbig|Hsmall].
    { destruct (IH h comps Hf Hsf Hre (Hg' h eq_refl)) as (h' & comps' & -> & ? & ? & ? & Hk).
      exists h', comps'. split_and!; try done. intros s. rewrite Hk.
      apply Hskip. unfold proxy. lia. }
    destruct (root_spec h a0 Hf Ha0) as (r & h1 & -> & Hr & Hf1 & Hsf1 & Hre1).
    simpl. destruct (reach_is_root _ _ _ Hr) as (dr & Hdr & Hpr).
    rewrite (same_fields_root _ _ _ _ Hsf1 Hre1 Hdr Hpr). simpl.
    assert (Hsf01 : same_fields h0 h1) by by eapply same_fields_trans.
    assert (Hre01 : ∀ x s, reach h1 x s ↔ reach h0 x s).
    { intros x s. by rewrite Hre1, Hre. }
    pose proof (equiv_root_lookup _ _ _ _ Hsf Hre Hdr Hpr) as Hdr0.
    apply Hre in Hr.
    destruct (Z.eqb_spec (smallest dr) maxN) as [Heq|Hne].
    + assert (Ha1 : (a0 < length h1)%nat) by by rewrite (same_fields_length _ _ Hsf1).
      destruct (root_spec h1 a0 Hf1 Ha1) as (r' & h2 & -> & Hr' & Hf2 & Hsf2 & Hre2).
      simpl. apply Hre01 in Hr'. rewrite <-(reach_det _ _ _ _ Hr Hr').
      assert (Hdr1 : h1 !! r = Some dr) by by eapply same_fields_root.
      rewrite (same_fields_root _ _ _ _ Hsf2 Hre2 Hdr1 Hpr). simpl.
      assert (Hsf02 : same_fields h0 h2) by by eapply same_fields_trans.
      assert (Hre02 : ∀ x s, reach h2 x s ↔ reach h0 x s).
      { intros x s. by rewrite Hre2, Hre01. }
      destruct (IH h2 (multimap_insert (sig dr) s0 comps) Hf2 Hsf02 Hre02)
        as (h' & comps' & -> & ? & ? & ? & Hk).
      { apply Hg'. by rewrite (same_fields_length _ _ Hsf2),
                      (same_fields_length _ _ Hsf1). }
      exists h', comps'. split_and!; try done. intros s. rewrite Hk.
      rewrite elem_of_values_multimap_insert. split.
      * intros [[->|?]|(a & r0 & dr0 & ? & ?)].
        -- right. exists a0, r, dr. split; [apply elem_of_cons; by left|].
           split_and!; try done. unfold proxy. lia.
        -- by left.
        -- right. exists a, r0, dr0. split; [apply elem_of_cons; by right|done].
      * intros [?|(a & r0 & dr0 & [[= -> ->]|?]%elem_of_cons & ?)].
        -- left. by right.
        -- left. by left.
        -- right. exists a, r0, dr0. done.
    + destruct (IH h1 comps Hf1 Hsf01 Hre01) as (h' & comps' & -> & ? & ? & ? & Hk).
      { apply Hg'. by rewrite (same_fields_length _ _ Hsf1). }
      exists h', comps'. split_and!; try done. intros s. rewrite Hk.
      apply Hskip.
      intros [_ (r0 & dr0 & Hr0 & Hdr0' & Hs0)].
      rewrite <-(reach_det _ _ _ _ Hr Hr0) in Hdr0'. congruence.
Qed.

Lemma pachner_lines_listed comps : ∀ prev lines s,
  listed (pachner_lines prev comps lines) s ↔ s ∈ comps.*2 ∨ listed lines s.
Proof.
  induction comps as [|[k v] comps IH]; intros prev lines s; simpl.
  - rewrite elem_of_nil. tauto.
  - rewrite IH, elem_of_cons.
    assert (∀ lines', (∀ s, listed lines' s ↔ s = v ∨ listed lines s) →
              (s ∈ comps.*2 ∨ listed lines' s
               ↔ (s = v ∨ s ∈ comps.*2) ∨ listed lines s)) as Hgen.
    { intros lines' ->. tauto. }
    apply Hgen. clear. intros s. unfold listed.
    assert (Hnew : (∃ line, line ∈ [v] :: lines ∧ s ∈ line)
                   ↔ s = v ∨ ∃ line, line ∈ lines ∧ s ∈ line).
    { split.
      - intros (line & [->|?]%elem_of_cons & Hs).
        + left. by apply list_elem_of_singleton in Hs.
        + right. by exists line.
      - intros [->|(line & ? & ?)].
        + exists [v]. split; [apply elem_of_cons; by left|].
          by apply list_elem_of_singleton.
        + exists line. split; [apply elem_of_cons; by right|done]. }
    destruct prev as [k'|]; [|exact Hnew].
    destruct lines as [|l ls]; [exact Hnew|].
    destruct (String.eqb k' k); [|exact Hnew].
    split.
    + intros (line & [->|?]%elem_of_cons & Hs).
      * apply elem_of_app in Hs as [Hs|Hs].
        -- right. exists l. split; [apply elem_of_cons; by left|done].
        -- left. by apply list_elem_of_singleton in Hs.
      * right. exists line. split; [apply elem_of_cons; by right|done].
    + intros [->|(line & [->|?]%elem_of_cons & Hs)].
      * exists (l ++ [v]). split; [apply elem_of_cons; by left|].
        apply elem_of_app. right. by apply list_elem_of_singleton.
      * exists (l ++ [v]). split; [apply elem_of_cons; by left|].
        apply elem_of_app. by left.
      * exists line. split; [apply elem_of_cons; by right|done].
Qed.

Lemma listed_reverse lines s : listed (reverse lines) s ↔ listed lines s.
Proof. unfold listed. by setoid_rewrite elem_of_reverse. Qed.

Lemma NoDup_keys_elem {V : Type} (m : smap V) k v v' :
  NoDup (keys m) → (k, v) ∈ m → (k, v') ∈ m → v = v'.
Proof.
  unfold keys. induction m as [|[k0 v0] m IH]; simpl.
  - by intros _ ?%elem_of_nil.
  - intros [Hnin Hnd]%NoDup_cons [[= -> ->]|H1]%elem_of_cons [[= ->]|H2]%elem_of_cons.
    + done.
    + exfalso. apply Hnin. apply list_elem_of_fmap. by exists (k0, v').
    + exfalso. apply Hnin. apply list_elem_of_fmap. by exists (k0, v).
    + by apply IH.
Qed.

(** * The whole job of [pachner] *)

Lemma key_is_Some {V : Type} (k : string) (m : smap V) :
  k ∈ keys m → is_Some (map_find k m).
Proof.
  intros Hk. destruct (map_find k m) eqn:Hf; [by eexists|].
  by apply map_find_None_key in Hf.
Qed.

Lemma initial_queue_keys waiting prof g :
  ∃ cur, initial_queue waiting prof g = Some <$> cur
         ∧ ∀ k, k ∈ cur → is_Some (map_find k g).
Proof.
  unfold initial_queue. destruct (map_find prof waiting) as [sigs|].
  - eexists. split; [done|]. by intros k [? _]%list_elem_of_filter.
  - eexists. split; [done|]. intros k. apply key_is_Some.
Qed.

Lemma dump_pachner_total p g maxN h :
  forest h → graph_ok h g →
  ∃ h' lines text,
    dump_pachner p g maxN h = Some (h', lines, text)
    ∧ forest h' ∧ length h' = length h.
Proof.
  intros Hf Hg. unfold dump_pachner.
  destruct (pachner_comps_spec maxN h g h [] Hf (same_fields_refl h))
    as (h' & comps & -> & Hf' & Hsf & _); [done..|].
  simpl. eexists _, _, _. split; [done|]. split; [done|].
  by apply same_fields_length.
Qed.

Lemma map_find_set_is_Some {V : Type} (k k0 : string) (v : V) (m : smap V) :
  is_Some (map_find k0 m) → is_Some (map_find k0 (map_set k v m)).
Proof.
  intros Hs. destruct (decide (k0 = k)) as [->|Hne].
  - rewrite map_find_set_eq. by eexists.
  - by rewrite map_find_set_ne.
Qed.

Lemma pachner_graph_spec E levels oname maxN waiting prof j :
  forest (jb_heap j) → graphs_ok (jb_heap j) (jb_graphs j) →
  is_Some (map_find prof (jb_graphs j)) →
  ∃ j', pachner_graph E levels oname maxN waiting prof j = Some j'
    ∧ forest (jb_heap j') ∧ graphs_ok (jb_heap j') (jb_graphs j')
    ∧ (∀ q, is_Some (map_find q (jb_graphs j)) →
            is_Some (map_find q (jb_graphs j')))
    ∧ jb_nComp j' = jb_nComp j.
Proof.
  intros Hf Hgs [g Hg]. unfold pachner_graph. rewrite Hg. simpl.
  destruct (initial_queue_keys waiting prof g) as (cur & -> & Hcur).
  assert (Hgok : graph_ok (jb_heap j) g).
  { eapply Hgs. by apply map_find_Some_elem. }
  destruct (explore_total E (mkProfile prof) maxN (jb_nComp j) (Z.to_nat levels)
              (mkCaller (jb_heap j) g (Some <$> cur) true (jb_cerr j)) cur)
    as (c & -> & [Hfc Hgc] & Hlen); [done|done|].
  simpl in *.
  destruct (dump_pachner_total (mkProfile prof) (cl_graph c) maxN (cl_heap c) Hfc Hgc)
    as (h' & lines & text & -> & Hf' & Hlen').
  simpl. eexists. split; [done|]. simpl. split_and!; try done.
  - apply graphs_ok_set.
    + eapply graphs_ok_mono; [|done]. lia.
    + eapply graph_ok_mono; [|done]. lia.
  - intros q. apply map_find_set_is_Some.
Qed.

Lemma pachner_graphs_spec E levels oname maxN waiting profs : ∀ j,
  forest (jb_heap j) → graphs_ok (jb_heap j) (jb_graphs j) →
  (∀ prof, prof ∈ profs → is_Some (map_find prof (jb_graphs j))) →
  ∃ j', pachner_graphs E levels oname maxN waiting profs j = Some j'
    ∧ forest (jb_heap j') ∧ graphs_ok (jb_heap j') (jb_graphs j')
    ∧ jb_nComp j' = jb_nComp j.
Proof.
  induction profs as [|prof profs IH]; intros j Hf Hgs Hin; simpl.
  - by exists j.
  - destruct (pachner_graph_spec E levels oname maxN waiting prof j Hf Hgs)
      as (j1 & -> & Hf1 & Hgs1 & Hk1 & Hn1).
    { apply Hin, elem_of_cons. by left. }
    simpl. destruct (IH j1 Hf1 Hgs1) as (j' & -> & ? & ? & ?).
    { intros q Hq. apply Hk1, Hin, elem_of_cons. by right. }
    exists j'. split_and!; try done. congruence.
Qed.

(** [pachner] returns whenever the engine can parse the first token of every
    data line; the arena is a forest at the end, every graph lives in it,
    and the table of component counts is as [read] left it. *)
Lemma pachner_total E infile levels oname fs :
  (∀ s, s ∈ first_tokens infile → is_Some (fromIsoSig E s)) →
  ∃ r j, read E [] infile = Some r
    ∧ pachner E infile levels oname fs = Some j
    ∧ forest (jb_heap j) ∧ graphs_ok (jb_heap j) (jb_graphs j)
    ∧ jb_nComp j = rd_nComp r.
Proof.
  intros Hparse. unfold pachner.
  assert (∃ r, read E [] infile = Some r ∧ reader_ok r) as (r & Hr & [Hf Hgs]).
  { unfold read.
    destruct (read_lines_spec E infile _ (reader_ok_initial (mkProfile "#") 0) Hparse)
      as (r & Hr & Hok & _). by exists r. }
  rewrite Hr. simpl.
  destruct (pachner_graphs_spec E levels oname (rd_maxN r) (rd_waiting r)
              (keys (rd_graphs r))
              (mkJob (rd_heap r) (rd_graphs r) (rd_nComp r) [] fs) Hf Hgs)
    as (j & Hj & ? & ? & ?).
  { intros prof Hp. by apply key_is_Some. }
  by exists r, j.
Qed.

(** * The claims about the output *)

(** [dump_pachner] returns on a forest, and a signature is on a line that
    it prints exactly when it is a key of the graph, its complexity proxy
    is at most [maxN] and the [smallest] at the root of its node equals
    [maxN]. *)
Lemma dump_pachner_listed (p : Profile) (graph : Graph) (maxN : Z) (h : heap) :
  forest h → graph_ok h graph →
  ∃ h' lines,
    dump_pachner p graph maxN h = Some (h', lines, pachner_text p lines)
    ∧ (∀ s, listed lines s
         ↔ ∃ a r dr, (s, a) ∈ graph ∧ reach h a r ∧ h !! r = Some dr
                     ∧ proxy s ≤ maxN ∧ smallest dr = maxN).
Proof.
  intros Hf Hg. unfold dump_pachner.
  destruct (pachner_comps_spec maxN h graph h [] Hf (same_fields_refl h))
    as (h' & comps & -> & _ & _ & _ & Hk); [done..|].
  simpl. eexists _, _. split; [done|].
  intros s. rewrite listed_reverse, pachner_lines_listed, Hk. split.
  - intros [[[]%elem_of_nil|?]|(l & []%elem_of_nil & _)]. done.
  - intros ?. left. by right.
Qed.

(** C2. On the file of the two classes ["cB"] and ["cC"], which a 4-4 move
    connects: [read] leaves two classes and the count [2]; the call of
    [process] on ["cB"] merges them and holds the count [1] at its end, in
    its own copy of the table; after the exploration the graph has one class
    and the table of [pachner] still says [2]. *)
Theorem component_count_not_live :
  ∃ r g0 j g,
    read moving_engine [] census_two_classes = Some r
    ∧ map_find "#" (rd_graphs r) = Some g0
    ∧ class_count (rd_heap r) g0 = Some 2%nat
    ∧ count_at "#" (rd_nComp r) = 2
    ∧ final_count moving_engine 0 (mkProfile "#") (rd_maxN r) (rd_nComp r)
        (mkCaller (rd_heap r) g0 [Some "cB"; Some "cC"; None] true [])
      = Some 1
    ∧ pachner moving_engine census_two_classes 1 "out" [] = Some j
    ∧ map_find "#" (jb_graphs j) = Some g
    ∧ class_count (jb_heap j) g = Some 1%nat
    ∧ count_at "#" (jb_nComp j) = 2.
Proof.
  eexists _, _, _, _.
  split; [vm_compute; reflexivity|]. split; [vm_compute; reflexivity|].
  split; [vm_compute; reflexivity|]. split; [vm_compute; reflexivity|].
  split; [vm_compute; reflexivity|]. split; [vm_compute; reflexivity|].
  split; [vm_compute; reflexivity|]. split; vm_compute; reflexivity.
Qed.

(** C7. On a file with the two profile blocks ["# orbl;"] and ["# nor;"] of
    two classes each, both graphs are processed and both write the file
    numbered [0]: the file of the graph ["# nor;"], which comes first, is
    overwritten, and its signatures ["cC"] and ["cD"] are in no file
    afterwards. *)
Theorem partition_overwrites_files :
  ∃ r fs,
    read still_engine [] census_two_profiles = Some r
    ∧ graph_keys "# nor;" (rd_graphs r) = ["cC"; "cD"]
    ∧ count_at "# nor;" (rd_nComp r) = 2
    ∧ partition still_engine census_two_profiles 1 "out_" [] = Some fs
    ∧ keys fs = ["out_0.sigs"; "out_0.sigs"]
    ∧ ∀ name text, file_at name fs = Some text →
        ("cC" ∉ tokens text) ∧ ("cD" ∉ tokens text).
Proof.
  eexists _, _.
  split; [vm_compute; reflexivity|]. split; [vm_compute; reflexivity|].
  split; [vm_compute; reflexivity|]. split; [vm_compute; reflexivity|].
  split; [vm_compute; reflexivity|].
  intros name text. unfold file_at. simpl.
  destruct (String.eqb name "out_0.sigs"); [|done].
  intros [= <-]. vm_compute tokens.
  split; intros Hin; in_list Hin ltac:(discriminate).
Qed.

(** * More on the connectivity graph *)

(** ** The two searches *)

Lemma Data_root_reach h x r : forest h → Data_root h x = Some r ↔ reach h x r.
Proof.
  intros Hf. unfold Data_root. split.
  - apply root_find_reach.
  - by apply reach_root_find.
Qed.

Lemma Data_root_ext h h' :
  forest h → forest h' → length h' = length h →
  (∀ x s, reach h' x s ↔ reach h x s) → ∀ x, Data_root h' x = Data_root h x.
Proof.
  intros Hf Hf' Hlen Hre x.
  destruct (Data_root h x) as [r|] eqn:Hr.
  - apply Data_root_reach; [done|]. apply Hre. by apply Data_root_reach.
  - destruct (Data_root h' x) as [r'|] eqn:Hr'; [|done].
    apply Data_root_reach, Hre, Data_root_reach in Hr'; [|done..]. congruence.
Qed.

(** What the compression loop does to the [parent] fields: the start node
    ends up below the root, and a field that changes is set to the root. *)
Lemma root_compress_parents rk k : ∀ h n ans h',
  ranked rk h → root_find k h n = Some ans → n ≠ ans →
  root_compress k h n ans = Some h' →
  (parent <$> h' !! n = Some (Some ans))
  ∧ ∀ x, parent <$> h' !! x = parent <$> h !! x
         ∨ parent <$> h' !! x = Some (Some ans).
Proof.
  induction k as [|k IH]; intros h n ans h' Hrk Hf Hne Hc; [done|].
  pose proof (root_find_reach _ _ _ _ Hf) as Hreach.
  rewrite root_find_S in Hf. rewrite root_compress_S in Hc.
  destruct (h !! n) as [d|] eqn:Hd; simplify_eq/=.
  destruct (parent d) as [p|] eqn:Hp; simplify_eq/=.
  destruct (decide (Some p = Some ans)) as [Heq|Hpa].
  { assert (p = ans) as -> by congruence. simplify_eq. rewrite Hd. simpl.
    rewrite Hp.
    split; [done|]. by left. }
  destruct (Hrk _ _ _ Hd Hp) as [_ Hlt].
  assert (Hpne : p ≠ ans) by congruence.
  destruct (IH (alter (with_parent (Some ans)) n h) p ans h') as [Hp' Hall]; auto.
  - by apply ranked_shortcut.
  - by erewrite root_find_above.
  - assert (Hn1 : parent <$> alter (with_parent (Some ans)) n h !! n
                  = Some (Some ans)).
    { by rewrite list_lookup_alter_eq, Hd. }
    split.
    + destruct (Hall n) as [-> | ->]; done.
    + intros x. destruct (Hall x) as [Hx|Hx]; [|by right].
      rewrite Hx. destruct (decide (x = n)) as [->|Hxn].
      * right. done.
      * left. by rewrite list_lookup_alter_ne.
Qed.

(** X1. [root] and [Data::root] return the same node. [root] writes
    [parent] fields only, leaves every root as it is, and changes the result
    of no search. *)
Theorem root_changes_parents_only (h : heap) (n : addr) :
  forest h → (n < length h)%nat →
  ∃ r h',
    root h n = Some (r, h') ∧ Data_root h n = Some r
    ∧ same_fields h h'
    ∧ (∀ x d, h !! x = Some d → parent d = None → h' !! x = Some d)
    ∧ (∀ x, Data_root h' x = Data_root h x).
Proof.
  intros Hf Hn.
  destruct (root_spec h n Hf Hn) as (r & h' & Hr & Hreach & Hf' & Hsf & Hre).
  exists r, h'. split_and!; try done.
  - by apply Data_root_reach.
  - intros x d. by apply same_fields_root.
  - apply Data_root_ext; try done. by apply same_fields_length.
Qed.

Lemma root_changes_parents_only_witness :
  ∃ r h',
    root heap_one_class 0 = Some (r, h') ∧ Data_root heap_one_class 0 = Some r
    ∧ same_fields heap_one_class h'
    ∧ (∀ x d, heap_one_class !! x = Some d → parent d = None →
              h' !! x = Some d)
    ∧ (∀ x, Data_root h' x = Data_root heap_one_class x).
Proof.
  apply (root_changes_parents_only heap_one_class 0 forest_one_class).
  simpl. lia.
Defined.

(** What [root] does to the [parent] fields, and that a second call finds
    nothing left to do. *)
Lemma root_parents (h : heap) (n : addr) :
  forest h → (n < length h)%nat →
  ∃ r h',
    root h n = Some (r, h')
    ∧ (n ≠ r → parent <$> h' !! n = Some (Some r))
    ∧ (∀ x, parent <$> h' !! x = parent <$> h !! x
            ∨ parent <$> h' !! x = Some (Some r))
    ∧ root h' n = Some (r, h').
Proof.
  intros [rk Hrk] Hn.
  assert (Hf : forest h) by by exists rk.
  destruct (root_spec_ranked rk h n Hrk Hn)
    as (r & h' & Hr & Hreach & Hrk' & Hsf & Hre).
  exists r, h'. split; [done|].
  assert (Hf' : forest h') by by exists rk.
  pose proof (same_fields_length _ _ Hsf) as Hlen.
  assert (Hfind' : root_find (length h') h' n = Some r).
  { apply reach_root_find; [done|]. by apply Hre. }
  unfold root in Hr |- *.
  destruct (root_find (length h) h n) as [ans|] eqn:Hfind; simplify_eq/=.
  rewrite Hfind'. simpl.
  destruct (decide (n = ans)) as [->|Hne]; simplify_eq/=.
  { split_and!; [congruence|intros x; by left|by rewrite decide_True]. }
  destruct (root_compress (length h) h n ans) as [h1|] eqn:Hc; simplify_eq/=.
  destruct (root_compress_parents rk _ _ _ _ _ Hrk Hfind Hne Hc) as [Hpn Hall].
  split_and!; [done|done|].
  rewrite Hlen. destruct (length h) as [|k] eqn:Hl; [lia|].
  rewrite root_compress_S.
  destruct (_ !! n) as [d|]; [|done]. simpl in Hpn |- *.
  rewrite decide_False by done. rewrite decide_True by congruence. done.
Qed.

(** X2. After [root(n)] the node [n], when it is not the root itself, hangs
    directly below the root; a [parent] field that the call changes is set
    to the root; a second call returns the same root and changes nothing,
    and so does [Data::root]. *)
Theorem root_compresses_once (h : heap) (n : addr) :
  forest h → (n < length h)%nat →
  ∃ r h',
    root h n = Some (r, h')
    ∧ (n ≠ r → parent <$> h' !! n = Some (Some r))
    ∧ (∀ x, parent <$> h' !! x = parent <$> h !! x
            ∨ parent <$> h' !! x = Some (Some r))
    ∧ root h' n = Some (r, h')
    ∧ Data_root h' n = Some r.
Proof.
  intros Hf Hn.
  destruct (root_parents h n Hf Hn) as (r & h' & Hr & Hpn & Hall & Hr').
  exists r, h'. split_and!; try done.
  destruct (root_spec h n Hf Hn) as (r0 & h0 & Hr0 & Hreach & Hf' & _ & Hre).
  rewrite Hr in Hr0. injection Hr0 as <- <-.
  apply Data_root_reach; [done|]. by apply Hre.
Qed.

Lemma root_compresses_once_witness :
  ∃ r h',
    root heap_one_class 0 = Some (r, h')
    ∧ (0%nat ≠ r → parent <$> h' !! 0%nat = Some (Some r))
    ∧ (∀ x, parent <$> h' !! x = parent <$> heap_one_class !! x
            ∨ parent <$> h' !! x = Some (Some r))
    ∧ root h' 0 = Some (r, h')
    ∧ Data_root h' 0 = Some r.
Proof.
  apply (root_compresses_once heap_one_class 0 forest_one_class).
  simpl. lia.
Defined.

(** ** Counting roots *)

Lemma filter_alter_same {A : Type} (P : A → Prop) `{!∀ x, Decision (P x)}
    (f : A → A) (l : list A) : ∀ i,
  (∀ x, l !! i = Some x → (P (f x) ↔ P x)) →
  length (filter P (alter f i l)) = length (filter P l).
Proof.
  induction l as [|y l IH]; intros i Hf; [done|].
  destruct i as [|i].
  - change (alter f 0%nat (y :: l)) with (f y :: l).
    rewrite !filter_cons. specialize (Hf y eq_refl).
    destruct (decide (P (f y))), (decide (P y)); simpl; tauto || done.
  - change (alter f (S i) (y :: l)) with (y :: alter f i l).
    rewrite !filter_cons. specialize (IH i Hf).
    destruct (decide (P y)); simpl; by rewrite IH.
Qed.

Lemma filter_alter_drop {A : Type} (P : A → Prop) `{!∀ x, Decision (P x)}
    (f : A → A) (l : list A) : ∀ i x,
  l !! i = Some x → P x → ¬ P (f x) →
  length (filter P l) = S (length (filter P (alter f i l))).
Proof.
  induction l as [|y l IH]; intros i x Hx HP HnP; [done|].
  destruct i as [|i].
  - change (alter f 0%nat (y :: l)) with (f y :: l).
    simpl in Hx. injection Hx as ->. rewrite !filter_cons.
    rewrite decide_True, decide_False by done. done.
  - change (alter f (S i) (y :: l)) with (y :: alter f i l).
    rewrite !filter_cons. specialize (IH i x Hx HP HnP).
    destruct (decide (P y)); simpl; by rewrite IH.
Qed.

Lemma n_roots_alter_keep (f : Data → Data) (h : heap) (i : addr) :
  (∀ d, parent (f d) = parent d) → n_roots (alter f i h) = n_roots h.
Proof.
  intros Hf. unfold n_roots. apply filter_alter_same.
  intros d _. by rewrite Hf.
Qed.

Lemma n_roots_link (h : heap) (lo hi : addr) dlo :
  h !! lo = Some dlo → parent dlo = None →
  n_roots h = S (n_roots (alter (with_parent (Some hi)) lo h)).
Proof.
  intros Hlo Hp. unfold n_roots. by eapply filter_alter_drop.
Qed.

Lemma root_compress_n_roots k : ∀ h n ans h',
  root_compress k h n ans = Some h' → n_roots h' = n_roots h.
Proof.
  induction k as [|k IH]; intros h n ans h' Hc; [done|].
  rewrite root_compress_S in Hc.
  destruct (h !! n) as [d|] eqn:Hd; simplify_eq/=.
  destruct (decide (parent d = Some ans)); simplify_eq/=; [done|].
  destruct (parent d) as [p|] eqn:Hp; simplify_eq/=.
  rewrite (IH _ _ _ _ Hc). unfold n_roots. apply filter_alter_same.
  intros x Hx. simpl. split; [done|]. congruence.
Qed.

Lemma root_n_roots h n r h' : root h n = Some (r, h') → n_roots h' = n_roots h.
Proof.
  unfold root. destruct (root_find (length h) h n) as [ans|]; simpl; [|done].
  destruct (decide (n = ans)); [by intros [= <- <-]|].
  destruct (root_compress (length h) h n ans) as [h1|] eqn:Hc; simpl; [|done].
  intros [= <- <-]. by eapply root_compress_n_roots.
Qed.

(** ** The branches of [join] *)

(** [join] written out: after the two searches, either the roots are equal,
    or the root [lo] of the smaller [depth] (the first argument's on a tie)
    is hung below the other root [hi], whose [depth] grows on a tie. *)
Lemma join_shape h a b :
  forest h → (a < length h)%nat → (b < length h)%nat →
  ∃ ra rb h1 h2,
    root h a = Some (ra, h1) ∧ root h1 b = Some (rb, h2)
    ∧ (b < length h1)%nat
    ∧ reach h a ra ∧ reach h b rb
    ∧ forest h2 ∧ same_fields h h2 ∧ (∀ x s, reach h2 x s ↔ reach h x s)
    ∧ n_roots h2 = n_roots h
    ∧ ((ra = rb ∧ join h a b = Some (false, h2))
       ∨ (ra ≠ rb
          ∧ ∃ lo hi dlo dhi (g : Data → Data),
              ((lo = ra ∧ hi = rb) ∨ (lo = rb ∧ hi = ra))
              ∧ h2 !! lo = Some dlo ∧ h2 !! hi = Some dhi
              ∧ h !! lo = Some dlo ∧ h !! hi = Some dhi
              ∧ parent dlo = None ∧ parent dhi = None
              ∧ ((g = (λ d, d) ∧ depth dlo < depth dhi)
                 ∨ (g = incr_depth ∧ depth dlo = depth dhi))
              ∧ join h a b
                = Some (true,
                        alter (absorb dlo) hi
                          (alter g hi (alter (with_parent (Some hi)) lo h2))))).
Proof.
  intros Hf Ha Hb. rewrite join_unfold.
  destruct (root_spec h a Hf Ha) as (ra & h1 & Hr1 & Hra & Hf1 & Hsf1 & Hre1).
  rewrite Hr1. simpl.
  assert (Hb1 : (b < length h1)%nat) by by rewrite (same_fields_length _ _ Hsf1).
  destruct (root_spec h1 b Hf1 Hb1) as (rb & h2 & Hr2 & Hrb & Hf2 & Hsf2 & Hre2).
  rewrite Hr2. simpl.
  assert (Hsf : same_fields h h2) by by eapply same_fields_trans.
  assert (Hre : ∀ x s, reach h2 x s ↔ reach h x s).
  { intros x s. by rewrite Hre2, Hre1. }
  assert (Hn : n_roots h2 = n_roots h).
  { by rewrite (root_n_roots _ _ _ _ Hr2), (root_n_roots _ _ _ _ Hr1). }
  exists ra, rb, h1, h2. apply Hre1 in Hrb. split_and!; try done.
  destruct (decide (ra = rb)) as [->|Hne]; [by left|right].
  split; [done|].
  destruct (reach_is_root _ _ _ Hra) as (da & Hda & Hpa).
  destruct (reach_is_root _ _ _ Hrb) as (db & Hdb & Hpb).
  pose proof (same_fields_root _ _ _ _ Hsf Hre Hda Hpa) as Hda2.
  pose proof (same_fields_root _ _ _ _ Hsf Hre Hdb Hpb) as Hdb2.
  rewrite Hda2, Hdb2. simpl.
  assert (Hid : ∀ (l : heap) (i : addr), alter (λ d : Data, d) i l = l).
  { intros l i. by apply list_alter_id. }
  destruct (Z.gtb_spec (depth da) (depth db)) as [Hgt|Hle].
  - exists rb, ra, db, da, (λ d, d). rewrite Hid.
    split_and!; try done; [by right|left; split; [done|lia]].
  - destruct (Z.gtb_spec (depth db) (depth da)) as [Hgt|Hle'].
    + exists ra, rb, da, db, (λ d, d). rewrite Hid.
      split_and!; try done; [by left|left; split; [done|lia]].
    + exists ra, rb, da, db, incr_depth.
      split_and!; try done; [by left|right; split; [done|lia]].
Qed.

Lemma join_sig h a b res h' :
  forest h → (a < length h)%nat → (b < length h)%nat →
  join h a b = Some (res, h') → ∀ x, sig <$> h' !! x = sig <$> h !! x.
Proof.
  intros Hf Ha Hb Hj x.
  destruct (join_spec h a b Hf Ha Hb)
    as (ra & rb & h'' & _ & _ & Hj' & _ & He & Hn).
  rewrite Hj in Hj'. injection Hj' as -> <-.
  destruct (decide (ra = rb)) as [Heq|Hne].
  - destruct (He Heq) as [Hsf _]. by apply same_fields_sig.
  - destruct (Hn Hne) as [Hm|Hm]; by eapply merged_sig.
Qed.

Lemma join_n_roots h a b res h' :
  forest h → (a < length h)%nat → (b < length h)%nat →
  join h a b = Some (res, h') →
  (n_roots h' + (if res then 1 else 0) = n_roots h)%nat.
Proof.
  intros Hf Ha Hb Hj.
  destruct (join_shape h a b Hf Ha Hb)
    as (ra & rb & h1 & h2 & _ & _ & _ & _ & _ & _ & _ & _ & Hn
        & [[_ Hj']|(_ & Hcase)]).
  - rewrite Hj in Hj'. injection Hj' as -> ->. lia.
  - destruct Hcase as (lo & hi & dlo & dhi & g & _ & Hlo & _ & _ & _ & Hplo & _ & Hg & Hj').
    rewrite Hj in Hj'. injection Hj' as -> ->.
    rewrite n_roots_alter_keep by apply absorb_parent.
    rewrite n_roots_alter_keep by (by destruct Hg as [[-> _]|[-> _]]).
    rewrite <-Hn, (n_roots_link h2 lo hi dlo Hlo Hplo). lia.
Qed.

(** X3. The value that [join] returns: [true] exactly when the two nodes
    were in distinct classes, and then the arena has one root less; on
    [false] nothing but [parent] fields changes and the classes stay. No
    signature is changed either way. *)
Theorem join_reports_merge (h : heap) (a b : addr) :
  forest h → (a < length h)%nat → (b < length h)%nat →
  ∃ res h',
    join h a b = Some (res, h')
    ∧ (res = true ↔ ¬ same h a b)
    ∧ (n_roots h' + (if res then 1 else 0) = n_roots h)%nat
    ∧ (res = false → same_fields h h' ∧ ∀ x y, same h' x y ↔ same h x y)
    ∧ (∀ x, sig <$> h' !! x = sig <$> h !! x).
Proof.
  intros Hf Ha Hb.
  destruct (join_same h a b Hf Ha Hb) as (res & h' & Hj & _ & _ & Hres & _).
  exists res, h'. split; [done|]. split; [done|].
  split_and!; [| |exact (join_sig h a b res h' Hf Ha Hb Hj)].
  - exact (join_n_roots h a b res h' Hf Ha Hb Hj).
  - intros ->.
    destruct (join_spec h a b Hf Ha Hb)
      as (ra & rb & h'' & _ & _ & Hj' & _ & He & _).
    rewrite Hj in Hj'. injection Hj' as Hb' <-.
    symmetry in Hb'. apply bool_decide_eq_false in Hb'.
    assert (ra = rb) as Heq by (destruct (decide (ra = rb)); [done|by destruct Hb']).
    destruct (He Heq) as [Hsf Hre]. split; [done|]. by apply same_ext.
Qed.

Lemma join_reports_merge_witness :
  ∃ res h',
    join heap2 0 1 = Some (res, h')
    ∧ (res = true ↔ ¬ same heap2 0 1)
    ∧ (n_roots h' + (if res then 1 else 0) = n_roots heap2)%nat
    ∧ (res = false → same_fields heap2 h' ∧ ∀ x y, same h' x y ↔ same heap2 x y)
    ∧ (∀ x, sig <$> h' !! x = sig <$> heap2 !! x).
Proof.
  apply (join_reports_merge heap2 0 1).
  - exists (λ _, O). intros x d p Hx Hp. destruct x as [|[|x]]; simplify_eq/=.
  - simpl. lia.
  - simpl. lia.
Defined.

(** ** Union by rank *)

Lemma lookup_reach_Some h x r : reach h x r → ∃ d, h !! x = Some d.
Proof.
  intros [Hlt _]%reach_valid. apply lookup_lt_is_Some_2 in Hlt as [d Hd]. eauto.
Qed.

Lemma depth_reach_le h x r dx dr :
  depth_ranked h → reach h x r → h !! x = Some dx → h !! r = Some dr →
  depth dx ≤ depth dr ∧ (x ≠ r → depth dx < depth dr).
Proof.
  intros [_ Hd] Hr. revert dx.
  induction Hr as [r d Hr Hp|x d p r Hx Hp Hr IH]; intros dx Hdx Hdr.
  - simplify_eq. split; [lia|done].
  - simplify_eq. destruct (lookup_reach_Some _ _ _ Hr) as [dp Hdp].
    destruct (IH dp Hdp Hdr) as [Hle _].
    pose proof (Hd _ _ _ _ Hx Hp Hdp). split; [lia|intros _; lia].
Qed.

Lemma root_find_mono h r : ∀ k k' y,
  (k ≤ k')%nat → root_find k h y = Some r → root_find k' h y = Some r.
Proof.
  induction k as [|k IHk]; intros k' y Hle; [done|].
  destruct k' as [|k']; [lia|]. rewrite !root_find_S.
  destruct (h !! y) as [d|]; simpl; [|done].
  destruct (parent d); [|done]. apply IHk. lia.
Qed.

(** The walk from a node to its root inspects no more nodes than the root's
    [depth] is above the node's, plus one. *)
Lemma depth_root_find h x r dx dr :
  depth_ranked h → reach h x r → h !! x = Some dx → h !! r = Some dr →
  root_find (S (Z.to_nat (depth dr - depth dx))) h x = Some r.
Proof.
  intros Hdr Hr. revert dx.
  induction Hr as [r d Hr Hp|x d p r Hx Hp Hr IH]; intros dx Hdx Hdr'.
  - rewrite root_find_S, Hr. simpl. by rewrite Hp.
  - rewrite root_find_S, Hx. simpl. rewrite Hp. simplify_eq.
    destruct (lookup_reach_Some _ _ _ Hr) as [dp Hdp].
    specialize (IH dp Hdp Hdr').
    destruct (depth_reach_le h p r dp dr Hdr Hr Hdp Hdr') as [Hle _].
    destruct Hdr as [_ Hd]. pose proof (Hd _ _ _ _ Hx Hp Hdp) as Hlt.
    eapply root_find_mono; [|exact IH]. lia.
Qed.

(** ** Counting the members of a class *)

Lemma length_filter_mono {A : Type} (P Q : A → Prop)
    `{!∀ x, Decision (P x)} `{!∀ x, Decision (Q x)} (l : list A) :
  (∀ x, x ∈ l → P x → Q x) →
  (length (filter P l) ≤ length (filter Q l))%nat.
Proof.
  induction l as [|a l IH]; intros HPQ; [done|].
  assert (IH' := IH (λ x Hx, HPQ x (list_elem_of_further _ _ _ Hx))).
  rewrite !filter_cons.
  destruct (decide (P a)) as [HP|HP], (decide (Q a)) as [HQ|HQ]; simpl; try lia.
  destruct HQ. apply HPQ; [left|done].
Qed.

Lemma length_filter_split {A : Type} (P Q R : A → Prop)
    `{!∀ x, Decision (P x)} `{!∀ x, Decision (Q x)} `{!∀ x, Decision (R x)}
    (l : list A) :
  (∀ x, x ∈ l → Q x → P x) → (∀ x, x ∈ l → R x → P x) →
  (∀ x, x ∈ l → Q x → R x → False) →
  (length (filter Q l) + length (filter R l) ≤ length (filter P l))%nat.
Proof.
  induction l as [|a l IH]; intros HQP HRP HQR; [done|].
  assert (IH' := IH (λ x Hx, HQP x (list_elem_of_further _ _ _ Hx))
                    (λ x Hx, HRP x (list_elem_of_further _ _ _ Hx))
                    (λ x Hx, HQR x (list_elem_of_further _ _ _ Hx))).
  assert (Ha : a ∈ a :: l) by left.
  rewrite !filter_cons.
  destruct (decide (P a)) as [HP|HP], (decide (Q a)) as [HQ|HQ],
    (decide (R a)) as [HR|HR]; simpl; try lia.
  - destruct (HQR a Ha HQ HR).
  - destruct HP. by apply HQP.
  - destruct HP. by apply HQP.
  - destruct HP. by apply HRP.
Qed.

Lemma class_size_mono h h' r r' :
  (length h ≤ length h')%nat →
  (∀ x, Data_root h x = Some r → Data_root h' x = Some r') →
  (class_size h r ≤ class_size h' r')%nat.
Proof.
  intros Hlen Himp. unfold class_size.
  replace (length h') with (length h + (length h' - length h))%nat by lia.
  rewrite seq_app, filter_app, length_app.
  etrans; [apply (length_filter_mono _ (λ x, Data_root h' x = Some r'))|lia].
  intros x _. apply Himp.
Qed.

Lemma class_size_add h h' lo hi :
  length h' = length h → lo ≠ hi →
  (∀ x, Data_root h x = Some lo → Data_root h' x = Some hi) →
  (∀ x, Data_root h x = Some hi → Data_root h' x = Some hi) →
  (class_size h lo + class_size h hi ≤ class_size h' hi)%nat.
Proof.
  intros Hlen Hne Hlo Hhi. unfold class_size. rewrite Hlen.
  apply length_filter_split.
  - intros x _. apply Hlo.
  - intros x _. apply Hhi.
  - intros x _ Hx Hx'. congruence.
Qed.

Lemma class_size_pos h r : Data_root h r = Some r → (1 ≤ class_size h r)%nat.
Proof.
  intros Hr. unfold class_size.
  assert (Hin : r ∈ filter (λ x, Data_root h x = Some r) (seq 0 (length h))).
  { apply list_elem_of_filter. split; [done|].
    apply root_find_reach, reach_valid in Hr as [Hlt _].
    apply elem_of_seq. lia. }
  destruct (filter _ _); [by apply elem_of_nil in Hin|simpl; lia].
Qed.

Lemma class_size_le h r : (class_size h r ≤ length h)%nat.
Proof.
  unfold class_size. etrans; [apply length_filter|]. by rewrite length_seq.
Qed.

(** ** The arena keeps its shape *)

Lemma shaped_nil : shaped [].
Proof.
  split.
  - exists (λ _, O). intros x d p Hx. by rewrite lookup_nil in Hx.
  - split; intros x d; rewrite lookup_nil; done.
  - intros r d. by rewrite lookup_nil.
  - intros r d. by rewrite lookup_nil.
Qed.

Lemma shaped_new h s : shaped h → shaped (new_Data h s).2.
Proof.
  intros [Hf [Hd0 Hd] Hsz Hmin]. rewrite new_Data_eq. simpl.
  set (d0 := mkData s None 0 (proxy s) (length h)).
  assert (Hf' : forest (h ++ [d0])) by by apply forest_app.
  assert (Hre := λ x r, reach_app h d0 x r Hf eq_refl).
  assert (Hold : ∀ x d, (h ++ [d0]) !! x = Some d → (x < length h)%nat →
                        h !! x = Some d).
  { intros x d Hx Hlt. by rewrite lookup_app_l in Hx. }
  assert (Hnew : ∀ x d, (h ++ [d0]) !! x = Some d → ¬ (x < length h)%nat →
                        x = length h ∧ d = d0).
  { intros x d Hx Hlt. apply lookup_app_Some in Hx as [Hx|[Hge Hx]].
    - apply lookup_lt_Some in Hx. lia.
    - apply list_lookup_singleton_Some in Hx as [? <-]. split; [lia|done]. }
  split.
  - done.
  - split.
    + intros x d Hx. destruct (decide (x < length h)%nat) as [Hlt|Hge].
      * eapply Hd0, Hold; eauto.
      * destruct (Hnew _ _ Hx Hge) as [_ ->]. done.
    + intros x d p dp Hx Hp Hdp.
      destruct (decide (x < length h)%nat) as [Hlt|Hge].
      * apply Hold in Hx; [|done].
        destruct Hf as [rk Hrk]. destruct (Hrk _ _ _ Hx Hp) as [Hpl _].
        apply Hold in Hdp; [|done]. eauto.
      * destruct (Hnew _ _ Hx Hge) as [_ ->]. done.
  - intros r d Hr Hp. destruct (decide (r < length h)%nat) as [Hlt|Hge].
    + apply Hold in Hr; [|done]. etrans; [by eapply Hsz|].
      apply inj_le, class_size_mono; [rewrite length_app; lia|].
      intros x Hx. apply Data_root_reach; [done|].
      apply Hre. left. by apply Data_root_reach.
    + destruct (Hnew _ _ Hr Hge) as [-> ->]. simpl.
      assert (1 ≤ class_size (h ++ [d0]) (length h))%nat; [|lia].
      apply class_size_pos, Data_root_reach; [done|].
      apply Hre. by right.
  - intros r d Hr Hp. destruct (decide (r < length h)%nat) as [Hlt|Hge].
    + apply Hold in Hr; [|done].
      destruct (Hmin r d Hr Hp) as [Hle (dm & Hdm & Hrm & Hpx)].
      split.
      * intros x dx Hx Hdx. apply Hre in Hx as [Hx|[-> ->]]; [|lia].
        eapply Hle; [done|]. apply Hold; [done|]. by apply reach_valid in Hx as [? _].
      * exists dm. split_and!; [by apply lookup_app_l_Some| |done].
        apply Hre. by left.
    + destruct (Hnew _ _ Hr Hge) as [-> ->]. split.
      * intros x dx Hx Hdx. apply Hre in Hx as [Hx|[-> _]].
        { apply reach_valid in Hx. lia. }
        rewrite list_lookup_middle in Hdx by done. by simplify_eq.
      * exists d0. split_and!; simpl.
        -- by rewrite list_lookup_middle.
        -- apply Hre. by right.
        -- done.
Qed.

Lemma same_fields_sym h h' : same_fields h h' → same_fields h' h.
Proof. unfold same_fields. congruence. Qed.

Lemma shaped_root h n r h' :
  shaped h → (n < length h)%nat → root h n = Some (r, h') → shaped h'.
Proof.
  intros [Hf Hdr Hsz Hmin] Hn Hroot.
  destruct (root_spec h n Hf Hn) as (r1 & h1 & Hr1 & Hnr & Hf' & Hsf & Hre).
  destruct (root_parents h n Hf Hn) as (r2 & h2 & Hr2 & _ & Hpar & _).
  rewrite Hroot in Hr1, Hr2.
  assert (r1 = r ∧ h1 = h') as [-> ->] by (split; congruence).
  assert (r2 = r ∧ h2 = h') as [-> ->] by (split; congruence).
  clear Hr1 Hr2.
  pose proof (same_fields_length _ _ Hsf) as Hlen.
  assert (Hback : ∀ x d', h' !! x = Some d' →
            ∃ d, h !! x = Some d ∧ sig d' = sig d ∧ depth d' = depth d).
  { intros x d' Hx.
    destruct (same_fields_lookup _ _ _ _ (same_fields_sym _ _ Hsf) Hx)
      as (d & Hd & He).
    exists d. split; [done|]. apply erase_fields in He as (? & ? & _). done. }
  assert (Hroots : ∀ r d, h' !! r = Some d → parent d = None → h !! r = Some d).
  { intros r0 d. by apply equiv_root_lookup. }
  split.
  - done.
  - destruct Hdr as [Hd0 Hd]. split.
    + intros x d' Hx. destruct (Hback _ _ Hx) as (d & Hd' & _ & ->). eauto.
    + intros x d' p dp' Hx Hp Hdp.
      destruct (Hback _ _ Hx) as (d & Hxd & _ & ->).
      destruct (Hback _ _ Hdp) as (dp & Hpd & _ & ->).
      destruct (Hpar x) as [Hsame|Hroot'].
      * rewrite Hx, Hxd in Hsame. simpl in Hsame.
        eapply Hd; eauto. congruence.
      * rewrite Hx in Hroot'. simpl in Hroot'.
        assert (p = r) as -> by congruence.
        assert (Hxr : reach h' x r).
        { eapply reach_step; [done..|].
          destruct (reach_is_root _ _ _ Hnr) as (dr & Hdr & Hpr).
          eapply reach_root; [|exact Hpr]. by eapply same_fields_root. }
        apply Hre in Hxr.
        apply (depth_reach_le h x r d dp (conj Hd0 Hd) Hxr Hxd Hpd).
        intros ->. destruct (reach_is_root _ _ _ Hnr) as (dr & Hdr & Hpr).
        pose proof (same_fields_root _ _ _ _ Hsf Hre Hdr Hpr). congruence.
  - intros r0 d Hr0 Hp. etrans; [eapply Hsz; eauto|].
    apply inj_le, class_size_mono; [lia|].
    intros x. by rewrite (Data_root_ext h h').
  - intros r0 d Hr0 Hp.
    destruct (Hmin r0 d (Hroots _ _ Hr0 Hp) Hp) as [Hle (dm & Hdm & Hrm & Hpx)].
    split.
    + intros x dx Hx Hdx. apply Hre in Hx.
      destruct (Hback _ _ Hdx) as (dx0 & Hdx0 & -> & _). eauto.
    + pose proof (same_fields_sig h h' (minimal d) Hsf) as Hs.
      rewrite Hdm in Hs. destruct (h' !! minimal d) as [dm'|] eqn:Hdm'; [|done].
      exists dm'. split_and!; [done|by apply Hre|]. simpl in Hs. congruence.
Qed.

Lemma link_lookup (f g : Data → Data) (h : heap) (lo hi : addr) dlo dhi x :
  h !! lo = Some dlo → h !! hi = Some dhi → lo ≠ hi →
  alter f hi (alter g hi (alter (with_parent (Some hi)) lo h)) !! x
  = if decide (x = hi) then Some (f (g dhi))
    else if decide (x = lo) then Some (with_parent (Some hi) dlo)
    else h !! x.
Proof.
  intros Hlo Hhi Hne. destruct (decide (x = hi)) as [->|Hxhi].
  - rewrite !list_lookup_alter_eq, list_lookup_alter_ne by done.
    by rewrite Hhi.
  - rewrite !list_lookup_alter_ne by done.
    destruct (decide (x = lo)) as [->|Hxlo].
    + by rewrite list_lookup_alter_eq, Hlo.
    + by rewrite list_lookup_alter_ne.
Qed.

Lemma sig_lookup_back (h h' : heap) :
  (∀ x, sig <$> h' !! x = sig <$> h !! x) →
  (∀ x d', h' !! x = Some d' → ∃ d, h !! x = Some d ∧ sig d' = sig d)
  ∧ (∀ x d, h !! x = Some d → ∃ d', h' !! x = Some d' ∧ sig d' = sig d).
Proof.
  intros Hs. split; intros x d Hx; specialize (Hs x); rewrite Hx in Hs;
    simpl in Hs.
  - destruct (h !! x) as [d2|]; simplify_eq/=. eauto.
  - destruct (h' !! x) as [d2|]; simplify_eq/=. eauto.
Qed.

Lemma shaped_join h a b res h' :
  shaped h → (a < length h)%nat → (b < length h)%nat →
  join h a b = Some (res, h') → shaped h'.
Proof.
  intros Hsh Ha Hb Hj.
  destruct (join_shape h a b (sh_forest _ Hsh) Ha Hb)
    as (ra & rb & h1 & h2 & Hr1 & Hr2 & Hb1 & Hra & Hrb & Hf2 & Hsf & Hre
        & _ & Hcase).
  assert (Hsh2 : shaped h2).
  { eapply shaped_root; [|exact Hb1|exact Hr2].
    eapply shaped_root; [exact Hsh|exact Ha|exact Hr1]. }
  destruct Hcase as [[_ Hj']|(Hne & lo & hi & dlo & dhi & g & Hlohi & Hlo & Hhi
                              & _ & _ & Hplo & Hphi & Hg & Hj')].
  { rewrite Hj in Hj'. assert (h' = h2) as -> by congruence. done. }
  rewrite Hj in Hj'.
  assert (Hlh : lo ≠ hi) by (destruct Hlohi as [[-> ->]|[-> ->]]; congruence).
  assert (Hg1 : ∀ d, parent (g d) = parent d) by by destruct Hg as [[-> _]|[-> _]].
  assert (Hg2 : ∀ d, sig (g d) = sig d) by by destruct Hg as [[-> _]|[-> _]].
  assert (Hg3 : ∀ d, smallest (g d) = smallest d) by by destruct Hg as [[-> _]|[-> _]].
  assert (Hg4 : ∀ d, minimal (g d) = minimal d) by by destruct Hg as [[-> _]|[-> _]].
  assert (Hg5 : ∀ d, depth d ≤ depth (g d)).
  { intros d. destruct Hg as [[-> _]|[-> _]]; simpl; lia. }
  assert (Hg6 : depth dlo < depth (g dhi)).
  { destruct Hg as [[-> ?]|[-> ?]]; simpl; lia. }
  destruct (link_merged g h2 lo hi dlo dhi Hg1 Hg2 Hg3 Hg4 Hf2 Hlo Hplo Hhi
              Hphi Hlh) as [Hf' Hmg].
  assert (Hlk := λ x, link_lookup (absorb dlo) g h2 lo hi dlo dhi x Hlo Hhi Hlh).
  revert Hf' Hmg Hlk.
  assert (alter (absorb dlo) hi
            (alter g hi (alter (with_parent (Some hi)) lo h2)) = h') as ->
    by congruence.
  intros Hf' Hmg Hlk. clear Hj Hj'.
  destruct (absorb_fields dlo (g dhi)) as (Ha1 & Ha2 & Ha3 & Ha4).
  pose proof (absorb_parent dlo (g dhi)) as Ha5.
  destruct (sig_lookup_back h2 h' (λ x, merged_sig _ _ _ _ x Hmg))
    as [Hback Hforth].
  pose proof (merged_length _ _ _ _ Hmg) as Hlen.
  assert (Hre' : ∀ x s, reach h' x s
            ↔ (reach h2 x lo ∧ s = hi) ∨ (reach h2 x s ∧ s ≠ lo)).
  { by destruct Hmg. }
  assert (HDR2 := λ x r, proj1 (Data_root_reach h2 x r Hf2)).
  assert (HDR' := λ x r, proj2 (Data_root_reach h' x r Hf')).
  destruct Hsh2 as [_ [Hd0 Hd] Hsz Hmin].
  split.
  - done.
  - split.
    + intros x d Hx. rewrite Hlk in Hx. repeat case_decide; simplify_eq.
      * rewrite Ha2. specialize (Hd0 _ _ Hhi). specialize (Hg5 dhi). lia.
      * simpl. eauto.
      * eauto.
    + intros x d p dp Hx Hp Hdp. rewrite Hlk in Hx.
      destruct (decide (x = hi)) as [->|Hxhi].
      { simplify_eq. rewrite Ha5, Hg1 in Hp. congruence. }
      destruct (decide (x = lo)) as [->|Hxlo].
      { simplify_eq. simpl in Hp. simplify_eq.
        rewrite Hlk, decide_True in Hdp by done. simplify_eq.
        simpl. by rewrite Ha2. }
      rewrite Hlk in Hdp.
      destruct (decide (p = hi)) as [->|Hphi'].
      { simplify_eq. rewrite Ha2.
        pose proof (Hd _ _ _ _ Hx Hp Hhi). specialize (Hg5 dhi). lia. }
      destruct (decide (p = lo)) as [->|Hplo'].
      { simplify_eq. simpl. eauto. }
      eauto.
  - intros r d Hr Hp. rewrite Hlk in Hr.
    destruct (decide (r = hi)) as [->|Hrhi].
    { simplify_eq. rewrite Ha2.
      assert (Hsum : (class_size h2 lo + class_size h2 hi
                      ≤ class_size h' hi)%nat).
      { apply class_size_add; [done..| |].
        - intros x Hx. apply HDR', Hre'. left. split; [by apply HDR2|done].
        - intros x Hx. apply HDR', Hre'. right. split; [by apply HDR2|done]. }
      pose proof (Hsz _ _ Hlo Hplo) as Hslo.
      pose proof (Hsz _ _ Hhi Hphi) as Hshi.
      pose proof (Hd0 _ _ Hhi) as H0hi.
      destruct Hg as [[-> Hlt]|[-> Heq]].
      - lia.
      - simpl. rewrite Z.pow_add_r by lia. rewrite Heq in Hslo. lia. }
    destruct (decide (r = lo)) as [->|Hrlo]; [by simplify_eq|].
    etrans; [by eapply Hsz|].
    apply inj_le, class_size_mono; [lia|].
    intros x Hx. apply HDR', Hre'. right. split; [by apply HDR2|done].
  - intros r d Hr Hp. rewrite Hlk in Hr.
    destruct (Hmin _ _ Hlo Hplo) as [Hlelo (dmlo & Hdmlo & Hrmlo & Hpxlo)].
    destruct (Hmin _ _ Hhi Hphi) as [Hlehi (dmhi & Hdmhi & Hrmhi & Hpxhi)].
    destruct (decide (r = hi)) as [->|Hrhi].
    { simplify_eq. rewrite Ha3, Ha4, !Hg3, Hg4. split.
      - intros x dx Hx Hdx. destruct (Hback _ _ Hdx) as (dx2 & Hdx2 & ->).
        apply Hre' in Hx as [[Hx _]|[Hx _]].
        + specialize (Hlelo _ _ Hx Hdx2). lia.
        + specialize (Hlehi _ _ Hx Hdx2). lia.
      - destruct (Z.ltb_spec (smallest dlo) (smallest dhi)) as [Hlt|Hge].
        + destruct (Hforth _ _ Hdmlo) as (dm' & Hdm' & Hs').
          exists dm'. split_and!; [done| |].
          * apply Hre'. by left.
          * rewrite Hs'. lia.
        + destruct (Hforth _ _ Hdmhi) as (dm' & Hdm' & Hs').
          exists dm'. split_and!; [done| |].
          * apply Hre'. by right.
          * rewrite Hs'. lia. }
    destruct (decide (r = lo)) as [->|Hrlo]; [by simplify_eq|].
    destruct (Hmin _ _ Hr Hp) as [Hle (dm & Hdm & Hrm & Hpx)]. split.
    + intros x dx Hx Hdx. destruct (Hback _ _ Hdx) as (dx2 & Hdx2 & ->).
      apply Hre' in Hx as [[_ ->]|[Hx _]]; [done|]. eauto.
    + destruct (Hforth _ _ Hdm) as (dm' & Hdm' & Hs').
      exists dm'. split_and!; [done| |].
      * apply Hre'. by right.
      * by rewrite Hs'.
Qed.

Lemma run_shaped cs : ∀ h,
  shaped h → calls_ok (length h) cs = true →
  ∃ h', run h cs = Some h' ∧ shaped h'.
Proof.
  induction cs as [|c cs IH]; intros h Hsh Hok.
  - by exists h.
  - destruct c as [s|a b|a]; simpl in Hok |- *.
    + apply IH; [by apply shaped_new|].
      rewrite length_app. simpl. by rewrite Nat.add_1_r.
    + apply andb_prop in Hok as [[Ha Hb]%andb_prop Hok].
      apply Nat.ltb_lt in Ha, Hb.
      destruct (join_same h a b (sh_forest _ Hsh) Ha Hb)
        as (res & h' & Hjoin & _ & Hlen & _).
      rewrite Hjoin. simpl. apply IH; [exact (shaped_join h a b res h' Hsh Ha Hb Hjoin)|by rewrite Hlen].
    + apply andb_prop in Hok as [Ha Hok]. apply Nat.ltb_lt in Ha.
      destruct (root_spec h a (sh_forest _ Hsh) Ha)
        as (r & h' & Hr & _ & _ & Hsf & _).
      rewrite Hr. simpl.
      apply IH; [exact (shaped_root h a r h' Hsh Ha Hr)|].
      by rewrite (same_fields_length _ _ Hsf).
Qed.

(** X4. Union by rank. After any sequence of [new Data], [root] and [join]
    calls on valid pointers, starting from no nodes: every [depth] is
    non-negative and smaller than the parent's; a root of [depth] k heads a
    class of at least 2^k nodes; and the walk from a node of a class to its
    root inspects at most [depth]+1 nodes of the root. *)
Theorem union_by_rank (cs : list call) :
  calls_ok 0 cs = true →
  ∃ h, run [] cs = Some h
    ∧ depth_ranked h
    ∧ ∀ r d, h !! r = Some d → parent d = None →
        2 ^ depth d ≤ Z.of_nat (class_size h r)
        ∧ (class_size h r ≤ length h)%nat
        ∧ ∀ x, reach h x r → root_find (S (Z.to_nat (depth d))) h x = Some r.
Proof.
  intros Hok.
  destruct (run_shaped cs [] shaped_nil Hok) as (h & Hrun & [Hf Hdr Hsz Hmin]).
  exists h. split_and!; [done..|].
  intros r d Hr Hp. split_and!.
  - by eapply Hsz.
  - apply class_size_le.
  - intros x Hx. destruct (lookup_reach_Some _ _ _ Hx) as [dx Hdx].
    eapply root_find_mono; [|by eapply depth_root_find].
    destruct Hdr as [Hd0 _]. specialize (Hd0 _ _ Hdx). lia.
Qed.

Lemma union_by_rank_witness :
  ∃ h, run [] calls3 = Some h
    ∧ depth_ranked h
    ∧ ∀ r d, h !! r = Some d → parent d = None →
        2 ^ depth d ≤ Z.of_nat (class_size h r)
        ∧ (class_size h r ≤ length h)%nat
        ∧ ∀ x, reach h x r → root_find (S (Z.to_nat (depth d))) h x = Some r.
Proof. apply (union_by_rank calls3). reflexivity. Defined.

(** X5. The bookkeeping of the smallest member. After any sequence of
    [new Data], [root] and [join] calls on valid pointers, starting from no
    nodes, every root's [smallest] is the least complexity proxy
    ([sig[0] - 'a']) over the signatures of its class, and its [minimal]
    points at a node of the class whose signature has that proxy. *)
Theorem root_holds_class_minimum (cs : list call) :
  calls_ok 0 cs = true →
  ∃ h, run [] cs = Some h
    ∧ ∀ r d, h !! r = Some d → parent d = None →
        (∀ x dx, same h x r → h !! x = Some dx → smallest d ≤ proxy (sig dx))
        ∧ ∃ dm, h !! minimal d = Some dm ∧ same h (minimal d) r
                ∧ proxy (sig dm) = smallest d.
Proof.
  intros Hok.
  destruct (run_shaped cs [] shaped_nil Hok) as (h & Hrun & [Hf Hdr Hsz Hmin]).
  exists h. split; [done|]. intros r d Hr Hp.
  destruct (Hmin r d Hr Hp) as [Hle (dm & Hdm & Hrm & Hpx)].
  assert (Hrr : reach h r r) by by eapply reach_root.
  split.
  - intros x dx (s & Hxs & Hrs) Hdx.
    rewrite <-(reach_det _ _ _ _ Hrr Hrs) in Hxs. eauto.
  - exists dm. split_and!; [done| |done]. by exists r.
Qed.

Lemma root_holds_class_minimum_witness :
  ∃ h, run [] calls3 = Some h
    ∧ ∀ r d, h !! r = Some d → parent d = None →
        (∀ x dx, same h x r → h !! x = Some dx → smallest d ≤ proxy (sig dx))
        ∧ ∃ dm, h !! minimal d = Some dm ∧ same h (minimal d) r
                ∧ proxy (sig dm) = smallest d.
Proof. apply (root_holds_class_minimum calls3). reflexivity. Defined.

(** * Profiles and the format of the lines *)

(** ** [Profile::extend] *)

Lemma string_app_cons c (s1 s2 : string) :
  String c s1 +:+ s2 = String c (s1 +:+ s2).
Proof. done. Qed.

Lemma string_app_nil_r (s : string) : s +:+ "" = s.
Proof. induction s as [|c s IH]; [done|]. by rewrite string_app_cons, IH. Qed.

Lemma count_semicolons_app s1 s2 :
  count_semicolons (s1 +:+ s2) = (count_semicolons s1 + count_semicolons s2)%nat.
Proof.
  induction s1 as [|c s1 IH]; [done|]. simpl.
  destruct (Ascii.eqb c ";"); simpl; by rewrite IH.
Qed.

Lemma string_app_assoc (s1 s2 s3 : string) :
  (s1 +:+ s2) +:+ s3 = s1 +:+ (s2 +:+ s3).
Proof. induction s1 as [|c s1 IH]; [done|]. by rewrite !string_app_cons, IH. Qed.

Lemma extend_count E p t :
  plain_fields E t →
  count_semicolons (str (extend E p t)) = S (count_semicolons (str p)).
Proof.
  intros [Hh Htv]. unfold extend. simpl.
  rewrite !count_semicolons_app. simpl.
  destruct (count_semicolons (str p)) as [|[|k]].
  - destruct (isOrientable E t); simpl; lia.
  - rewrite Hh. lia.
  - repeat case_match; rewrite Htv; lia.
Qed.

Lemma extend_n_S E n p t :
  extend_n E (S n) p t = extend E (extend_n E n p t) t.
Proof. revert p. induction n as [|n IH]; intros p; [done|]. simpl. by rewrite <-IH. Qed.

(** X6. [Profile::extend] called [n] times on one triangulation whose
    invariants print without a semicolon adds exactly [n] fields: the
    semicolon count grows by [n] and the profile so far stays in front.
    Extending by [n + m] levels is extending by [n] and then by [m]. *)
Theorem extend_adds_fields (E : Engine) (t : tri E) (p : Profile) (n : nat) :
  plain_fields E t →
  count_semicolons (str (extend_n E n p t)) = (count_semicolons (str p) + n)%nat
  ∧ (∃ rest, str (extend_n E n p t) = str p +:+ rest)
  ∧ ∀ m, extend_n E (n + m) p t = extend_n E m (extend_n E n p t) t.
Proof.
  intros Hpl. split_and!.
  - induction n as [|n IH]; [simpl; lia|].
    rewrite extend_n_S, extend_count, IH by done. lia.
  - induction n as [|n [rest IH]]; [exists ""; simpl|].
    + by rewrite string_app_nil_r.
    + rewrite extend_n_S. unfold extend at 1. simpl. rewrite IH.
      eexists. by rewrite string_app_assoc.
  - revert p. induction n as [|n IH]; intros p m; [done|]. simpl. apply IH.
Qed.

Lemma still_engine_plain (t : tri still_engine) : plain_fields still_engine t.
Proof. split; [done|]. by intros r parity. Qed.

Lemma extend_adds_fields_witness :
  count_semicolons (str (extend_n still_engine 3 (mkProfile "#") "cA")) = 3%nat
  ∧ (∃ rest, str (extend_n still_engine 3 (mkProfile "#") "cA") = "#" +:+ rest)
  ∧ ∀ m, extend_n still_engine (3 + m) (mkProfile "#") "cA"
         = extend_n still_engine m
             (extend_n still_engine 3 (mkProfile "#") "cA") "cA".
Proof.
  apply (extend_adds_fields still_engine "cA" (mkProfile "#") 3).
  apply still_engine_plain.
Defined.

(** X7. The order of the invariants. Eight calls of [Profile::extend] on a
    profile without a semicolon append, in this order: orientability, the
    homology group, and the Turaev-Viro invariants for (3, true), (3, false),
    (4, true), (5, true), (5, false) and (6, true), each followed by a
    semicolon. *)
Theorem extend_order (E : Engine) (t : tri E) (p : Profile) :
  plain_fields E t → count_semicolons (str p) = O →
  str (extend_n E 8 p t)
  = str p +:+ (if isOrientable E t then "orbl" else "nor") +:+ ";"
    +:+ homology E t +:+ ";"
    +:+ turaevViro E t 3 true +:+ ";" +:+ turaevViro E t 3 false +:+ ";"
    +:+ turaevViro E t 4 true +:+ ";"
    +:+ turaevViro E t 5 true +:+ ";" +:+ turaevViro E t 5 false +:+ ";"
    +:+ turaevViro E t 6 true +:+ ";".
Proof.
  intros Hpl H0.
  assert (Hstep : ∀ q k, count_semicolons (str q) = k →
            str (extend E q t)
            = str q +:+ match k with
                        | O => if isOrientable E t then "orbl" else "nor"
                        | S O => homology E t
                        | _ =>
                            let a := Z.of_nat k mod 3 in
                            let b := Z.of_nat k / 3 in
                            if a =? 0 then turaevViro E t (2 * b + 1) false
                            else if a =? 1 then turaevViro E t (2 * b + 2) true
                            else turaevViro E t (2 * b + 3) true
                        end +:+ ";").
  { intros q k <-. done. }
  assert (Hcount : ∀ n, count_semicolons (str (extend_n E n p t)) = n).
  { intros n. destruct (extend_adds_fields E t p n Hpl) as [-> _]. lia. }
  rewrite !extend_n_S.
  rewrite (Hstep _ 7%nat) by (rewrite <-!extend_n_S; apply Hcount).
  rewrite (Hstep _ 6%nat) by (rewrite <-!extend_n_S; apply Hcount).
  rewrite (Hstep _ 5%nat) by (rewrite <-!extend_n_S; apply Hcount).
  rewrite (Hstep _ 4%nat) by (rewrite <-!extend_n_S; apply Hcount).
  rewrite (Hstep _ 3%nat) by (rewrite <-!extend_n_S; apply Hcount).
  rewrite (Hstep _ 2%nat) by (rewrite <-!extend_n_S; apply Hcount).
  rewrite (Hstep _ 1%nat) by (rewrite <-!extend_n_S; apply Hcount).
  rewrite (Hstep _ 0%nat) by done.
  cbn [extend_n]. rewrite !string_app_assoc. done.
Qed.

Lemma extend_order_witness :
  str (extend_n still_engine 8 (mkProfile "#") "cA")
  = "#" +:+ "orbl" +:+ ";" +:+ "Z" +:+ ";"
    +:+ "1" +:+ ";" +:+ "1" +:+ ";" +:+ "1" +:+ ";"
    +:+ "1" +:+ ";" +:+ "1" +:+ ";" +:+ "1" +:+ ";".
Proof.
  apply (extend_order still_engine "cA" (mkProfile "#"));
    [apply still_engine_plain|reflexivity].
Defined.

(** ** The tokens of a line *)

Lemma no_space_app s1 s2 : no_space (s1 +:+ s2) = no_space s1 && no_space s2.
Proof.
  induction s1 as [|c s1 IH]; [done|].
  rewrite string_app_cons. simpl. rewrite IH. by rewrite andb_assoc.
Qed.

Lemma app_not_empty (s : string) c : s +:+ String c "" ≠ "".
Proof. by destruct s. Qed.

Lemma split_ws_words s : ∀ acc,
  no_space acc = true → Forall word (split_ws acc s).
Proof.
  induction s as [|c s IH]; intros acc Hacc; simpl.
  - destruct acc; [constructor|]. by repeat constructor.
  - destruct (isspace c) eqn:Hc.
    + destruct acc; [by apply IH|].
      constructor; [done|]. by apply IH.
    + apply IH. rewrite no_space_app, Hacc. simpl. by rewrite Hc.
Qed.

Lemma split_ws_word w : ∀ acc rest,
  no_space w = true → split_ws acc (w +:+ rest) = split_ws (acc +:+ w) rest.
Proof.
  induction w as [|c w IH]; intros acc rest Hw.
  - by rewrite string_app_nil_r.
  - simpl in Hw. apply andb_prop in Hw as [Hc Hw].
    rewrite string_app_cons. simpl. apply negb_true_iff in Hc. rewrite Hc.
    rewrite IH by done. by rewrite string_app_assoc.
Qed.

Lemma split_ws_space acc rest :
  acc ≠ "" → split_ws acc (" " +:+ rest) = acc :: split_ws "" rest.
Proof. intros Hacc. by destruct acc. Qed.

Lemma split_ws_end acc : acc ≠ "" → split_ws acc "" = [acc].
Proof. intros Hacc. by destruct acc. Qed.

Lemma tokens_word_space w rest :
  word w → tokens (w +:+ " " +:+ rest) = w :: tokens rest.
Proof.
  intros [Hne Hw]. unfold tokens.
  rewrite split_ws_word by done. by rewrite split_ws_space.
Qed.

Lemma tokens_space_word rest : tokens (" " +:+ rest) = tokens rest.
Proof. done. Qed.

Lemma tokens_word w : word w → tokens w = [w].
Proof.
  intros [Hne Hw]. unfold tokens.
  rewrite <-(string_app_nil_r w) at 1.
  rewrite split_ws_word by done. by rewrite split_ws_end.
Qed.

Lemma concat_cons_cons (x y : string) (l : list string) :
  String.concat "" (x :: y :: l) = x +:+ String.concat "" (y :: l).
Proof. done. Qed.

Lemma concat_empty_cons (x : string) (l : list string) :
  String.concat "" (x :: l) = x +:+ String.concat "" l.
Proof. destruct l; [by rewrite string_app_nil_r|done]. Qed.

(** X8. Lines written are lines read. For signatures that are words (not
    empty, no whitespace), the tokens that [read] extracts with [l >> s]
    from a line are the signatures that the writers put on it: for a line of
    [dump_pachner] (separated by single spaces), for a component line of
    [dump_partition] (each followed by a space) and for its pending line
    ([#q], then each preceded by a space), which [read] takes as a pending
    line and not as a header. *)
Theorem tokens_of_written_lines (ss : list string) :
  Forall word ss →
  tokens (unwords ss) = ss
  ∧ tokens (String.concat "" ((λ s, s +:+ " ") <$> ss)) = ss
  ∧ tokens ("#q" +:+ String.concat "" ((λ s, " " +:+ s) <$> ss)) = "#q" :: ss
  ∧ is_header ("#q" +:+ String.concat "" ((λ s, " " +:+ s) <$> ss)) = false.
Proof.
  intros Hss. split_and!.
  - induction Hss as [|s ss Hs Hss IH]; [done|].
    destruct ss as [|s' ss]; [by apply tokens_word|].
    change (unwords (s :: s' :: ss)) with (s +:+ " " +:+ unwords (s' :: ss)).
    rewrite tokens_word_space by done. by rewrite IH.
  - induction Hss as [|s ss Hs Hss IH]; [done|].
    rewrite fmap_cons, concat_empty_cons, string_app_assoc.
    rewrite tokens_word_space by done. by rewrite IH.
  - assert (Hq : ∀ acc, acc ≠ "" →
              split_ws acc (String.concat "" ((λ s, " " +:+ s) <$> ss))
              = acc :: ss).
    { induction Hss as [|s ss [Hne Hs] Hss IH]; intros acc Hacc.
      - by apply split_ws_end.
      - rewrite fmap_cons, concat_empty_cons, string_app_assoc.
        rewrite split_ws_space by done. f_equal.
        rewrite split_ws_word by done. by apply IH. }
    unfold tokens. rewrite (split_ws_word "#q") by done. by apply Hq.
  - done.
Qed.

Lemma tokens_of_written_lines_witness :
  tokens (unwords ["cA"; "cB"]) = ["cA"; "cB"]
  ∧ tokens (String.concat "" ((λ s, s +:+ " ") <$> ["cA"; "cB"])) = ["cA"; "cB"]
  ∧ tokens ("#q" +:+ String.concat "" ((λ s, " " +:+ s) <$> ["cA"; "cB"]))
    = ["#q"; "cA"; "cB"]
  ∧ is_header ("#q" +:+ String.concat "" ((λ s, " " +:+ s) <$> ["cA"; "cB"]))
    = false.
Proof.
  apply (tokens_of_written_lines ["cA"; "cB"]).
  repeat constructor; done.
Defined.

(** X9. What [l >> s] extracts is never empty and holds no whitespace, on
    any line: the tests [!s.empty()] inside the two [while (l >> s)] loops of
    [read] never fail, and a line without tokens is all the first test
    [s.empty()] skips. *)
Theorem tokens_are_words (line : string) :
  Forall word (tokens line)
  ∧ (tokens line = [] ↔ forallb isspace (list_ascii_of_string line) = true).
Proof.
  split; [by apply split_ws_words|].
  unfold tokens.
  assert (Hacc : ∀ s acc, acc ≠ "" → split_ws acc s ≠ []).
  { induction s as [|c s IH]; intros acc Hacc; simpl.
    - by destruct acc.
    - destruct (isspace c); [by destruct acc|]. apply IH, app_not_empty. }
  induction line as [|c s IH]; simpl; [done|].
  destruct (isspace c); simpl; [done|].
  split; [|done]. intros Hnil. by apply Hacc in Hnil.
Qed.

(** * The text of the files *)

(** ** The lines of a text *)

Lemma getlines_from_line l : ∀ acc rest,
  no_newline l = true →
  getlines_from acc (l +:+ newline +:+ rest)
  = (acc +:+ l) :: getlines_from "" rest.
Proof.
  induction l as [|c l IH]; intros acc rest Hl.
  - by rewrite string_app_nil_r.
  - simpl in Hl. apply andb_true_iff in Hl as [Hc Hl].
    rewrite string_app_cons. simpl.
    destruct (Ascii.eqb c (ascii_of_nat 10)); [done|].
    rewrite IH by done. f_equal.
    by rewrite string_app_assoc.
Qed.

Lemma getlines_written ls :
  Forall (λ l, no_newline l = true) ls →
  getlines (String.concat "" ((λ l, l +:+ newline) <$> ls)) = ls.
Proof.
  unfold getlines. induction 1 as [|l ls Hl Hls IH]; [done|].
  rewrite fmap_cons, concat_empty_cons, string_app_assoc.
  rewrite getlines_from_line by done. by rewrite IH.
Qed.

Lemma string_concat_app (l1 l2 : list string) :
  String.concat "" (l1 ++ l2) = String.concat "" l1 +:+ String.concat "" l2.
Proof.
  induction l1 as [|x l1 IH]; [done|].
  rewrite <-app_comm_cons, !concat_empty_cons, IH.
  by rewrite string_app_assoc.
Qed.

Lemma no_newline_app s1 s2 :
  no_newline (s1 +:+ s2) = no_newline s1 && no_newline s2.
Proof.
  induction s1 as [|c s1 IH]; [done|].
  rewrite string_app_cons. simpl. rewrite IH. by rewrite andb_assoc.
Qed.

Lemma no_space_no_newline s : no_space s = true → no_newline s = true.
Proof.
  induction s as [|c s IH]; [done|]. simpl.
  intros [Hc Hs]%andb_true_iff. rewrite IH by done.
  rewrite andb_true_r. destruct (Ascii.eqb_spec c (ascii_of_nat 10)) as [->|]; done.
Qed.

Lemma no_newline_comp_line comp :
  Forall word comp → no_newline (comp_line comp) = true.
Proof.
  unfold comp_line. induction 1 as [|s ss [_ Hs] Hss IH]; [done|].
  rewrite fmap_cons, concat_empty_cons, !no_newline_app, IH.
  by rewrite (no_space_no_newline s).
Qed.

Lemma no_newline_pending_line q :
  Forall word q → no_newline (pending_line q) = true.
Proof.
  unfold pending_line. intros Hq. rewrite no_newline_app. simpl.
  induction Hq as [|s ss [_ Hs] Hss IH]; [done|].
  rewrite fmap_cons, concat_empty_cons, !no_newline_app, IH.
  by rewrite (no_space_no_newline s).
Qed.

Lemma no_newline_unwords ss :
  Forall word ss → no_newline (unwords ss) = true.
Proof.
  induction 1 as [|s ss [_ Hs] Hss IH]; [done|].
  destruct ss as [|s' ss]; [by apply no_space_no_newline|].
  change (unwords (s :: s' :: ss)) with (s +:+ " " +:+ unwords (s' :: ss)).
  rewrite !no_newline_app, IH. by rewrite (no_space_no_newline s).
Qed.

(** ** The tokens of a written line *)

Lemma tokens_comp_line comp : Forall word comp → tokens (comp_line comp) = comp.
Proof.
  unfold comp_line. induction 1 as [|s ss Hs Hss IH]; [done|].
  rewrite fmap_cons, concat_empty_cons, string_app_assoc.
  rewrite tokens_word_space by done. by rewrite IH.
Qed.

Lemma tokens_unwords ss : Forall word ss → tokens (unwords ss) = ss.
Proof.
  induction 1 as [|s ss Hs Hss IH]; [done|].
  destruct ss as [|s' ss]; [by apply tokens_word|].
  change (unwords (s :: s' :: ss)) with (s +:+ " " +:+ unwords (s' :: ss)).
  rewrite tokens_word_space by done. by rewrite IH.
Qed.

Lemma tokens_pending_line q :
  Forall word q → tokens (pending_line q) = "#q" :: q.
Proof.
  intros Hq. unfold pending_line, tokens.
  rewrite (split_ws_word "#q") by done.
  assert (Hacc : "#q" ≠ "") by done. revert Hacc. generalize "#q".
  induction Hq as [|s ss [Hne Hs] Hss IH]; intros acc Hacc.
  - by apply split_ws_end.
  - rewrite fmap_cons, concat_empty_cons, string_app_assoc.
    rewrite split_ws_space by done. f_equal.
    rewrite split_ws_word by done. by apply IH.
Qed.

Lemma char_at_0_app (s1 s2 : string) :
  s1 ≠ "" → char_at 0 (s1 +:+ s2) = char_at 0 s1.
Proof. by destruct s1. Qed.

Lemma not_header line : char_at 0 line ≠ "#"%char → is_header line = false.
Proof.
  intros Hc. unfold is_header.
  by destruct (Ascii.eqb_spec (char_at 0 line) "#").
Qed.

(** A line that starts with a kept first token and gives [f :: ms] as its
    tokens is a data line. *)
Lemma data_line_written E line f ms :
  kept_first E f → char_at 0 line = char_at 0 f → tokens line = f :: ms →
  data_line line = Some (f, ms).
Proof.
  intros (_ & Hc & _) Hl Ht. unfold data_line.
  rewrite not_header, Ht by congruence.
  destruct (String.eqb_spec f "#q") as [->|]; [|done].
  by destruct Hc.
Qed.

Lemma data_line_comp_line E f ms :
  kept_first E f → Forall word ms →
  data_line (comp_line (f :: ms)) = Some (f, ms).
Proof.
  intros Hf Hms. pose proof Hf as ([Hne Hsp] & _).
  apply (data_line_written E); [done| |].
  - unfold comp_line. rewrite fmap_cons, concat_empty_cons, string_app_assoc.
    by apply char_at_0_app.
  - apply tokens_comp_line. by constructor.
Qed.

Lemma data_line_unwords E f ms :
  kept_first E f → Forall word ms →
  data_line (unwords (f :: ms)) = Some (f, ms).
Proof.
  intros Hf Hms. pose proof Hf as ([Hne Hsp] & _).
  apply (data_line_written E); [done| |].
  - destruct ms as [|m ms]; [done|].
    change (unwords (f :: m :: ms)) with (f +:+ " " +:+ unwords (m :: ms)).
    by apply char_at_0_app.
  - apply tokens_unwords. by constructor.
Qed.

Lemma partition_text_lines header comps q :
  partition_text header comps q
  = String.concat "" ((λ l, l +:+ newline) <$> partition_lines header comps q).
Proof.
  unfold partition_text, partition_lines.
  rewrite fmap_cons, concat_empty_cons, fmap_app, string_concat_app.
  rewrite <-list_fmap_compose, !string_app_assoc. do 2 f_equal.
  f_equal. destruct q; reflexivity.
Qed.

Lemma unlines_lines l ls :
  unlines (l :: ls) +:+ newline
  = String.concat "" ((λ l, l +:+ newline) <$> l :: ls).
Proof.
  revert l. induction ls as [|l' ls IH]; intros l.
  - reflexivity.
  - change (unlines (l :: l' :: ls)) with (l +:+ newline +:+ unlines (l' :: ls)).
    by rewrite fmap_cons, concat_empty_cons, !string_app_assoc, <-IH.
Qed.

(** ** The lines of the files written *)

Lemma pachner_text_lines p lines :
  pachner_text p lines
  = String.concat ""
      ((λ l, l +:+ newline)
         <$> str p :: match lines with [] => [""] | _ => unwords <$> lines end).
Proof.
  unfold pachner_text. rewrite fmap_cons, concat_empty_cons.
  rewrite !string_app_assoc. do 2 f_equal.
  destruct lines as [|l ls]; [done|].
  rewrite fmap_cons. apply unlines_lines.
Qed.

Lemma tokens_unwords_all lines :
  Forall (Forall word) lines → tokens <$> (unwords <$> lines) = lines.
Proof.
  induction 1 as [|l ls Hl _ IH]; [done|].
  rewrite !fmap_cons, IH. by rewrite tokens_unwords.
Qed.

Lemma tokens_comp_line_all comps :
  Forall (Forall word) comps → tokens <$> (comp_line <$> comps) = comps.
Proof.
  induction 1 as [|l ls Hl _ IH]; [done|].
  rewrite !fmap_cons, IH. by rewrite tokens_comp_line.
Qed.

(** What [std::getline] and [l >> s] find in a listing of [dump_pachner]:
    the header, then the lines; a listing without lines holds one empty
    line. *)
Lemma getlines_pachner_text p lines :
  no_newline (str p) = true → Forall (Forall word) lines →
  getlines (pachner_text p lines)
  = str p :: match lines with [] => [""] | _ => unwords <$> lines end.
Proof.
  intros Hp Hlines. rewrite pachner_text_lines. apply getlines_written.
  constructor; [done|]. destruct lines as [|l ls]; [by repeat constructor|].
  apply Forall_fmap. eapply Forall_impl; [exact Hlines|].
  intros line Hw. by apply no_newline_unwords.
Qed.

Lemma written_lines_pachner_text p lines :
  no_newline (str p) = true → Forall (Forall word) lines →
  head (getlines (pachner_text p lines)) = Some (str p)
  ∧ written_lines (pachner_text p lines)
    = match lines with [] => [[]] | _ => lines end.
Proof.
  intros Hp Hlines. unfold written_lines.
  rewrite getlines_pachner_text by done. split; [done|]. simpl.
  destruct lines as [|l ls]; [done|]. by apply tokens_unwords_all.
Qed.

Lemma written_pachner_text p lines s :
  no_newline (str p) = true → Forall (Forall word) lines →
  written (pachner_text p lines) s ↔ listed lines s.
Proof.
  intros Hp Hlines. unfold written, listed.
  destruct (written_lines_pachner_text p lines Hp Hlines) as [_ ->].
  destruct lines as [|l ls]; [|done]. split.
  - intros (line & ->%list_elem_of_singleton & []%elem_of_nil).
  - intros (line & []%elem_of_nil & _).
Qed.

(** What they find in a file of [dump_partition]: the header, a line for
    each component, and the pending line when there is a queue. *)
Lemma getlines_partition_text header comps q :
  no_newline header = true → Forall (Forall word) comps → Forall word q →
  getlines (partition_text header comps q) = partition_lines header comps q.
Proof.
  intros Hh Hcomps Hq. rewrite partition_text_lines. apply getlines_written.
  unfold partition_lines. constructor; [done|].
  apply Forall_app. split.
  - apply Forall_fmap. eapply Forall_impl; [exact Hcomps|].
    intros comp Hw. by apply no_newline_comp_line.
  - destruct q as [|s q]; [constructor|].
    constructor; [|constructor]. by apply no_newline_pending_line.
Qed.

Lemma written_lines_partition_text header comps q :
  no_newline header = true → Forall (Forall word) comps → Forall word q →
  head (getlines (partition_text header comps q)) = Some header
  ∧ written_lines (partition_text header comps q)
    = comps ++ match q with [] => [] | _ => [("#q" : string) :: q] end.
Proof.
  intros Hh Hcomps Hq. unfold written_lines.
  rewrite getlines_partition_text by done. split; [done|].
  unfold partition_lines. simpl. rewrite fmap_app, tokens_comp_line_all by done.
  f_equal. destruct q as [|s q]; [done|].
  simpl. by rewrite tokens_pending_line.
Qed.

(** * The pool and [main] *)

Lemma worker_loop_drains {task : Type} (ts : list task) :
  worker_loop (S (length ts)) (mkPool ts true) = Some (ts, mkPool [] true).
Proof.
  induction ts as [|t ts IH]; [done|].
  change (worker_loop (S (length (t :: ts))) (mkPool (t :: ts) true))
    with ('(ts', pool'') ← worker_loop (S (length ts)) (mkPool ts true);
          Some (t :: ts', pool'')).
  by rewrite IH.
Qed.

Lemma worker_loop_waits {task : Type} (fuel : nat) : ∀ pool : ThreadPool task,
  stop pool = false → worker_loop fuel pool = None.
Proof.
  induction fuel as [|k IH]; intros [ts st] Hst; [done|].
  simpl in Hst. subst st. destruct ts as [|t ts]; [done|].
  change (worker_loop (S k) (mkPool (t :: ts) false))
    with ('(ts', pool'') ← worker_loop k (mkPool ts false);
          Some (t :: ts', pool'')).
  by rewrite IH.
Qed.

(** X10. A worker returns only after the destructor has set [stop], and
    then only when the queue is empty: on a running pool its loop never
    returns, and after [~ThreadPool] has set the flag it runs every task
    still queued, front first, and returns with the queue empty. *)
Theorem worker_runs_queue_before_exit {task : Type} (pool : ThreadPool task) :
  stop pool = false →
  (∀ fuel, worker_loop fuel pool = None)
  ∧ worker_loop (S (length (tasks pool))) (shutdown pool)
    = Some (tasks pool, mkPool [] true).
Proof.
  intros Hst. split.
  - intros fuel. by apply worker_loop_waits.
  - destruct pool as [ts st]. apply worker_loop_drains.
Qed.

Lemma worker_runs_queue_before_exit_witness :
  (∀ fuel, worker_loop fuel (mkPool [1; 2; 3]%nat false) = None)
  ∧ worker_loop 4 (shutdown (mkPool [1; 2; 3]%nat false))
    = Some ([1; 2; 3]%nat, mkPool [] true).
Proof.
  apply (worker_runs_queue_before_exit (mkPool [1; 2; 3]%nat false)).
  reflexivity.
Defined.

Lemma enqueue_all_running {task : Type} (ts : list task) : ∀ q,
  enqueue_all (mkPool q false) ts = (Returned, mkPool (q ++ ts) false).
Proof.
  induction ts as [|t ts IH]; intros q; simpl.
  - by rewrite app_nil_r.
  - unfold enqueue. simpl. rewrite IH. by rewrite <-app_assoc.
Qed.

(** X11. First in, first out. On a running pool every [enqueue] returns, and
    the tasks are run in the order of the calls, behind the tasks that were
    queued before: a worker started after the destructor set [stop] runs
    exactly the old queue followed by the new tasks. *)
Theorem pool_is_fifo {task : Type} (pool : ThreadPool task) (ts : list task) :
  stop pool = false →
  ∃ pool',
    enqueue_all pool ts = (Returned, pool')
    ∧ tasks pool' = tasks pool ++ ts
    ∧ worker_loop (S (length (tasks pool ++ ts))) (shutdown pool')
      = Some (tasks pool ++ ts, mkPool [] true).
Proof.
  destruct pool as [q st]. simpl. intros ->.
  exists (mkPool (q ++ ts) false). split_and!.
  - apply enqueue_all_running.
  - done.
  - apply worker_loop_drains.
Qed.

Lemma pool_is_fifo_witness :
  ∃ pool',
    enqueue_all (mkPool [1]%nat false) [2; 3]%nat = (Returned, pool')
    ∧ tasks pool' = [1; 2; 3]%nat
    ∧ worker_loop 4 (shutdown pool') = Some ([1; 2; 3]%nat, mkPool [] true).
Proof.
  apply (pool_is_fifo (mkPool [1]%nat false) [2; 3]%nat). reflexivity.
Defined.

(** ** [main] *)

Lemma string_length_app (a b : string) :
  String.length (a +:+ b) = (String.length a + String.length b)%nat.
Proof. induction a as [|c a IH]; [done|]. rewrite string_app_cons. simpl. by rewrite IH. Qed.

Lemma substring_app_r (a b : string) n :
  substring (String.length a) n (a +:+ b) = substring 0 n b.
Proof. induction a as [|c a IH]; [done|]. by rewrite string_app_cons. Qed.

Lemma substring_all (s : string) : substring 0 (String.length s) s = s.
Proof. induction s as [|c s IH]; [done|]. simpl. by rewrite IH. Qed.

Lemma substring_split (s : string) : ∀ n,
  (n ≤ String.length s)%nat →
  s = substring 0 n s +:+ substring n (String.length s - n) s.
Proof.
  induction s as [|c s IH]; intros n Hn.
  - by destruct n.
  - destruct n as [|n].
    + rewrite Nat.sub_0_r. exact (eq_sym (substring_all (String c s))).
    + simpl in Hn |- *. rewrite string_app_cons. f_equal. apply IH. lia.
Qed.

Lemma string_app_inj_r (a b c : string) : a +:+ c = b +:+ c → a = b.
Proof.
  revert b. induction a as [|x a IH]; intros b Heq.
  - destruct b as [|y b]; [done|].
    apply (f_equal String.length) in Heq.
    rewrite string_app_cons in Heq. simpl in Heq.
    rewrite !string_length_app in Heq. simpl in Heq. lia.
  - destruct b as [|y b].
    + apply (f_equal String.length) in Heq.
      rewrite string_app_cons in Heq. simpl in Heq.
      rewrite !string_length_app in Heq. simpl in Heq. lia.
    + rewrite !string_app_cons in Heq. injection Heq as -> Heq.
      f_equal. by apply IH.
Qed.

Lemma is_sigs_iff d_name :
  is_sigs d_name = true ↔ ∃ base, base ≠ "" ∧ d_name = base +:+ ".sigs".
Proof.
  unfold is_sigs. rewrite andb_true_iff, Nat.ltb_lt, String.eqb_eq. split.
  - intros [Hlen Hsuf].
    pose proof (substring_split d_name (String.length d_name - 5)) as Hsp.
    replace (String.length d_name - (String.length d_name - 5))%nat
      with 5%nat in Hsp by lia.
    rewrite Hsuf in Hsp. eexists. split; [|apply Hsp; lia].
    intros Hbase. rewrite Hbase in Hsp.
    rewrite Hsp in Hlen by lia. simpl in Hlen. lia.
  - intros (base & Hne & ->). rewrite string_length_app. simpl. split.
    + destruct base; [done|]. simpl. lia.
    + replace (String.length base + 5 - 5)%nat with (String.length base) by lia.
      by rewrite substring_app_r.
Qed.

Lemma substring_app_l (a b : string) :
  substring 0 (String.length a) (a +:+ b) = a.
Proof.
  induction a as [|c a IH]; [by destruct b|].
  rewrite string_app_cons. simpl. by rewrite IH.
Qed.

Lemma main_loop_running mode level indir outdir entries : ∀ q,
  main_loop mode level indir outdir entries (mkPool q false)
  = (Returned,
     mkPool (q ++ (main_job mode level indir outdir
                     <$> filter (λ n, is_sigs n = true) entries)) false).
Proof.
  induction entries as [|n entries IH]; intros q; simpl.
  - by rewrite app_nil_r.
  - rewrite filter_cons. destruct (is_sigs n) eqn:Hn.
    + rewrite decide_True by done. unfold enqueue. simpl. rewrite IH.
      by rewrite <-app_assoc.
    + rewrite decide_False by done. apply IH.
Qed.

(** X12. What [main] schedules. An [argv[1]] that starts with [-i] selects
    the partition, one that starts with [-p] the Pachner exploration, and
    anything else ends in [usage]. With a mode, [main] enqueues one job for
    each directory entry that is longer than five characters and ends in
    [.sigs], in directory order, and for no other entry; no [enqueue]
    throws. An entry named just [.sigs] is passed over. *)
Theorem main_schedules_sigs_files (argv1 : string) (level : Z)
    (indir outdir : string) (entries : list string) :
  (mode_of argv1 = Some PARTITION ↔ ∃ rest, argv1 = "-i" +:+ rest)
  ∧ (mode_of argv1 = Some PACHNER ↔ ∃ rest, argv1 = "-p" +:+ rest)
  ∧ (∀ mode, mode_of argv1 = Some mode →
       main argv1 level indir outdir entries
       = Some (Returned,
               mkPool (main_job mode level indir outdir
                         <$> filter (λ n, is_sigs n = true) entries) false))
  ∧ (∀ n, is_sigs n = true ↔ ∃ base, base ≠ "" ∧ n = base +:+ ".sigs")
  ∧ (mode_of argv1 = None → main argv1 level indir outdir entries = None).
Proof.
  assert (Hpre : ∀ pre, String.length pre = 2%nat →
            String.prefix pre argv1 = true ↔ ∃ rest, argv1 = pre +:+ rest).
  { intros pre Hlen. rewrite prefix_correct, Hlen. split.
    - intros Hsub. exists (substring 2 (String.length argv1 - 2) argv1).
      rewrite <-Hsub at 1.
      destruct (decide (2 ≤ String.length argv1)%nat) as [Hle|Hgt].
      + by apply substring_split.
      + exfalso. apply (f_equal String.length) in Hsub. rewrite Hlen in Hsub.
        destruct argv1 as [|c1 [|c2 rest]]; simpl in *; lia.
    - intros [rest ->]. rewrite <-Hlen. apply substring_app_l. }
  split_and!.
  - unfold mode_of. rewrite <-(Hpre "-i") by done.
    destruct (String.prefix "-i" argv1); [done|].
    destruct (String.prefix "-p" argv1); split; done.
  - unfold mode_of. rewrite <-(Hpre "-p") by done.
    destruct (String.prefix "-i" argv1) eqn:Hi.
    + split; [done|]. intros Hp. exfalso.
      apply (Hpre "-i") in Hi as [r1 ->]; [|done].
      apply (Hpre "-p") in Hp as [r2 Hp]; [|done]. done.
    + destruct (String.prefix "-p" argv1); split; done.
  - intros mode Hm. unfold main. rewrite Hm. simpl.
    by rewrite main_loop_running.
  - apply is_sigs_iff.
  - intros Hm. unfold main. by rewrite Hm.
Qed.

Lemma to_uint_not_Nil n : Nat.to_uint n ≠ Decimal.Nil.
Proof.
  rewrite <-(DecimalNat.Unsigned.of_to n) at 1.
  rewrite DecimalNat.Unsigned.to_of. apply DecimalFacts.unorm_nonnil.
Qed.

Lemma digits_inj n m :
  NilZero.string_of_uint (Nat.to_uint n) = NilZero.string_of_uint (Nat.to_uint m)
  → n = m.
Proof.
  intros Heq. apply DecimalNat.Unsigned.to_uint_inj.
  pose proof (NilZero.usu _ (to_uint_not_Nil n)) as Hn.
  pose proof (NilZero.usu _ (to_uint_not_Nil m)) as Hm.
  rewrite Heq in Hn. congruence.
Qed.

Lemma partition_name_inj fname n m :
  partition_name fname n = partition_name fname m → n = m.
Proof.
  unfold partition_name. intros Heq.
  apply (inj (String.app fname)) in Heq.
  by apply string_app_inj_r, digits_inj in Heq.
Qed.

(** X13. The files of a job are [.sigs] files again. For an entry of the
    input directory that [main] accepts: the Pachner job writes to the same
    name in the output directory; the partition job writes its [count]-th
    file of a graph to the name made of the entry without its [.sigs], an
    underscore, the number and [.sigs], which [main] accepts as an input
    entry, and two numbers never give the same name. *)
Theorem job_outputs_are_sigs_files (level : Z) (indir outdir d_name : string) :
  is_sigs d_name = true →
  ∃ base,
    d_name = base +:+ ".sigs"
    ∧ main_job PACHNER level indir outdir d_name
      = run_pachner (indir +:+ "/" +:+ d_name) level (outdir +:+ "/" +:+ d_name)
    ∧ ∃ oname,
        main_job PARTITION level indir outdir d_name
        = run_partition (indir +:+ "/" +:+ d_name) level oname
        ∧ ∀ count,
            partition_name oname count
            = outdir +:+ "/" +:+ base +:+ "_"
              +:+ NilZero.string_of_uint (Nat.to_uint count) +:+ ".sigs"
            ∧ partition_name oname count
              = outdir +:+ "/" +:+ partition_d_name d_name count
            ∧ is_sigs (partition_d_name d_name count) = true
            ∧ ∀ count', partition_name oname count' = partition_name oname count
                        → count' = count.
Proof.
  intros Hs. pose proof Hs as (base & Hne & ->)%is_sigs_iff.
  exists base. split; [done|]. split; [done|].
  eexists. split; [done|]. intros count.
  assert (Hbase : substring 0 (String.length (base +:+ ".sigs") - 5)
                    (base +:+ ".sigs") = base).
  { rewrite string_length_app. simpl.
    replace (String.length base + 5 - 5)%nat with (String.length base) by lia.
    apply substring_app_l. }
  unfold partition_d_name, partition_name. rewrite Hbase. split_and!.
  - by rewrite !string_app_assoc.
  - by rewrite !string_app_assoc.
  - apply is_sigs_iff. eexists. split; [|by rewrite <-!string_app_assoc].
    destruct base; [done|]. done.
  - intros count'. apply partition_name_inj.
Qed.

Lemma job_outputs_are_sigs_files_witness :
  ∃ base,
    "3-cusped.sigs" = base +:+ ".sigs"
    ∧ main_job PACHNER 2 "in" "out" "3-cusped.sigs"
      = run_pachner ("in" +:+ "/" +:+ "3-cusped.sigs") 2
          ("out" +:+ "/" +:+ "3-cusped.sigs")
    ∧ ∃ oname,
        main_job PARTITION 2 "in" "out" "3-cusped.sigs"
        = run_partition ("in" +:+ "/" +:+ "3-cusped.sigs") 2 oname
        ∧ ∀ count,
            partition_name oname count
            = "out" +:+ "/" +:+ base +:+ "_"
              +:+ NilZero.string_of_uint (Nat.to_uint count) +:+ ".sigs"
            ∧ partition_name oname count
              = "out" +:+ "/" +:+ partition_d_name "3-cusped.sigs" count
            ∧ is_sigs (partition_d_name "3-cusped.sigs" count) = true
            ∧ ∀ count', partition_name oname count' = partition_name oname count
                        → count' = count.
Proof.
  apply (job_outputs_are_sigs_files 2 "in" "out" "3-cusped.sigs"). reflexivity.
Defined.

(** * The census in memory *)

(** ** Maps in key order *)

Lemma compare_Lt_trans a b c :
  String.compare a b = Lt → String.compare b c = Lt → String.compare a c = Lt.
Proof.
  intros H1 H2. apply OrderedTypeEx.String_as_OT.cmp_lt.
  apply OrderedTypeEx.String_as_OT.cmp_lt in H1, H2.
  eapply OrderedTypeEx.String_as_OT.lt_trans; eauto.
Qed.

Lemma compare_Gt_Lt a b : String.compare a b = Gt → String.compare b a = Lt.
Proof. intros H. rewrite String.compare_antisym, H. done. Qed.

Lemma compare_Lt_Gt a b : String.compare a b = Lt → String.compare b a = Gt.
Proof. intros H. rewrite String.compare_antisym, H. done. Qed.

Lemma compare_Lt_ne a b : String.compare a b = Lt → a ≠ b.
Proof. intros H ->. by rewrite (proj2 (compare_Eq_iff b b)) in H. Qed.

Section sorted.
Context {V : Type}.
Implicit Types (m : smap V) (k : string) (v : V).

Lemma keys_cons k v m : keys ((k, v) :: m) = k :: keys m.
Proof. done. Qed.

Lemma keys_map_set k v m s :
  s ∈ keys (map_set k v m) ↔ s = k ∨ s ∈ keys m.
Proof.
  unfold keys. induction m as [|[k' v'] m IH]; simpl.
  - rewrite list_elem_of_singleton, elem_of_nil. naive_solver.
  - destruct (String.compare k k') eqn:Hc; simpl.
    + apply compare_Eq_iff in Hc as ->. rewrite !elem_of_cons. naive_solver.
    + rewrite !elem_of_cons. naive_solver.
    + rewrite !elem_of_cons, IH. naive_solver.
Qed.

Lemma key_sorted_insert k v m : key_sorted m → key_sorted (map_insert k v m).
Proof.
  induction m as [|[k' v'] m IH]; simpl.
  - intros _. split; [|done]. by intros k'' ?%elem_of_nil.
  - intros [Hlt Hs]. destruct (String.compare k k') eqn:Hc; simpl.
    + done.
    + split; [|done]. intros k''. rewrite elem_of_cons.
      intros [->|Hin]; [done|]. eapply compare_Lt_trans; eauto.
    + split; [|auto]. intros k'' [->|Hin]%keys_map_insert; [|auto].
      by apply compare_Gt_Lt.
Qed.

Lemma key_sorted_set k v m : key_sorted m → key_sorted (map_set k v m).
Proof.
  induction m as [|[k' v'] m IH]; simpl.
  - intros _. split; [|done]. by intros k'' ?%elem_of_nil.
  - intros [Hlt Hs]. destruct (String.compare k k') eqn:Hc; simpl.
    + apply compare_Eq_iff in Hc as ->. done.
    + split; [|done]. intros k''. rewrite elem_of_cons.
      intros [->|Hin]; [done|]. eapply compare_Lt_trans; eauto.
    + split; [|auto]. intros k'' [->|Hin]%keys_map_set; [|auto].
      by apply compare_Gt_Lt.
Qed.

Lemma key_sorted_NoDup m : key_sorted m → NoDup (keys m).
Proof.
  induction m as [|[k v] m IH]; simpl; [constructor|].
  intros [Hlt Hs]. constructor; [|auto].
  intros Hin. by apply Hlt, compare_Lt_ne in Hin.
Qed.

Lemma key_sorted_find m k v : key_sorted m → (k, v) ∈ m → map_find k m = Some v.
Proof.
  intros Hs Hin. destruct (map_find k m) as [v'|] eqn:Hf.
  - f_equal. apply map_find_Some_elem in Hf.
    eapply NoDup_keys_elem; eauto. by apply key_sorted_NoDup.
  - apply map_find_None_key in Hf. destruct Hf.
    apply list_elem_of_fmap. by exists (k, v).
Qed.

Lemma key_sorted_elem_eq m k v v' :
  key_sorted m → (k, v) ∈ m → (k, v') ∈ m → v = v'.
Proof. intros Hs. apply NoDup_keys_elem. by apply key_sorted_NoDup. Qed.

(** [insert] on a key that is present does nothing. *)
Lemma map_insert_present m k v v0 :
  key_sorted m → map_find k m = Some v0 → map_insert k v m = m.
Proof.
  induction m as [|[k' v'] m IH]; simpl; [done|].
  intros [Hlt Hs]. destruct (String.eqb_spec k k') as [->|Hne].
  - intros _. by rewrite (proj2 (compare_Eq_iff k' k')).
  - intros Hf. pose proof (map_find_Some_key _ _ _ Hf) as Hk.
    rewrite (compare_Lt_Gt _ _ (Hlt _ Hk)). by rewrite IH.
Qed.


(** [m[k] = v] on a sorted map replaces the entry of [k] and no other. *)
Lemma elem_of_map_set_iff m k v kv :
  key_sorted m →
  kv ∈ map_set k v m ↔ kv = (k, v) ∨ (kv ∈ m ∧ kv.1 ≠ k).
Proof.
  intros Hs. split.
  - intros Hin. destruct kv as [k0 v0]. simpl.
    destruct (decide (k0 = k)) as [->|Hne].
    + left. f_equal.
      apply (key_sorted_find _ _ _ (key_sorted_set k v m Hs)) in Hin.
      rewrite map_find_set_eq in Hin. congruence.
    + right. split; [|done]. apply elem_of_map_set in Hin as [?|?]; [|done].
      congruence.
  - intros [->|[Hin Hne]].
    + apply map_find_Some_elem, map_find_set_eq.
    + destruct kv as [k0 v0]. simpl in Hne. apply map_find_Some_elem.
      rewrite map_find_set_ne by done. by apply key_sorted_find.
Qed.

End sorted.

(** ** Growing a graph *)

Lemma root_compress_length k : ∀ h n ans h',
  root_compress k h n ans = Some h' → length h' = length h.
Proof.
  induction k as [|k IH]; intros h n ans h'; [done|].
  rewrite root_compress_S. destruct (h !! n) as [d|]; simpl; [|done].
  case_decide; [by intros [= <-]|].
  destruct (parent d) as [p|]; simpl; [|done].
  intros Hc%IH. by rewrite length_alter in Hc.
Qed.

Lemma root_length h n r h' : root h n = Some (r, h') → length h' = length h.
Proof.
  unfold root. destruct (root_find _ _ _) as [ans|]; simpl; [|done].
  case_decide; [by intros [= _ <-]|].
  destruct (root_compress _ _ _ _) as [h1|] eqn:Hc; simpl; [|done].
  intros [= _ <-]. by eapply root_compress_length.
Qed.

Lemma join_length h a b res h' :
  join h a b = Some (res, h') → length h' = length h.
Proof.
  rewrite join_unfold.
  destruct (root h a) as [[ra h1]|] eqn:H1; simpl; [|done].
  destruct (root h1 b) as [[rb h2]|] eqn:H2; simpl; [|done].
  apply root_length in H1, H2.
  case_decide; [intros [= _ <-]; congruence|].
  destruct (h2 !! ra) as [da|]; simpl; [|done].
  destruct (h2 !! rb) as [db|]; simpl; [|done].
  repeat case_match; intros [= _ <-]; rewrite ?length_alter; congruence.
Qed.

Lemma graph_wf_ok h g : graph_wf h g → graph_ok h g.
Proof.
  intros [_ Hsig] k a Hka. specialize (Hsig k a Hka).
  destruct (h !! a) eqn:Ha; [|done]. by apply lookup_lt_Some in Ha.
Qed.

Lemma grown_refl h g : shaped h → graph_wf h g → grown h g h g.
Proof. intros Hsh Hwf. split; auto. Qed.

Lemma grown_join h0 g0 h g a b res h' :
  grown h0 g0 h g → (a < length h)%nat → (b < length h)%nat →
  join h a b = Some (res, h') → grown h0 g0 h' g.
Proof.
  intros [Hsh [Hks Hsig] Hlen Hold Hfr Hkept Hsame] Ha Hb Hj.
  pose proof (sh_forest _ Hsh) as Hf.
  pose proof (join_sig h a b res h' Hf Ha Hb Hj) as Hs.
  pose proof (join_length _ _ _ _ _ Hj) as Hl.
  destruct (join_same h a b Hf Ha Hb) as (res' & h'' & Hj' & _ & _ & _ & Hsm).
  rewrite Hj in Hj'. assert (h'' = h') as -> by congruence.
  split.
  - exact (shaped_join h a b res h' Hsh Ha Hb Hj).
  - split; [done|]. intros k x Hkx. rewrite Hs. auto.
  - lia.
  - intros x Hx. rewrite Hs. auto.
  - done.
  - done.
  - intros x y Hxy. apply Hsm. left. auto.
Qed.

Lemma grown_new h0 g0 h g s :
  grown h0 g0 h g → grown h0 g0 (new_Data h s).2 g.
Proof.
  intros [Hsh [Hks Hsig] Hlen Hold Hfr Hkept Hsame].
  pose proof (sh_forest _ Hsh) as Hf.
  pose proof (shaped_new h s Hsh) as Hsh'. rewrite new_Data_eq in *. simpl in *.
  split; auto.
  - split; [done|]. intros k a Hka. specialize (Hsig k a Hka).
    destruct (h !! a) as [d|] eqn:Hd; [|done].
    by rewrite (lookup_app_l_Some _ _ _ _ Hd).
  - rewrite length_app. lia.
  - intros x Hx. rewrite lookup_app_l by lia. auto.
  - intros x y Hxy. apply same_app_old; auto.
Qed.

Lemma grown_insert h0 g0 h g s e :
  grown h0 g0 h g → (length h0 ≤ e)%nat → sig <$> h !! e = Some s →
  grown h0 g0 h (map_insert s e g).
Proof.
  intros [Hsh [Hks Hsig] Hlen Hold Hfr Hkept Hsame] He Hse.
  split; auto.
  - split; [by apply key_sorted_insert|].
    intros k a [[= -> ->]|Hka]%elem_of_map_insert; auto.
  - intros k a [[= -> ->]|Hka]%elem_of_map_insert; auto.
  - intros kv Hkv. by apply elem_of_map_insert_old, Hkept.
Qed.

Lemma grown_trans h0 g0 h1 g1 h2 g2 :
  grown h0 g0 h1 g1 → grown h1 g1 h2 g2 → grown h0 g0 h2 g2.
Proof.
  intros [_ _ Hlen1 Hold1 Hfr1 Hkept1 Hsame1]
    [Hsh [Hks Hsig] Hlen2 Hold2 Hfr2 Hkept2 Hsame2].
  split; auto.
  - by split.
  - lia.
  - intros x Hx. rewrite Hold2 by lia. auto.
  - intros k a Hka. destruct (Hfr2 k a Hka) as [Hka1|Hge]; [|right; lia].
    auto.
Qed.

Lemma graphs_wf_set h gs p h' g' :
  graphs_wf h gs → grown h (default [] (map_find p gs)) h' g' →
  graphs_wf h' (map_set p g' gs).
Proof.
  intros (Hks & Hwf & Hdis) [Hsh Hwf' Hlen Hold Hfr Hkept Hsame].
  assert (Hvalid : ∀ q gq k a, (q, gq) ∈ gs → (k, a) ∈ gq → (a < length h)%nat).
  { intros q gq k a Hq Hka. by eapply (graph_wf_ok h gq); [apply (Hwf q)|]. }
  assert (Hmix : ∀ q gq k k' a,
            (q, gq) ∈ gs → q ≠ p → (k, a) ∈ g' → (k', a) ∈ gq → False).
  { intros q gq k k' a Hq Hne Hka Hka'.
    destruct (Hfr k a Hka) as [Hin|Hge].
    - destruct (map_find p gs) as [gp|] eqn:Hp; simpl in Hin;
        [|by apply elem_of_nil in Hin].
      apply map_find_Some_elem in Hp.
      apply Hne. symmetry. by eapply (Hdis p gp q gq k k' a).
    - specialize (Hvalid q gq k' a Hq Hka'). lia. }
  split_and!.
  - by apply key_sorted_set.
  - intros q gq [[= -> ->]|Hq]%elem_of_map_set; [done|].
    destruct (Hwf q gq Hq) as [Hs Hsig]. split; [done|].
    intros k a Hka. rewrite Hold; [by apply Hsig|by eapply Hvalid].
  - intros q gq q' gq' k k' a.
    rewrite !elem_of_map_set_iff by done. simpl.
    intros [[= -> ->]|[Hq Hne]] [[= -> ->]|[Hq' Hne']] Hka Hka'.
    + done.
    + destruct (Hmix q' gq' k k' a Hq' Hne' Hka Hka').
    + destruct (Hmix q gq k' k a Hq Hne Hka' Hka).
    + by eapply (Hdis q gq q' gq' k k' a).
Qed.

(** ** [read] *)

Lemma n_roots_app h d :
  n_roots (h ++ [d])
  = (n_roots h + (if decide (parent d = None) then 1 else 0))%nat.
Proof.
  unfold n_roots. rewrite filter_app, length_app. f_equal.
  rewrite filter_cons, filter_nil. by case_decide.
Qed.

(** Joining a node with a node that was just allocated. *)
Lemma join_fresh h d s :
  shaped h → (d < length h)%nat →
  ∃ h2, join (new_Data h s).2 d (length h) = Some (true, h2)
        ∧ n_roots h2 = n_roots h ∧ same h2 (length h) d.
Proof.
  intros Hsh Hd. pose proof (sh_forest _ Hsh) as Hf.
  rewrite new_Data_eq. simpl.
  set (d0 := mkData s None 0 (proxy s) (length h)).
  assert (Hf1 : forest (h ++ [d0])) by by apply forest_app.
  assert (Hlen1 : length (h ++ [d0]) = S (length h)).
  { rewrite length_app. simpl. lia. }
  destruct (join_same (h ++ [d0]) d (length h) Hf1)
    as (res & h2 & Hj & _ & _ & Hres & Hsame); [lia..|].
  assert (res = true) as ->.
  { apply Hres. rewrite same_app by done.
    intros [Hs|[-> _]]; [|lia]. apply same_valid in Hs as [_ ?]. lia. }
  exists h2. split_and!; [done| |].
  - assert (Hd1 : (d < length (h ++ [d0]))%nat) by lia.
    assert (He1 : (length h < length (h ++ [d0]))%nat) by lia.
    pose proof (join_n_roots _ _ _ _ _ Hf1 Hd1 He1 Hj) as Hn.
    rewrite n_roots_app in Hn. simpl in Hn. lia.
  - apply Hsame. right. right. split; apply same_refl; auto; lia.
Qed.

Lemma join_sigs h a b res h' :
  forest h → (a < length h)%nat → (b < length h)%nat →
  join h a b = Some (res, h') → sig <$> h' = sig <$> h.
Proof.
  intros Hf Ha Hb Hj. apply list_eq. intros x. rewrite !list_lookup_fmap.
  exact (join_sig h a b res h' Hf Ha Hb Hj x).
Qed.

Lemma read_members_grown d ms : ∀ h g,
  shaped h → graph_wf h g → (d < length h)%nat →
  ∃ h' g', read_members d ms h g = Some (h', g')
    ∧ grown h g h' g'
    ∧ length h' = (length h + length ms)%nat
    ∧ n_roots h' = n_roots h
    ∧ (∀ x, (length h ≤ x < length h')%nat → same h' x d)
    ∧ sig <$> h' = (sig <$> h) ++ ms.
Proof.
  induction ms as [|s ms IH]; intros h g Hsh Hwf Hd.
  - exists h, g. split_and!; [done|by apply grown_refl|simpl; lia|done| |].
    + intros x Hx. lia.
    + by rewrite app_nil_r.
  - cbn [read_members].
    destruct (join_fresh h d s Hsh Hd) as (h2 & Hj & Hn & Hsm).
    pose proof (grown_new h g h g s (grown_refl h g Hsh Hwf)) as Hg1.
    rewrite new_Data_eq in Hj, Hg1 |- *. simpl in Hj, Hg1.
    set (d0 := mkData s None 0 (proxy s) (length h)) in *.
    assert (Hlen1 : length (h ++ [d0]) = S (length h)).
    { rewrite length_app. simpl. lia. }
    rewrite Hj. simpl.
    pose proof (join_length _ _ _ _ _ Hj) as Hlen2.
    assert (Hg2 : grown h g h2 g).
    { eapply grown_join; [exact Hg1| | |exact Hj]; lia. }
    assert (Hg3 : grown h g h2 (map_insert s (length h) g)).
    { apply grown_insert; [done|lia|].
      assert (Hd1 : (d < length (h ++ [d0]))%nat) by lia.
      assert (He1 : (length h < length (h ++ [d0]))%nat) by lia.
      rewrite (join_sig _ _ _ _ _ (sh_forest _ (gr_shaped _ _ _ _ Hg1))
                 Hd1 He1 Hj).
      by rewrite list_lookup_middle. }
    destruct (IH h2 (map_insert s (length h) g))
      as (h' & g' & -> & Hg' & Hl' & Hn' & Hs' & Hsg');
      [apply Hg3|apply Hg3|lia|].
    exists h', g'. split_and!; [done| | | | |].
    + by eapply grown_trans.
    + simpl. lia.
    + lia.
    + intros x Hx. destruct (decide (x = length h)) as [->|Hne].
      * by apply (gr_same _ _ _ _ Hg').
      * apply Hs'. lia.
    + assert (Hd1 : (d < length (h ++ [d0]))%nat) by lia.
      assert (He1 : (length h < length (h ++ [d0]))%nat) by lia.
      rewrite Hsg', (join_sigs _ _ _ _ _ (sh_forest _ (gr_shaped _ _ _ _ Hg1))
                       Hd1 He1 Hj).
      rewrite fmap_app. simpl. by rewrite <-app_assoc.
Qed.

Lemma kept_lines_cons E p line rest :
  kept_lines E p (line :: rest)
  = kept_lines E p [line]
    ++ kept_lines E (if is_header line then line else p) rest.
Proof.
  simpl. destruct (is_header line); [done|].
  destruct (data_line line) as [[s ms]|]; [|done].
  by destruct (simplifies E s).
Qed.

Lemma pending_lines_cons p line rest :
  pending_lines p (line :: rest)
  = pending_lines p [line]
    ++ pending_lines (if is_header line then line else p) rest.
Proof.
  simpl. destruct (is_header line); [done|].
  destruct (tokens line) as [|s ms]; [done|].
  by destruct (String.eqb s "#q").
Qed.

Lemma tokens_under_app q l1 l2 :
  tokens_under q (l1 ++ l2) = tokens_under q l1 ++ tokens_under q l2.
Proof. unfold tokens_under. by rewrite filter_app, fmap_app, concat_app. Qed.

Lemma lines_under_app q l1 l2 :
  lines_under q (l1 ++ l2) = (lines_under q l1 + lines_under q l2)%nat.
Proof. unfold lines_under. by rewrite filter_app, length_app. Qed.

Lemma push_waiting_find p ss : ∀ w q,
  map_find q (push_waiting p ss w)
  = if decide (q = str p ∧ ss ≠ [])
    then Some (default [] (map_find q w) ++ ss) else map_find q w.
Proof.
  unfold push_waiting.
  induction ss as [|s ss IH]; intros w q; simpl.
  - rewrite decide_False; [done|]. by intros [_ ?].
  - rewrite IH. destruct (decide (q = str p)) as [->|Hne].
    + rewrite map_find_set_eq. simpl.
      rewrite (decide_True (P := _ ∧ s :: ss ≠ [])) by done.
      destruct ss as [|s' ss].
      * rewrite decide_False; [done|]. by intros [_ ?].
      * rewrite decide_True by done. by rewrite <-app_assoc.
    + rewrite map_find_set_ne by done.
      rewrite !decide_False; [done|by intros [? _]|by intros [? _]].
Qed.

Lemma count_at_set_eq p v n : count_at p (map_set p v n) = v.
Proof. unfold count_at. by rewrite map_find_set_eq. Qed.

Lemma count_at_set_ne p q v n : q ≠ p → count_at q (map_set p v n) = count_at q n.
Proof. intros Hne. unfold count_at. by rewrite map_find_set_ne. Qed.

(** One line of the input. *)
Lemma read_line_census E st line :
  shaped (rd_heap st) → graphs_wf (rd_heap st) (rd_graphs st) →
  (∀ q, wrap32 (count_at q (rd_nComp st)) = count_at q (rd_nComp st)) →
  (∀ s ms, data_line line = Some (s, ms) → is_Some (fromIsoSig E s)) →
  let kl := kept_lines E (str (rd_p st)) [line] in
  let pl := pending_lines (str (rd_p st)) [line] in
  ∃ st', read_line E st line = Some st'
    ∧ shaped (rd_heap st') ∧ graphs_wf (rd_heap st') (rd_graphs st')
    ∧ str (rd_p st') = (if is_header line then line else str (rd_p st))
    ∧ length (rd_heap st')
      = (length (rd_heap st) + length (concat (snd <$> kl)))%nat
    ∧ n_roots (rd_heap st') = (n_roots (rd_heap st) + length kl)%nat
    ∧ (∀ q, count_at q (rd_nComp st')
            = wrap32 (count_at q (rd_nComp st) + Z.of_nat (lines_under q kl)))
    ∧ (∀ q, map_find q (rd_waiting st')
            = if decide (tokens_under q pl = [])
              then map_find q (rd_waiting st)
              else Some (default [] (map_find q (rd_waiting st))
                         ++ tokens_under q pl))
    ∧ sig <$> rd_heap st' = (sig <$> rd_heap st) ++ concat (snd <$> kl).
Proof.
  intros Hsh Hgs Hwr Hparse. simpl. unfold read_line, data_line in *.
  assert (Hwr0 : ∀ q, count_at q (rd_nComp st)
                      = wrap32 (count_at q (rd_nComp st) + Z.of_nat 0)).
  { intros q. by rewrite Z.add_0_r, Hwr. }
  destruct (is_header line) eqn:Hh.
  { eexists. split; [done|]. simpl. rewrite app_nil_r.
    split_and!; auto; try lia; done. }
  destruct (tokens line) as [|f ms] eqn:Ht.
  { exists st. simpl. rewrite app_nil_r. split_and!; auto; try lia; done. }
  destruct (String.eqb f "#q") eqn:Hq.
  { eexists. split; [done|]. simpl. rewrite app_nil_r.
    split_and!; auto; try lia.
    intros q. rewrite push_waiting_find. unfold tokens_under. simpl.
    rewrite filter_cons, filter_nil. simpl.
    destruct (decide (str (rd_p st) = q)) as [<-|Hne]; simpl.
    - rewrite app_nil_r. repeat case_decide; try done; naive_solver.
    - repeat case_decide; try done; naive_solver. }
  destruct (Hparse f ms eq_refl) as [t Ht'].
  rewrite Ht'. simpl. rewrite <-(simplifies_Some E f t Ht').
  destruct (simplifies E f) eqn:Hs.
  { eexists. split; [done|]. simpl. rewrite app_nil_r.
    split_and!; auto; try lia; done. }
  set (p := str (rd_p st)).
  set (h := rd_heap st) in *.
  set (g0 := default [] (map_find p (rd_graphs st))).
  assert (Hwf0 : graph_wf h g0).
  { unfold g0. destruct (map_find p (rd_graphs st)) as [g|] eqn:Hg; simpl.
    - apply map_find_Some_elem in Hg. by eapply (proj1 (proj2 Hgs)).
    - split; [done|]. by intros k a ?%elem_of_nil. }
  pose proof (grown_new h g0 h g0 f (grown_refl h g0 Hsh Hwf0)) as Hg1.
  rewrite new_Data_eq in Hg1. simpl in Hg1.
  set (d0 := mkData f None 0 (proxy f) (length h)) in *.
  assert (Hlen1 : length (h ++ [d0]) = S (length h)).
  { rewrite length_app. simpl. lia. }
  assert (Hg2 : grown h g0 (h ++ [d0]) (map_insert f (length h) g0)).
  { apply grown_insert; [done|lia|]. by rewrite list_lookup_middle. }
  destruct (read_members_grown (length h) ms (h ++ [d0])
              (map_insert f (length h) g0))
    as (h' & g' & -> & Hg' & Hl' & Hn' & _ & Hsg'); [apply Hg2|apply Hg2|lia|].
  simpl. eexists. split; [done|]. simpl.
  assert (Hgr : grown h g0 h' g') by by eapply grown_trans.
  split_and!.
  - apply Hgr.
  - by apply (graphs_wf_set h).
  - done.
  - rewrite app_nil_r. simpl. lia.
  - rewrite Hn', n_roots_app. simpl. lia.
  - intros q. unfold lines_under. rewrite filter_cons, filter_nil. simpl.
    fold p. destruct (decide (p = q)) as [<-|Hne]; simpl.
    + by rewrite count_at_set_eq.
    + rewrite count_at_set_ne by done. apply Hwr0.
  - done.
  - rewrite Hsg', fmap_app, app_nil_r. simpl. by rewrite <-app_assoc.
Qed.

Lemma wrap32_idemp z : wrap32 (wrap32 z) = wrap32 z.
Proof. unfold wrap32. by rewrite Zmod_mod. Qed.

Lemma wrap32_add_l a b : wrap32 (wrap32 a + b) = wrap32 (a + b).
Proof. unfold wrap32. by rewrite Zplus_mod_idemp_l. Qed.

Lemma read_lines_census E lines : ∀ st,
  shaped (rd_heap st) → graphs_wf (rd_heap st) (rd_graphs st) →
  (∀ q, wrap32 (count_at q (rd_nComp st)) = count_at q (rd_nComp st)) →
  (∀ s, s ∈ first_tokens lines → is_Some (fromIsoSig E s)) →
  let kl := kept_lines E (str (rd_p st)) lines in
  let pl := pending_lines (str (rd_p st)) lines in
  ∃ st', read_lines E st lines = Some st'
    ∧ shaped (rd_heap st') ∧ graphs_wf (rd_heap st') (rd_graphs st')
    ∧ length (rd_heap st')
      = (length (rd_heap st) + length (concat (snd <$> kl)))%nat
    ∧ n_roots (rd_heap st') = (n_roots (rd_heap st) + length kl)%nat
    ∧ (∀ q, count_at q (rd_nComp st')
            = wrap32 (count_at q (rd_nComp st) + Z.of_nat (lines_under q kl)))
    ∧ (∀ q, map_find q (rd_waiting st')
            = if decide (tokens_under q pl = [])
              then map_find q (rd_waiting st)
              else Some (default [] (map_find q (rd_waiting st))
                         ++ tokens_under q pl))
    ∧ sig <$> rd_heap st' = (sig <$> rd_heap st) ++ concat (snd <$> kl).
Proof.
  induction lines as [|line lines IH]; intros st Hsh Hgs Hwr Hparse kl pl.
  - exists st. subst kl pl. simpl. rewrite app_nil_r.
    split_and!; auto; try lia.
    intros q. by rewrite Z.add_0_r, Hwr.
  - subst kl pl. rewrite kept_lines_cons, pending_lines_cons.
    rewrite first_tokens_cons in Hparse. cbn [read_lines].
    destruct (read_line_census E st line Hsh Hgs Hwr)
      as (st1 & -> & Hsh1 & Hgs1 & Hp1 & Hlen1 & Hn1 & Hc1 & Hw1 & Hsg1).
    { intros s ms Hdl. apply Hparse. rewrite Hdl. apply elem_of_cons. by left. }
    set (kl1 := kept_lines E (str (rd_p st)) [line]) in *.
    set (pl1 := pending_lines (str (rd_p st)) [line]) in *.
    clearbody kl1 pl1. simpl. rewrite <-Hp1.
    destruct (IH st1 Hsh1 Hgs1)
      as (st' & -> & Hsh' & Hgs' & Hlen' & Hn' & Hc' & Hw' & Hsg').
    { intros q. by rewrite Hc1, wrap32_idemp. }
    { intros s Hs. apply Hparse. destruct (data_line line) as [[??]|]; [|done].
      apply elem_of_cons. by right. }
    exists st'. split_and!; try done.
    + rewrite Hlen', Hlen1, fmap_app, concat_app, length_app. lia.
    + rewrite Hn', Hn1, length_app. lia.
    + intros q. rewrite Hc', Hc1, wrap32_add_l, lines_under_app. f_equal. lia.
    + intros q. rewrite Hw', Hw1, tokens_under_app.
      destruct (tokens_under q pl1) as [|t1 T1];
        destruct (tokens_under q (pending_lines (str (rd_p st1)) lines)) as [|t2 T2];
        simpl; try done.
      * by rewrite app_nil_r.
      * by rewrite <-app_assoc.
    + by rewrite Hsg', Hsg1, fmap_app, concat_app, <-app_assoc.
Qed.

(** ** The classes that [read] builds *)

Lemma same_line_app l1 l2 start x y :
  same_line (l1 ++ l2) start x y
  ↔ same_line l1 start x y
    ∨ same_line l2 (start + length (concat l1)) x y.
Proof.
  revert start. induction l1 as [|l l1 IH]; intros start; simpl.
  - rewrite Nat.add_0_r. tauto.
  - rewrite IH, length_app, Nat.add_assoc. tauto.
Qed.

(** The members of a line enter the class of its first token, whose node
    [d] is the first of the line. *)
Lemma read_members_classes h0 d ms : ∀ h g h' g',
  d = length h0 → forest h → (d < length h)%nat →
  (∀ x y, same h x y
          ↔ same h0 x y
            ∨ ((d ≤ x < length h)%nat ∧ (d ≤ y < length h)%nat)) →
  read_members d ms h g = Some (h', g') →
  ∀ x y, same h' x y
         ↔ same h0 x y
           ∨ ((d ≤ x < length h + length ms)%nat
              ∧ (d ≤ y < length h + length ms)%nat).
Proof.
  induction ms as [|s ms IH]; intros h g h' g' Hd Hf Hlt Hinv.
  - simpl. intros [= <- <-] x y. rewrite Hinv, !Nat.add_0_r. done.
  - cbn [read_members]. rewrite new_Data_eq.
    set (d0 := mkData s None 0 (proxy s) (length h)).
    assert (Hf1 : forest (h ++ [d0])) by by apply forest_app.
    assert (Hlen1 : length (h ++ [d0]) = S (length h)).
    { rewrite length_app. simpl. lia. }
    destruct (join_same (h ++ [d0]) d (length h) Hf1)
      as (res & h2 & Hj & Hf2 & Hlen2 & _ & Hsame2); [lia..|].
    rewrite Hj. simpl. intros Hrest.
    assert (Hv : ∀ a b, same h0 a b → (a < d)%nat ∧ (b < d)%nat).
    { intros a b Hab%same_valid. lia. }
    assert (Hinv2 : ∀ x y, same h2 x y
              ↔ same h0 x y
                ∨ ((d ≤ x < length h2)%nat ∧ (d ≤ y < length h2)%nat)).
    { intros x y. rewrite Hsame2, !(same_app h d0) by done. rewrite !Hinv.
      rewrite Hlen2, Hlen1.
      pose proof (Hv x y). pose proof (Hv x d). pose proof (Hv (length h) y).
      pose proof (Hv x (length h)). pose proof (Hv d y).
      split; intros Hcase; intuition lia. }
    intros x y.
    assert (Hlt2 : (d < length h2)%nat) by lia.
    rewrite (IH h2 _ h' g' Hd Hf2 Hlt2 Hinv2 Hrest x y).
    rewrite Hlen2, Hlen1.
    replace (S (length h) + length ms)%nat with (length h + S (length ms))%nat
      by lia.
    done.
Qed.

Lemma read_line_classes E st line st' :
  forest (rd_heap st) →
  read_line E st line = Some st' →
  ∀ x y, same (rd_heap st') x y
         ↔ same (rd_heap st) x y
           ∨ same_line (snd <$> kept_lines E (str (rd_p st)) [line])
               (length (rd_heap st)) x y.
Proof.
  intros Hf. unfold read_line. simpl. unfold data_line.
  destruct (is_header line) eqn:Hh.
  { intros [= <-] x y. simpl. tauto. }
  destruct (tokens line) as [|f ms] eqn:Ht.
  { intros [= <-] x y. simpl. tauto. }
  destruct (String.eqb f "#q") eqn:Hq.
  { intros [= <-] x y. simpl. tauto. }
  destruct (fromIsoSig E f) as [t|] eqn:Ht'; simpl; [|done].
  rewrite <-(simplifies_Some E f t Ht').
  destruct (simplifies E f) eqn:Hs.
  { intros [= <-] x y. simpl. tauto. }
  set (h := rd_heap st) in *.
  set (d0 := mkData f None 0 (proxy f) (length h)).
  assert (Hf1 : forest (h ++ [d0])) by by apply forest_app.
  assert (Hlen1 : length (h ++ [d0]) = S (length h)).
  { rewrite length_app. simpl. lia. }
  destruct (read_members _ _ _ _) as [[h' g']|] eqn:Hm; simpl; [|done].
  intros [= <-] x y. simpl.
  assert (Hinv : ∀ a b, same (h ++ [d0]) a b
            ↔ same h a b
              ∨ ((length h ≤ a < length (h ++ [d0]))%nat
                 ∧ (length h ≤ b < length (h ++ [d0]))%nat)).
  { intros a b. rewrite (same_app h d0) by done. rewrite Hlen1.
    split; (intros [?|?]; [by left|right; lia]). }
  assert (Hlt : (length h < length (h ++ [d0]))%nat) by lia.
  rewrite (read_members_classes h (length h) ms _ _ h' g' eq_refl Hf1 Hlt
             Hinv Hm x y).
  rewrite Hlen1.
  replace (S (length h) + length ms)%nat with (length h + S (length ms))%nat
    by lia.
  simpl. tauto.
Qed.

Lemma read_lines_classes E lines : ∀ st st',
  shaped (rd_heap st) → graphs_wf (rd_heap st) (rd_graphs st) →
  (∀ q, wrap32 (count_at q (rd_nComp st)) = count_at q (rd_nComp st)) →
  (∀ s, s ∈ first_tokens lines → is_Some (fromIsoSig E s)) →
  read_lines E st lines = Some st' →
  ∀ x y, same (rd_heap st') x y
         ↔ same (rd_heap st) x y
           ∨ same_line (snd <$> kept_lines E (str (rd_p st)) lines)
               (length (rd_heap st)) x y.
Proof.
  induction lines as [|line lines IH]; intros st st' Hsh Hgs Hwr Hparse.
  - simpl. intros [= <-] x y. tauto.
  - rewrite kept_lines_cons. rewrite first_tokens_cons in Hparse.
    cbn [read_lines].
    destruct (read_line_census E st line Hsh Hgs Hwr)
      as (st1 & Hr1 & Hsh1 & Hgs1 & Hp1 & Hlen1 & _ & Hc1 & _ & _).
    { intros s ms Hdl. apply Hparse. rewrite Hdl. apply elem_of_cons. by left. }
    rewrite Hr1. simpl. intros Hrest x y.
    assert (Hwr1 : ∀ q, wrap32 (count_at q (rd_nComp st1))
                        = count_at q (rd_nComp st1)).
    { intros q. by rewrite Hc1, wrap32_idemp. }
    assert (Hparse1 : ∀ s, s ∈ first_tokens lines → is_Some (fromIsoSig E s)).
    { intros s Hs. apply Hparse. destruct (data_line line) as [[??]|]; [|done].
      apply elem_of_cons. by right. }
    rewrite (IH st1 st' Hsh1 Hgs1 Hwr1 Hparse1 Hrest x y).
    rewrite (read_line_classes E st line st1 (sh_forest _ Hsh) Hr1).
    rewrite fmap_app, same_line_app, Hp1, Hlen1. tauto.
Qed.

Lemma graphs_wf_nil h : graphs_wf h [].
Proof.
  split_and!; [done|by intros p g ?%elem_of_nil|].
  by intros p g p' g' k k' a ?%elem_of_nil.
Qed.

(** X14. What [read] builds. When the engine can parse the first token of
    every data line, [read] returns with: one node for every token of every
    kept data line, in file order, also for a signature met before; two
    nodes in one class exactly when their tokens are on the same line, so
    that there are as many classes as kept lines; every graph in key order,
    each entry pointing at a node with the key as signature, and no node
    stored in two graphs; and the arena in the shape that union by rank and
    the bookkeeping of the smallest member maintain. *)
Theorem read_builds_census (E : Engine) (infile : list string) :
  (∀ s, s ∈ first_tokens infile → is_Some (fromIsoSig E s)) →
  ∃ r, read E [] infile = Some r
    ∧ sig <$> rd_heap r = concat (snd <$> kept_lines E "#" infile)
    ∧ (∀ x y, same (rd_heap r) x y
              ↔ same_line (snd <$> kept_lines E "#" infile) 0 x y)
    ∧ n_roots (rd_heap r) = length (kept_lines E "#" infile)
    ∧ graphs_wf (rd_heap r) (rd_graphs r)
    ∧ shaped (rd_heap r).
Proof.
  intros Hparse. unfold read.
  destruct (read_lines_census E infile (mkReader (mkProfile "#") 0 [] [] [] [])
              shaped_nil (graphs_wf_nil []) (λ _, eq_refl) Hparse)
    as (r & Hr & Hsh & Hgs & _ & Hn & _ & _ & Hsg).
  pose proof (read_lines_classes E infile
                (mkReader (mkProfile "#") 0 [] [] [] []) r
                shaped_nil (graphs_wf_nil []) (λ _, eq_refl) Hparse Hr) as Hcl.
  exists r. split_and!; try done.
  intros x y. rewrite (Hcl x y). simpl. split; [|by right].
  intros [[Hx _]%same_valid|?]; [simpl in Hx; lia|done].
Qed.

Lemma read_builds_census_witness :
  ∃ r, read still_engine [] ["# orbl;"; "cA cB"; "cC"] = Some r
    ∧ sig <$> rd_heap r
      = concat (snd <$> kept_lines still_engine "#"
                          ["# orbl;"; "cA cB"; "cC"])
    ∧ (∀ x y, same (rd_heap r) x y
              ↔ same_line (snd <$> kept_lines still_engine "#"
                                     ["# orbl;"; "cA cB"; "cC"]) 0 x y)
    ∧ n_roots (rd_heap r)
      = length (kept_lines still_engine "#" ["# orbl;"; "cA cB"; "cC"])
    ∧ graphs_wf (rd_heap r) (rd_graphs r)
    ∧ shaped (rd_heap r).
Proof.
  apply (read_builds_census still_engine ["# orbl;"; "cA cB"; "cC"]).
  intros s _. simpl. by eexists.
Defined.

(** X15. The two tables of [read]. When the engine can parse the first token
    of every data line: [nComp] holds for every profile the number of data
    lines kept under it, as an [unsigned]; [waiting] holds for every profile
    the tokens after [#q] of the pending lines under it, in file order, and
    has no entry for a profile without such a token. *)
Theorem read_fills_tables (E : Engine) (infile : list string) :
  (∀ s, s ∈ first_tokens infile → is_Some (fromIsoSig E s)) →
  ∃ r, read E [] infile = Some r
    ∧ ∀ q,
        count_at q (rd_nComp r)
        = wrap32 (Z.of_nat (lines_under q (kept_lines E "#" infile)))
        ∧ default [] (map_find q (rd_waiting r))
          = tokens_under q (pending_lines "#" infile)
        ∧ (map_find q (rd_waiting r) = None
           ↔ tokens_under q (pending_lines "#" infile) = []).
Proof.
  intros Hparse. unfold read.
  destruct (read_lines_census E infile (mkReader (mkProfile "#") 0 [] [] [] [])
              shaped_nil (graphs_wf_nil []) (λ _, eq_refl) Hparse)
    as (r & Hr & _ & _ & _ & _ & Hc & Hw & _).
  exists r. split; [done|]. intros q. simpl in Hc, Hw. split_and!.
  - by rewrite Hc.
  - rewrite Hw. by case_decide.
  - rewrite Hw. by case_decide.
Qed.

Lemma read_fills_tables_witness :
  ∃ r, read still_engine [] ["# orbl;"; "cA"; "cB cC"; "#q cB"] = Some r
    ∧ ∀ q,
        count_at q (rd_nComp r)
        = wrap32 (Z.of_nat (lines_under q
            (kept_lines still_engine "#" ["# orbl;"; "cA"; "cB cC"; "#q cB"])))
        ∧ default [] (map_find q (rd_waiting r))
          = tokens_under q (pending_lines "#" ["# orbl;"; "cA"; "cB cC"; "#q cB"])
        ∧ (map_find q (rd_waiting r) = None
           ↔ tokens_under q (pending_lines "#" ["# orbl;"; "cA"; "cB cC"; "#q cB"])
             = []).
Proof.
  apply (read_fills_tables still_engine ["# orbl;"; "cA"; "cB cC"; "#q cB"]).
  intros s _. simpl. by eexists.
Defined.

(** * What exploring does to a graph *)

Lemma visit_grown h0 g0 p prof maxN next st st' :
  grown h0 g0 (ex_heap st) (ex_graph st) → (p < length (ex_heap st))%nat →
  visit p prof maxN next st = Some st' →
  grown h0 g0 (ex_heap st') (ex_graph st')
  ∧ (length (ex_heap st) ≤ length (ex_heap st'))%nat.
Proof.
  intros Hg Hp. unfold visit.
  destruct (map_find next (ex_graph st)) as [e|] eqn:Hfind.
  - destruct (join (ex_heap st) p e) as [[joined h']|] eqn:Hj; simpl; [|done].
    intros [= <-]. simpl.
    assert (He : (e < length (ex_heap st))%nat).
    { eapply graph_wf_ok; [apply Hg|]. by apply map_find_Some_elem. }
    split; [exact (grown_join _ _ _ _ _ _ _ _ Hg Hp He Hj)|].
    rewrite (join_length _ _ _ _ _ Hj). lia.
  - pose proof (grown_new _ _ _ _ next Hg) as Hg1.
    rewrite new_Data_eq in Hg1 |- *. simpl in Hg1.
    set (h := ex_heap st) in *.
    set (d0 := mkData next None 0 (proxy next) (length h)) in *.
    assert (Hlen1 : length (h ++ [d0]) = S (length h)).
    { rewrite length_app. simpl. lia. }
    destruct (join (h ++ [d0]) p (length h)) as [[joined h']|] eqn:Hj; simpl;
      [|done].
    intros [= <-]. simpl.
    assert (Hg2 : grown h0 g0 (h ++ [d0]) (map_insert next (length h) (ex_graph st))).
    { apply grown_insert; [done| |by rewrite list_lookup_middle].
      apply (gr_length _ _ _ _ Hg). }
    split.
    + eapply grown_join; [exact Hg2| | |exact Hj]; lia.
    + rewrite (join_length _ _ _ _ _ Hj). lia.
Qed.

Lemma visit_all_grown h0 g0 p prof maxN nexts : ∀ st st',
  grown h0 g0 (ex_heap st) (ex_graph st) → (p < length (ex_heap st))%nat →
  visit_all p prof maxN nexts st = Some st' →
  grown h0 g0 (ex_heap st') (ex_graph st')
  ∧ (length (ex_heap st) ≤ length (ex_heap st'))%nat.
Proof.
  induction nexts as [|next nexts IH]; intros st st' Hg Hp; simpl.
  - intros [= <-]. split; [done|lia].
  - destruct (visit p prof maxN next st) as [st1|] eqn:Hv; simpl; [|done].
    destruct (visit_grown _ _ _ _ _ _ _ _ Hg Hp Hv) as [Hg1 Hl1].
    intros Hall. assert (Hp1 : (p < length (ex_heap st1))%nat) by lia.
    destruct (IH _ _ Hg1 Hp1 Hall) as [Hg' Hl'].
    split; [done|lia].
Qed.

Lemma process_grown h0 g0 E p prof maxN nComp c c' :
  grown h0 g0 (cl_heap c) (cl_graph c) → (p < length (cl_heap c))%nat →
  process E p prof maxN nComp c = Some c' →
  grown h0 g0 (cl_heap c') (cl_graph c').
Proof.
  intros Hg Hp. unfold process, process_body. simpl.
  destruct (cl_heap c !! p) as [d|]; simpl; [|done].
  destruct (fromIsoSig E (sig d)) as [t|]; simpl; [|by intros [= <-]].
  destruct (visit_all p prof maxN (moves_32 E t) _) as [st1|] eqn:H1; simpl;
    [|done].
  destruct (visit_all_grown h0 g0 p prof maxN _
              (mkExplorer (cl_heap c) (cl_graph c) (cl_q c) nComp false
                 (cl_cerr c)) st1 Hg Hp H1) as [Hg1 Hl1].
  simpl in Hl1.
  destruct (visit_all p prof maxN (moves_44 E t) st1) as [st2|] eqn:H2; simpl;
    [|done].
  assert (Hp1 : (p < length (ex_heap st1))%nat) by lia.
  destruct (visit_all_grown _ _ _ _ _ _ _ _ Hg1 Hp1 H2) as [Hg2 Hl2].
  destruct (visit_all p prof maxN (moves_23 E t) st2) as [st3|] eqn:H3; simpl;
    [|done].
  assert (Hp2 : (p < length (ex_heap st2))%nat) by lia.
  destruct (visit_all_grown _ _ _ _ _ _ _ _ Hg2 Hp2 H3) as [Hg3 Hl3].
  by intros [= <-].
Qed.

Lemma drain_grown h0 g0 E prof maxN nComp fuel : ∀ c c',
  grown h0 g0 (cl_heap c) (cl_graph c) →
  drain E fuel prof maxN nComp c = Some c' →
  grown h0 g0 (cl_heap c') (cl_graph c').
Proof.
  induction fuel as [|k IH]; intros c c' Hg; [done|].
  rewrite drain_S. destruct (head (cl_q c)) as [[key|]|]; simpl;
    [|by intros [= <-]|done].
  destruct (cl_keepGoing c); [|by intros [= <-]].
  destruct (map_find key (cl_graph c)) as [p|] eqn:Hk; simpl; [|done].
  destruct (process E p prof maxN nComp c) as [c1|] eqn:Hp; simpl; [|done].
  assert (Hpv : (p < length (cl_heap c))%nat).
  { eapply graph_wf_ok; [apply Hg|]. by apply map_find_Some_elem. }
  pose proof (process_grown _ _ _ _ _ _ _ _ _ Hg Hpv Hp) as Hg1.
  by apply IH.
Qed.

Lemma generation_grown h0 g0 E prof maxN nComp c c' :
  grown h0 g0 (cl_heap c) (cl_graph c) →
  generation E prof maxN nComp c = Some c' →
  grown h0 g0 (cl_heap c') (cl_graph c').
Proof.
  intros Hg. unfold generation.
  destruct (drain _ _ _ _ _ _) as [c1|] eqn:Hd; simpl; [|done].
  apply drain_grown with (h0 := h0) (g0 := g0) in Hd; [|done].
  destruct (head (cl_q c1)); simpl; [|done]. by intros [= <-].
Qed.

Lemma explore_grown h0 g0 E prof maxN nComp levels : ∀ c c',
  grown h0 g0 (cl_heap c) (cl_graph c) →
  explore E levels prof maxN nComp c = Some c' →
  grown h0 g0 (cl_heap c') (cl_graph c').
Proof.
  induction levels as [|n IH]; intros c c' Hg; simpl.
  - by intros [= <-].
  - destruct (cl_keepGoing c); [|by intros [= <-]].
    destruct (generation E prof maxN nComp c) as [c1|] eqn:Hgen; simpl; [|done].
    apply IH. by eapply generation_grown.
Qed.

(** X16. Exploring only grows a graph. The loop of generations of [pachner]
    over a well-formed graph always returns, and whatever the engine
    answers: every entry of the graph is still there and points at the same
    node, no signature of a node has changed, two nodes that were in one
    class still are, and the graph and the arena are well formed again. *)
Theorem exploration_only_grows (E : Engine) (prof : Profile) (maxN : Z)
    (nComp : smap Z) (levels : nat) (c : caller) (cur : list string) :
  shaped (cl_heap c) → graph_wf (cl_heap c) (cl_graph c) →
  cl_q c = Some <$> cur →
  (∀ k, k ∈ cur → is_Some (map_find k (cl_graph c))) →
  ∃ c', explore E levels prof maxN nComp c = Some c'
    ∧ shaped (cl_heap c') ∧ graph_wf (cl_heap c') (cl_graph c')
    ∧ (∀ k a, map_find k (cl_graph c) = Some a →
              map_find k (cl_graph c') = Some a)
    ∧ (∀ x, (x < length (cl_heap c))%nat →
            sig <$> cl_heap c' !! x = sig <$> cl_heap c !! x)
    ∧ (∀ x y, same (cl_heap c) x y → same (cl_heap c') x y).
Proof.
  intros Hsh Hwf Hq Hcur.
  destruct (explore_total E prof maxN nComp levels c cur) as (c' & Hex & _ & _).
  { split; [apply Hsh|by apply graph_wf_ok]. }
  { done. }
  pose proof (explore_grown _ _ _ _ _ _ _ _ _ (grown_refl _ _ Hsh Hwf) Hex)
    as [Hsh' Hwf' Hlen Hsig Hfr Hkept Hsame].
  exists c'. split_and!; try done.
  intros k a Hka. apply key_sorted_find; [apply Hwf'|].
  by apply Hkept, map_find_Some_elem.
Qed.

Lemma shaped_bA : shaped heap_bA.
Proof.
  replace heap_bA with (new_Data [] "bA").2 by done.
  apply shaped_new, shaped_nil.
Qed.

Lemma graph_wf_bA : graph_wf heap_bA graph_bA.
Proof.
  split; [split; [|done]; by intros k ?%elem_of_nil|].
  intros k a Hka. in_list Hka ltac:(by simplify_eq).
Qed.

Lemma exploration_only_grows_witness :
  ∃ c', explore moving_engine 2 (mkProfile "#") 1 [("#", 1)]
          (mkCaller heap_bA graph_bA [Some "bA"] true []) = Some c'
    ∧ shaped (cl_heap c') ∧ graph_wf (cl_heap c') (cl_graph c')
    ∧ (∀ k a, map_find k graph_bA = Some a → map_find k (cl_graph c') = Some a)
    ∧ (∀ x, (x < length heap_bA)%nat →
            sig <$> cl_heap c' !! x = sig <$> heap_bA !! x)
    ∧ (∀ x y, same heap_bA x y → same (cl_heap c') x y).
Proof.
  apply (exploration_only_grows moving_engine (mkProfile "#") 1 [("#", 1)] 2
           (mkCaller heap_bA graph_bA [Some "bA"] true []) ["bA"]).
  - apply shaped_bA.
  - apply graph_wf_bA.
  - reflexivity.
  - intros k Hk. in_list Hk ltac:(subst; by eexists).
Defined.

(** * The graphs at the end of a job *)

Lemma root_keeps h n r h' :
  shaped h → (n < length h)%nat → root h n = Some (r, h') →
  shaped h' ∧ same_fields h h' ∧ (∀ x s, reach h' x s ↔ reach h x s)
  ∧ reach h n r.
Proof.
  intros Hsh Hn Hr. split; [exact (shaped_root h n r h' Hsh Hn Hr)|].
  destruct (root_spec h n (sh_forest _ Hsh) Hn)
    as (r1 & h1 & Hr1 & Hreach & _ & Hsf & Hre).
  rewrite Hr in Hr1. assert (r1 = r ∧ h1 = h') as [-> ->] by (split; congruence).
  done.
Qed.

Lemma pachner_comps_keeps maxN entries : ∀ h comps h' comps',
  shaped h → graph_ok h entries →
  pachner_comps maxN entries h comps = Some (h', comps') →
  shaped h' ∧ same_fields h h' ∧ (∀ x s, reach h' x s ↔ reach h x s).
Proof.
  induction entries as [|[s a] entries IH]; intros h comps h' comps' Hsh Hg.
  - simpl. intros [= <- _]. split_and!; [done|apply same_fields_refl|done].
  - assert (Ha : (a < length h)%nat) by (apply (Hg s a); left).
    assert (Hg' : ∀ h1, same_fields h h1 → graph_ok h1 entries).
    { intros h1 Hsf k x Hkx. rewrite (same_fields_length _ _ Hsf).
      apply (Hg k x). by right. }
    cbn [pachner_comps].
    destruct (char0 s >? letter_a + maxN).
    { apply IH; [done|]. apply Hg', same_fields_refl. }
    destruct (root h a) as [[r h1]|] eqn:Hr1; simpl; [|done].
    destruct (root_keeps _ _ _ _ Hsh Ha Hr1) as (Hsh1 & Hsf1 & Hre1 & _).
    destruct (h1 !! r) as [dr|]; simpl; [|done].
    destruct (smallest dr =? maxN).
    + destruct (root h1 a) as [[r' h2]|] eqn:Hr2; simpl; [|done].
      assert (Ha1 : (a < length h1)%nat) by by rewrite (same_fields_length _ _ Hsf1).
      destruct (root_keeps _ _ _ _ Hsh1 Ha1 Hr2) as (Hsh2 & Hsf2 & Hre2 & _).
      destruct (h2 !! r') as [dr'|]; simpl; [|done].
      intros Hrest.
      destruct (IH _ _ _ _ Hsh2 (Hg' _ (same_fields_trans _ _ _ Hsf1 Hsf2)) Hrest)
        as (Hsh' & Hsf' & Hre').
      split_and!; [done|by repeat (eapply same_fields_trans; [eassumption|])|].
      intros x y. by rewrite Hre', Hre2, Hre1.
    + intros Hrest.
      destruct (IH _ _ _ _ Hsh1 (Hg' _ Hsf1) Hrest) as (Hsh' & Hsf' & Hre').
      split_and!; [done|by eapply same_fields_trans|].
      intros x y. by rewrite Hre', Hre1.
Qed.

Lemma grown_refresh h0 g0 h g h' :
  grown h0 g0 h g → shaped h' → same_fields h h' →
  (∀ x s, reach h' x s ↔ reach h x s) → grown h0 g0 h' g.
Proof.
  intros [Hsh [Hks Hsig] Hlen Hold Hfr Hkept Hsame] Hsh' Hsf Hre.
  pose proof (λ x, same_fields_sig h h' x Hsf) as Hs.
  split; auto.
  - split; [done|]. intros k a Hka. rewrite Hs. auto.
  - rewrite (same_fields_length _ _ Hsf). lia.
  - intros x Hx. rewrite Hs. auto.
  - intros x y Hxy. apply (same_ext _ _ Hre). auto.
Qed.

Lemma pachner_graph_wf E levels oname maxN waiting prof j j' :
  shaped (jb_heap j) → graphs_wf (jb_heap j) (jb_graphs j) →
  pachner_graph E levels oname maxN waiting prof j = Some j' →
  shaped (jb_heap j') ∧ graphs_wf (jb_heap j') (jb_graphs j').
Proof.
  intros Hsh Hgs. unfold pachner_graph.
  destruct (map_find prof (jb_graphs j)) as [g|] eqn:Hg; simpl; [|done].
  assert (Hwf : graph_wf (jb_heap j) g).
  { apply (proj1 (proj2 Hgs) prof). by apply map_find_Some_elem. }
  destruct (explore _ _ _ _ _ _) as [c|] eqn:Hex; simpl; [|done].
  apply (explore_grown (jb_heap j) g) in Hex; [|by apply grown_refl].
  unfold dump_pachner.
  destruct (pachner_comps maxN (cl_graph c) (cl_heap c) [])
    as [[h' comps]|] eqn:Hc; simpl; [|done].
  intros [= <-]. simpl.
  destruct (pachner_comps_keeps _ _ _ _ _ _ (gr_shaped _ _ _ _ Hex)
              (graph_wf_ok _ _ (gr_wf _ _ _ _ Hex)) Hc) as (Hsh' & Hsf & Hre).
  split; [done|].
  apply (graphs_wf_set (jb_heap j)); [done|]. rewrite Hg. simpl.
  by eapply grown_refresh.
Qed.

Lemma pachner_graphs_wf E levels oname maxN waiting profs : ∀ j j',
  shaped (jb_heap j) → graphs_wf (jb_heap j) (jb_graphs j) →
  pachner_graphs E levels oname maxN waiting profs j = Some j' →
  shaped (jb_heap j') ∧ graphs_wf (jb_heap j') (jb_graphs j').
Proof.
  induction profs as [|prof profs IH]; intros j j' Hsh Hgs; simpl.
  - by intros [= <-].
  - destruct (pachner_graph _ _ _ _ _ _ _) as [j1|] eqn:H1; simpl; [|done].
    destruct (pachner_graph_wf _ _ _ _ _ _ _ _ Hsh Hgs H1) as [Hsh1 Hgs1].
    by apply IH.
Qed.

Lemma graphs_wf_free h gs :
  graphs_wf h gs →
  NoDup (free_graphs gs) ∧ ∀ a, a ∈ free_graphs gs → (a < length h)%nat.
Proof.
  intros (Hks & Hwf & Hdis). unfold free_graphs. split.
  - apply NoDup_bind.
    + intros [p g] [p' g'] a Hp Hp' Ha Ha'.
      apply list_elem_of_fmap in Ha as ([k a1] & -> & Hk).
      apply list_elem_of_fmap in Ha' as ([k' a2] & Heq & Hk').
      simpl in Heq. subst a2.
      assert (p = p') as <- by by eapply (Hdis p g p' g' k k' a1).
      f_equal. by eapply key_sorted_elem_eq.
    + intros [p g] Hp. destruct (Hwf p g Hp) as [Hs Hsig].
      apply NoDup_fmap_2_strong.
      * intros [k a] [k' a'] Hk Hk' Heq. simpl in Heq. subst a'.
        f_equal. pose proof (Hsig _ _ Hk) as H1. pose proof (Hsig _ _ Hk') as H2.
        congruence.
      * eapply NoDup_fmap_1, key_sorted_NoDup, Hs.
    + eapply NoDup_fmap_1, key_sorted_NoDup, Hks.
  - intros a ([p g] & Ha & Hp)%list_elem_of_bind.
    apply list_elem_of_fmap in Ha as ([k a1] & -> & Hk).
    by eapply (graph_wf_ok h g); [apply (Hwf p)|].
Qed.

(** X17. No node is deleted twice. When the engine can parse the first token
    of every data line, the pointers that [free_graphs] hands to [delete]
    are pairwise distinct nodes of the arena, both for the graphs as [read]
    leaves them, which is what [partition] frees, and for the graphs at the
    end of [pachner], after all exploration and listing. *)
Theorem free_graphs_deletes_once (E : Engine) (infile : list string)
    (levels : Z) (oname : string) (fs : files) :
  (∀ s, s ∈ first_tokens infile → is_Some (fromIsoSig E s)) →
  ∃ r j,
    read E [] infile = Some r
    ∧ pachner E infile levels oname fs = Some j
    ∧ NoDup (free_graphs (rd_graphs r))
    ∧ (∀ a, a ∈ free_graphs (rd_graphs r) → (a < length (rd_heap r))%nat)
    ∧ NoDup (free_graphs (jb_graphs j))
    ∧ (∀ a, a ∈ free_graphs (jb_graphs j) → (a < length (jb_heap j))%nat).
Proof.
  intros Hparse.
  destruct (pachner_total E infile levels oname fs Hparse)
    as (r & j & Hr & Hj & _).
  exists r, j. split; [done|]. split; [done|].
  assert (shaped (rd_heap r) ∧ graphs_wf (rd_heap r) (rd_graphs r)) as [Hsh Hgs].
  { unfold read in Hr.
    destruct (read_lines_census E infile (mkReader (mkProfile "#") 0 [] [] [] [])
                shaped_nil (graphs_wf_nil []) (λ _, eq_refl) Hparse)
      as (r' & Hr' & Hsh & Hgs & _).
    rewrite Hr in Hr'. by simplify_eq. }
  unfold pachner in Hj. rewrite Hr in Hj. simpl in Hj.
  apply pachner_graphs_wf in Hj as [_ Hgs']; [|done..].
  destruct (graphs_wf_free _ _ Hgs). destruct (graphs_wf_free _ _ Hgs').
  done.
Qed.

Lemma free_graphs_deletes_once_witness :
  ∃ r j,
    read still_engine [] census_two_profiles = Some r
    ∧ pachner still_engine census_two_profiles 1 "out.sigs" [] = Some j
    ∧ NoDup (free_graphs (rd_graphs r))
    ∧ (∀ a, a ∈ free_graphs (rd_graphs r) → (a < length (rd_heap r))%nat)
    ∧ NoDup (free_graphs (jb_graphs j))
    ∧ (∀ a, a ∈ free_graphs (jb_graphs j) → (a < length (jb_heap j))%nat).
Proof.
  apply (free_graphs_deletes_once still_engine census_two_profiles 1 "out.sigs" []).
  intros s _. simpl. by eexists.
Defined.

(** * The listing of [dump_pachner] *)

Lemma compare_le_antisym a b :
  String.compare a b ≠ Gt → String.compare b a ≠ Gt → a = b.
Proof.
  intros H1 H2. destruct (String.compare a b) eqn:Hc; [|exfalso|done].
  - by apply compare_Eq_iff.
  - apply H2. by apply compare_Lt_Gt.
Qed.

Lemma compare_Lt_le_trans a b c :
  String.compare a b = Lt → String.compare b c ≠ Gt → String.compare a c = Lt.
Proof.
  intros H1 H2. destruct (String.compare b c) eqn:Hc; [| |done].
  - apply compare_Eq_iff in Hc. by subst.
  - by eapply compare_Lt_trans.
Qed.

Lemma compare_refl_Eq a : String.compare a a = Eq.
Proof. by apply compare_Eq_iff. Qed.

Lemma keys_multimap_insert {V : Type} (k : string) (v : V) (m : smap V) s :
  s ∈ keys (multimap_insert k v m) ↔ s = k ∨ s ∈ keys m.
Proof.
  unfold keys. rewrite !list_elem_of_fmap. split.
  - intros ([k0 v0] & -> & [[= -> ->]|Hin]%elem_of_multimap_insert); [by left|].
    right. by exists (k0, v0).
  - intros [->|([k0 v0] & -> & Hin)].
    + exists (k, v). split; [done|]. apply elem_of_multimap_insert. by left.
    + exists (k0, v0). split; [done|]. apply elem_of_multimap_insert. by right.
Qed.

Lemma key_ordered_multimap_insert {V : Type} (k : string) (v : V) (m : smap V) :
  key_ordered m → key_ordered (multimap_insert k v m).
Proof.
  induction m as [|[k' v'] m IH]; simpl.
  - intros _. split; [|done]. by intros k'' ?%elem_of_nil.
  - intros [Hle Hs].
    assert (Hrest : String.compare k k' ≠ Lt →
              key_ordered ((k', v') :: multimap_insert k v m)).
    { intros Hc. split; [|auto].
      intros k'' [->|Hin]%keys_multimap_insert; [|auto].
      rewrite String.compare_antisym. destruct (String.compare k k'); done. }
    destruct (String.compare k k') eqn:Hc; [by apply Hrest| |by apply Hrest].
    split; [|by split]. intros k''.
    change (keys ((k', v') :: m)) with (k' :: keys m). rewrite elem_of_cons.
    intros [->|Hin]; [by rewrite Hc|].
    by rewrite (compare_Lt_le_trans _ _ _ Hc (Hle _ Hin)).
Qed.

Lemma multimap_insert_perm {V : Type} (k : string) (v : V) (m : smap V) :
  multimap_insert k v m ≡ₚ (k, v) :: m.
Proof.
  induction m as [|[k' v'] m IH]; simpl; [done|].
  destruct (String.compare k k'); [|done|]; by rewrite IH, Permutation_swap.
Qed.

Lemma root_forest h n r h' :
  forest h → (n < length h)%nat → root h n = Some (r, h') →
  forest h' ∧ same_fields h h' ∧ (∀ x s, reach h' x s ↔ reach h x s)
  ∧ reach h n r.
Proof.
  intros Hf Hn Hr.
  destruct (root_spec h n Hf Hn) as (r1 & h1 & Hr1 & Hreach & Hf' & Hsf & Hre).
  rewrite Hr in Hr1. assert (r1 = r ∧ h1 = h') as [-> ->] by (split; congruence).
  done.
Qed.

(** The first loop: what is put under which root signature. *)
Lemma pachner_comps_pairs maxN h0 entries : ∀ h comps h' comps',
  forest h → same_fields h0 h → (∀ x s, reach h x s ↔ reach h0 x s) →
  graph_ok h entries →
  pachner_comps maxN entries h comps = Some (h', comps') →
  (∀ k s, (k, s) ∈ comps'
     ↔ (k, s) ∈ comps
       ∨ ∃ a r dr, (s, a) ∈ entries ∧ reach h0 a r ∧ h0 !! r = Some dr
                   ∧ sig dr = k ∧ proxy s ≤ maxN ∧ smallest dr = maxN)
  ∧ (key_ordered comps → key_ordered comps')
  ∧ ∃ l, sublist l (keys entries) ∧ comps'.*2 ≡ₚ comps.*2 ++ l.
Proof.
  induction entries as [|[s0 a0] entries IH];
    intros h comps h' comps' Hf Hsf Hre Hg.
  - simpl. intros [= _ <-]. split_and!; [|done|].
    + intros k s. split; [by left|].
      intros [?|(a & r & dr & []%elem_of_nil & _)]. done.
    + exists []. split; [done|]. by rewrite app_nil_r.
  - assert (Hg' : ∀ h1, length h1 = length h → graph_ok h1 entries).
    { intros h1 Hlen k a Hka. rewrite Hlen. eapply Hg. apply elem_of_cons. by right. }
    assert (Ha0 : (a0 < length h)%nat).
    { eapply Hg. apply elem_of_cons. by left. }
    assert (Hskip : ∀ h1,
              forest h1 → same_fields h0 h1 → (∀ x s, reach h1 x s ↔ reach h0 x s) →
              length h1 = length h →
              ¬ (proxy s0 ≤ maxN ∧ ∃ r dr, reach h0 a0 r ∧ h0 !! r = Some dr
                                           ∧ smallest dr = maxN) →
              pachner_comps maxN entries h1 comps = Some (h', comps') →
              (∀ k s, (k, s) ∈ comps'
                 ↔ (k, s) ∈ comps
                   ∨ ∃ a r dr, (s, a) ∈ (s0, a0) :: entries ∧ reach h0 a r
                       ∧ h0 !! r = Some dr ∧ sig dr = k ∧ proxy s ≤ maxN
                       ∧ smallest dr = maxN)
              ∧ (key_ordered comps → key_ordered comps')
              ∧ ∃ l, sublist l (keys ((s0, a0) :: entries))
                     ∧ comps'.*2 ≡ₚ comps.*2 ++ l).
    { intros h1 Hf1 Hsf1 Hre1 Hlen1 Hno Hrest.
      destruct (IH _ _ _ _ Hf1 Hsf1 Hre1 (Hg' _ Hlen1) Hrest)
        as (Hk & Hord & l & Hsub & Hperm).
      split_and!; [|done|].
      - intros k s. rewrite Hk. split.
        + intros [?|(a & r & dr & ? & ?)]; [by left|]. right. exists a, r, dr.
          split; [apply elem_of_cons; by right|done].
        + intros [?|(a & r & dr & [[= -> ->]|?]%elem_of_cons & ? & ? & ? & ? & ?)];
            [by left| |].
          * exfalso. apply Hno. split; [done|]. by exists r, dr.
          * right. exists a, r, dr. done.
      - exists l. split; [by apply sublist_cons|done]. }
    cbn [pachner_comps].
    destruct (Z.gtb_spec (char0 s0) (letter_a + maxN)) as [Hbig|Hsmall].
    { apply (Hskip h); try done. unfold proxy. lia. }
    destruct (root h a0) as [[r h1]|] eqn:Hr1; simpl; [|done].
    destruct (root_forest _ _ _ _ Hf Ha0 Hr1) as (Hf1 & Hsf1 & Hre1 & Hr).
    destruct (reach_is_root _ _ _ Hr) as (dr & Hdr & Hpr).
    rewrite (same_fields_root _ _ _ _ Hsf1 Hre1 Hdr Hpr). simpl.
    assert (Hsf01 : same_fields h0 h1) by by eapply same_fields_trans.
    assert (Hre01 : ∀ x s, reach h1 x s ↔ reach h0 x s).
    { intros x s. by rewrite Hre1, Hre. }
    pose proof (equiv_root_lookup _ _ _ _ Hsf Hre Hdr Hpr) as Hdr0.
    apply Hre in Hr.
    pose proof (same_fields_length _ _ Hsf1) as Hlen1.
    destruct (Z.eqb_spec (smallest dr) maxN) as [Heq|Hne].
    + assert (Ha1 : (a0 < length h1)%nat) by by rewrite Hlen1.
      destruct (root h1 a0) as [[r' h2]|] eqn:Hr2; simpl; [|done].
      destruct (root_forest _ _ _ _ Hf1 Ha1 Hr2) as (Hf2 & Hsf2 & Hre2 & Hr').
      apply Hre01 in Hr'. rewrite <-(reach_det _ _ _ _ Hr Hr').
      assert (Hdr1 : h1 !! r = Some dr) by by eapply same_fields_root.
      rewrite (same_fields_root _ _ _ _ Hsf2 Hre2 Hdr1 Hpr). simpl.
      assert (Hsf02 : same_fields h0 h2) by by eapply same_fields_trans.
      assert (Hre02 : ∀ x s, reach h2 x s ↔ reach h0 x s).
      { intros x s. by rewrite Hre2, Hre01. }
      intros Hrest.
      destruct (IH _ _ _ _ Hf2 Hsf02 Hre02
                  (Hg' _ ltac:(by rewrite (same_fields_length _ _ Hsf2))) Hrest)
        as (Hk & Hord & l & Hsub & Hperm).
      split_and!.
      * intros k s. rewrite Hk, elem_of_multimap_insert. split.
        -- intros [[[= -> ->]|?]|(a & r0 & dr0 & ? & ?)].
           ++ right. exists a0, r, dr. split; [apply elem_of_cons; by left|].
              split_and!; try done. unfold proxy. lia.
           ++ by left.
           ++ right. exists a, r0, dr0. split; [apply elem_of_cons; by right|done].
        -- intros [?|(a & r0 & dr0 & [[= -> ->]|?]%elem_of_cons & Hr0 & Hd0 & Hs0 & ?)].
           ++ left. by right.
           ++ left. left. rewrite <-(reach_det _ _ _ _ Hr Hr0) in Hd0.
              rewrite Hdr0 in Hd0. injection Hd0 as <-. by rewrite Hs0.
           ++ right. exists a, r0, dr0. done.
      * intros Ho. by apply Hord, key_ordered_multimap_insert.
      * exists (s0 :: l). split; [by apply sublist_skip|].
        rewrite Hperm, multimap_insert_perm. simpl.
        by rewrite Permutation_middle.
    + apply (Hskip h1); try done.
      intros [_ (r0 & dr0 & Hr0 & Hdr0' & Hs0)].
      rewrite <-(reach_det _ _ _ _ Hr Hr0) in Hdr0'. congruence.
Qed.

Lemma pachner_lines_concat comps : ∀ prev lines,
  concat (reverse (pachner_lines prev comps lines))
  = concat (reverse lines) ++ comps.*2.
Proof.
  induction comps as [|[k s] comps IH]; intros prev lines; simpl.
  - by rewrite app_nil_r.
  - rewrite IH.
    assert (Hnew : concat (reverse ([s] :: lines)) ++ comps.*2
                   = concat (reverse lines) ++ s :: comps.*2).
    { rewrite reverse_cons, concat_app. simpl. by rewrite <-app_assoc. }
    destruct prev as [k'|]; [|exact Hnew].
    destruct lines as [|l ls]; [exact Hnew|].
    destruct (String.eqb k' k); [|exact Hnew].
    rewrite !reverse_cons, !concat_app. simpl.
    rewrite !app_nil_r. by rewrite <-!app_assoc.
Qed.

Lemma Forall2_elem_r {A B : Type} (P : A → B → Prop) l k y :
  Forall2 P l k → y ∈ k → ∃ x, x ∈ l ∧ P x y.
Proof.
  induction 1 as [|x y' l k Hxy _ IH]; [by intros ?%elem_of_nil|].
  intros [->|Hy]%elem_of_cons.
  - exists x. split; [left|done].
  - destruct (IH Hy) as (x' & ? & ?). exists x'. split; [by right|done].
Qed.

Lemma Forall2_elem_l {A B : Type} (P : A → B → Prop) l k x :
  Forall2 P l k → x ∈ l → ∃ y, y ∈ k ∧ P x y.
Proof.
  induction 1 as [|x' y l k Hxy _ IH]; [by intros ?%elem_of_nil|].
  intros [->|Hx]%elem_of_cons.
  - exists y. split; [left|done].
  - destruct (IH Hx) as (y' & ? & ?). exists y'. split; [by right|done].
Qed.

Lemma Forall2_impl_elem {A B : Type} (P Q : A → B → Prop) l k :
  Forall2 P l k →
  (∀ x y, x ∈ l → y ∈ k → P x y → Q x y) → Forall2 Q l k.
Proof.
  induction 1 as [|x y l k Hxy _ IH]; intros Himp; constructor.
  - apply Himp; [left|left|done].
  - apply IH. intros x' y' Hx Hy. apply Himp; by right.
Qed.

(** The second loop: one line for each key, the lines of distinct keys
    distinct; [done] is the part of the multimap already written. *)
Lemma pachner_lines_groups comps : ∀ done prev lines ks,
  key_ordered comps →
  (∀ k0 k1, k0 ∈ ks → k1 ∈ keys comps → String.compare k0 k1 ≠ Gt) →
  (∀ k', prev = Some k' → ∀ k0, k0 ∈ ks → String.compare k0 k' ≠ Gt) →
  head ks = prev →
  NoDup ks →
  (∀ k s, (k, s) ∈ done → k ∈ ks) →
  Forall2 (λ k line, line ≠ [] ∧ ∀ s, s ∈ line ↔ (k, s) ∈ done) ks lines →
  ∃ ks', NoDup ks'
    ∧ Forall2 (λ k line, line ≠ [] ∧ ∀ s, s ∈ line ↔ (k, s) ∈ done ++ comps)
        ks' (pachner_lines prev comps lines).
Proof.
  induction comps as [|[k s] comps IH];
    intros done prev lines ks Hord Hle Hmax Hhead Hnd Hin Hall.
  - exists ks. rewrite app_nil_r. done.
  - destruct Hord as [Hk Hord].
    assert (Hkk : ∀ k0, k0 ∈ ks → String.compare k0 k ≠ Gt).
    { intros k0 Hk0. apply Hle; [done|]. left. }
    assert (Hle' : ∀ k0 k1, k0 ∈ ks → k1 ∈ keys comps →
                            String.compare k0 k1 ≠ Gt).
    { intros k0 k1 Hk0 Hk1. apply Hle; [done|]. by right. }
    assert (Hother : ∀ k1 line, k1 ≠ k →
              (line ≠ [] ∧ ∀ s0, s0 ∈ line ↔ (k1, s0) ∈ done) →
              line ≠ [] ∧ ∀ s0, s0 ∈ line ↔ (k1, s0) ∈ done ++ [(k, s)]).
    { intros k1 line Hne [Hl Hs]. split; [done|]. intros s0.
      rewrite Hs, elem_of_app, list_elem_of_singleton. naive_solver. }
    assert (Hfinal : ∀ lines1,
              (∃ ks', NoDup ks'
                 ∧ Forall2 (λ k0 line, line ≠ []
                     ∧ ∀ s0, s0 ∈ line ↔ (k0, s0) ∈ (done ++ [(k, s)]) ++ comps)
                     ks' (pachner_lines (Some k) comps lines1)) →
              ∃ ks', NoDup ks'
                 ∧ Forall2 (λ k0 line, line ≠ []
                     ∧ ∀ s0, s0 ∈ line ↔ (k0, s0) ∈ done ++ (k, s) :: comps)
                     ks' (pachner_lines (Some k) comps lines1)).
    { intros lines1 (ks' & ? & HF). exists ks'. split; [done|].
      eapply Forall2_impl; [exact HF|]. intros k0 line [? Hs]. split; [done|].
      intros s0. rewrite Hs, <-app_assoc. done. }
    assert (HB : k ∉ ks →
              ∃ ks', NoDup ks'
                 ∧ Forall2 (λ k0 line, line ≠ []
                     ∧ ∀ s0, s0 ∈ line ↔ (k0, s0) ∈ done ++ (k, s) :: comps)
                     ks' (pachner_lines (Some k) comps ([s] :: lines))).
    { intros Hnin. apply Hfinal.
      apply (IH (done ++ [(k, s)]) (Some k) ([s] :: lines) (k :: ks)); auto.
      - intros k0 k1 [->|Hk0]%elem_of_cons Hk1; auto.
      - intros k' [= <-] k0 [->|Hk0]%elem_of_cons; auto.
        by rewrite compare_refl_Eq.
      - by constructor.
      - intros k1 s1 [?|[= -> ->]%list_elem_of_singleton]%elem_of_app.
        + right. eauto.
        + left.
      - constructor.
        + split; [done|]. intros s0.
          rewrite list_elem_of_singleton, elem_of_app, list_elem_of_singleton.
          split; [intros ->; by right|].
          intros [Hd|[= ->]]; [|done]. by apply Hin in Hd.
        + eapply Forall2_impl_elem; [exact Hall|].
          intros k1 line Hk1 _. apply Hother. by intros ->. }
    simpl pachner_lines.
    destruct prev as [k'|].
    2:{ apply HB. destruct ks; [by intros ?%elem_of_nil|done]. }
    destruct lines as [|l ls].
    { apply HB. apply Forall2_nil_inv_r in Hall as ->. by intros ?%elem_of_nil. }
    destruct (String.eqb_spec k' k) as [->|Hne].
    + destruct ks as [|k0 kst]; [done|]. injection Hhead as ->.
      apply Forall2_cons in Hall as [[Hl Hs] Htl].
      apply NoDup_cons in Hnd as Hnd'. destruct Hnd' as [Hnin Hnd'].
      apply Hfinal.
      apply (IH (done ++ [(k, s)]) (Some k) ((l ++ [s]) :: ls) (k :: kst)); auto.
      * intros k1 s1 [?|[= -> ->]%list_elem_of_singleton]%elem_of_app.
        -- eauto.
        -- left.
      * constructor.
        -- split; [by destruct l|]. intros s0.
           rewrite !elem_of_app, !list_elem_of_singleton, Hs. naive_solver.
        -- eapply Forall2_impl_elem; [exact Htl|].
           intros k1 line Hk1 _. apply Hother. by intros ->.
    + apply HB. intros Hkin.
      assert (Hk' : k' ∈ ks) by (destruct ks; simplify_eq/=; left).
      apply Hne. apply compare_le_antisym; [by apply Hkk|by eapply Hmax].
Qed.

(** X18. One line for each root signature. [dump_pachner] on a graph without
    repeated keys returns and changes nothing but [parent] fields. For
    signatures without whitespace and a profile that is one line, the file
    it writes holds the profile as its first line and below it, when there
    is a signature to list, the lines of the listing: every listed
    signature exactly once, no empty line, on each line the graph's
    signatures of at most [maxN] tetrahedra whose root holds
    [smallest = maxN] and carries one and the same signature, the lines of
    different root signatures being different lines. When there is nothing
    to list, the file holds one empty line below the profile. *)
Theorem dump_pachner_groups_by_root (p : Profile) (graph : Graph) (maxN : Z)
    (h : heap) :
  forest h → graph_ok h graph → NoDup (keys graph) →
  Forall word (keys graph) → no_newline (str p) = true →
  ∃ h' lines text ks,
    dump_pachner p graph maxN h = Some (h', lines, text)
    ∧ head (getlines text) = Some (str p)
    ∧ written_lines text = match lines with [] => [[]] | _ => lines end
    ∧ NoDup (concat lines)
    ∧ NoDup ks
    ∧ Forall2 (λ k line,
        line ≠ []
        ∧ ∀ s, s ∈ line
            ↔ ∃ a r dr, (s, a) ∈ graph ∧ reach h a r ∧ h !! r = Some dr
                        ∧ sig dr = k ∧ proxy s ≤ maxN ∧ smallest dr = maxN)
        ks lines
    ∧ same_fields h h' ∧ ∀ x y, same h' x y ↔ same h x y.
Proof.
  intros Hf Hg Hnd Hw Hp. unfold dump_pachner.
  destruct (pachner_comps_spec maxN h graph h [] Hf (same_fields_refl h))
    as (h' & comps & Hc & _ & Hsf & Hre & _); [done..|].
  destruct (pachner_comps_pairs maxN h graph h [] h' comps Hf
              (same_fields_refl h) ltac:(done) Hg Hc)
    as (Hk & Hord & l & Hsub & Hperm).
  rewrite Hc. simpl.
  destruct (pachner_lines_groups comps [] None [] [])
    as (ks & Hndk & Hall); try done.
  { by apply Hord. }
  { by intros k0 k1 ?%elem_of_nil. }
  { constructor. }
  { by intros k s ?%elem_of_nil. }
  set (lines := reverse (pachner_lines None comps [])).
  assert (Hgroups : Forall2 (λ k line,
            line ≠ []
            ∧ ∀ s, s ∈ line
                ↔ ∃ a r dr, (s, a) ∈ graph ∧ reach h a r ∧ h !! r = Some dr
                            ∧ sig dr = k ∧ proxy s ≤ maxN ∧ smallest dr = maxN)
            (reverse ks) lines).
  { apply Forall2_reverse. eapply Forall2_impl; [exact Hall|].
    intros k line [Hne Hs]. split; [done|]. intros s. rewrite Hs. simpl.
    rewrite Hk. split; [|by right].
    intros [?%elem_of_nil|?]; done. }
  assert (Hwords : Forall (Forall word) lines).
  { apply Forall_forall. intros line Hline. apply Forall_forall. intros s Hs.
    destruct (Forall2_elem_r _ _ _ _ Hgroups Hline) as (k & _ & _ & Hiff).
    destruct (proj1 (Hiff s) Hs) as (a & _ & _ & Hsa & _).
    rewrite Forall_forall in Hw. apply Hw. unfold keys.
    apply list_elem_of_fmap. by exists (s, a). }
  destruct (written_lines_pachner_text p lines Hp Hwords) as [Hhead Hwl].
  eexists h', lines, _, (reverse ks). split; [done|]. split_and!.
  - done.
  - done.
  - unfold lines. rewrite pachner_lines_concat. simpl. rewrite Hperm. simpl.
    exact (sublist_NoDup _ _ Hnd Hsub).
  - by rewrite reverse_Permutation.
  - done.
  - done.
  - by apply same_ext.
Qed.

Lemma dump_pachner_groups_by_root_witness :
  ∃ h' lines text ks,
    dump_pachner (mkProfile "#") graph_one_class 2 heap_one_class
    = Some (h', lines, text)
    ∧ head (getlines text) = Some "#"
    ∧ written_lines text = match lines with [] => [[]] | _ => lines end
    ∧ NoDup (concat lines)
    ∧ NoDup ks
    ∧ Forall2 (λ k line,
        line ≠ []
        ∧ ∀ s, s ∈ line
            ↔ ∃ a r dr, (s, a) ∈ graph_one_class ∧ reach heap_one_class a r
                        ∧ heap_one_class !! r = Some dr
                        ∧ sig dr = k ∧ proxy s ≤ 2 ∧ smallest dr = 2)
        ks lines
    ∧ same_fields heap_one_class h' ∧ ∀ x y, same h' x y ↔ same heap_one_class x y.
Proof.
  apply (dump_pachner_groups_by_root (mkProfile "#") graph_one_class 2
           heap_one_class).
  - apply forest_one_class.
  - apply graph_ok_one_class.
  - repeat constructor; set_solver.
  - repeat constructor; done.
  - done.
Defined.

(** * The files of [dump_partition] *)

Section grouping.
Context {V : Type}.
Implicit Types (m : smap (list V)) (k : string) (v : V).

Lemma push_at_find_eq k v m :
  map_find k (push_at k v m) = Some (default [] (map_find k m) ++ [v]).
Proof. unfold push_at. by rewrite map_find_set_eq. Qed.

Lemma push_at_find_ne k k0 v m :
  k0 ≠ k → map_find k0 (push_at k v m) = map_find k0 m.
Proof. intros Hne. unfold push_at. by rewrite map_find_set_ne. Qed.

Lemma group_by_find kvs : ∀ m k,
  map_find k (group_by kvs m)
  = if decide (filter (λ e, e.1 = k) kvs = []) then map_find k m
    else Some (default [] (map_find k m) ++ (filter (λ e, e.1 = k) kvs).*2).
Proof.
  induction kvs as [|[k0 v0] kvs IH]; intros m k; simpl; [done|].
  rewrite IH, filter_cons. simpl.
  destruct (decide (k0 = k)) as [->|Hne].
  - rewrite push_at_find_eq. simpl.
    destruct (filter (λ e, e.1 = k) kvs) as [|e l]; simpl.
    + done.
    + by rewrite <-app_assoc.
  - by rewrite push_at_find_ne.
Qed.

Lemma group_by_sorted kvs : ∀ m, key_sorted m → key_sorted (group_by kvs m).
Proof.
  induction kvs as [|[k0 v0] kvs IH]; intros m Hs; simpl; [done|].
  apply IH. by apply key_sorted_set.
Qed.

Lemma sorted_find_None k k' m :
  (∀ k'', k'' ∈ keys m → String.compare k' k'' = Lt) →
  String.compare k k' = Lt → map_find k m = None.
Proof.
  intros Hlt Hc. apply map_find_None_key. intros Hin.
  specialize (Hlt _ Hin). apply compare_Lt_Gt in Hlt. congruence.
Qed.

Lemma push_at_concat k v m :
  key_sorted m → concat (push_at k v m).*2 ≡ₚ v :: concat m.*2.
Proof.
  unfold push_at. induction m as [|[k' l'] m IH]; simpl; [done|].
  intros [Hlt Hs]. destruct (String.compare k k') eqn:Hc; simpl.
  - apply compare_Eq_iff in Hc as ->. rewrite String.eqb_refl. simpl.
    rewrite <-!app_assoc. simpl. by rewrite <-Permutation_middle.
  - rewrite (compare_not_Eq k k') by congruence.
    by rewrite (sorted_find_None _ _ _ Hlt Hc).
  - rewrite (compare_not_Eq k k') by congruence.
    rewrite IH by done. by rewrite <-Permutation_middle.
Qed.

Lemma group_by_concat kvs : ∀ m,
  key_sorted m → concat (group_by kvs m).*2 ≡ₚ concat m.*2 ++ kvs.*2.
Proof.
  induction kvs as [|[k0 v0] kvs IH]; intros m Hs; simpl.
  - by rewrite app_nil_r.
  - rewrite IH by by apply key_sorted_set.
    rewrite push_at_concat by done. simpl. by rewrite <-Permutation_middle.
Qed.

End grouping.

Lemma root_sig_Some h a :
  forest h → (a < length h)%nat → is_Some (root_sig h a).
Proof.
  intros Hf Ha. unfold root_sig.
  destruct (forest_reach h a Hf Ha) as [r Hr].
  rewrite (proj2 (Data_root_reach h a r Hf) Hr). simpl.
  destruct (reach_is_root _ _ _ Hr) as (d & -> & _). by eexists.
Qed.

(** The first loop is a grouping of the node signatures by root signature. *)
Lemma partition_comps_group h entries : ∀ comps,
  forest h → graph_ok h entries →
  ∃ kvs, partition_comps h entries comps = Some (group_by kvs comps)
    ∧ Forall2 (λ e kv, root_sig h e.2 = Some kv.1 ∧ node_sig h e.2 = Some kv.2)
        entries kvs.
Proof.
  induction entries as [|[k a] entries IH]; intros comps Hf Hg.
  - exists []. split; [done|constructor].
  - assert (Ha : (a < length h)%nat) by (apply (Hg k a); left).
    destruct (lookup_lt_is_Some_2 h a Ha) as [da Hda].
    destruct (forest_reach h a Hf Ha) as [r Hr].
    pose proof (proj2 (Data_root_reach h a r Hf) Hr) as HDr.
    destruct (reach_is_root _ _ _ Hr) as (dr & Hdr & _).
    cbn [partition_comps]. rewrite HDr. simpl. rewrite Hdr. simpl.
    rewrite Hda. simpl.
    destruct (IH (push_at (sig dr) (sig da) comps) Hf) as (kvs & -> & HF).
    { intros k' a' Hin. apply (Hg k' a'). by right. }
    exists ((sig dr, sig da) :: kvs). split; [done|].
    constructor; [|done]. simpl. unfold root_sig, node_sig.
    rewrite HDr. simpl. by rewrite Hdr, Hda.
Qed.

(** The second loop is a grouping of the components by extended profile;
    [profiles.at] finds every key. *)
Lemma partition_parts_group profiles comps : ∀ parts,
  (∀ k, k ∈ keys comps → is_Some (map_find k profiles)) →
  ∃ kvs, partition_parts profiles comps parts = Some (group_by kvs parts)
    ∧ Forall2 (λ c kv, ∃ p, map_find c.1 profiles = Some p
                             ∧ kv = (str p, c.2)) comps kvs.
Proof.
  induction comps as [|[k comp] comps IH]; intros parts Hcov.
  - exists []. split; [done|constructor].
  - destruct (Hcov k) as [p Hp]; [left|].
    cbn [partition_parts]. rewrite Hp. simpl.
    destruct (IH (push_at (str p) comp parts)) as (kvs & -> & HF).
    { intros k' Hk'. apply Hcov. by right. }
    exists ((str p, comp) :: kvs). split; [done|].
    constructor; [|done]. by exists p.
Qed.

Lemma partition_files_written fname parts q : ∀ count fs,
  partition_files fname count parts q fs
  = reverse (partition_written fname count parts q) ++ fs.
Proof.
  unfold partition_written.
  induction parts as [|[header comps] parts IH]; intros count fs; [done|].
  cbn [partition_files]. rewrite IH. cbn [imap]. rewrite reverse_cons.
  rewrite <-app_assoc. simpl. rewrite Nat.add_0_r. do 2 f_equal.
  apply imap_ext. intros i e _. simpl. do 2 f_equal. lia.
Qed.

(** The lines of the first loop, one for each root signature. *)
Lemma partition_comps_lines h graph kvs1 :
  graph_wf h graph →
  Forall2 (λ e kv, root_sig h e.2 = Some kv.1 ∧ node_sig h e.2 = Some kv.2)
    graph kvs1 →
  ∀ rs comp, (rs, comp) ∈ group_by kvs1 [] →
    comp ≠ []
    ∧ ∀ s, s ∈ comp ↔ ∃ a, (s, a) ∈ graph ∧ root_sig h a = Some rs.
Proof.
  intros [Hks Hsig] HF1 rs comp Hin.
  apply (key_sorted_find _ _ _ (group_by_sorted kvs1 [] I)) in Hin.
  rewrite group_by_find in Hin. simpl in Hin.
  case_decide as Hnil; [done|]. injection Hin as <-. split.
  - destruct (filter _ kvs1); done.
  - intros s. rewrite list_elem_of_fmap. split.
    + intros ([rs' s'] & -> & [Heq Hin]%list_elem_of_filter). simpl in *. subst rs'.
      destruct (Forall2_elem_r _ _ _ _ HF1 Hin) as ([k a] & Hka & Hr & Hn).
      simpl in *. exists a. split; [|done].
      pose proof (Hsig k a Hka) as Hs. unfold node_sig in Hn.
      assert (k = s') as -> by congruence. done.
    + intros (a & Hsa & Hr).
      destruct (Forall2_elem_l _ _ _ _ HF1 Hsa) as ([rs' s'] & Hin & Hr' & Hn).
      simpl in *. exists (rs', s'). split.
      * pose proof (Hsig s a Hsa) as Hs. unfold node_sig in Hn. simpl. congruence.
      * apply list_elem_of_filter. split; [|done]. simpl. congruence.
Qed.

(** [dump_partition] returns when [profiles] holds every root signature:
    the two groupings it makes and the files it writes. *)
Lemma dump_partition_returns fname h graph profiles q fs :
  forest h → graph_wf h graph →
  (∀ k a rs, (k, a) ∈ graph → root_sig h a = Some rs →
             is_Some (map_find rs profiles)) →
  ∃ kvs1 kvs2,
    Forall2 (λ e kv, root_sig h e.2 = Some kv.1 ∧ node_sig h e.2 = Some kv.2)
      graph kvs1
    ∧ Forall2 (λ c kv, ∃ p, map_find c.1 profiles = Some p ∧ kv = (str p, c.2))
        (group_by kvs1 []) kvs2
    ∧ dump_partition fname h graph profiles q fs
      = Some (reverse (partition_written fname 0 (group_by kvs2 []) q) ++ fs).
Proof.
  intros Hf Hwf Hcov.
  destruct (partition_comps_group h graph [] Hf (graph_wf_ok _ _ Hwf))
    as (kvs1 & Hc & HF1).
  destruct (partition_parts_group profiles (group_by kvs1 []) [])
    as (kvs2 & Hp & HF2).
  { intros rs Hrs. apply list_elem_of_fmap in Hrs as ([rs' comp] & -> & Hin).
    destruct (partition_comps_lines h graph kvs1 Hwf HF1 rs' comp Hin)
      as [Hne Hs]. simpl.
    destruct comp as [|s comp]; [done|].
    destruct (proj1 (Hs s)) as (a & Hsa & Hr); [left|]. by eapply Hcov. }
  exists kvs1, kvs2. split_and!; [done..|].
  unfold dump_partition. rewrite Hc. simpl. rewrite Hp. simpl.
  by rewrite partition_files_written.
Qed.

(** The parts that [dump_partition] writes: in the key order of the
    extended profiles, each with its components. *)
Lemma dump_partition_parts (fname : string) (h : heap) (graph : Graph)
    (profiles : smap Profile) (q : list string) (fs : files) :
  forest h → graph_wf h graph →
  (∀ k a rs, (k, a) ∈ graph → root_sig h a = Some rs →
             is_Some (map_find rs profiles)) →
  ∃ parts,
    dump_partition fname h graph profiles q fs
    = Some (reverse (partition_written fname 0 parts q) ++ fs)
    ∧ key_sorted parts
    ∧ concat (concat parts.*2) ≡ₚ keys graph
    ∧ (∀ header comps, (header, comps) ∈ parts → comps ≠ [])
    ∧ ∀ header comps comp, (header, comps) ∈ parts → comp ∈ comps →
        ∃ rs p, map_find rs profiles = Some p ∧ str p = header
          ∧ comp ≠ []
          ∧ ∀ s, s ∈ comp ↔ ∃ a, (s, a) ∈ graph ∧ root_sig h a = Some rs.
Proof.
  intros Hf Hwf Hcov.
  destruct (dump_partition_returns fname h graph profiles q fs Hf Hwf Hcov)
    as (kvs1 & kvs2 & HF1 & HF2 & Hd).
  pose proof (partition_comps_lines h graph kvs1 Hwf HF1) as Hcomp.
  destruct Hwf as [Hks Hsig].
  set (comps := group_by kvs1 []) in *.
  set (parts := group_by kvs2 []) in *.
  assert (Hsp : key_sorted parts) by by apply group_by_sorted.
  exists parts. split_and!.
  - done.
  - done.
  - unfold parts. rewrite group_by_concat by done. simpl.
    assert (kvs2.*2 = comps.*2) as ->.
    { clear -HF2. induction HF2 as [|[??] ? ? ? (p & _ & ->) _ IH]; [done|].
      rewrite !fmap_cons. simpl. f_equal. exact IH. }
    unfold comps. rewrite group_by_concat by done. simpl.
    assert (kvs1.*2 = keys graph) as ->; [|done].
    clear -HF1 Hsig. unfold keys.
    induction HF1 as [|[k a] [rs s] ? ? [_ Hn] _ IH]; [done|].
    rewrite !fmap_cons. simpl in *. f_equal.
    + assert (Hka : (k, a) ∈ (k, a) :: l) by left.
      pose proof (Hsig k a Hka) as Hs. unfold node_sig in Hn. congruence.
    + apply IH. intros k' a' Hin. apply Hsig. by right.
  - intros header cs Hin.
    apply (key_sorted_find _ _ _ Hsp) in Hin.
    unfold parts in Hin. rewrite group_by_find in Hin. simpl in Hin.
    case_decide as Hnil; [done|]. injection Hin as <-.
    destruct (filter _ kvs2); done.
  - intros header cs comp Hin Hcin.
    apply (key_sorted_find _ _ _ Hsp) in Hin.
    unfold parts in Hin. rewrite group_by_find in Hin. simpl in Hin.
    case_decide as Hnil; [done|]. injection Hin as <-.
    apply list_elem_of_fmap in Hcin as ([hd c] & -> & [Heq Hin]%list_elem_of_filter).
    simpl in *. subst hd.
    destruct (Forall2_elem_r _ _ _ _ HF2 Hin) as ([rs c'] & Hrc & p & Hp' & Heq).
    simpl in *. injection Heq as -> ->.
    exists rs, p. split; [done|]. split; [done|]. by apply Hcomp.
Qed.

Lemma graph_wf_one_class : graph_wf heap_one_class graph_one_class.
Proof.
  split.
  - split; [|split; [|done]].
    + intros k Hk. in_list Hk ltac:(by subst).
    + by intros k ?%elem_of_nil.
  - intros k a Hka. in_list Hka ltac:(by simplify_eq).
Qed.

Lemma numbered_written fname count parts q :
  partition_written fname count parts q
  = numbered fname count ((λ e, partition_text e.1 e.2 q) <$> parts).
Proof. unfold partition_written, numbered. by rewrite imap_fmap. Qed.

(** X19. The files of one call of [dump_partition]. When [profiles] holds
    the root signature of every node of a well-formed graph, the call
    returns ([profiles.at] does not throw) and writes one file for each
    extended profile, numbered from [0] in the key order of the extended
    profiles, in front of the files there were. For signatures without
    whitespace and profiles that are one line, the file of an extended
    profile holds the profile as its first line, below it one line for each
    of its components and, when the queue is not empty, a last line with
    [#q] and the queue. Over all these files every signature of the graph
    is on a component line exactly once; the signatures on one line are
    those of the graph whose root carries one signature, and the line is in
    the file of the profile that [profiles] gives for that root
    signature. *)
Theorem dump_partition_files (fname : string) (h : heap) (graph : Graph)
    (profiles : smap Profile) (q : list string) (fs : files) :
  forest h → graph_wf h graph →
  (∀ k a rs, (k, a) ∈ graph → root_sig h a = Some rs →
             is_Some (map_find rs profiles)) →
  Forall word (keys graph) → Forall word q →
  (∀ rs p, map_find rs profiles = Some p → no_newline (str p) = true) →
  ∃ parts texts,
    dump_partition fname h graph profiles q fs
    = Some (reverse (numbered fname 0 texts) ++ fs)
    ∧ key_sorted parts
    ∧ Forall2 (λ part text,
        head (getlines text) = Some part.1
        ∧ written_lines text
          = part.2 ++ match q with [] => [] | _ => [("#q" : string) :: q] end)
        parts texts
    ∧ concat (concat parts.*2) ≡ₚ keys graph
    ∧ ∀ header comps comp, (header, comps) ∈ parts → comp ∈ comps →
        ∃ rs p, map_find rs profiles = Some p ∧ str p = header
          ∧ comp ≠ []
          ∧ ∀ s, s ∈ comp ↔ ∃ a, (s, a) ∈ graph ∧ root_sig h a = Some rs.
Proof.
  intros Hf Hwf Hcov Hw Hq Hnl.
  destruct (dump_partition_parts fname h graph profiles q fs Hf Hwf Hcov)
    as (parts & Hd & Hsorted & Hperm & Hne & Hcomps).
  exists parts, ((λ e, partition_text e.1 e.2 q) <$> parts).
  split; [by rewrite <-numbered_written|]. split; [done|].
  split; [|by split].
  apply Forall2_fmap_r, Forall_Forall2_diag, Forall_forall.
  intros [header comps] Hin. simpl.
  assert (Hwords : Forall (Forall word) comps).
  { apply Forall_forall. intros comp Hc. apply Forall_forall. intros s Hs.
    destruct (Hcomps header comps comp Hin Hc) as (rs & p & _ & _ & _ & Hiff).
    destruct (proj1 (Hiff s) Hs) as (a & Hsa & _).
    rewrite Forall_forall in Hw. apply Hw. unfold keys.
    apply list_elem_of_fmap. by exists (s, a). }
  destruct comps as [|comp comps]; [by destruct (Hne header [] Hin)|].
  destruct (Hcomps header (comp :: comps) comp Hin) as (rs & p & Hp & <- & _);
    [left|].
  apply written_lines_partition_text; [by eapply Hnl|done..].
Qed.

Lemma forest_heap2 : forest heap2.
Proof.
  exists (λ _, O). intros x d p Hx Hp. destruct x as [|[|x]]; simplify_eq/=.
Qed.

Lemma graph_wf_graph2 : graph_wf heap2 graph2.
Proof.
  split.
  - split; [|split; [|done]].
    + intros k Hk. in_list Hk ltac:(by subst).
    + by intros k ?%elem_of_nil.
  - intros k a Hka. in_list Hka ltac:(by simplify_eq).
Qed.

Lemma dump_partition_files_witness :
  ∃ parts texts,
    dump_partition "out_" heap2 graph2
      [("cMcabbgqs", mkProfile "#b;"); ("dLQbcccdero", mkProfile "#a;")]
      ["cA"] []
    = Some (reverse (numbered "out_" 0 texts) ++ [])
    ∧ key_sorted parts
    ∧ Forall2 (λ part text,
        head (getlines text) = Some part.1
        ∧ written_lines text = part.2 ++ [["#q"; "cA"]])
        parts texts
    ∧ concat (concat parts.*2) ≡ₚ keys graph2
    ∧ ∀ header comps comp, (header, comps) ∈ parts → comp ∈ comps →
        ∃ rs p,
          map_find rs
            [("cMcabbgqs", mkProfile "#b;"); ("dLQbcccdero", mkProfile "#a;")]
          = Some p
          ∧ str p = header
          ∧ comp ≠ []
          ∧ ∀ s, s ∈ comp
              ↔ ∃ a, (s, a) ∈ graph2 ∧ root_sig heap2 a = Some rs.
Proof.
  apply (dump_partition_files "out_" heap2 graph2
           [("cMcabbgqs", mkProfile "#b;"); ("dLQbcccdero", mkProfile "#a;")]
           ["cA"] []).
  - apply forest_heap2.
  - apply graph_wf_graph2.
  - intros k a rs Hka. in_list Hka ltac:(simplify_eq; intros [= <-]; by eexists).
  - repeat constructor; done.
  - repeat constructor; done.
  - intros rs p. simpl. repeat case_match; by intros [= <-].
Defined.

(** * [partition] *)




Lemma read_members_nonempty d ms : ∀ h g h' g',
  read_members d ms h g = Some (h', g') → g ≠ [] → g' ≠ [].
Proof.
  induction ms as [|s ms IH]; intros h g h' g'; simpl.
  - by intros [= _ <-].
  - destruct (join _ _ _) as [[res h2]|]; simpl; [|done].
    intros Hrest Hne. eapply IH; [exact Hrest|].
    destruct g as [|[k v] g]; [done|]. simpl.
    by destruct (String.compare s k).
Qed.

Lemma read_line_nonempty E st line st' :
  read_line E st line = Some st' →
  (∀ p g, (p, g) ∈ rd_graphs st → g ≠ []) →
  ∀ p g, (p, g) ∈ rd_graphs st' → g ≠ [].
Proof.
  unfold read_line. destruct (is_header line); [by intros [= <-]|].
  destruct (tokens line) as [|f ms]; [by intros [= <-]|].
  destruct (String.eqb f "#q"); [by intros [= <-]|].
  destruct (fromIsoSig E f) as [t|]; simpl; [|done].
  destruct ((intelligentSimplify E t).2); [by intros [= <-]|].
  destruct (read_members _ _ _ _) as [[h' g']|] eqn:Hm; simpl; [|done].
  intros [= <-] Hne p g. simpl.
  intros [[= -> ->]|Hin]%elem_of_map_set; [|by eapply Hne].
  eapply read_members_nonempty; [exact Hm|].
  destruct (default [] _) as [|[k v] g0]; [done|]. simpl.
  by destruct (String.compare f k).
Qed.

Lemma read_lines_nonempty E lines : ∀ st st',
  read_lines E st lines = Some st' →
  (∀ p g, (p, g) ∈ rd_graphs st → g ≠ []) →
  ∀ p g, (p, g) ∈ rd_graphs st' → g ≠ [].
Proof.
  induction lines as [|line lines IH]; intros st st'; simpl.
  - by intros [= <-].
  - destruct (read_line E st line) as [st1|] eqn:H1; simpl; [|done].
    intros Hrest Hne. eapply IH; [exact Hrest|].
    by eapply read_line_nonempty.
Qed.



(** * What an exploration reports *)

Lemma visit_cerr p prof maxN next st st' :
  shaped (ex_heap st) → (p < length (ex_heap st))%nat →
  visit p prof maxN next st = Some st' → ex_cerr st' = ex_cerr st.
Proof.
  intros Hsh Hp. unfold visit.
  destruct (map_find next (ex_graph st)) as [e|].
  - destruct (join (ex_heap st) p e) as [[joined h']|]; simpl; [|done].
    by intros [= <-].
  - destruct (join_fresh (ex_heap st) p next Hsh Hp) as (h2 & Hj & _).
    rewrite new_Data_eq in Hj |- *. simpl in Hj. rewrite Hj. simpl.
    by intros [= <-].
Qed.

Lemma visit_all_cerr h0 g0 p prof maxN nexts : ∀ st st',
  grown h0 g0 (ex_heap st) (ex_graph st) → (p < length (ex_heap st))%nat →
  visit_all p prof maxN nexts st = Some st' → ex_cerr st' = ex_cerr st.
Proof.
  induction nexts as [|next nexts IH]; intros st st' Hg Hp; simpl.
  - by intros [= <-].
  - destruct (visit p prof maxN next st) as [st1|] eqn:Hv; simpl; [|done].
    destruct (visit_grown _ _ _ _ _ _ _ _ Hg Hp Hv) as [Hg1 Hl1].
    rewrite <-(visit_cerr _ _ _ _ _ _ (gr_shaped _ _ _ _ Hg) Hp Hv).
    apply IH; [done|lia].
Qed.

Lemma process_cerr h0 g0 E p prof maxN nComp c c' :
  grown h0 g0 (cl_heap c) (cl_graph c) → (p < length (cl_heap c))%nat →
  process E p prof maxN nComp c = Some c' → cl_cerr c' = cl_cerr c.
Proof.
  intros Hg Hp. unfold process, process_body. simpl.
  destruct (cl_heap c !! p) as [d|]; simpl; [|done].
  destruct (fromIsoSig E (sig d)) as [t|]; simpl; [|by intros [= <-]].
  set (st0 := mkExplorer (cl_heap c) (cl_graph c) (cl_q c) nComp false (cl_cerr c)).
  destruct (visit_all p prof maxN (moves_32 E t) st0) as [st1|] eqn:H1; simpl;
    [|done].
  destruct (visit_all_grown h0 g0 p prof maxN _ st0 st1 Hg Hp H1) as [Hg1 Hl1].
  pose proof (visit_all_cerr h0 g0 p prof maxN _ st0 st1 Hg Hp H1) as Hc1.
  simpl in Hl1, Hc1.
  assert (Hp1 : (p < length (ex_heap st1))%nat) by lia.
  destruct (visit_all p prof maxN (moves_44 E t) st1) as [st2|] eqn:H2; simpl;
    [|done].
  destruct (visit_all_grown _ _ _ _ _ _ _ _ Hg1 Hp1 H2) as [Hg2 Hl2].
  pose proof (visit_all_cerr _ _ _ _ _ _ _ _ Hg1 Hp1 H2) as Hc2.
  assert (Hp2 : (p < length (ex_heap st2))%nat) by lia.
  destruct (visit_all p prof maxN (moves_23 E t) st2) as [st3|] eqn:H3; simpl;
    [|done].
  pose proof (visit_all_cerr _ _ _ _ _ _ _ _ Hg2 Hp2 H3) as Hc3.
  intros [= <-]. simpl. congruence.
Qed.

Lemma drain_cerr h0 g0 E prof maxN nComp fuel : ∀ c c',
  grown h0 g0 (cl_heap c) (cl_graph c) →
  drain E fuel prof maxN nComp c = Some c' → cl_cerr c' = cl_cerr c.
Proof.
  induction fuel as [|k IH]; intros c c' Hg; [done|].
  rewrite drain_S. destruct (head (cl_q c)) as [[key|]|]; simpl;
    [|by intros [= <-]|done].
  destruct (cl_keepGoing c); [|by intros [= <-]].
  destruct (map_find key (cl_graph c)) as [p|] eqn:Hk; simpl; [|done].
  destruct (process E p prof maxN nComp c) as [c1|] eqn:Hp; simpl; [|done].
  assert (Hpv : (p < length (cl_heap c))%nat).
  { eapply graph_wf_ok; [apply Hg|]. by apply map_find_Some_elem. }
  pose proof (process_grown _ _ _ _ _ _ _ _ _ Hg Hpv Hp) as Hg1.
  rewrite <-(process_cerr _ _ _ _ _ _ _ _ _ Hg Hpv Hp).
  intros Hd. by apply IH in Hd.
Qed.

Lemma explore_cerr h0 g0 E prof maxN nComp levels : ∀ c c',
  grown h0 g0 (cl_heap c) (cl_graph c) →
  explore E levels prof maxN nComp c = Some c' →
  ∃ n, (n ≤ levels)%nat
       ∧ cl_cerr c' = cl_cerr c ++ replicate n "NOTHING REMAINING!".
Proof.
  induction levels as [|k IH]; intros c c' Hg; simpl.
  - intros [= <-]. exists O. split; [done|]. by rewrite app_nil_r.
  - destruct (cl_keepGoing c).
    2:{ intros [= <-]. exists O. split; [lia|]. by rewrite app_nil_r. }
    destruct (generation E prof maxN nComp c) as [c1|] eqn:Hgen; simpl; [|done].
    pose proof (generation_grown _ _ _ _ _ _ _ _ Hg Hgen) as Hg1.
    intros Hex. destruct (IH _ _ Hg1 Hex) as (n & Hn & Hc).
    unfold generation in Hgen.
    destruct (drain _ _ _ _ _ _) as [c2|] eqn:Hd; simpl in Hgen; [|done].
    apply (drain_cerr h0 g0) in Hd; [|done]. simpl in Hd.
    destruct (head (cl_q c2)); simpl in Hgen; [|done].
    injection Hgen as <-. simpl in Hc. rewrite Hc, Hd.
    destruct (cl_q c).
    + exists (S n). split; [lia|]. by rewrite <-app_assoc.
    + exists n. split; [lia|done].
Qed.

(** X21. What an exploration reports. The loop of generations of [pachner]
    over a well-formed graph writes nothing to [std::cerr] but
    [NOTHING REMAINING!], at most once for each level; the message
    [ERROR: adjacency problem!] of [process] is never written, since the
    [join] with a node just allocated always returns [true]. *)
Theorem exploration_reports (E : Engine) (prof : Profile) (maxN : Z)
    (nComp : smap Z) (levels : nat) (c : caller) (cur : list string) :
  shaped (cl_heap c) → graph_wf (cl_heap c) (cl_graph c) →
  cl_q c = Some <$> cur →
  (∀ k, k ∈ cur → is_Some (map_find k (cl_graph c))) →
  ∃ c' n,
    explore E levels prof maxN nComp c = Some c'
    ∧ (n ≤ levels)%nat
    ∧ cl_cerr c' = cl_cerr c ++ replicate n "NOTHING REMAINING!".
Proof.
  intros Hsh Hwf Hq Hcur.
  destruct (explore_total E prof maxN nComp levels c cur) as (c' & Hex & _ & _).
  { split; [apply Hsh|by apply graph_wf_ok]. }
  { done. }
  destruct (explore_cerr _ _ _ _ _ _ _ _ _ (grown_refl _ _ Hsh Hwf) Hex)
    as (n & Hn & Hc).
  by exists c', n.
Qed.

Lemma exploration_reports_witness :
  ∃ c' n,
    explore moving_engine 2 (mkProfile "#") 1 [("#", 1)]
      (mkCaller heap_bA graph_bA [Some "bA"] true []) = Some c'
    ∧ (n ≤ 2)%nat
    ∧ cl_cerr c' = [] ++ replicate n "NOTHING REMAINING!".
Proof.
  apply (exploration_reports moving_engine (mkProfile "#") 1 [("#", 1)] 2
           (mkCaller heap_bA graph_bA [Some "bA"] true []) ["bA"]).
  - apply shaped_bA.
  - apply graph_wf_bA.
  - reflexivity.
  - intros k Hk. in_list Hk ltac:(subst; by eexists).
Defined.

(** * The file of [pachner] *)

Lemma pachner_graph_file E levels oname maxN waiting prof j j' :
  pachner_graph E levels oname maxN waiting prof j = Some j' →
  ∃ lines, jb_files j'
           = (oname, pachner_text (mkProfile prof) lines) :: jb_files j.
Proof.
  unfold pachner_graph.
  destruct (map_find prof (jb_graphs j)) as [g|]; simpl; [|done].
  destruct (explore _ _ _ _ _ _) as [c|]; simpl; [|done].
  unfold dump_pachner.
  destruct (pachner_comps _ _ _ _) as [[h' comps]|]; simpl; [|done].
  intros [= <-]. simpl. by eexists.
Qed.

Lemma pachner_graphs_files E levels oname maxN waiting profs : ∀ j j',
  pachner_graphs E levels oname maxN waiting profs j = Some j' →
  keys (jb_files j') = replicate (length profs) oname ++ keys (jb_files j)
  ∧ ∀ final, last profs = Some final →
      ∃ lines, file_at oname (jb_files j')
               = Some (pachner_text (mkProfile final) lines).
Proof.
  induction profs as [|prof profs IH]; intros j j'; simpl.
  - intros [= <-]. split; [done|]. by intros final.
  - destruct (pachner_graph _ _ _ _ _ _ _) as [j1|] eqn:H1; simpl; [|done].
    destruct (pachner_graph_file _ _ _ _ _ _ _ _ H1) as [lines Hf].
    intros Hrest. destruct (IH _ _ Hrest) as [Hkeys Hlast]. split.
    + rewrite Hkeys, Hf. simpl.
      rewrite (cons_middle oname (replicate _ _)), app_assoc.
      by rewrite <-replicate_S_end.
    + intros final Hfinal. destruct profs as [|prof' profs].
      * simpl in Hrest, Hfinal. injection Hrest as <-. injection Hfinal as <-.
        exists lines. rewrite Hf. unfold file_at. simpl.
        by rewrite String.eqb_refl.
      * apply Hlast. exact Hfinal.
Qed.

(** ** The signatures of a graph are words *)

Lemma visit_words p prof maxN next st st' :
  word next → Forall word (keys (ex_graph st)) →
  visit p prof maxN next st = Some st' → Forall word (keys (ex_graph st')).
Proof.
  intros Hn Hw. unfold visit.
  destruct (map_find next (ex_graph st)) as [e|].
  - destruct (join _ _ _) as [[joined h']|]; simpl; [|done]. by intros [= <-].
  - rewrite new_Data_eq.
    destruct (join _ _ _) as [[joined h']|]; simpl; [|done].
    intros [= <-]. simpl. apply Forall_forall. intros s.
    rewrite keys_map_insert. rewrite Forall_forall in Hw.
    intros [->|Hs]; auto.
Qed.

Lemma visit_all_words p prof maxN nexts : ∀ st st',
  Forall word nexts → Forall word (keys (ex_graph st)) →
  visit_all p prof maxN nexts st = Some st' →
  Forall word (keys (ex_graph st')).
Proof.
  induction nexts as [|next nexts IH]; intros st st' Hn Hw; simpl.
  - by intros [= <-].
  - destruct (visit p prof maxN next st) as [st1|] eqn:Hv; simpl; [|done].
    apply Forall_cons in Hn as [Hn1 Hn2].
    apply IH; [done|]. by eapply visit_words.
Qed.

Lemma process_words E p prof maxN nComp c c' :
  (∀ s t next, fromIsoSig E s = Some t → next ∈ moves E t → word next) → Forall word (keys (cl_graph c)) →
  process E p prof maxN nComp c = Some c' → Forall word (keys (cl_graph c')).
Proof.
  intros HE Hw. unfold process.
  destruct (cl_heap c !! p) as [d|] eqn:Hd.
  2:{ unfold process_body. simpl. by rewrite Hd. }
  destruct (fromIsoSig E (sig d)) as [t|] eqn:Ht.
  - rewrite (process_body_moves E p prof maxN _ _ _ _ _ _ d t Hd Ht).
    destruct (visit_all p prof maxN (moves E t) _) as [st|] eqn:Hv; simpl;
      [|done].
    intros [= <-]. simpl.
    eapply visit_all_words; [| |exact Hv]; [|done].
    apply Forall_forall. intros next Hn. by eapply HE.
  - unfold process_body. simpl. rewrite Hd. simpl. rewrite Ht. simpl.
    by intros [= <-].
Qed.

Lemma drain_words E prof maxN nComp fuel : ∀ c c',
  (∀ s t next, fromIsoSig E s = Some t → next ∈ moves E t → word next) → Forall word (keys (cl_graph c)) →
  drain E fuel prof maxN nComp c = Some c' → Forall word (keys (cl_graph c')).
Proof.
  induction fuel as [|k IH]; intros c c' HE Hw; [done|].
  rewrite drain_S. destruct (head (cl_q c)) as [[key|]|]; simpl;
    [|by intros [= <-]|done].
  destruct (cl_keepGoing c); [|by intros [= <-]].
  destruct (map_find key (cl_graph c)) as [p|]; simpl; [|done].
  destruct (process E p prof maxN nComp c) as [c1|] eqn:Hp; simpl; [|done].
  apply IH; [done|]. simpl. by eapply process_words.
Qed.

Lemma explore_words E prof maxN nComp levels : ∀ c c',
  (∀ s t next, fromIsoSig E s = Some t → next ∈ moves E t → word next) → Forall word (keys (cl_graph c)) →
  explore E levels prof maxN nComp c = Some c' →
  Forall word (keys (cl_graph c')).
Proof.
  induction levels as [|k IH]; intros c c' HE Hw; simpl.
  - by intros [= <-].
  - destruct (cl_keepGoing c); [|by intros [= <-]].
    destruct (generation E prof maxN nComp c) as [c1|] eqn:Hgen; simpl; [|done].
    apply IH; [done|]. unfold generation in Hgen.
    destruct (drain _ _ _ _ _ _) as [c2|] eqn:Hd; simpl in Hgen; [|done].
    apply drain_words in Hd; [|done..].
    destruct (head (cl_q c2)); simpl in Hgen; [|done].
    by injection Hgen as <-.
Qed.

Lemma kept_lines_words E infile : ∀ p0 p toks,
  (p, toks) ∈ kept_lines E p0 infile →
  Forall word toks ∧ (p = p0 ∨ p ∈ infile).
Proof.
  induction infile as [|line rest IH]; intros p0 p toks; simpl.
  - by intros ?%elem_of_nil.
  - destruct (is_header line) eqn:Hh.
    { intros Hin. destruct (IH _ _ _ Hin) as [Hw [->|Hp]].
      - split; [done|]. right. left.
      - split; [done|]. right. by right. }
    assert (Hrest : (p, toks) ∈ kept_lines E p0 rest →
              Forall word toks ∧ (p = p0 ∨ p ∈ line :: rest)).
    { intros Hin. destruct (IH _ _ _ Hin) as [Hw [->|Hp]].
      - split; [done|]. by left.
      - split; [done|]. right. by right. }
    destruct (data_line line) as [[s ms]|] eqn:Hd; [|done].
    destruct (simplifies E s); [done|].
    intros [[= -> ->]|Hin]%elem_of_cons; [|by apply Hrest].
    split; [|by left].
    unfold data_line in Hd. rewrite Hh in Hd.
    destruct (tokens line) as [|s' ms'] eqn:Ht; [done|].
    destruct (String.eqb s' "#q"); [done|]. injection Hd as <- <-.
    rewrite <-Ht. by apply split_ws_words.
Qed.

(** The graphs that [read] builds hold words, under profiles that are ["#"]
    or lines of the file. *)
Lemma read_words E infile r :
  (∀ s, s ∈ first_tokens infile → is_Some (fromIsoSig E s)) →
  read E [] infile = Some r →
  ∀ p g, (p, g) ∈ rd_graphs r →
    Forall word (keys g) ∧ (p = "#" ∨ p ∈ infile).
Proof.
  intros Hparse Hr p g Hpg. unfold read in Hr.
  destruct (read_lines_census E infile (mkReader (mkProfile "#") 0 [] [] [] [])
              shaped_nil (graphs_wf_nil []) (λ _, eq_refl) Hparse)
    as (r1 & Hr1 & _ & Hgs & _).
  destruct (read_lines_spec E infile _ (reader_ok_initial (mkProfile "#") 0)
              Hparse) as (r2 & Hr2 & _ & _ & Hk).
  rewrite Hr in Hr1, Hr2. injection Hr1 as <-. injection Hr2 as <-.
  pose proof (read_lines_nonempty E infile _ r Hr
                ltac:(by intros ?? ?%elem_of_nil) p g Hpg) as Hne.
  assert (Hfind : map_find p (rd_graphs r) = Some g).
  { apply key_sorted_find; [apply Hgs|done]. }
  assert (Hkeys : ∀ s, s ∈ keys g →
            ∃ toks, (p, toks) ∈ kept_lines E "#" infile ∧ s ∈ toks).
  { intros s Hs. destruct (proj1 (Hk p s)) as [[]%elem_of_nil|Hkl]; [|done].
    unfold graph_keys. by rewrite Hfind. }
  split.
  - apply Forall_forall. intros s Hs.
    destruct (Hkeys s Hs) as (toks & Hin & Hst).
    destruct (kept_lines_words E infile _ _ _ Hin) as [Hw _].
    rewrite Forall_forall in Hw. by apply Hw.
  - destruct g as [|[s a] g]; [done|].
    destruct (Hkeys s) as (toks & Hin & _); [left|].
    by destruct (kept_lines_words E infile _ _ _ Hin) as [_ ?].
Qed.

(** ** The listing that is left *)

(** What [dump_pachner] has written, in terms of the arena it leaves. *)
Lemma dump_pachner_after p graph maxN h h' lines text :
  shaped h → graph_ok h graph →
  Forall word (keys graph) → no_newline (str p) = true →
  dump_pachner p graph maxN h = Some (h', lines, text) →
  head (getlines text) = Some (str p)
  ∧ ∀ s, written text s
      ↔ ∃ a r dr, (s, a) ∈ graph ∧ reach h' a r ∧ h' !! r = Some dr
                  ∧ proxy s ≤ maxN ∧ smallest dr = maxN.
Proof.
  intros Hsh Hg Hw Hp Hd.
  destruct (dump_pachner_listed p graph maxN h (sh_forest _ Hsh) Hg)
    as (h1 & lines1 & Hd1 & Hl).
  rewrite Hd in Hd1. injection Hd1 as -> -> ->.
  assert (Hkeep : same_fields h h1 ∧ ∀ x s, reach h1 x s ↔ reach h x s).
  { unfold dump_pachner in Hd.
    destruct (pachner_comps maxN graph h []) as [[h2 comps]|] eqn:Hc;
      simpl in Hd; [|done].
    injection Hd as <- _.
    by destruct (pachner_comps_keeps _ _ _ _ _ _ Hsh Hg Hc) as (_ & ? & ?). }
  destruct Hkeep as [Hsf Hre].
  assert (Hwl : Forall (Forall word) lines1).
  { apply Forall_forall. intros line Hline. apply Forall_forall. intros s Hs.
    destruct (proj1 (Hl s)) as (a & _ & _ & Hsa & _); [by exists line|].
    rewrite Forall_forall in Hw. apply Hw. unfold keys.
    apply list_elem_of_fmap. by exists (s, a). }
  split; [by apply written_lines_pachner_text|].
  intros s. rewrite written_pachner_text, Hl by done. split.
  - intros (a & r & dr & Hsa & Hr & Hdr & Hpx & Hsm).
    destruct (same_fields_lookup _ _ _ _ Hsf Hdr) as (dr' & Hdr' & He).
    exists a, r, dr'. split_and!; [done|by apply Hre|done|done|].
    apply (f_equal smallest) in He. simpl in He. congruence.
  - intros (a & r & dr & Hsa & Hr & Hdr & Hpx & Hsm).
    destruct (same_fields_lookup _ _ _ _ (same_fields_sym _ _ Hsf) Hdr)
      as (dr' & Hdr' & He).
    exists a, r, dr'. split_and!; [done|by apply Hre|done|done|].
    apply (f_equal smallest) in He. simpl in He. congruence.
Qed.

(** One round of the loop over the graphs in [pachner]. *)
Lemma pachner_graph_last E levels oname maxN waiting prof j j' :
  shaped (jb_heap j) → graphs_wf (jb_heap j) (jb_graphs j) →
  (∀ p g, (p, g) ∈ jb_graphs j → Forall word (keys g)) →
  (∀ s t next, fromIsoSig E s = Some t → next ∈ moves E t → word next) → no_newline prof = true →
  pachner_graph E levels oname maxN waiting prof j = Some j' →
  (∀ p g, (p, g) ∈ jb_graphs j' → Forall word (keys g))
  ∧ ∃ g text,
      map_find prof (jb_graphs j') = Some g
      ∧ jb_files j' = (oname, text) :: jb_files j
      ∧ head (getlines text) = Some prof
      ∧ ∀ s, written text s
          ↔ ∃ a r dr, (s, a) ∈ g ∧ reach (jb_heap j') a r
                      ∧ jb_heap j' !! r = Some dr
                      ∧ proxy s ≤ maxN ∧ smallest dr = maxN.
Proof.
  intros Hsh Hgs Hws HE Hnl. unfold pachner_graph.
  destruct (map_find prof (jb_graphs j)) as [g0|] eqn:Hg0; simpl; [|done].
  assert (Hin0 : (prof, g0) ∈ jb_graphs j) by by apply map_find_Some_elem.
  assert (Hwf : graph_wf (jb_heap j) g0) by by apply (proj1 (proj2 Hgs) prof).
  destruct (explore _ _ _ _ _ _) as [c|] eqn:Hex; simpl; [|done].
  assert (Hgr : grown (jb_heap j) g0 (cl_heap c) (cl_graph c)).
  { eapply explore_grown; [|exact Hex]. by apply grown_refl. }
  assert (Hwc : Forall word (keys (cl_graph c))).
  { eapply explore_words; [exact HE| |exact Hex]. by apply (Hws prof). }
  destruct (dump_pachner _ _ _ _) as [[[h' lines] text]|] eqn:Hd; simpl; [|done].
  intros [= <-]. simpl.
  destruct (dump_pachner_after (mkProfile prof) (cl_graph c) maxN (cl_heap c)
              h' lines text (gr_shaped _ _ _ _ Hgr)
              (graph_wf_ok _ _ (gr_wf _ _ _ _ Hgr)) Hwc Hnl Hd)
    as [Hhead Hwr].
  split.
  - intros p g [[= -> ->]|Hpg]%elem_of_map_set; [done|]. by eapply Hws.
  - exists (cl_graph c), text. split_and!; [apply map_find_set_eq|done..].
Qed.

Lemma pachner_graphs_last E levels oname maxN waiting profs : ∀ j j',
  shaped (jb_heap j) → graphs_wf (jb_heap j) (jb_graphs j) →
  (∀ p g, (p, g) ∈ jb_graphs j → Forall word (keys g)) →
  (∀ s t next, fromIsoSig E s = Some t → next ∈ moves E t → word next) → Forall (λ p, no_newline p = true) profs →
  pachner_graphs E levels oname maxN waiting profs j = Some j' →
  ∀ final, last profs = Some final →
    ∃ g text,
      map_find final (jb_graphs j') = Some g
      ∧ file_at oname (jb_files j') = Some text
      ∧ head (getlines text) = Some final
      ∧ ∀ s, written text s
          ↔ ∃ a r dr, (s, a) ∈ g ∧ reach (jb_heap j') a r
                      ∧ jb_heap j' !! r = Some dr
                      ∧ proxy s ≤ maxN ∧ smallest dr = maxN.
Proof.
  induction profs as [|prof profs IH]; intros j j' Hsh Hgs Hws HE Hnl; simpl.
  - by intros _ final.
  - destruct (pachner_graph _ _ _ _ _ _ _) as [j1|] eqn:H1; simpl; [|done].
    apply Forall_cons in Hnl as [Hnl1 Hnl2].
    destruct (pachner_graph_wf _ _ _ _ _ _ _ _ Hsh Hgs H1) as [Hsh1 Hgs1].
    destruct (pachner_graph_last _ _ _ _ _ _ _ _ Hsh Hgs Hws HE Hnl1 H1)
      as (Hws1 & g & text & Hg & Hfiles & Hhead & Hwr).
    intros Hrest final Hfinal. destruct profs as [|prof' profs].
    + simpl in Hrest, Hfinal. injection Hrest as <-. injection Hfinal as <-.
      exists g, text. split_and!; [done| |done..].
      rewrite Hfiles. unfold file_at. simpl. by rewrite String.eqb_refl.
    + by apply (IH j1 j' Hsh1 Hgs1 Hws1 HE Hnl2 Hrest).
Qed.

(** X22. One file for all profiles. When the engine can parse the first
    token of every data line, the signatures that its moves lead to hold no
    whitespace, and no line of the input holds a newline: [pachner] writes the listing of
    every profile of the input to the same file [oname], each
    [dump_pachner] truncating it. The file is written once for each profile
    read, and at the end it holds the last profile in key order as its
    first line and below it exactly the listing of the graph of that
    profile as the exploration has left it; a signature of another profile
    is in the file only when it is listed for the last one too. *)
Theorem pachner_keeps_last_listing (E : Engine) (infile : list string)
    (levels : Z) (oname : string) (fs : files) :
  (∀ s, s ∈ first_tokens infile → is_Some (fromIsoSig E s)) →
  (∀ s t next, fromIsoSig E s = Some t → next ∈ moves E t → word next) →
  Forall (λ l, no_newline l = true) infile →
  ∃ r j,
    read E [] infile = Some r
    ∧ pachner E infile levels oname fs = Some j
    ∧ keys (jb_files j) = replicate (length (rd_graphs r)) oname ++ keys fs
    ∧ ∀ final, last (keys (rd_graphs r)) = Some final →
        ∃ g text,
          map_find final (jb_graphs j) = Some g
          ∧ file_at oname (jb_files j) = Some text
          ∧ head (getlines text) = Some final
          ∧ ∀ s, written text s
              ↔ ∃ a r' dr, (s, a) ∈ g ∧ reach (jb_heap j) a r'
                           ∧ jb_heap j !! r' = Some dr
                           ∧ proxy s ≤ rd_maxN r ∧ smallest dr = rd_maxN r.
Proof.
  intros Hparse HE Hnl.
  destruct (pachner_total E infile levels oname fs Hparse)
    as (r & j & Hr & Hj & _).
  exists r, j. split; [done|]. split; [done|].
  unfold pachner in Hj. rewrite Hr in Hj. simpl in Hj.
  pose proof Hr as Hr'. unfold read in Hr'.
  destruct (read_lines_census E infile (mkReader (mkProfile "#") 0 [] [] [] [])
              shaped_nil (graphs_wf_nil []) (λ _, eq_refl) Hparse)
    as (r1 & Hr1 & Hsh & Hgs & _).
  rewrite Hr' in Hr1. injection Hr1 as <-.
  pose proof (read_words E infile r Hparse Hr) as Hwords.
  split.
  - apply pachner_graphs_files in Hj as [Hkeys _]. simpl in Hkeys.
    unfold keys in Hkeys at 2. by rewrite length_fmap in Hkeys.
  - apply (pachner_graphs_last E levels oname (rd_maxN r) (rd_waiting r)
             (keys (rd_graphs r))
             (mkJob (rd_heap r) (rd_graphs r) (rd_nComp r) [] fs) j);
      try done.
    + intros p g Hpg. by apply (Hwords p g).
    + apply Forall_forall. intros p (pg & -> & Hin)%list_elem_of_fmap.
      destruct pg as [p g]. destruct (Hwords p g Hin) as [_ [->|Hp]]; [done|].
      rewrite Forall_forall in Hnl. by apply Hnl.
Qed.

Lemma pachner_keeps_last_listing_witness :
  ∃ r j,
    read moving_engine [] census_two_profiles = Some r
    ∧ pachner moving_engine census_two_profiles 1 "out.sigs" [] = Some j
    ∧ keys (jb_files j)
      = replicate (length (rd_graphs r)) "out.sigs" ++ keys ([] : files)
    ∧ ∀ final, last (keys (rd_graphs r)) = Some final →
        ∃ g text,
          map_find final (jb_graphs j) = Some g
          ∧ file_at "out.sigs" (jb_files j) = Some text
          ∧ head (getlines text) = Some final
          ∧ ∀ s, written text s
              ↔ ∃ a r' dr, (s, a) ∈ g ∧ reach (jb_heap j) a r'
                           ∧ jb_heap j !! r' = Some dr
                           ∧ proxy s ≤ rd_maxN r ∧ smallest dr = rd_maxN r.
Proof.
  apply (pachner_keeps_last_listing moving_engine census_two_profiles 1
           "out.sigs" []).
  - intros s _. simpl. by eexists.
  - intros s t next _. unfold moves.
    rewrite !elem_of_app, elem_of_moves_32, elem_of_moves_44, elem_of_moves_23.
    simpl. intros [(i & _ & Hc & ->)|[(i & j & _ & _ & Hc & ->)|(i & _ & Hc & ->)]].
    + destruct (String.eqb t "cA"); [done|]. by apply bool_decide_eq_true in Hc as [? ?].
    + destruct (String.eqb t "cB" && Nat.eqb j 1); [done|].
      by apply bool_decide_eq_true in Hc as [? ?].
    + destruct (String.eqb t "bA"); [done|]. by apply bool_decide_eq_true in Hc as [? ?].
  - repeat constructor.
Defined.

(** * The queue under any interleaving *)

(** Every sequence of atomic steps of the pool is the run of a schedule. *)
Lemma steps_have_schedule {task : Type} (pool pool' : ThreadPool task) :
  rtc pool_step pool pool' →
  ∃ evs acc ran, pool_run pool evs = Some (acc, ran, pool').
Proof.
  induction 1 as [pool|pool p1 pool' Hstep _ (evs & acc & ran & Hrun)].
  - by exists [], [], [].
  - destruct Hstep as [p t r p' He|p r p' Hw|p].
    + exists (ev_enqueue t :: evs). simpl. rewrite He. simpl. rewrite Hrun.
      simpl. by eexists _, _.
    + exists (ev_take :: evs). simpl. rewrite Hw. simpl. rewrite Hrun.
      simpl. by eexists _, _.
    + exists (ev_shutdown :: evs). simpl. by exists acc, ran.
Qed.

(** X23. The discipline of the task queue. Whatever submitters, workers and
    the destructor do, in any order: the tasks that were in the queue,
    followed by the tasks whose [enqueue] returned in the order of the
    calls, are the tasks that the workers took in the order they took them,
    followed by the tasks still in the queue. So tasks enter at the back and
    leave at the front, and none is reordered, duplicated or dropped. On a
    pool with [stop] set no [enqueue] returns and [stop] stays set. Every
    schedule is a sequence of atomic steps of the pool, and every such
    sequence is the run of a schedule. *)
Theorem pool_queue_discipline {task : Type} (pool pool' : ThreadPool task)
    (evs : list (pool_event task)) (acc ran : list task) :
  pool_run pool evs = Some (acc, ran, pool') →
  tasks pool ++ acc = ran ++ tasks pool'
  ∧ (stop pool = true → acc = [] ∧ stop pool' = true)
  ∧ rtc pool_step pool pool'
  ∧ ∀ pool2, rtc pool_step pool pool2 →
      ∃ evs2 acc2 ran2, pool_run pool evs2 = Some (acc2, ran2, pool2).
Proof.
  intros Hrun. split_and!; [..|apply steps_have_schedule].
  - revert pool acc ran Hrun.
    induction evs as [|ev evs IH]; intros pool acc ran; simpl.
    + intros [= <- <- <-]. by rewrite app_nil_r.
    + destruct ev as [t| |].
      * destruct (pool_run _ evs) as [[[acc0 ran0] p0]|] eqn:Hr; simpl; [|done].
        intros [= <- <- <-]. apply IH in Hr. revert Hr. unfold enqueue.
        destruct (stop pool); simpl; [done|].
        by rewrite <-app_assoc.
      * unfold worker_take.
        destruct (tasks pool) as [|t ts] eqn:Hts.
        -- destruct (stop pool); simpl; [|done].
           destruct (pool_run _ evs) as [[[acc0 ran0] p0]|] eqn:Hr; simpl;
             [|done].
           intros [= <- <- <-]. apply IH in Hr. by rewrite Hts in Hr.
        -- simpl.
           destruct (pool_run _ evs) as [[[acc0 ran0] p0]|] eqn:Hr; simpl;
             [|done].
           intros [= <- <- <-]. apply IH in Hr. simpl in Hr. simpl.
           by rewrite Hr.
      * intros Hr. by apply IH in Hr.
  - revert pool acc ran Hrun.
    induction evs as [|ev evs IH]; intros pool acc ran; simpl.
    + by intros [= <- <- <-].
    + destruct ev as [t| |].
      * destruct (pool_run _ evs) as [[[acc0 ran0] p0]|] eqn:Hr; simpl; [|done].
        intros [= <- <- <-] Hs. revert Hr. unfold enqueue. rewrite Hs. simpl.
        intros Hr. exact (IH _ _ _ Hr Hs).
      * unfold worker_take.
        destruct (tasks pool) as [|t ts] eqn:Hts.
        -- destruct (stop pool) eqn:Hst; simpl; [|done].
           destruct (pool_run _ evs) as [[[acc0 ran0] p0]|] eqn:Hr; simpl;
             [|done].
           intros [= <- <- <-] _. exact (IH _ _ _ Hr Hst).
        -- simpl.
           destruct (pool_run _ evs) as [[[acc0 ran0] p0]|] eqn:Hr; simpl;
             [|done].
           intros [= <- <- <-] Hs. exact (IH _ _ _ Hr Hs).
      * intros Hr _. exact (IH _ _ _ Hr eq_refl).
  - revert pool acc ran Hrun.
    induction evs as [|ev evs IH]; intros pool acc ran; simpl.
    + by intros [= <- <- <-].
    + destruct ev as [t| |].
      * destruct (pool_run _ evs) as [[[acc0 ran0] p0]|] eqn:Hr; simpl; [|done].
        intros [= <- <- <-]. apply IH in Hr.
        eapply rtc_l; [|exact Hr].
        by apply (step_enqueue pool t (enqueue pool t).1), surjective_pairing.
      * destruct (worker_take pool) as [[r p1]|] eqn:Hw; simpl; [|done].
        destruct (pool_run _ evs) as [[[acc0 ran0] p0]|] eqn:Hr; simpl; [|done].
        intros [= <- <- <-]. apply IH in Hr.
        eapply rtc_l; [|exact Hr]. by eapply step_take.
      * intros Hr. apply IH in Hr.
        eapply rtc_l; [|exact Hr]. apply step_shutdown.
Qed.

Lemma pool_queue_discipline_witness :
  [1; 2]%nat ++ [3]%nat = [1; 2; 3]%nat ++ tasks (mkPool ([] : list nat) true)
  ∧ (false = true → [3]%nat = [] ∧ true = true)
  ∧ rtc pool_step (mkPool [1; 2]%nat false) (mkPool [] true)
  ∧ ∀ pool2, rtc pool_step (mkPool [1; 2]%nat false) pool2 →
      ∃ evs2 acc2 ran2,
        pool_run (mkPool [1; 2]%nat false) evs2 = Some (acc2, ran2, pool2).
Proof.
  apply (pool_queue_discipline (mkPool [1; 2]%nat false) (mkPool [] true)
           [ev_enqueue 3%nat; ev_take; ev_shutdown; ev_enqueue 4%nat;
            ev_take; ev_take; ev_take]
           [3%nat] [1; 2; 3]%nat).
  reflexivity.
Defined.

(** * Files written are files read *)

(** ** Reading lines that were written *)

Lemma data_line_not_header line e : data_line line = Some e → is_header line = false.
Proof. unfold data_line. by destruct (is_header line). Qed.

Lemma data_line_tokens line f ms :
  data_line line = Some (f, ms) →
  tokens line = f :: ms ∧ String.eqb f "#q" = false.
Proof.
  unfold data_line. destruct (is_header line); [done|].
  destruct (tokens line) as [|s rest]; [done|].
  destruct (String.eqb s "#q") eqn:Hs; [done|]. intros [= <- <-]. done.
Qed.

Lemma kept_lines_written E p ls comps tail :
  Forall2 (λ l comp, ∃ f ms, comp = f :: ms ∧ kept_first E f
                             ∧ data_line l = Some (f, ms)) ls comps →
  kept_lines E p (ls ++ tail) = ((λ comp, (p, comp)) <$> comps) ++ kept_lines E p tail
  ∧ pending_lines p (ls ++ tail) = pending_lines p tail
  ∧ (∀ s, s ∈ first_tokens (ls ++ tail) →
          s ∈ first_tokens tail ∨ is_Some (fromIsoSig E s)).
Proof.
  induction 1 as [|l comp ls comps (f & ms & -> & Hf & Hd) Hrest IH].
  - split_and!; [done|done|]. intros s Hs. by left.
  - destruct IH as (IHk & IHp & IHf).
    pose proof (data_line_not_header _ _ Hd) as Hh.
    pose proof (data_line_tokens _ _ _ Hd) as [Ht Hq].
    destruct Hf as (Hw & Hc & Hparse & Hsimp).
    split_and!.
    + rewrite <-app_comm_cons. simpl. rewrite Hh, Hd, Hsimp. by rewrite IHk.
    + rewrite <-app_comm_cons. simpl. rewrite Hh, Ht, Hq. exact IHp.
    + intros s. rewrite <-app_comm_cons. unfold first_tokens. simpl.
      rewrite Hd. simpl. intros [->|Hs]%elem_of_cons; [by right|].
      by apply IHf.
Qed.

Lemma lines_under_all (p : string) (comps : list (list string)) :
  lines_under p ((λ comp, (p, comp)) <$> comps) = length comps.
Proof.
  unfold lines_under. induction comps as [|c comps IH]; [done|].
  rewrite fmap_cons, filter_cons_True by done. simpl. by rewrite IH.
Qed.

Lemma snd_all (p : string) (comps : list (list string)) :
  snd <$> ((λ comp, (p, comp)) <$> comps) = comps.
Proof. rewrite <-list_fmap_compose. by rewrite list_fmap_id. Qed.

(** [read] on a header followed by written data lines and a tail without
    data lines. *)
Lemma read_written E header ls comps tail :
  is_header header = true → Forall2 (λ l comp, ∃ f ms, comp = f :: ms ∧ kept_first E f
                             ∧ data_line l = Some (f, ms)) ls comps →
  kept_lines E header tail = [] → first_tokens tail = [] →
  ∃ r, read E [] (header :: ls ++ tail) = Some r
    ∧ sig <$> rd_heap r = concat comps
    ∧ (∀ x y, same (rd_heap r) x y ↔ same_line comps 0 x y)
    ∧ n_roots (rd_heap r) = length comps
    ∧ graphs_wf (rd_heap r) (rd_graphs r)
    ∧ count_at header (rd_nComp r) = wrap32 (Z.of_nat (length comps))
    ∧ default [] (map_find header (rd_waiting r))
      = tokens_under header (pending_lines header tail).
Proof.
  intros Hh Hw Hk Hf.
  destruct (kept_lines_written E header ls comps tail Hw) as (Hkl & Hpl & Hft).
  assert (Hparse : ∀ s, s ∈ first_tokens (header :: ls ++ tail) →
            is_Some (fromIsoSig E s)).
  { intros s. unfold first_tokens at 1. simpl. unfold data_line at 1.
    rewrite Hh. simpl. intros Hs.
    destruct (Hft s Hs) as [Ht|]; [|done].
    rewrite Hf in Ht. by apply elem_of_nil in Ht. }
  unfold read.
  destruct (read_lines_census E (header :: ls ++ tail)
              (mkReader (mkProfile "#") 0 [] [] [] [])
              shaped_nil (graphs_wf_nil []) (λ _, eq_refl) Hparse)
    as (r & Hr & _ & Hgs & _ & Hn & Hc & Hwt & Hsg).
  pose proof (read_lines_classes E (header :: ls ++ tail)
                (mkReader (mkProfile "#") 0 [] [] [] []) r
                shaped_nil (graphs_wf_nil []) (λ _, eq_refl) Hparse Hr) as Hcl.
  simpl in Hn, Hc, Hwt, Hsg, Hcl. rewrite Hh in Hn, Hc, Hwt, Hsg, Hcl.
  rewrite Hkl, Hk, app_nil_r in Hn, Hc, Hsg, Hcl. rewrite Hpl in Hwt.
  rewrite snd_all in Hcl.
  exists r. split_and!; [done| | | |done| |].
  - by rewrite Hsg, snd_all.
  - intros x y. rewrite (Hcl x y). split; [|by right].
    intros [[Hx _]%same_valid|?]; [simpl in Hx; lia|done].
  - rewrite Hn, length_fmap. done.
  - by rewrite Hc, lines_under_all.
  - rewrite Hwt. by case_decide.
Qed.

Lemma written_comp_lines E comps :
  Forall (λ comp, Forall word comp ∧ ∃ f, head comp = Some f ∧ kept_first E f)
    comps →
  Forall2 (λ l comp, ∃ f ms, comp = f :: ms ∧ kept_first E f
                             ∧ data_line l = Some (f, ms)) (comp_line <$> comps) comps.
Proof.
  induction 1 as [|comp comps (Hw & f & Hhd & Hf) Hrest IH]; [constructor|].
  rewrite fmap_cons. constructor; [|exact IH].
  destruct comp as [|f' ms]; [done|]. simpl in Hhd. simplify_eq.
  exists f, ms. split_and!; [done|done|].
  apply (data_line_comp_line E); [done|]. by inversion Hw.
Qed.

Lemma written_unwords E lines :
  Forall (λ comp, Forall word comp ∧ ∃ f, head comp = Some f ∧ kept_first E f)
    lines →
  Forall2 (λ l comp, ∃ f ms, comp = f :: ms ∧ kept_first E f
                             ∧ data_line l = Some (f, ms)) (unwords <$> lines) lines.
Proof.
  induction 1 as [|comp comps (Hw & f & Hhd & Hf) Hrest IH]; [constructor|].
  rewrite fmap_cons. constructor; [|exact IH].
  destruct comp as [|f' ms]; [done|]. simpl in Hhd. simplify_eq.
  exists f, ms. split_and!; [done|done|].
  apply (data_line_unwords E); [done|]. by inversion Hw.
Qed.

(** X24. A file of [dump_partition] is input for [read]. When the header is
    a header line without a newline, every component starts with a
    signature that [read] keeps and all signatures are words, [read] on the
    lines that [std::getline] finds in the text of the file returns; it has
    made one node for every signature written, in the order written; two
    nodes are in one class exactly when their signatures were written on
    the same component line; it has counted the component lines under the
    header, and the signatures of the pending line are what is waiting
    under the header. *)
Theorem partition_file_reads_back (E : Engine) (header : string)
    (comps : list (list string)) (q : list string) :
  is_header header = true → no_newline header = true →
  Forall (λ comp, Forall word comp ∧ ∃ f, head comp = Some f ∧ kept_first E f)
    comps →
  Forall word q →
  getlines (partition_text header comps q) = partition_lines header comps q
  ∧ ∃ r, read E [] (getlines (partition_text header comps q)) = Some r
      ∧ sig <$> rd_heap r = concat comps
      ∧ (∀ x y, same (rd_heap r) x y ↔ same_line comps 0 x y)
      ∧ graphs_wf (rd_heap r) (rd_graphs r)
      ∧ count_at header (rd_nComp r) = wrap32 (Z.of_nat (length comps))
      ∧ default [] (map_find header (rd_waiting r)) = q.
Proof.
  intros Hh Hnl Hcomps Hq.
  assert (Hwords : Forall (Forall word) comps).
  { eapply Forall_impl; [exact Hcomps|]. by intros comp [? _]. }
  pose proof (getlines_partition_text header comps q Hnl Hwords Hq) as Hlines.
  split; [done|]. rewrite Hlines. unfold partition_lines.
  pose proof (written_comp_lines E comps Hcomps) as Hw.
  destruct q as [|s q].
  - destruct (read_written E header _ comps [] Hh Hw eq_refl eq_refl)
      as (r & Hr & Hsg & Hcl & Hn & Hgs & Hc & Hwt).
    exists r. split_and!; done.
  - pose proof (tokens_pending_line (s :: q) Hq) as Ht.
    assert (Hnh : is_header (pending_line (s :: q)) = false) by done.
    assert (Hd : data_line (pending_line (s :: q)) = None).
    { unfold data_line. by rewrite Hnh, Ht. }
    assert (Hk : kept_lines E header [pending_line (s :: q)] = []).
    { cbn [kept_lines]. by rewrite Hnh, Hd. }
    assert (Hf : first_tokens [pending_line (s :: q)] = []).
    { by rewrite first_tokens_cons, Hd. }
    destruct (read_written E header _ comps [pending_line (s :: q)] Hh Hw Hk Hf)
      as (r & Hr & Hsg & Hcl & Hn & Hgs & Hc & Hwt).
    exists r. split_and!; try done.
    assert (Hp : pending_lines header [pending_line (s :: q)]
                 = [(header, s :: q)]).
    { cbn [pending_lines]. by rewrite Hnh, Ht. }
    rewrite Hwt, Hp. unfold tokens_under.
    rewrite filter_cons_True by done. simpl. by rewrite app_nil_r.
Qed.

Lemma partition_file_reads_back_witness :
  getlines (partition_text "#orbl;" [["cA"; "cB"]; ["cC"]] ["cB"])
  = partition_lines "#orbl;" [["cA"; "cB"]; ["cC"]] ["cB"]
  ∧ ∃ r, read still_engine []
           (getlines (partition_text "#orbl;" [["cA"; "cB"]; ["cC"]] ["cB"]))
         = Some r
      ∧ sig <$> rd_heap r = concat [["cA"; "cB"]; ["cC"]]
      ∧ (∀ x y, same (rd_heap r) x y
                ↔ same_line [["cA"; "cB"]; ["cC"]] 0 x y)
      ∧ graphs_wf (rd_heap r) (rd_graphs r)
      ∧ count_at "#orbl;" (rd_nComp r)
        = wrap32 (Z.of_nat (length [["cA"; "cB"]; ["cC"]]))
      ∧ default [] (map_find "#orbl;" (rd_waiting r)) = ["cB"].
Proof.
  apply (partition_file_reads_back still_engine "#orbl;"
           [["cA"; "cB"]; ["cC"]] ["cB"]); [done|done| |].
  - repeat constructor; try done; eexists; (split; [done|]);
      repeat split; try done; by eexists.
  - repeat constructor; done.
Defined.

(** X25. A listing of [dump_pachner] is input for [read]. When the profile is
    a header line without a newline, every line starts with a signature
    that [read] keeps and all signatures are words, [read] on the lines that
    [std::getline] finds in the text of the listing returns, with one node
    for every signature listed, in the order listed, two nodes in one class
    exactly when their signatures are on the same line of the listing, and
    the lines counted under the profile. A listing without lines ends in an
    empty line, which [read] skips. *)
Theorem listing_reads_back (E : Engine) (p : Profile)
    (lines : list (list string)) :
  is_header (str p) = true → no_newline (str p) = true →
  Forall (λ comp, Forall word comp ∧ ∃ f, head comp = Some f ∧ kept_first E f)
    lines →
  getlines (pachner_text p lines)
  = str p :: (match lines with [] => [""] | _ => unwords <$> lines end)
  ∧ ∃ r, read E [] (getlines (pachner_text p lines)) = Some r
      ∧ sig <$> rd_heap r = concat lines
      ∧ (∀ x y, same (rd_heap r) x y ↔ same_line lines 0 x y)
      ∧ graphs_wf (rd_heap r) (rd_graphs r)
      ∧ count_at (str p) (rd_nComp r) = wrap32 (Z.of_nat (length lines)).
Proof.
  intros Hh Hnl Hlines.
  assert (Hwords : Forall (Forall word) lines).
  { eapply Forall_impl; [exact Hlines|]. by intros comp [? _]. }
  pose proof (getlines_pachner_text p lines Hnl Hwords) as Hget.
  split; [done|]. rewrite Hget.
  destruct lines as [|l ls].
  - destruct (read_written E (str p) [] [] [""] Hh) as
      (r & Hr & Hsg & Hcl & Hn & Hgs & Hc & _); [constructor|done|done|].
    exists r. split_and!; done.
  - pose proof (written_unwords E (l :: ls) Hlines) as Hw.
    destruct (read_written E (str p) _ (l :: ls) [] Hh Hw eq_refl eq_refl)
      as (r & Hr & Hsg & Hcl & Hn & Hgs & Hc & _).
    rewrite app_nil_r in Hr.
    exists r. split_and!; done.
Qed.

Lemma listing_reads_back_witness :
  getlines (pachner_text (mkProfile "#orbl;") [["cA"; "cB"]; ["cC"]])
  = "#orbl;" :: (unwords <$> [["cA"; "cB"]; ["cC"]])
  ∧ ∃ r, read still_engine []
           (getlines (pachner_text (mkProfile "#orbl;") [["cA"; "cB"]; ["cC"]]))
         = Some r
      ∧ sig <$> rd_heap r = concat [["cA"; "cB"]; ["cC"]]
      ∧ (∀ x y, same (rd_heap r) x y
                ↔ same_line [["cA"; "cB"]; ["cC"]] 0 x y)
      ∧ graphs_wf (rd_heap r) (rd_graphs r)
      ∧ count_at "#orbl;" (rd_nComp r)
        = wrap32 (Z.of_nat (length [["cA"; "cB"]; ["cC"]])).
Proof.
  apply (listing_reads_back still_engine (mkProfile "#orbl;")
           [["cA"; "cB"]; ["cC"]]); [done|done|].
  repeat constructor; try done; eexists; (split; [done|]);
    repeat split; try done; by eexists.
Defined.

(** * The live component count *)

(** ** Counting the classes of a graph *)









(** ** The count through a call of [process] *)





(** * The early stop of the explorer *)




(** * The listing of [dump_pachner] *)

Lemma words_listed (graph : Graph) (lines : list (list string)) :
  Forall word (keys graph) →
  (∀ s, listed lines s → ∃ a, (s, a) ∈ graph) →
  Forall (Forall word) lines.
Proof.
  intros Hw Hl. apply Forall_forall. intros line Hline.
  apply Forall_forall. intros s Hs.
  destruct (Hl s) as [a Hsa]; [by exists line|].
  rewrite Forall_forall in Hw. apply Hw. unfold keys.
  apply list_elem_of_fmap. by exists (s, a).
Qed.

(** C10. [dump_pachner] returns on a forest. For signatures without
    whitespace and a profile that is one line, the file it writes starts
    with the profile, and a signature is a token of a line below it exactly
    when it is a key of the graph, its complexity proxy is at most [maxN]
    and the [smallest] at the root of its node equals [maxN]. In particular
    no signature of a class whose root holds a [smallest] below [maxN] is
    in the file. *)
Theorem dump_pachner_lists (p : Profile) (graph : Graph) (maxN : Z) (h : heap) :
  forest h → graph_ok h graph →
  Forall word (keys graph) → no_newline (str p) = true →
  ∃ h' lines text,
    dump_pachner p graph maxN h = Some (h', lines, text)
    ∧ head (getlines text) = Some (str p)
    ∧ (∀ s, written text s
         ↔ ∃ a r dr, (s, a) ∈ graph ∧ reach h a r ∧ h !! r = Some dr
                     ∧ proxy s ≤ maxN ∧ smallest dr = maxN)
    ∧ (NoDup (keys graph) →
       ∀ s a r dr, (s, a) ∈ graph → reach h a r → h !! r = Some dr →
                   smallest dr < maxN → ¬ written text s).
Proof.
  intros Hf Hg Hw Hp.
  destruct (dump_pachner_listed p graph maxN h Hf Hg) as (h' & lines & Hd & Hl).
  assert (Hwl : Forall (Forall word) lines).
  { apply (words_listed graph); [done|].
    intros s (a & _ & _ & Hsa & _)%Hl. by exists a. }
  assert (Hwr : ∀ s, written (pachner_text p lines) s
            ↔ ∃ a r dr, (s, a) ∈ graph ∧ reach h a r ∧ h !! r = Some dr
                        ∧ proxy s ≤ maxN ∧ smallest dr = maxN).
  { intros s. by rewrite written_pachner_text, Hl. }
  exists h', lines, (pachner_text p lines). split; [done|].
  split; [by apply written_lines_pachner_text|]. split; [exact Hwr|].
  intros Hnd s a r dr Hsa Hr Hdr Hlt
    (a' & r' & dr' & Hsa' & Hr' & Hdr' & _ & Heq)%Hwr.
  rewrite (NoDup_keys_elem _ _ _ _ Hnd Hsa' Hsa) in Hr'.
  rewrite (reach_det _ _ _ _ Hr' Hr) in Hdr'. simplify_eq. lia.
Qed.

Lemma words_one_class : Forall word (keys graph_one_class).
Proof. repeat constructor; done. Qed.

Lemma dump_pachner_lists_witness :
  ∃ h' lines text,
    dump_pachner (mkProfile "#") graph_one_class 2 heap_one_class
    = Some (h', lines, text)
    ∧ head (getlines text) = Some "#"
    ∧ (∀ s, written text s
         ↔ ∃ a r dr, (s, a) ∈ graph_one_class ∧ reach heap_one_class a r
                     ∧ heap_one_class !! r = Some dr
                     ∧ proxy s ≤ 2 ∧ smallest dr = 2)
    ∧ (NoDup (keys graph_one_class) →
       ∀ s a r dr, (s, a) ∈ graph_one_class → reach heap_one_class a r →
                   heap_one_class !! r = Some dr →
                   smallest dr < 2 → ¬ written text s).
Proof.
  exact (dump_pachner_lists (mkProfile "#") graph_one_class 2 heap_one_class
           forest_one_class graph_ok_one_class words_one_class eq_refl).
Defined.
